(** * Neighbor-list kernels of CustomManyParticleForce (CUDA platform) and the
      reference implementation of GayBerneForce: a shallow embedding.

    Sources embedded:
    - platforms/cuda/src/kernels/customManyParticle.cu
    - platforms/reference/src/SimTKReference/ReferenceGayBerneForce.cpp

    Conventions of the embedding.
    - A C [int] is a [Z]; where the source relies on 32- or 64-bit
      wrap-around the reduction is written out ([int_wrap], [uint_wrap],
      [u64_wrap]).  Loop counters and array indices are taken in [Z]: the
      numbers of atoms, of pairs and of threads are assumed small enough for
      no counter to wrap; [Launch.machineLoop] is the loop header with its
      wrap-around, and [Launch.machineLoop_strideLoop] the range in which
      the two agree.
    - A device array is a [list]; [rd a i] is [a[i]] and [wr a i v] is
      [a[i] = v].  A write outside the list leaves it unchanged; where a
      kernel stores without a bounds test the model records whether an
      index fell outside ([PrefixSum.iv_outOfBounds]).
    - The floating type [real] is idealised as exact rational arithmetic
      ([Q]): rounding is not modelled, and every statement over [real] says
      so.  Where the source takes square roots or inverse trigonometric
      functions the real numbers ([R]) are used instead.  Where rounding
      decides the outcome the kernels are also given in IEEE binary64
      ([Binary64], [GayBerne]).
    - The conversion of a floating value to [long long] is undefined in C++
      outside the range of the type; the model saturates, as the device
      does ([Forces.toLongLong]).
    - Threads of a work group run in any order between two barriers: a
      kernel that synchronises takes the order of its threads in each
      interval as a parameter ([PrefixSum.computeNeighborStartIndices],
      [BooleanScan.prefixSum]).
    - Compile-time macros (NUM_ATOMS, TILE_SIZE, ...) are parameters. *)

From Stdlib Require Import ZArith QArith Qround Qabs Lia Lqa List Permutation Sorted String.
From stdpp Require Import base list.
From Stdlib Require Reals Lra Floats.
From stdpp Require gmap.

Local Open Scope Z_scope.

(** ** Machine integers and arrays *)

Module Machine.

Definition int_wrap (z : Z) : Z := (z + 2^31) mod 2^32 - 2^31.
Definition uint_wrap (z : Z) : Z := z mod 2^32.
Definition u64_wrap (z : Z) : Z := z mod 2^64.

Definition INT_MAX : Z := 2^31 - 1.

(** Case analysis on every integer comparison left in the goal. *)
Ltac case_bounds :=
  repeat match goal with
         | |- context [(?a <=? ?b)] => destruct (Z.leb_spec a b)
         | |- context [(?a <? ?b)] => destruct (Z.ltb_spec a b)
         end;
  cbn [andb orb negb]; try reflexivity; try lia.

Definition rd {A} `{Inhabited A} (a : list A) (i : Z) : A := a !!! Z.to_nat i.
Definition wr {A} (a : list A) (i : Z) (v : A) : list A := <[Z.to_nat i := v]> a.

Lemma length_wr {A} (a : list A) i v : length (wr a i v) = length a.
Proof. apply length_insert. Qed.

Lemma rd_wr_eq {A} `{Inhabited A} (a : list A) i v :
  0 <= i -> (Z.to_nat i < length a)%nat -> rd (wr a i v) i = v.
Proof. intros Hi Hlen. unfold rd, wr. by apply list_lookup_total_insert_eq. Qed.

Lemma int_wrap_small v : - 2^31 <= v <= INT_MAX -> int_wrap v = v.
Proof.
  intros Hv. unfold int_wrap, INT_MAX in *. rewrite Z.mod_small; lia.
Qed.

Lemma elem_of_wr {A} (l : list A) i v p : p ∈ wr l i v -> p = v \/ p ∈ l.
Proof.
  unfold wr. generalize (Z.to_nat i) as n. induction l as [|a l IH]; intros n Hin.
  - by right.
  - destruct n as [|n]; simpl in Hin; apply elem_of_cons in Hin.
    + destruct Hin as [->|Hin]; [by left|]. right. by right.
    + destruct Hin as [->|Hin]; [right; by left|].
      destruct (IH n Hin) as [->|Hl]; [by left|]. right. by right.
Qed.

Lemma filter_none {A} (f : A -> bool) (l : list A) :
  (forall a, In a l -> f a = false) -> List.filter f l = [].
Proof.
  induction l as [|a l IH]; intros Hf; simpl; [reflexivity|].
  rewrite (Hf a) by (by left). apply IH. intros b Hb. apply Hf. by right.
Qed.

Lemma rd_wr_ne {A} `{Inhabited A} (a : list A) i j v :
  0 <= i -> 0 <= j -> i <> j -> rd (wr a i v) j = rd a j.
Proof.
  intros Hi Hj Hne. unfold rd, wr. apply list_lookup_total_insert_ne. lia.
Qed.

Lemma foldl_invariant {A B} (P : A -> Prop) (f : A -> B -> A) (l : list B) :
  (forall a b, b ∈ l -> P a -> P (f a b)) -> forall a, P a -> P (foldl f a l).
Proof.
  induction l as [|b l IH]; intros Hstep a Ha; simpl; [exact Ha|].
  apply IH.
  - intros a' b' Hb'. apply Hstep. by right.
  - apply Hstep; [by left|exact Ha].
Qed.

(** A property set up by one element of the fold and kept by the others. *)
Lemma foldl_establish {A B} (P Q : A -> Prop) (f : A -> B -> A) (l : list B) (b0 : B) :
  b0 ∈ l ->
  (forall a b, b ∈ l -> P a -> P (f a b)) ->
  (forall a, P a -> Q (f a b0)) ->
  (forall a b, b ∈ l -> P a -> Q a -> Q (f a b)) ->
  forall a, P a -> Q (foldl f a l).
Proof.
  intros Hin HP Hset Hkeep a Ha.
  apply list_elem_of_split in Hin. destruct Hin as (l1 & l2 & ->).
  rewrite foldl_app. simpl.
  assert (P (foldl f a l1)) as H1.
  { apply foldl_invariant; [|exact Ha].
    intros a' b' Hb'. apply HP. apply elem_of_app. by left. }
  assert (b0 ∈ l1 ++ b0 :: l2) as Hb0 by (apply elem_of_app; right; by left).
  cut (P (foldl f (f (foldl f a l1) b0) l2) /\ Q (foldl f (f (foldl f a l1) b0) l2));
    [tauto|].
  apply (foldl_invariant (fun s => P s /\ Q s)).
  - intros a' b' Hb' [HPa HQa].
    assert (b' ∈ l1 ++ b0 :: l2) by (apply elem_of_app; right; by right).
    split; [by apply HP|by apply Hkeep].
  - split; [by apply HP|by apply Hset].
Qed.

(** A property set up by the single occurrence of one element: before it the
    others keep [R], after it they keep [Q]. *)
Lemma foldl_establish_once {A B} (P R Q : A -> Prop) (f : A -> B -> A) (l : list B) (b0 : B) :
  NoDup l -> b0 ∈ l ->
  (forall a b, b ∈ l -> P a -> P (f a b)) ->
  (forall a b, b ∈ l -> b <> b0 -> P a -> R a -> R (f a b)) ->
  (forall a, P a -> R a -> Q (f a b0)) ->
  (forall a b, b ∈ l -> b <> b0 -> P a -> Q a -> Q (f a b)) ->
  forall a, P a -> R a -> Q (foldl f a l).
Proof.
  intros Hnd Hin HP HR Hset HQ a Ha HRa.
  apply list_elem_of_split in Hin. destruct Hin as (l1 & l2 & ->).
  apply NoDup_app in Hnd. destruct Hnd as (_ & Hdisj & Hnd2).
  apply NoDup_cons in Hnd2. destruct Hnd2 as [Hnot2 _].
  assert (forall b, b ∈ l1 -> b <> b0) as Hne1.
  { intros b Hb ->. apply (Hdisj b0 Hb). by left. }
  assert (forall b, b ∈ l2 -> b <> b0) as Hne2 by (intros b Hb ->; contradiction).
  rewrite foldl_app. cbn [foldl].
  assert (P (foldl f a l1) /\ R (foldl f a l1)) as [H1 H1R].
  { apply (foldl_invariant (fun s => P s /\ R s)); [|by split].
    intros a' b Hb [HPa HRa'].
    assert (b ∈ l1 ++ b0 :: l2) by (apply elem_of_app; by left).
    split; [by apply HP|apply HR; auto]. }
  assert (b0 ∈ l1 ++ b0 :: l2) as Hb0 by (apply elem_of_app; right; by left).
  cut (P (foldl f (f (foldl f a l1) b0) l2) /\ Q (foldl f (f (foldl f a l1) b0) l2));
    [tauto|].
  apply (foldl_invariant (fun s => P s /\ Q s)).
  - intros a' b Hb [HPa HQa].
    assert (b ∈ l1 ++ b0 :: l2) by (apply elem_of_app; right; by right).
    split; [by apply HP|apply HQ; auto].
  - split; [by apply HP|by apply Hset].
Qed.

End Machine.
Import Machine.

(** ** isInteractionExcluded (customManyParticle.cu, lines 64-75) *)

Module Exclusions.

(** The loop [for (int i = last-1; i >= first; i--)]: [n] is the number of
    iterations still to run, [i] the current index. *)
Fixpoint scanExclusions (exclusions : list Z) (atom1 atom2 : Z) (i : Z) (n : nat) : bool :=
  match n with
  | O => false
  | S n' =>
      let excluded := rd exclusions i in
      if excluded =? atom2 then true
      else if excluded <=? atom1 then false
      else scanExclusions exclusions atom1 atom2 (i - 1) n'
  end.

Definition isInteractionExcluded (atom1 atom2 : Z) (exclusions exclusionStartIndex : list Z) : bool :=
  let first := rd exclusionStartIndex atom1 in
  let last := rd exclusionStartIndex (atom1 + 1) in
  scanExclusions exclusions atom1 atom2 (last - 1) (Z.to_nat (last - first)).

(** The segment of [atom1] in the compressed-row storage. *)
Definition inSegment (atom1 atom2 : Z) (exclusions exclusionStartIndex : list Z) : Prop :=
  exists i, rd exclusionStartIndex atom1 <= i < rd exclusionStartIndex (atom1 + 1)
            /\ rd exclusions i = atom2.

Definition segmentSorted (atom1 : Z) (exclusions exclusionStartIndex : list Z) : Prop :=
  forall i j, rd exclusionStartIndex atom1 <= i -> i <= j ->
              j < rd exclusionStartIndex (atom1 + 1) ->
              rd exclusions i <= rd exclusions j.

Lemma scanExclusions_spec exclusions atom1 atom2 n : forall i,
  atom1 < atom2 ->
  (forall a b, i - Z.of_nat n < a -> a <= b -> b <= i ->
               rd exclusions a <= rd exclusions b) ->
  scanExclusions exclusions atom1 atom2 i n = true <->
  exists k, i - Z.of_nat n < k <= i /\ rd exclusions k = atom2.
Proof.
  induction n as [|n IH]; intros i Hlt Hs; simpl.
  - split; [discriminate|]. intros (k & Hk & _). lia.
  - destruct (Z.eqb_spec (rd exclusions i) atom2) as [He|Hne].
    + split; [|reflexivity]. intros _. exists i. split; [lia|exact He].
    + destruct (Z.leb_spec (rd exclusions i) atom1) as [Hle|Hgt].
      * split; [discriminate|]. intros (k & Hk & Hv).
        assert (rd exclusions k <= rd exclusions i) by (apply Hs; lia). lia.
      * rewrite IH; [|exact Hlt|intros a b Ha Hab Hb; apply Hs; lia].
        split; intros (k & Hk & Hv); exists k; (split; [|exact Hv]).
        -- lia.
        -- assert (k <> i) by congruence. lia.
Qed.

(** A checker for the sortedness of a segment: neighbouring entries ascend. *)
Definition segmentSortedb (atom1 : Z) (exclusions exclusionStartIndex : list Z) : bool :=
  let first := rd exclusionStartIndex atom1 in
  let last := rd exclusionStartIndex (atom1 + 1) in
  forallb (fun k => rd exclusions k <=? rd exclusions (k + 1)) (seqZ first (last - first - 1)).

Lemma segmentSortedb_sound atom1 exclusions exclusionStartIndex :
  segmentSortedb atom1 exclusions exclusionStartIndex = true ->
  segmentSorted atom1 exclusions exclusionStartIndex.
Proof.
  unfold segmentSortedb, segmentSorted. intros Hb.
  set (first := rd exclusionStartIndex atom1) in *.
  set (last := rd exclusionStartIndex (atom1 + 1)) in *.
  rewrite forallb_forall in Hb.
  assert (forall n : nat, forall i, first <= i -> i + Z.of_nat n < last ->
            rd exclusions i <= rd exclusions (i + Z.of_nat n)) as Hn.
  { induction n as [|n IH]; intros i Hi Hj.
    - rewrite Z.add_0_r. lia.
    - transitivity (rd exclusions (i + Z.of_nat n)); [apply IH; lia|].
      replace (i + Z.of_nat (S n)) with (i + Z.of_nat n + 1) by lia.
      apply Z.leb_le, Hb, list_elem_of_In, elem_of_seqZ. lia. }
  intros i j Hi Hij Hj. replace j with (i + Z.of_nat (Z.to_nat (j - i))) by lia.
  apply Hn; lia.
Qed.

(** The same statement with the segment as a list. *)
Lemma isInteractionExcluded_existsb atom1 atom2 exclusions exclusionStartIndex :
  segmentSorted atom1 exclusions exclusionStartIndex ->
  atom1 < atom2 ->
  isInteractionExcluded atom1 atom2 exclusions exclusionStartIndex =
  existsb (Z.eqb atom2)
    (rd exclusions <$> seqZ (rd exclusionStartIndex atom1)
                           (rd exclusionStartIndex (atom1 + 1) - rd exclusionStartIndex atom1)).
Proof.
  intros Hs Hlt. apply Bool.eq_iff_eq_true. unfold isInteractionExcluded.
  set (first := rd exclusionStartIndex atom1) in *.
  set (last := rd exclusionStartIndex (atom1 + 1)) in *.
  rewrite scanExclusions_spec;
    [|exact Hlt|intros a b Ha Hab Hb; apply Hs; fold first; fold last; lia].
  rewrite existsb_exists. split.
  - intros (i & Hi & Hv). exists atom2. split; [|apply Z.eqb_refl].
    apply list_elem_of_In, list_elem_of_fmap. exists i. split; [by rewrite Hv|].
    apply elem_of_seqZ. lia.
  - intros (v & Hin & Hv). apply Z.eqb_eq in Hv. subst v.
    apply list_elem_of_In, list_elem_of_fmap in Hin. destruct Hin as (i & Hv & Hi).
    apply elem_of_seqZ in Hi. exists i. split; [lia|by rewrite Hv].
Qed.

(** C6. With atom1's exclusion segment sorted ascending and atom2 > atom1,
    isInteractionExcluded(atom1, atom2) is true exactly when atom2 occurs in
    the segment: the early exit on a stored index at or below atom1 never skips
    a match. *)
Theorem isInteractionExcluded_iff_member atom1 atom2 exclusions exclusionStartIndex :
  0 <= atom1 -> 0 <= rd exclusionStartIndex atom1 ->
  segmentSorted atom1 exclusions exclusionStartIndex ->
  atom1 < atom2 ->
  isInteractionExcluded atom1 atom2 exclusions exclusionStartIndex = true <->
  inSegment atom1 atom2 exclusions exclusionStartIndex.
Proof.
  intros _ _ Hs Hlt. unfold isInteractionExcluded, inSegment.
  set (first := rd exclusionStartIndex atom1) in *.
  set (last := rd exclusionStartIndex (atom1 + 1)) in *.
  rewrite scanExclusions_spec.
  - split; intros (k & Hk & Hv); exists k; (split; [lia|exact Hv]).
  - exact Hlt.
  - intros a b Ha Hab Hb. apply Hs; fold first; fold last; lia.
Qed.

(** Three atoms, every pair excluded, stored row by row. *)
Definition demoExclusions : list Z := [1; 2; 0; 2; 0; 1].
Definition demoExclusionStartIndex : list Z := [0; 2; 4; 6].

Lemma isInteractionExcluded_iff_member_witness :
  0 <= rd demoExclusionStartIndex 0 /\
  segmentSorted 0 demoExclusions demoExclusionStartIndex /\
  0 < 2 /\
  (isInteractionExcluded 0 2 demoExclusions demoExclusionStartIndex = true <->
   inSegment 0 2 demoExclusions demoExclusionStartIndex).
Proof.
  assert (segmentSorted 0 demoExclusions demoExclusionStartIndex) as Hs
    by (apply segmentSortedb_sound; reflexivity).
  split; [by vm_compute|]. split; [exact Hs|]. split; [lia|].
  apply (isInteractionExcluded_iff_member 0 2 demoExclusions demoExclusionStartIndex);
    [lia|by vm_compute|exact Hs|lia].
Defined.

(** *** What the scan returns without any assumption on the segment *)

Lemma scanExclusions_first_hit exclusions atom1 atom2 n : forall i,
  scanExclusions exclusions atom1 atom2 i n = true <->
  exists k, i - Z.of_nat n < k <= i /\ rd exclusions k = atom2 /\
            forall j, k < j <= i -> atom1 < rd exclusions j.
Proof.
  induction n as [|n IH]; intros i.
  - simpl. split; [discriminate|]. intros (k & Hk & _). lia.
  - cbn [scanExclusions].
    destruct (Z.eqb_spec (rd exclusions i) atom2) as [Heq|Hne].
    + split; [intros _|reflexivity]. exists i. split; [lia|]. split; [exact Heq|]. intros j Hj. lia.
    + destruct (Z.leb_spec (rd exclusions i) atom1) as [Hle|Hgt].
      * split; [discriminate|]. intros (k & Hk & Hv & Habove).
        destruct (Z.eq_dec k i) as [->|Hki]; [contradiction|].
        specialize (Habove i ltac:(lia)). lia.
      * rewrite IH. split.
        -- intros (k & Hk & Hv & Habove). exists k. split; [lia|]. split; [exact Hv|].
           intros j Hj. destruct (Z.eq_dec j i) as [->|Hji]; [exact Hgt|]. apply Habove. lia.
        -- intros (k & Hk & Hv & Habove).
           destruct (Z.eq_dec k i) as [->|Hki]; [contradiction|].
           exists k. split; [lia|]. split; [exact Hv|]. intros j Hj. apply Habove. lia.
Qed.

(** X1.  For any exclusion arrays, sorted or not, and any two atoms in either
    order, isInteractionExcluded returns true exactly when atom2 is stored in
    atom1's segment with only entries greater than atom1 above it: the scan
    from the top stops at the first entry that is atom2 or is at most atom1.
    So true always means that atom2 is in the segment, and an empty segment
    gives false. *)
Theorem isInteractionExcluded_first_hit atom1 atom2 exclusions exclusionStartIndex :
  0 <= atom1 -> 0 <= rd exclusionStartIndex atom1 ->
  (isInteractionExcluded atom1 atom2 exclusions exclusionStartIndex = true <->
   exists i, rd exclusionStartIndex atom1 <= i < rd exclusionStartIndex (atom1 + 1) /\
             rd exclusions i = atom2 /\
             forall j, i < j < rd exclusionStartIndex (atom1 + 1) -> atom1 < rd exclusions j) /\
  (isInteractionExcluded atom1 atom2 exclusions exclusionStartIndex = true ->
   inSegment atom1 atom2 exclusions exclusionStartIndex) /\
  (rd exclusionStartIndex (atom1 + 1) <= rd exclusionStartIndex atom1 ->
   isInteractionExcluded atom1 atom2 exclusions exclusionStartIndex = false).
Proof.
  intros _ _. unfold isInteractionExcluded, inSegment.
  set (first := rd exclusionStartIndex atom1).
  set (last := rd exclusionStartIndex (atom1 + 1)).
  assert (scanExclusions exclusions atom1 atom2 (last - 1) (Z.to_nat (last - first)) = true <->
          exists i, first <= i < last /\ rd exclusions i = atom2 /\
                    forall j, i < j < last -> atom1 < rd exclusions j) as Hscan.
  { rewrite scanExclusions_first_hit. split.
    - intros (k & Hk & Hv & Habove). exists k. split; [lia|]. split; [exact Hv|].
      intros j Hj. apply Habove. lia.
    - intros (k & Hk & Hv & Habove). exists k. split; [lia|]. split; [exact Hv|].
      intros j Hj. apply Habove. lia. }
  split; [exact Hscan|]. split.
  - intros Ht. apply Hscan in Ht. destruct Ht as (i & Hi & Hv & _). exists i. auto.
  - intros Hempty. replace (Z.to_nat (last - first)) with 0%nat by lia. reflexivity.
Qed.

(** Atom 1 with the segment 0, 3, 4, asked for atom 3: the scan passes 4 and
    stops at 3. *)
Lemma isInteractionExcluded_first_hit_witness :
  (isInteractionExcluded 1 3 [0; 3; 4] [0; 0; 3] = true <->
   exists i, rd [0; 0; 3] 1 <= i < rd [0; 0; 3] (1 + 1) /\
             rd [0; 3; 4] i = 3 /\
             forall j, i < j < rd [0; 0; 3] (1 + 1) -> 1 < rd [0; 3; 4] j).
Proof.
  apply (isInteractionExcluded_first_hit 1 3 [0; 3; 4] [0; 0; 3]); by vm_compute.
Defined.

End Exclusions.

(** ** Launch geometry: grid-stride loops *)

Module Launch.

(** [for (i = start; i < bound; i += stride)]: the values taken by [i], as
    long as no increment wraps and the comparison is one of integers (see
    [machineLoop] below for the loop on 32-bit counters). *)
Fixpoint strideLoop (fuel : nat) (i stride bound : Z) : list Z :=
  match fuel with
  | O => []
  | S fuel' => if i <? bound then i :: strideLoop fuel' (i + stride) stride bound else []
  end.

Definition gridStride (start stride bound : Z) : list Z :=
  strideLoop (Z.to_nat (bound - start)) start stride bound.

(** The workers of a launch, as (blockIdx.x, threadIdx.x). *)
Definition threads (gridDim blockDim : Z) : list (Z * Z) :=
  b ← seqZ 0 gridDim; (fun t => (b, t)) <$> seqZ 0 blockDim.

Lemma elem_of_threads gridDim blockDim b t :
  (b, t) ∈ threads gridDim blockDim <-> (0 <= b < gridDim) /\ (0 <= t < blockDim).
Proof.
  unfold threads. rewrite list_elem_of_bind. split.
  - intros (b' & Hin & Hb'). apply list_elem_of_fmap in Hin.
    destruct Hin as (t' & Heq & Ht'). injection Heq as -> ->.
    apply elem_of_seqZ in Hb', Ht'. lia.
  - intros [Hb Ht]. exists b. split.
    + apply list_elem_of_fmap. exists t. split; [reflexivity|]. apply elem_of_seqZ. lia.
    + apply elem_of_seqZ. lia.
Qed.

(** Every index is owned by one worker of the launch. *)
Lemma owner_exists gridDim blockDim i :
  0 < gridDim -> 0 < blockDim -> 0 <= i ->
  exists b t q, (b, t) ∈ threads gridDim blockDim /\ 0 <= q /\
                i = (b * blockDim + t) + q * (blockDim * gridDim).
Proof.
  intros HG HB Hi.
  set (S := blockDim * gridDim). assert (0 < S) as HS by (unfold S; nia).
  set (r := i mod S). assert (0 <= r < S) as Hr by (apply Z.mod_pos_bound; lia).
  exists (r / blockDim), (r mod blockDim), (i / S). split; [|split].
  - apply elem_of_threads. split.
    + split; [apply Z.div_pos; lia|]. apply Z.div_lt_upper_bound; lia.
    + apply Z.mod_pos_bound. lia.
  - apply Z.div_pos; lia.
  - rewrite (Z.mul_comm (r / blockDim)). rewrite <- Z.div_mod by lia.
    unfold r. rewrite (Z.mul_comm (i / S)). rewrite Z.add_comm. apply Z.div_mod. lia.
Qed.

Lemma elem_of_strideLoop fuel stride bound x : forall i,
  0 < stride ->
  x ∈ strideLoop fuel i stride bound <->
  exists q, 0 <= q < Z.of_nat fuel /\ x = i + q * stride /\ x < bound.
Proof.
  induction fuel as [|fuel IH]; intros i Hs.
  - simpl. split; [intros H; by apply elem_of_nil in H|]. intros (q & Hq & _). lia.
  - cbn [strideLoop]. destruct (Z.ltb_spec i bound) as [Hlt|Hge].
    + rewrite elem_of_cons, IH by exact Hs. split.
      * intros [->|(q & Hq & -> & Hb)].
        -- exists 0. lia.
        -- exists (q + 1). lia.
      * intros (q & Hq & -> & Hb). destruct (Z.eq_dec q 0) as [->|Hq0].
        -- left. lia.
        -- right. exists (q - 1). lia.
    + split; [intros H; by apply elem_of_nil in H|]. intros (q & Hq & -> & Hb). nia.
Qed.

Lemma elem_of_gridStride start stride bound x :
  0 < stride ->
  x ∈ gridStride start stride bound <->
  exists q, 0 <= q /\ x = start + q * stride /\ x < bound.
Proof.
  intros Hs. unfold gridStride. rewrite elem_of_strideLoop by exact Hs. split.
  - intros (q & Hq & Hx & Hb). exists q. lia.
  - intros (q & Hq & Hx & Hb). exists q. split; [|split; assumption]. nia.
Qed.

Lemma NoDup_strideLoop fuel stride bound : forall i,
  0 < stride -> NoDup (strideLoop fuel i stride bound).
Proof.
  induction fuel as [|fuel IH]; intros i Hs; cbn [strideLoop]; [constructor|].
  destruct (i <? bound); [|constructor]. constructor; [|by apply IH].
  rewrite elem_of_strideLoop by exact Hs. intros (q & Hq & Hx & _). nia.
Qed.

Lemma NoDup_threads gridDim blockDim : NoDup (threads gridDim blockDim).
Proof.
  unfold threads. apply NoDup_bind.
  - intros b1 b2 [b t] _ _ H1 H2. apply list_elem_of_fmap in H1, H2.
    destruct H1 as (? & H1 & _). destruct H2 as (? & H2 & _). congruence.
  - intros b _. apply NoDup_fmap_2; [|apply NoDup_seqZ]. intros t1 t2 H. congruence.
  - apply NoDup_seqZ.
Qed.

(** The grid-stride loops of the workers of a launch share out the indices
    below [bound]: each index is visited once, by one worker. *)
Lemma launch_partition gridDim blockDim bound :
  0 < gridDim -> 0 < blockDim ->
  (threads gridDim blockDim ≫=
     fun bt => gridStride (fst bt * blockDim + snd bt) (blockDim * gridDim) bound)
  ≡ₚ seqZ 0 bound.
Proof.
  intros HG HB. assert (0 < blockDim * gridDim) as HS by nia.
  apply NoDup_Permutation.
  - apply NoDup_bind.
    + intros [b1 t1] [b2 t2] y H1 H2 Hy1 Hy2.
      apply elem_of_threads in H1, H2.
      apply elem_of_gridStride in Hy1, Hy2; try exact HS.
      destruct Hy1 as (q1 & Hq1 & Hy1 & _). destruct Hy2 as (q2 & Hq2 & Hy2 & _).
      simpl in Hy1, Hy2.
      assert (b1 * blockDim + t1 = b2 * blockDim + t2) as Heq.
      { assert (0 <= b1 * blockDim + t1 < blockDim * gridDim) by nia.
        assert (0 <= b2 * blockDim + t2 < blockDim * gridDim) by nia.
        assert (q1 = q2) by nia. subst q2. lia. }
      assert (b1 = b2) by nia. subst b2. f_equal. lia.
    + intros bt _. apply NoDup_strideLoop. exact HS.
    + apply NoDup_threads.
  - apply NoDup_seqZ.
  - intros i. rewrite list_elem_of_bind, elem_of_seqZ. split.
    + intros ([b t] & Hi & Hbt). apply elem_of_threads in Hbt.
      apply elem_of_gridStride in Hi; [|exact HS]. destruct Hi as (q & Hq & Hi & Hb).
      simpl in Hi. nia.
    + intros Hi. destruct (owner_exists gridDim blockDim i HG HB ltac:(lia))
        as (b & t & q & Hbt & Hq & Heq).
      exists (b, t). split; [|exact Hbt]. apply elem_of_gridStride; [exact HS|].
      exists q. simpl. split; [exact Hq|]. split; [exact Heq|lia].
Qed.

(** An invariant carried along a stride loop whose fuel suffices. *)
Lemma strideLoop_invariant {A} (P : Z -> A -> Prop) (f : A -> Z -> A) stride bound fuel :
  0 < stride ->
  (forall i a, i < bound -> P i a -> P (i + stride) (f a i)) ->
  forall i a, bound - i <= Z.of_nat fuel -> P i a ->
    exists i', bound <= i' /\ P i' (foldl f a (strideLoop fuel i stride bound)).
Proof.
  intros Hs Hstep. induction fuel as [|fuel IH]; intros i a Hfuel HP.
  - exists i. split; [lia|exact HP].
  - cbn [strideLoop]. destruct (Z.ltb_spec i bound) as [Hlt|Hge].
    + cbn [foldl]. apply IH; [lia|]. by apply Hstep.
    + exists i. split; [lia|exact HP].
Qed.


(** The same loop as the machine runs it.  blockIdx.x, blockDim.x,
    threadIdx.x and gridDim.x are unsigned int, so the start and the stride
    are formed modulo 2^32; [wrap] is the conversion to the type of the loop
    variable, applied after every increment, and [bound] is the bound as the
    comparison reads it.  The loop need not end: [fuel] bounds the number of
    tests of the condition. *)
Fixpoint machineLoop (wrap : Z -> Z) (fuel : nat) (i stride bound : Z) : list Z :=
  match fuel with
  | O => []
  | S fuel' =>
      if i <? bound then i :: machineLoop wrap fuel' (wrap (i + stride)) stride bound else []
  end.

(** Line 216 of customManyParticle.cu: [int atom1] against the int NUM_ATOMS. *)
Definition findNeighborsLoop (fuel : nat) (gridDim blockDim NUM_ATOMS : Z) (bt : Z * Z)
    : list Z :=
  machineLoop int_wrap fuel (int_wrap (uint_wrap (fst bt * blockDim + snd bt)))
    (uint_wrap (blockDim * gridDim)) NUM_ATOMS.

(** Line 318: [unsigned int index] against the int actualPairs, which the
    comparison converts to unsigned. *)
Definition copyPairsLoop (fuel : nat) (gridDim blockDim actualPairs : Z) (bt : Z * Z)
    : list Z :=
  machineLoop uint_wrap fuel (uint_wrap (fst bt * blockDim + snd bt))
    (uint_wrap (blockDim * gridDim)) (uint_wrap actualPairs).

Lemma strideLoop_fuel stride bound :
  0 < stride ->
  forall m m' k, (Z.to_nat (bound - k) <= m)%nat -> (Z.to_nat (bound - k) <= m')%nat ->
    strideLoop m k stride bound = strideLoop m' k stride bound.
Proof.
  intros HS. induction m as [|m IHm]; intros m' k Hm Hm'.
  - destruct m' as [|m']; [reflexivity|]. cbn [strideLoop].
    destruct (Z.ltb_spec k bound) as [Hlt|Hge]; [lia|reflexivity].
  - cbn [strideLoop]. destruct (Z.ltb_spec k bound) as [Hlt|Hge].
    + destruct m' as [|m']; [lia|]. cbn [strideLoop].
      destruct (Z.ltb_spec k bound) as [_|Hge]; [|lia]. f_equal. apply IHm; lia.
    + destruct m' as [|m']; [reflexivity|]. cbn [strideLoop].
      destruct (Z.ltb_spec k bound) as [Hlt|_]; [lia|reflexivity].
Qed.

Lemma machineLoop_strideLoop wrap stride bound top :
  0 < stride -> bound + stride <= top ->
  (forall v, 0 <= v < top -> wrap v = v) ->
  forall fuel i, 0 <= i -> (Z.to_nat (bound - i) <= fuel)%nat ->
    machineLoop wrap fuel i stride bound = strideLoop (Z.to_nat (bound - i)) i stride bound.
Proof.
  intros HS Htop Hwrap. induction fuel as [|fuel IH]; intros i Hi Hfuel.
  - replace (Z.to_nat (bound - i)) with 0%nat by lia. reflexivity.
  - cbn [machineLoop]. destruct (Z.ltb_spec i bound) as [Hlt|Hge].
    + destruct (Z.to_nat (bound - i)) as [|n] eqn:Hn; [lia|]. cbn [strideLoop].
      destruct (Z.ltb_spec i bound) as [_|Hge]; [|lia]. f_equal.
      rewrite Hwrap by lia. rewrite IH by lia. apply strideLoop_fuel; [exact HS|lia|lia].
    + replace (Z.to_nat (bound - i)) with 0%nat by lia. reflexivity.
Qed.

(** X15.  The loop headers of findNeighbors (line 216, an int variable) and
    copyPairsToNeighborList (line 318, an unsigned variable compared with
    an int bound), [for (i = blockIdx.x*blockDim.x+threadIdx.x; i < bound;
    i += blockDim.x*gridDim.x)], when the bound is not negative and bound
    plus the number of threads of the launch is at most 2^31: for every
    thread both loops end and visit the indices start, start + stride, ...
    below the bound with no wrap-around, and over all threads of the launch
    every index from 0 up to bound is visited, none outside that range, none
    twice, and each by one thread only. *)
Theorem grid_stride_covers_once gridDim blockDim bound :
  0 < gridDim -> 0 < blockDim -> 0 <= bound -> bound + blockDim * gridDim <= 2^31 ->
  let visits := threads gridDim blockDim ≫=
                  fun bt => gridStride (fst bt * blockDim + snd bt) (blockDim * gridDim) bound in
  (forall bt fuel, bt ∈ threads gridDim blockDim -> (Z.to_nat bound <= fuel)%nat ->
     findNeighborsLoop fuel gridDim blockDim bound bt
       = gridStride (fst bt * blockDim + snd bt) (blockDim * gridDim) bound /\
     copyPairsLoop fuel gridDim blockDim bound bt
       = gridStride (fst bt * blockDim + snd bt) (blockDim * gridDim) bound) /\
  NoDup visits /\
  (forall i, i ∈ visits <-> 0 <= i < bound) /\
  (forall bt bt' i,
     bt ∈ threads gridDim blockDim -> bt' ∈ threads gridDim blockDim ->
     i ∈ gridStride (fst bt * blockDim + snd bt) (blockDim * gridDim) bound ->
     i ∈ gridStride (fst bt' * blockDim + snd bt') (blockDim * gridDim) bound ->
     bt = bt').
Proof.
  intros HG HB Hbound Hfit. cbn zeta.
  pose proof (launch_partition gridDim blockDim bound HG HB) as Hperm.
  split; [|split; [|split]].
  - intros [b t] fuel Hbt Hfuel. cbn [fst snd]. apply elem_of_threads in Hbt.
    assert (0 <= b * blockDim + t < blockDim * gridDim) as Hs by nia.
    assert (0 < blockDim * gridDim) as HS by nia.
    unfold findNeighborsLoop, copyPairsLoop, gridStride. cbn [fst snd].
    assert (forall v, 0 <= v <= 2^31 -> uint_wrap v = v) as Hu.
    { intros v Hv. unfold uint_wrap. apply Z.mod_small. lia. }
    assert (forall v, 0 <= v < 2^31 -> int_wrap v = v) as Hi.
    { intros v Hv. apply int_wrap_small. unfold INT_MAX. lia. }
    rewrite !Hu by lia. rewrite Hi by lia. split.
    + apply (machineLoop_strideLoop int_wrap _ bound (2^31) HS Hfit Hi); lia.
    + apply (machineLoop_strideLoop uint_wrap _ bound (2^31) HS Hfit); [|lia|lia].
      intros v Hv. apply Hu. lia.
  - rewrite Hperm. apply NoDup_seqZ.
  - intros i. rewrite Hperm, elem_of_seqZ. lia.
  - intros [b t] [b' t'] i Hbt Hbt' Hi Hi'. cbn [fst snd] in *.
    apply elem_of_threads in Hbt, Hbt'.
    apply elem_of_gridStride in Hi, Hi'; try nia.
    destruct Hi as (q & Hq & Hiq & _). destruct Hi' as (q' & Hq' & Hiq' & _).
    assert (0 <= b * blockDim + t < blockDim * gridDim) as Hs by nia.
    assert (0 <= b' * blockDim + t' < blockDim * gridDim) as Hs' by nia.
    assert (q = q') as Hqq by nia. subst q'.
    assert (b * blockDim + t = b' * blockDim + t') as Heq by lia.
    assert (b = b') as -> by nia. f_equal. lia.
Qed.

Lemma grid_stride_covers_once_witness :
  NoDup (threads 2 3 ≫= fun bt => gridStride (fst bt * 3 + snd bt) (3 * 2) 20).
Proof.
  refine (proj1 (proj2 (grid_stride_covers_once 2 3 20 _ _ _ _))); lia.
Defined.

(** Outside that range the two headers differ from the plain loop: a
    negative bound, which the int loop of line 216 never passes, is a large
    unsigned value at line 318, and the loop runs. *)
Lemma copyPairsLoop_negative_bound :
  findNeighborsLoop 3 1 1 (-1) (0, 0) = [] /\
  copyPairsLoop 3 1 1 (-1) (0, 0) = [0; 1; 2] /\
  gridStride 0 1 (-1) = [].
Proof. vm_compute. repeat split. Qed.
End Launch.
Import Launch.

(** ** Vectors of reals *)

Module Real.

Local Open Scope Q_scope.

Definition real : Type := Q.

Record real4 : Type := make_real4 { x : real; y : real; z : real; w : real }.
Record real3 : Type := make_real3 { x3 : real; y3 : real; z3 : real }.

#[global] Instance real_inhabited : Inhabited real := populate 0.
#[global] Instance real4_inhabited : Inhabited real4 := populate (make_real4 0 0 0 0).

Definition add4 (a b : real4) : real4 :=
  make_real4 (x a + x b) (y a + y b) (z a + z b) (w a + w b).
Definition sub4 (a b : real4) : real4 :=
  make_real4 (x a - x b) (y a - y b) (z a - z b) (w a - w b).
Definition scale4 (s : real) (a : real4) : real4 :=
  make_real4 (s * x a) (s * y a) (s * z a) (s * w a).

Definition floor (q : real) : real := inject_Z (Qfloor q).
Definition fabs (q : real) : real := Qabs q.
Definition fmin (a b : real) : real := if Qlt_le_dec b a then b else a.
Definition fmax (a b : real) : real := if Qlt_le_dec a b then b else a.
Definition ltb (a b : real) : bool := if Qlt_le_dec a b then true else false.

Definition half : real := 1 # 2.

Inductive axis : Type := AxisX | AxisY | AxisZ.

Definition proj (a : axis) (v : real4) : real :=
  match a with AxisX => x v | AxisY => y v | AxisZ => z v end.

Lemma ltb_iff a b : ltb a b = true <-> a < b.
Proof.
  unfold ltb. destruct (Qlt_le_dec a b) as [H|H]; split; intros; try easy; lra.
Qed.

Lemma fmin_le_l a b : fmin a b <= a.
Proof. unfold fmin. destruct (Qlt_le_dec b a); lra. Qed.

Lemma fmin_le_r a b : fmin a b <= b.
Proof. unfold fmin. destruct (Qlt_le_dec b a); lra. Qed.

Lemma fmax_ge_l a b : a <= fmax a b.
Proof. unfold fmax. destruct (Qlt_le_dec a b); lra. Qed.

Lemma fmax_ge_r a b : b <= fmax a b.
Proof. unfold fmax. destruct (Qlt_le_dec a b); lra. Qed.

Lemma fmax0_sq_le (v d : Q) :
  (0 < v -> v <= d \/ d <= - v) -> fmax 0 v * fmax 0 v <= d * d.
Proof.
  intros H. unfold fmax. destruct (Qlt_le_dec 0 v) as [Hv|Hv].
  - destruct (H Hv); nra.
  - nra.
Qed.

(** The distance between two boxes bounds the distance between their points,
    one axis at a time: [bd] is the (folded) distance of the centres, [e] the
    offsets of the two points inside their boxes and [K] a number of box
    lengths. *)
Lemma axis_gap (L bd e s1 s2 d : Q) (K : Z) :
  (K <> 0%Z -> 0 < L /\ - (L * half) <= bd /\ bd <= L * half) ->
  - (s1 + s2) <= e -> e <= s1 + s2 ->
  d == bd + e + inject_Z K * L ->
  fmax 0 (fabs bd - s1 - s2) * fmax 0 (fabs bd - s1 - s2) <= d * d.
Proof.
  intros HK He1 He2 Hd. apply fmax0_sq_le. intros Hpos.
  unfold fabs, half in *.
  destruct (Z.eq_dec K 0%Z) as [->|HK0].
  - assert (d == bd + e) as Hd' by (rewrite Hd; unfold inject_Z; lra).
    revert Hpos. apply Qabs_case; intros; lra.
  - destruct (HK HK0) as (HL & Hlo & Hhi).
    assert (K <= -1 \/ 1 <= K)%Z as [Hn|Hp] by lia.
    + right. rewrite Zle_Qle in Hn. change (inject_Z (-1)) with (-1) in Hn.
      revert Hpos. apply Qabs_case; intros; nra.
    + left. rewrite Zle_Qle in Hp. change (inject_Z 1) with 1 in Hp.
      revert Hpos. apply Qabs_case; intros; nra.
Qed.

(** Folding a coordinate difference by whole box lengths leaves it within half
    a box length of zero. *)
Lemma fold_half_range (L inv v : Q) :
  0 < L -> inv * L == 1 ->
  - (L * half) <= v - floor (v * inv + half) * L /\
  v - floor (v * inv + half) * L <= L * half.
Proof.
  intros HL Hinv. unfold floor, half.
  pose proof (Qfloor_le (v * inv + (1 # 2))) as Hlo.
  pose proof (Qlt_floor (v * inv + (1 # 2))) as Hhi.
  rewrite inject_Z_plus in Hhi. change (inject_Z 1) with 1 in Hhi.
  set (m := inject_Z (Qfloor (v * inv + (1 # 2)))) in *.
  assert (v * inv * L == v) as Hv by (rewrite <- Qmult_assoc, Hinv; ring).
  split; nra.
Qed.

Lemma gap_axis_periodic (L inv v1 v2 c1 s1 c2 s2 : Q) (k1 k2 : Z) :
  0 < L -> inv * L == 1 ->
  c1 - s1 <= v1 - inject_Z k1 * L -> v1 - inject_Z k1 * L <= c1 + s1 ->
  c2 - s2 <= v2 - inject_Z k2 * L -> v2 - inject_Z k2 * L <= c2 + s2 ->
  fmax 0 (fabs (c1 - c2 - floor ((c1 - c2) * inv + half) * L) - s1 - s2) *
  fmax 0 (fabs (c1 - c2 - floor ((c1 - c2) * inv + half) * L) - s1 - s2) <=
  (v1 - v2 - floor ((v1 - v2) * inv + half) * L) *
  (v1 - v2 - floor ((v1 - v2) * inv + half) * L).
Proof.
  intros HL Hinv H1 H2 H3 H4.
  destruct (fold_half_range L inv (c1 - c2) HL Hinv) as [Hlo Hhi].
  unfold floor in *.
  set (m := Qfloor ((c1 - c2) * inv + half)) in *.
  set (n := Qfloor ((v1 - v2) * inv + half)) in *.
  apply (axis_gap L _ ((v1 - inject_Z k1 * L - c1) - (v2 - inject_Z k2 * L - c2))
                  s1 s2 _ (m + k1 - k2 - n)%Z).
  - intros _. auto.
  - lra.
  - lra.
  - unfold Z.sub. rewrite !inject_Z_plus, !inject_Z_opp. ring.
Qed.

Lemma gap_axis_plain (v1 v2 c1 s1 c2 s2 : Q) :
  c1 - s1 <= v1 -> v1 <= c1 + s1 -> c2 - s2 <= v2 -> v2 <= c2 + s2 ->
  fmax 0 (fabs (c1 - c2) - s1 - s2) * fmax 0 (fabs (c1 - c2) - s1 - s2) <=
  (v1 - v2) * (v1 - v2).
Proof.
  intros H1 H2 H3 H4.
  apply (axis_gap 0 _ ((v1 - c1) - (v2 - c2)) s1 s2 _ 0%Z).
  - intros H. congruence.
  - lra.
  - lra.
  - unfold inject_Z. lra.
Qed.

End Real.
Import Real.

(** ** delta, findBlockBounds and findNeighbors *)

Module Discovery.

Import Exclusions.

Record NeighborState : Type := mkNeighborState {
  neighborPairs : list (Z * Z);
  numNeighborPairs : Z;
  numNeighborsForAtom : list Z
}.

Record BoundsState : Type := mkBoundsState {
  blockCenter : list real4;
  blockBoundingBox : list real4;
  boundsNumNeighborPairs : Z
}.

Section Kernels.

(** Preprocessor switches and constants of the compiled kernel. *)
Variables (USE_PERIODIC USE_EXCLUSIONS : bool).
Variables (NUM_ATOMS TILE_SIZE NUM_BLOCKS : Z).
Variable CUTOFF_SQUARED : real.

(** Kernel arguments shared by the two kernels. *)
Variables (periodicBoxSize invPeriodicBoxSize : real4).
Variable posq : list real4.

Local Open Scope Q_scope.

(** [delta] (lines 21-30). *)
Definition delta (vec1 vec2 : real4) : real4 :=
  let result := make_real4 (x vec1 - x vec2) (y vec1 - y vec2) (z vec1 - z vec2) 0 in
  let result :=
    if USE_PERIODIC then
      make_real4
        (x result - floor (x result * x invPeriodicBoxSize + half) * x periodicBoxSize)
        (y result - floor (y result * y invPeriodicBoxSize + half) * y periodicBoxSize)
        (z result - floor (z result * z invPeriodicBoxSize + half) * z periodicBoxSize)
        (w result)
    else result in
  make_real4 (x result) (y result) (z result)
             (x result * x result + y result * y result + z result * z result).

(** findBlockBounds, lines 176-181: the first atom of a tile. *)
Definition wrapFirst (pos : real4) : real4 :=
  if USE_PERIODIC then
    make_real4
      (x pos - floor (x pos * x invPeriodicBoxSize) * x periodicBoxSize)
      (y pos - floor (y pos * y invPeriodicBoxSize) * y periodicBoxSize)
      (z pos - floor (z pos * z invPeriodicBoxSize) * z periodicBoxSize)
      (w pos)
  else pos.

(** findBlockBounds, lines 186-192: a later atom, folded next to the running
    centre of the box. *)
Definition wrapToCenter (minPos maxPos pos : real4) : real4 :=
  if USE_PERIODIC then
    let center := scale4 half (add4 maxPos minPos) in
    make_real4
      (x pos - floor ((x pos - x center) * x invPeriodicBoxSize + half) * x periodicBoxSize)
      (y pos - floor ((y pos - y center) * y invPeriodicBoxSize + half) * y periodicBoxSize)
      (z pos - floor ((z pos - z center) * z invPeriodicBoxSize + half) * z periodicBoxSize)
      (w pos)
  else pos.

(** The loop [for (int i = base+1; i < last; i++)] with [n] iterations left. *)
Fixpoint boundsLoop (n : nat) (i : Z) (minPos maxPos : real4) : real4 * real4 :=
  match n with
  | O => (minPos, maxPos)
  | S n' =>
      let pos := wrapToCenter minPos maxPos (rd posq i) in
      let minPos' := make_real4 (fmin (x minPos) (x pos)) (fmin (y minPos) (y pos))
                                (fmin (z minPos) (z pos)) 0 in
      let maxPos' := make_real4 (fmax (x maxPos) (x pos)) (fmax (y maxPos) (y pos))
                                (fmax (z maxPos) (z pos)) 0 in
      boundsLoop n' (i + 1)%Z minPos' maxPos'
  end.

(** One pass of the while loop of findBlockBounds: the pair
    (blockBoundingBox[index], blockCenter[index]) it stores. *)
Definition blockBounds (index : Z) : real4 * real4 :=
  let base := (index * TILE_SIZE)%Z in
  let pos := wrapFirst (rd posq base) in
  let last := Z.min (base + TILE_SIZE) NUM_ATOMS in
  let '(minPos, maxPos) := boundsLoop (Z.to_nat (last - (base + 1))) (base + 1)%Z pos pos in
  (scale4 half (sub4 maxPos minPos), scale4 half (add4 maxPos minPos)).

(** The while loop of one worker: [index] advances by blockDim.x*gridDim.x. *)
Fixpoint boundsWorker (fuel : nat) (index stride : Z) (st : BoundsState) : BoundsState :=
  match fuel with
  | O => st
  | S fuel' =>
      if (index * TILE_SIZE <? NUM_ATOMS)%Z then
        let '(blockSize, center) := blockBounds index in
        boundsWorker fuel' (index + stride)%Z stride
          (mkBoundsState (wr (blockCenter st) index center)
                         (wr (blockBoundingBox st) index blockSize)
                         (boundsNumNeighborPairs st))
      else st
  end.

Definition findBlockBoundsThread (gridDim blockDim : Z) (st : BoundsState) (bt : Z * Z) : BoundsState :=
  let '(blockIdx, threadIdx) := bt in
  let index := (blockIdx * blockDim + threadIdx)%Z in
  let st := boundsWorker (Z.to_nat NUM_ATOMS) index (blockDim * gridDim)%Z st in
  if ((blockIdx =? 0) && (threadIdx =? 0))%Z
  then mkBoundsState (blockCenter st) (blockBoundingBox st) 0%Z
  else st.

(** The kernel: the workers touch disjoint entries, so they are run one after
    another. *)
Definition findBlockBounds (gridDim blockDim : Z) (st : BoundsState) : BoundsState :=
  foldl (findBlockBoundsThread gridDim blockDim) st (threads gridDim blockDim).

(** *** The box of a tile covers an image of each of its atoms *)

Definition axisCovered (a : axis) (lo hi p : real4) : Prop :=
  exists k : Z,
    (USE_PERIODIC = false -> k = 0%Z) /\
    proj a lo <= proj a p - inject_Z k * proj a periodicBoxSize /\
    proj a p - inject_Z k * proj a periodicBoxSize <= proj a hi.

Lemma axisCovered_widen a lo hi lo' hi' p :
  proj a lo' <= proj a lo -> proj a hi <= proj a hi' ->
  axisCovered a lo hi p -> axisCovered a lo' hi' p.
Proof.
  intros Hlo Hhi (k & Hk & H1 & H2). exists k. repeat split; [exact Hk|lra|lra].
Qed.

Lemma wrapToCenter_image a minPos maxPos pos :
  exists k : Z,
    (USE_PERIODIC = false -> k = 0%Z) /\
    proj a (wrapToCenter minPos maxPos pos) == proj a pos - inject_Z k * proj a periodicBoxSize.
Proof.
  unfold wrapToCenter. destruct USE_PERIODIC.
  - destruct a; simpl; eexists; (split; [discriminate|]); unfold floor; reflexivity.
  - exists 0%Z. split; [reflexivity|]. unfold inject_Z. lra.
Qed.

Lemma wrapFirst_image a pos :
  exists k : Z,
    (USE_PERIODIC = false -> k = 0%Z) /\
    proj a (wrapFirst pos) == proj a pos - inject_Z k * proj a periodicBoxSize.
Proof.
  unfold wrapFirst. destruct USE_PERIODIC.
  - destruct a; simpl; eexists; (split; [discriminate|]); unfold floor; reflexivity.
  - exists 0%Z. split; [reflexivity|]. unfold inject_Z. lra.
Qed.

Lemma boundsLoop_inv n : forall i minPos maxPos mn mx,
  boundsLoop n i minPos maxPos = (mn, mx) ->
  (forall a, proj a mn <= proj a minPos /\ proj a maxPos <= proj a mx) /\
  (forall j, (i <= j < i + Z.of_nat n)%Z -> forall a, axisCovered a mn mx (rd posq j)).
Proof.
  induction n as [|n IH]; intros i minPos maxPos mn mx Heq.
  - simpl in Heq. injection Heq as <- <-. split.
    + intros a. split; lra.
    + intros j Hj. lia.
  - cbn [boundsLoop] in Heq.
    set (pos := wrapToCenter minPos maxPos (rd posq i)) in *.
    apply IH in Heq. destruct Heq as [Hmono Hcov].
    assert (forall a, proj a mn <= proj a minPos /\ proj a maxPos <= proj a mx /\
                      proj a mn <= proj a pos /\ proj a pos <= proj a mx) as Hall.
    { intros a. destruct (Hmono a) as [H1 H2]. revert H1 H2.
      destruct a; simpl; intros H1 H2.
      - pose proof (fmin_le_l (x minPos) (x pos)). pose proof (fmin_le_r (x minPos) (x pos)).
        pose proof (fmax_ge_l (x maxPos) (x pos)). pose proof (fmax_ge_r (x maxPos) (x pos)).
        repeat split; lra.
      - pose proof (fmin_le_l (y minPos) (y pos)). pose proof (fmin_le_r (y minPos) (y pos)).
        pose proof (fmax_ge_l (y maxPos) (y pos)). pose proof (fmax_ge_r (y maxPos) (y pos)).
        repeat split; lra.
      - pose proof (fmin_le_l (z minPos) (z pos)). pose proof (fmin_le_r (z minPos) (z pos)).
        pose proof (fmax_ge_l (z maxPos) (z pos)). pose proof (fmax_ge_r (z maxPos) (z pos)).
        repeat split; lra. }
    split.
    + intros a. destruct (Hall a) as (H1 & H2 & _). split; assumption.
    + intros j Hj a. destruct (Z.eq_dec j i) as [->|Hne].
      * destruct (wrapToCenter_image a minPos maxPos (rd posq i)) as (k & Hk & Himg).
        fold pos in Himg. destruct (Hall a) as (_ & _ & H3 & H4).
        exists k. repeat split; [exact Hk|lra|lra].
      * apply Hcov. lia.
Qed.

(** Every atom of tile [index] has an image inside the stored box
    centre +/- half-extent, on each axis. *)
Lemma blockBounds_covers index j a :
  (index * TILE_SIZE <= j)%Z -> (j < index * TILE_SIZE + TILE_SIZE)%Z -> (j < NUM_ATOMS)%Z ->
  exists k : Z,
    (USE_PERIODIC = false -> k = 0%Z) /\
    proj a (snd (blockBounds index)) - proj a (fst (blockBounds index))
      <= proj a (rd posq j) - inject_Z k * proj a periodicBoxSize /\
    proj a (rd posq j) - inject_Z k * proj a periodicBoxSize
      <= proj a (snd (blockBounds index)) + proj a (fst (blockBounds index)).
Proof.
  intros Hlo Hhi HN. unfold blockBounds.
  set (base := (index * TILE_SIZE)%Z) in *.
  set (pos := wrapFirst (rd posq base)).
  destruct (boundsLoop _ _ pos pos) as [mn mx] eqn:Hloop.
  apply boundsLoop_inv in Hloop. destruct Hloop as [Hmono Hcov].
  assert (axisCovered a mn mx (rd posq j)) as (k & Hk & H1 & H2).
  { destruct (Z.eq_dec j base) as [->|Hne].
    - destruct (wrapFirst_image a (rd posq base)) as (k & Hk & Himg).
      fold pos in Himg. destruct (Hmono a) as [H1 H2].
      exists k. repeat split; [exact Hk|lra|lra].
    - apply Hcov. lia. }
  exists k. split; [exact Hk|].
  unfold half. destruct a; simpl in *; split; lra.
Qed.

(** *** What findBlockBounds leaves in the two tables *)

Definition boundsStored (st : BoundsState) (index : Z) : Prop :=
  rd (blockCenter st) index = snd (blockBounds index) /\
  rd (blockBoundingBox st) index = fst (blockBounds index).

Definition boundsSized (n : nat) (st : BoundsState) : Prop :=
  (n <= length (blockCenter st))%nat /\ (n <= length (blockBoundingBox st))%nat.

Lemma boundsWorker_spec (stride : Z) (n : nat) (Hstride : (0 < stride)%Z)
    (HT : (0 < TILE_SIZE)%Z)
    (Hn : forall b, (0 <= b)%Z -> (b * TILE_SIZE < NUM_ATOMS)%Z -> (Z.to_nat b < n)%nat) :
  forall fuel index st, (0 <= index)%Z -> boundsSized n st ->
    let st' := boundsWorker fuel index stride st in
    boundsSized n st' /\
    boundsNumNeighborPairs st' = boundsNumNeighborPairs st /\
    (forall b, (0 <= b)%Z -> boundsStored st b -> boundsStored st' b) /\
    (forall q, (0 <= q < Z.of_nat fuel)%Z ->
               ((index + q * stride) * TILE_SIZE < NUM_ATOMS)%Z ->
               boundsStored st' (index + q * stride)).
Proof.
  induction fuel as [|fuel IH]; intros index st Hidx Hsz; cbn zeta.
  - simpl. split; [exact Hsz|]. split; [reflexivity|]. split; [auto|]. intros q Hq. lia.
  - cbn [boundsWorker].
    destruct (Z.ltb_spec (index * TILE_SIZE) NUM_ATOMS) as [Hlt|Hge].
    + destruct (blockBounds index) as [blockSize center] eqn:Hbb.
      set (st1 := mkBoundsState _ _ _).
      assert (boundsSized n st1) as Hsz1.
      { destruct Hsz as [H1 H2]. split; simpl; rewrite length_wr; assumption. }
      assert (forall b, (0 <= b)%Z -> boundsStored st b -> boundsStored st1 b) as Hkeep1.
      { intros b Hb [Hc Hs]. unfold boundsStored. simpl.
        destruct (Z.eq_dec index b) as [->|Hne].
        - destruct Hsz as [H1 H2]. specialize (Hn b Hb Hlt).
          rewrite !rd_wr_eq by lia. rewrite Hbb. split; reflexivity.
        - rewrite !rd_wr_ne by lia. split; assumption. }
      assert (boundsStored st1 index) as Hidx1.
      { unfold boundsStored. simpl. destruct Hsz as [H1 H2]. specialize (Hn index Hidx Hlt).
        rewrite !rd_wr_eq by lia. rewrite Hbb. split; reflexivity. }
      destruct (IH (index + stride)%Z st1 ltac:(lia) Hsz1) as (Hs' & Hnum & Hkeep & Hvis).
      split; [exact Hs'|]. split; [rewrite Hnum; reflexivity|]. split.
      * intros b Hb Hst. apply Hkeep; [exact Hb|]. by apply Hkeep1.
      * intros q Hq Hqlt. destruct (Z.eq_dec q 0%Z) as [->|Hq0].
        -- replace (index + 0 * stride)%Z with index by lia. by apply Hkeep.
        -- replace (index + q * stride)%Z with (index + stride + (q - 1) * stride)%Z by lia.
           apply Hvis; [lia|].
           replace (index + stride + (q - 1) * stride)%Z with (index + q * stride)%Z by lia.
           exact Hqlt.
    + split; [exact Hsz|]. split; [reflexivity|]. split; [auto|]. intros q Hq Hqlt. nia.
Qed.

Lemma findBlockBounds_spec gridDim blockDim st :
  (0 < gridDim)%Z -> (0 < blockDim)%Z -> (0 < TILE_SIZE)%Z ->
  (NUM_ATOMS <= NUM_BLOCKS * TILE_SIZE)%Z ->
  boundsSized (Z.to_nat NUM_BLOCKS) st ->
  boundsNumNeighborPairs (findBlockBounds gridDim blockDim st) = 0%Z /\
  forall b, (0 <= b)%Z -> (b * TILE_SIZE < NUM_ATOMS)%Z ->
            boundsStored (findBlockBounds gridDim blockDim st) b.
Proof.
  intros HG HB HT HNB Hsz.
  assert (Hn : forall b, (0 <= b)%Z -> (b * TILE_SIZE < NUM_ATOMS)%Z ->
                         (Z.to_nat b < Z.to_nat NUM_BLOCKS)%nat) by (intros; nia).
  assert (Hstride : (0 < blockDim * gridDim)%Z) by nia.
  assert (Hthread : forall s bt, bt ∈ threads gridDim blockDim ->
            boundsSized (Z.to_nat NUM_BLOCKS) s ->
            boundsSized (Z.to_nat NUM_BLOCKS) (findBlockBoundsThread gridDim blockDim s bt) /\
            (boundsNumNeighborPairs s = 0%Z ->
             boundsNumNeighborPairs (findBlockBoundsThread gridDim blockDim s bt) = 0%Z) /\
            (bt = (0, 0)%Z ->
             boundsNumNeighborPairs (findBlockBoundsThread gridDim blockDim s bt) = 0%Z) /\
            (forall b, (0 <= b)%Z -> boundsStored s b ->
                       boundsStored (findBlockBoundsThread gridDim blockDim s bt) b) /\
            (forall q, (0 <= q < NUM_ATOMS)%Z ->
               ((fst bt * blockDim + snd bt + q * (blockDim * gridDim)) * TILE_SIZE < NUM_ATOMS)%Z ->
               boundsStored (findBlockBoundsThread gridDim blockDim s bt)
                            (fst bt * blockDim + snd bt + q * (blockDim * gridDim)))).
  { intros s [b t] Hbt Hs. apply elem_of_threads in Hbt. unfold findBlockBoundsThread.
    destruct (boundsWorker_spec _ _ Hstride HT Hn (Z.to_nat NUM_ATOMS) (b * blockDim + t)%Z s
                ltac:(nia) Hs) as (H1 & H2 & H3 & H4).
    simpl fst; simpl snd.
    destruct ((b =? 0)%Z && (t =? 0)%Z)%bool eqn:Hz.
    - split; [exact H1|]. split; [reflexivity|]. split; [reflexivity|]. split.
      + intros b' Hb' Hst. apply (H3 b' Hb' Hst).
      + intros q Hq Hlt. apply H4; [lia|exact Hlt].
    - split; [exact H1|]. split; [intros Hs0; rewrite H2; exact Hs0|]. split; [|split].
      + intros Heq. injection Heq as -> ->. discriminate.
      + exact H3.
      + intros q Hq Hlt. apply H4; [lia|exact Hlt]. }
  unfold findBlockBounds. split.
  - apply (foldl_establish (boundsSized (Z.to_nat NUM_BLOCKS))
             (fun s => boundsNumNeighborPairs s = 0%Z) _ _ (0, 0)%Z).
    + apply elem_of_threads. lia.
    + intros a bt Hbt Ha. exact (proj1 (Hthread a bt Hbt Ha)).
    + intros a Ha. assert ((0, 0)%Z ∈ threads gridDim blockDim) as H00.
      { apply elem_of_threads. lia. }
      destruct (Hthread a _ H00 Ha) as (_ & _ & H0 & _). exact (H0 eq_refl).
    + intros a bt Hbt Ha H0. destruct (Hthread a bt Hbt Ha) as (_ & Hk & _). exact (Hk H0).
    + exact Hsz.
  - intros b Hb Hlt.
    destruct (owner_exists gridDim blockDim b HG HB Hb) as (bi & ti & q & Hin & Hq & Heq).
    apply (foldl_establish (boundsSized (Z.to_nat NUM_BLOCKS))
             (fun s => boundsStored s b) _ _ (bi, ti)).
    + exact Hin.
    + intros a bt Hbt Ha. exact (proj1 (Hthread a bt Hbt Ha)).
    + intros a Ha. destruct (Hthread a (bi, ti) Hin Ha) as (_ & _ & _ & _ & H5).
      rewrite Heq. apply H5; simpl; [|rewrite <- Heq; exact Hlt].
      apply elem_of_threads in Hin. nia.
    + intros a bt Hbt Ha Hst. destruct (Hthread a bt Hbt Ha) as (_ & _ & _ & Hk & _).
      exact (Hk b Hb Hst).
    + exact Hsz.
Qed.

(** *** findNeighbors *)

Section Neighbors.

Variables (blockCenterIn blockBoundingBoxIn : list real4).
Variable maxNeighborPairs : Z.
Variables (exclusions exclusionStartIndex : list Z).

(** Lines 228-239: the bounding-box test between the tile of atom1 and
    [block2]. *)
Definition tileInRange (atom1 block2 : Z) : bool :=
  let block1 := Z.quot atom1 TILE_SIZE in
  let blockCenter1 := rd blockCenterIn block1 in
  let blockSize1 := rd blockBoundingBoxIn block1 in
  let blockCenter2 := rd blockCenterIn block2 in
  let blockSize2 := rd blockBoundingBoxIn block2 in
  let blockDelta := sub4 blockCenter1 blockCenter2 in
  let blockDelta :=
    if USE_PERIODIC then
      make_real4
        (x blockDelta - floor (x blockDelta * x invPeriodicBoxSize + half) * x periodicBoxSize)
        (y blockDelta - floor (y blockDelta * y invPeriodicBoxSize + half) * y periodicBoxSize)
        (z blockDelta - floor (z blockDelta * z invPeriodicBoxSize + half) * z periodicBoxSize)
        (w blockDelta)
    else blockDelta in
  let dx := fmax 0 (fabs (x blockDelta) - x blockSize1 - x blockSize2) in
  let dy := fmax 0 (fabs (y blockDelta) - y blockSize1 - y blockSize2) in
  let dz := fmax 0 (fabs (z blockDelta) - z blockSize1 - z blockSize2) in
  ltb (dx * dx + dy * dy + dz * dz) CUTOFF_SQUARED.

(** Lines 247-256: the decision for one candidate slot. *)
Definition includeAtom (atom1 atom2 : Z) : bool :=
  let pos1 := rd posq atom1 in
  let pos2 := rd posq atom2 in
  let atomDelta := delta pos1 pos2 in
  let includeAtom := ((atom1 <? atom2)%Z && (atom2 <? NUM_ATOMS)%Z
                      && ltb (w atomDelta) CUTOFF_SQUARED)%bool in
  if USE_EXCLUSIONS then
    if includeAtom
    then (includeAtom && negb (isInteractionExcluded atom1 atom2 exclusions exclusionStartIndex))%bool
    else includeAtom
  else includeAtom.

(** Lines 246-259: the loop over the slots of a tile, [n] slots left;
    [included] is the local array, its length is numIncluded. *)
Fixpoint tileLoop (n : nat) (atom1 atom2 : Z) (included : list Z) : list Z :=
  match n with
  | O => included
  | S n' =>
      tileLoop n' atom1 (atom2 + 1)%Z
        (if includeAtom atom1 atom2 then included ++ [atom2] else included)
  end.

Definition includedInTile (atom1 block2 : Z) : list Z :=
  let start := (block2 * TILE_SIZE)%Z in
  let end_ := ((block2 + 1) * TILE_SIZE)%Z in
  tileLoop (Z.to_nat (end_ - start)) atom1 start [].

(** Lines 266-267: [for (i = 0; i < numIncluded; i++) neighborPairs[baseIndex+i] = ...]. *)
Fixpoint storePairs (atom1 : Z) (included : list Z) (i : Z) (pairs : list (Z * Z)) : list (Z * Z) :=
  match included with
  | [] => pairs
  | a :: rest => storePairs atom1 rest (i + 1)%Z (wr pairs i (atom1, a))
  end.

(** Lines 263-269: reserve a range with atomicAdd and fill it if it fits. *)
Definition storeBatch (atom1 : Z) (included : list Z) (st : NeighborState) : NeighborState :=
  let numIncluded := Z.of_nat (length included) in
  if (0 <? numIncluded)%Z then
    let baseIndex := numNeighborPairs st in
    let st := mkNeighborState (neighborPairs st) (int_wrap (baseIndex + numIncluded))
                              (numNeighborsForAtom st) in
    if (baseIndex + numIncluded <=? maxNeighborPairs)%Z
    then mkNeighborState (storePairs atom1 included baseIndex (neighborPairs st))
                         (numNeighborPairs st) (numNeighborsForAtom st)
    else st
  else st.

(** Lines 227-271: the loop over candidate tiles, [n] tiles left. *)
Fixpoint blockLoop (n : nat) (atom1 block2 : Z) (totalNeighborsForAtom1 : Z)
    (st : NeighborState) : Z * NeighborState :=
  match n with
  | O => (totalNeighborsForAtom1, st)
  | S n' =>
      if tileInRange atom1 block2 then
        let included := includedInTile atom1 block2 in
        blockLoop n' atom1 (block2 + 1)%Z
          (if (0 <? Z.of_nat (length included))%Z
           then totalNeighborsForAtom1 + Z.of_nat (length included)
           else totalNeighborsForAtom1)%Z
          (storeBatch atom1 included st)
      else blockLoop n' atom1 (block2 + 1)%Z totalNeighborsForAtom1 st
  end.

(** Lines 217-272: the body of the outer loop for one [atom1]. *)
Definition findNeighborsAtom (st : NeighborState) (atom1 : Z) : NeighborState :=
  let block1 := Z.quot atom1 TILE_SIZE in
  let '(total, st) := blockLoop (Z.to_nat (NUM_BLOCKS - block1)) atom1 block1 0%Z st in
  mkNeighborState (neighborPairs st) (numNeighborPairs st)
                  (wr (numNeighborsForAtom st) atom1 total).

(** The atoms handled by worker (blockIdx, threadIdx), in its order. *)
Definition workerAtoms (gridDim blockDim : Z) (bt : Z * Z) : list Z :=
  gridStride (fst bt * blockDim + snd bt)%Z (blockDim * gridDim)%Z NUM_ATOMS.

(** The kernel under a schedule: the order in which the iterations of the
    outer loop take effect.  Reservations are atomic and each iteration stores
    only into the ranges it reserved and into its own counter, so a concurrent
    run has the effect of running the iterations in some order. *)
Definition findNeighbors (schedule : list Z) (st : NeighborState) : NeighborState :=
  foldl findNeighborsAtom st schedule.

(** The brute-force reference of the specification: the pairs (i, j) with
    i < j < NUM_ATOMS, minimum-image squared distance below the squared cutoff
    and j not stored in the exclusion segment of i. *)
Definition exclusionSegment (atom1 : Z) : list Z :=
  let first := rd exclusionStartIndex atom1 in
  let last := rd exclusionStartIndex (atom1 + 1) in
  rd exclusions <$> seqZ first (last - first).

Definition inExclusionSet (atom1 atom2 : Z) : bool :=
  (USE_EXCLUSIONS && existsb (Z.eqb atom2) (exclusionSegment atom1))%bool.

Definition qualifies (atom1 atom2 : Z) : bool :=
  ((atom1 <? atom2)%Z && (atom2 <? NUM_ATOMS)%Z
   && ltb (w (delta (rd posq atom1) (rd posq atom2))) CUTOFF_SQUARED
   && negb (inExclusionSet atom1 atom2))%bool.

Definition bruteForceNeighbors (atom1 : Z) : list Z :=
  List.filter (qualifies atom1) (seqZ 0 NUM_ATOMS).

Definition bruteForcePairs (atoms : list Z) : list (Z * Z) :=
  atom1 ← atoms; (fun atom2 => (atom1, atom2)) <$> bruteForceNeighbors atom1.

(** *** Effect of one iteration, without any assumption on the inputs *)

Lemma tileLoop_filter n atom1 : forall atom2 included,
  tileLoop n atom1 atom2 included =
  included ++ List.filter (includeAtom atom1) (seqZ atom2 (Z.of_nat n)).
Proof.
  induction n as [|n IH]; intros atom2 included.
  - simpl. by rewrite app_nil_r.
  - cbn [tileLoop]. rewrite IH. rewrite (seqZ_cons atom2) by lia. simpl.
    replace (Z.pred (Z.of_nat (S n))) with (Z.of_nat n) by lia.
    replace (Z.succ atom2) with (atom2 + 1)%Z by lia.
    destruct (includeAtom atom1 atom2); [by rewrite <- app_assoc|reflexivity].
Qed.

(** The atoms accepted for [atom1]: the contents of [included] over the tiles
    that pass the bounding-box test, in the order the loop visits them. *)
Definition batchOfTile (atom1 block2 : Z) : list Z :=
  if tileInRange atom1 block2 then includedInTile atom1 block2 else [].

Definition acceptedNeighbors (atom1 : Z) : list Z :=
  let block1 := Z.quot atom1 TILE_SIZE in
  block2 ← seqZ block1 (NUM_BLOCKS - block1); batchOfTile atom1 block2.

Lemma storePairs_spec atom1 included : forall i pairs,
  (0 <= i)%Z -> (Z.to_nat i + length included <= length pairs)%nat ->
  storePairs atom1 included i pairs =
  take (Z.to_nat i) pairs ++ (pair atom1 <$> included)
    ++ drop (Z.to_nat i + length included) pairs.
Proof.
  induction included as [|a rest IH]; intros i pairs Hi Hlen.
  - simpl. rewrite Nat.add_0_r. by rewrite take_drop.
  - cbn [storePairs]. simpl in Hlen. rewrite IH; [|lia|rewrite length_wr; lia].
    unfold wr. rewrite (insert_take_drop pairs (Z.to_nat i)) by lia.
    replace (Z.to_nat (i + 1)) with (Z.to_nat i + 1)%nat by lia.
    assert (Z.to_nat i = length (take (Z.to_nat i) pairs)) as Htl
      by (rewrite length_take_le; lia).
    rewrite take_app_add' by exact Htl.
    rewrite <- Nat.add_assoc. rewrite drop_app_add' by exact Htl.
    cbn [take drop Nat.add fmap list_fmap]. rewrite drop_drop.
    rewrite <- app_assoc. simpl.
    repeat f_equal. lia.
Qed.

Lemma length_storePairs atom1 included : forall i pairs,
  length (storePairs atom1 included i pairs) = length pairs.
Proof.
  induction included as [|a rest IH]; intros i pairs; simpl; [reflexivity|].
  rewrite IH. apply length_wr.
Qed.

Lemma storeBatch_frame atom1 included st :
  numNeighborsForAtom (storeBatch atom1 included st) = numNeighborsForAtom st /\
  length (neighborPairs (storeBatch atom1 included st)) = length (neighborPairs st).
Proof.
  unfold storeBatch. destruct (0 <? _)%Z; [|by split].
  cbn [numNeighborPairs neighborPairs numNeighborsForAtom].
  destruct (_ <=? _)%Z; cbn [numNeighborPairs neighborPairs numNeighborsForAtom];
    split; try reflexivity. apply length_storePairs.
Qed.

(** The counter advances by the size of the batch, stored or not. *)
Lemma storeBatch_count atom1 included st :
  (0 <= numNeighborPairs st)%Z ->
  (numNeighborPairs st + Z.of_nat (length included) <= INT_MAX)%Z ->
  numNeighborPairs (storeBatch atom1 included st) =
  (numNeighborPairs st + Z.of_nat (length included))%Z.
Proof.
  intros H0 Hmax. unfold storeBatch.
  destruct (Z.ltb_spec 0 (Z.of_nat (length included))) as [Hpos|Hz]; [|lia].
  cbn [numNeighborPairs neighborPairs numNeighborsForAtom].
  destruct (_ <=? _)%Z; cbn [numNeighborPairs]; apply int_wrap_small; unfold INT_MAX in *; lia.
Qed.

(** A batch that fits is appended to the pairs stored so far. *)
Lemma storeBatch_fits atom1 included st :
  (0 <= numNeighborPairs st)%Z ->
  (numNeighborPairs st + Z.of_nat (length included) <= maxNeighborPairs)%Z ->
  (maxNeighborPairs <= Z.of_nat (length (neighborPairs st)))%Z ->
  take (Z.to_nat (numNeighborPairs st + Z.of_nat (length included)))
       (neighborPairs (storeBatch atom1 included st)) =
  take (Z.to_nat (numNeighborPairs st)) (neighborPairs st) ++ (pair atom1 <$> included).
Proof.
  intros H0 Hfit Hcap. unfold storeBatch.
  destruct (Z.ltb_spec 0 (Z.of_nat (length included))) as [Hpos|Hz].
  - cbn [numNeighborPairs neighborPairs numNeighborsForAtom].
    destruct (Z.leb_spec (numNeighborPairs st + Z.of_nat (length included)) maxNeighborPairs);
      [|lia].
    cbn [neighborPairs]. rewrite storePairs_spec by lia.
    rewrite app_assoc. rewrite take_app_length'; [reflexivity|].
    rewrite length_app, length_fmap, length_take_le by lia. lia.
  - destruct included; [|simpl in Hz; lia]. simpl.
    rewrite Z.add_0_r. by rewrite app_nil_r.
Qed.

(** A batch that does not fit leaves the buffer as it is. *)
Lemma storeBatch_overflow atom1 included st :
  (maxNeighborPairs < numNeighborPairs st + Z.of_nat (length included))%Z ->
  neighborPairs (storeBatch atom1 included st) = neighborPairs st.
Proof.
  intros Hover. unfold storeBatch. destruct (0 <? _)%Z; [|reflexivity].
  cbn [numNeighborPairs neighborPairs numNeighborsForAtom].
  destruct (Z.leb_spec (numNeighborPairs st + Z.of_nat (length included)) maxNeighborPairs);
    [lia|reflexivity].
Qed.

Lemma blockLoop_spec n atom1 : forall block2 total st,
  blockLoop n atom1 block2 total st =
  ((total + Z.of_nat (length (seqZ block2 (Z.of_nat n) ≫= batchOfTile atom1)))%Z,
   foldl (fun s included => storeBatch atom1 included s) st
         (batchOfTile atom1 <$> seqZ block2 (Z.of_nat n))).
Proof.
  induction n as [|n IH]; intros block2 total st.
  - simpl. by rewrite Z.add_0_r.
  - cbn [blockLoop]. rewrite (seqZ_cons block2) by lia.
    replace (Z.pred (Z.of_nat (S n))) with (Z.of_nat n) by lia.
    replace (Z.succ block2) with (block2 + 1)%Z by lia.
    change ((?a :: ?l) ≫= ?g) with (g a ++ (l ≫= g)).
    cbn [fmap list_fmap foldl]. rewrite length_app, Nat2Z.inj_add.
    unfold batchOfTile at 1 3. destruct (tileInRange atom1 block2).
    + rewrite IH. f_equal.
      destruct (Z.ltb_spec 0 (Z.of_nat (length (includedInTile atom1 block2)))); lia.
    + rewrite IH. f_equal.
Qed.

Definition storeBatches (atom1 : Z) (st : NeighborState) (batches : list (list Z)) : NeighborState :=
  foldl (fun s included => storeBatch atom1 included s) st batches.

Lemma storeBatches_frame atom1 batches : forall st,
  numNeighborsForAtom (storeBatches atom1 st batches) = numNeighborsForAtom st /\
  length (neighborPairs (storeBatches atom1 st batches)) = length (neighborPairs st).
Proof.
  induction batches as [|b bs IH]; intros st; [by split|].
  cbn [storeBatches foldl]. destruct (IH (storeBatch atom1 b st)) as [H1 H2].
  destruct (storeBatch_frame atom1 b st) as [H3 H4].
  unfold storeBatches in *. split; congruence.
Qed.

Lemma storeBatches_count atom1 batches : forall st,
  (0 <= numNeighborPairs st)%Z ->
  (numNeighborPairs st + Z.of_nat (length (concat batches)) <= INT_MAX)%Z ->
  numNeighborPairs (storeBatches atom1 st batches) =
  (numNeighborPairs st + Z.of_nat (length (concat batches)))%Z.
Proof.
  induction batches as [|b bs IH]; intros st H0 Hmax.
  - simpl. lia.
  - cbn [storeBatches foldl concat] in *. rewrite length_app, Nat2Z.inj_add in *.
    pose proof (storeBatch_count atom1 b st H0 ltac:(lia)) as Hb.
    unfold storeBatches in IH. rewrite IH; rewrite Hb; lia.
Qed.

Lemma storeBatches_fits atom1 batches : forall st,
  (0 <= numNeighborPairs st)%Z ->
  (numNeighborPairs st + Z.of_nat (length (concat batches)) <= maxNeighborPairs)%Z ->
  (maxNeighborPairs <= INT_MAX)%Z ->
  (maxNeighborPairs <= Z.of_nat (length (neighborPairs st)))%Z ->
  take (Z.to_nat (numNeighborPairs st + Z.of_nat (length (concat batches))))
       (neighborPairs (storeBatches atom1 st batches)) =
  take (Z.to_nat (numNeighborPairs st)) (neighborPairs st) ++ (pair atom1 <$> concat batches).
Proof.
  induction batches as [|b bs IH]; intros st H0 Hfit Hint Hcap.
  - simpl. rewrite Z.add_0_r. by rewrite app_nil_r.
  - cbn [storeBatches foldl concat] in *. rewrite length_app, Nat2Z.inj_add in *.
    pose proof (storeBatch_count atom1 b st H0 ltac:(lia)) as Hb.
    pose proof (storeBatch_fits atom1 b st H0 ltac:(lia) Hcap) as Hw.
    destruct (storeBatch_frame atom1 b st) as [_ Hlen].
    unfold storeBatches in IH.
    specialize (IH (storeBatch atom1 b st)). rewrite Hb, Hlen in IH.
    rewrite Z.add_assoc. rewrite IH by lia.
    rewrite Hw. rewrite fmap_app. by rewrite app_assoc.
Qed.

Lemma concat_fmap_bind {A B} (f : A -> list B) (l : list A) : concat (f <$> l) = l ≫= f.
Proof.
  induction l as [|a l IH]; [reflexivity|].
  change (f a ++ concat (f <$> l) = f a ++ (l ≫= f)). by rewrite IH.
Qed.

Lemma findNeighborsAtom_spec st atom1 :
  findNeighborsAtom st atom1 =
  let block1 := Z.quot atom1 TILE_SIZE in
  let st1 := storeBatches atom1 st (batchOfTile atom1 <$> seqZ block1 (NUM_BLOCKS - block1)) in
  mkNeighborState (neighborPairs st1) (numNeighborPairs st1)
    (wr (numNeighborsForAtom st1) atom1 (Z.of_nat (length (acceptedNeighbors atom1)))).
Proof.
  unfold findNeighborsAtom, acceptedNeighbors. rewrite blockLoop_spec.
  cbn zeta. destruct (Z.le_gt_cases 0 (NUM_BLOCKS - Z.quot atom1 TILE_SIZE)) as [Hn|Hn].
  - rewrite Z2Nat.id by lia. reflexivity.
  - replace (Z.to_nat (NUM_BLOCKS - Z.quot atom1 TILE_SIZE)) with 0%nat by lia.
    rewrite (seqZ_nil _ (NUM_BLOCKS - _)) by lia. reflexivity.
Qed.

(** All pairs accepted under a schedule, and the counter they leave. *)
Definition acceptedPairs (schedule : list Z) : list (Z * Z) :=
  atom1 ← schedule; pair atom1 <$> acceptedNeighbors atom1.

Lemma findNeighbors_total_accepted schedule : forall st,
  (0 <= numNeighborPairs st)%Z ->
  (numNeighborPairs st + Z.of_nat (length (acceptedPairs schedule)) <= INT_MAX)%Z ->
  numNeighborPairs (findNeighbors schedule st) =
  (numNeighborPairs st + Z.of_nat (length (acceptedPairs schedule)))%Z.
Proof.
  induction schedule as [|a schedule IH]; intros st H0 Hmax.
  - simpl. lia.
  - change (acceptedPairs (a :: schedule))
      with ((pair a <$> acceptedNeighbors a) ++ acceptedPairs schedule) in *.
    rewrite length_app, length_fmap, Nat2Z.inj_add in *.
    unfold findNeighbors in *. cbn [foldl].
    assert (numNeighborPairs (findNeighborsAtom st a) =
            (numNeighborPairs st + Z.of_nat (length (acceptedNeighbors a)))%Z) as Hstep.
    { rewrite findNeighborsAtom_spec. cbn zeta. cbn [numNeighborPairs].
      unfold acceptedNeighbors. rewrite <- concat_fmap_bind.
      apply storeBatches_count; [exact H0|].
      rewrite concat_fmap_bind. fold (acceptedNeighbors a). lia. }
    rewrite IH; rewrite ?Hstep; lia.
Qed.

(** A batch is stored whole or not at all; the counter advances either way. *)
Lemma storeBatch_all_or_nothing atom1 included st :
  included <> [] ->
  storeBatch atom1 included st =
  mkNeighborState
    (if (numNeighborPairs st + Z.of_nat (length included) <=? maxNeighborPairs)%Z
     then storePairs atom1 included (numNeighborPairs st) (neighborPairs st)
     else neighborPairs st)
    (int_wrap (numNeighborPairs st + Z.of_nat (length included)))
    (numNeighborsForAtom st).
Proof.
  intros Hne. unfold storeBatch.
  destruct (Z.ltb_spec 0 (Z.of_nat (length included))) as [_|Hz].
  - cbn [numNeighborPairs neighborPairs numNeighborsForAtom].
    destruct (_ <=? _)%Z; reflexivity.
  - destruct included; [congruence|]. simpl in Hz. lia.
Qed.

(** *** Slots beyond NUM_ATOMS are scanned but never accepted *)

Lemma includeAtom_range atom1 atom2 :
  includeAtom atom1 atom2 = true -> (atom1 < atom2 < NUM_ATOMS)%Z.
Proof.
  unfold includeAtom.
  destruct (Z.ltb_spec atom1 atom2), (Z.ltb_spec atom2 NUM_ATOMS);
    cbn [andb]; destruct USE_EXCLUSIONS; try discriminate;
    destruct (ltb _ _); cbn [andb]; try discriminate; intros _; lia.
Qed.

Lemma includedInTile_slots atom1 block2 :
  includedInTile atom1 block2 =
  List.filter (includeAtom atom1) (seqZ (block2 * TILE_SIZE) TILE_SIZE).
Proof.
  unfold includedInTile. rewrite tileLoop_filter. simpl.
  replace ((block2 + 1) * TILE_SIZE - block2 * TILE_SIZE)%Z with TILE_SIZE by lia.
  destruct (Z.le_gt_cases 0 TILE_SIZE).
  - rewrite Z2Nat.id by lia. reflexivity.
  - replace (Z.to_nat TILE_SIZE) with 0%nat by lia. rewrite (seqZ_nil _ TILE_SIZE) by lia.
    reflexivity.
Qed.

Lemma batchOfTile_range atom1 block2 atom2 :
  atom2 ∈ batchOfTile atom1 block2 -> (atom1 < atom2 < NUM_ATOMS)%Z.
Proof.
  unfold batchOfTile. destruct (tileInRange atom1 block2).
  - rewrite includedInTile_slots. intros Hin.
    apply list_elem_of_In, filter_In in Hin. apply includeAtom_range, Hin.
  - intros Hin. by apply elem_of_nil in Hin.
Qed.

Lemma acceptedNeighbors_range atom1 atom2 :
  atom2 ∈ acceptedNeighbors atom1 -> (atom1 < atom2 < NUM_ATOMS)%Z.
Proof.
  unfold acceptedNeighbors. rewrite list_elem_of_bind.
  intros (b & Hin & _). by apply batchOfTile_range in Hin.
Qed.

Definition pairInRange (atom1 : Z) (p : Z * Z) : Prop :=
  fst p = atom1 /\ (atom1 < snd p < NUM_ATOMS)%Z.

Lemma storePairs_range atom1 included : forall i pairs p,
  (forall a, a ∈ included -> (atom1 < a < NUM_ATOMS)%Z) ->
  p ∈ storePairs atom1 included i pairs -> p ∈ pairs \/ pairInRange atom1 p.
Proof.
  induction included as [|a rest IH]; intros i pairs p Hr Hin.
  - by left.
  - cbn [storePairs] in Hin. apply IH in Hin.
    + destruct Hin as [Hin|Hin]; [|by right]. apply elem_of_wr in Hin.
      destruct Hin as [->|Hin]; [right|by left].
      split; [reflexivity|]. apply Hr. by left.
    + intros b Hb. apply Hr. by right.
Qed.

Lemma storeBatch_range atom1 included st p :
  (forall a, a ∈ included -> (atom1 < a < NUM_ATOMS)%Z) ->
  p ∈ neighborPairs (storeBatch atom1 included st) ->
  p ∈ neighborPairs st \/ pairInRange atom1 p.
Proof.
  intros Hr. unfold storeBatch. destruct (0 <? _)%Z; [|by left].
  cbn [numNeighborPairs neighborPairs numNeighborsForAtom].
  destruct (_ <=? _)%Z; cbn [neighborPairs]; [|by left].
  by apply storePairs_range.
Qed.

Lemma storeBatches_range atom1 batches : forall st p,
  (forall b a, b ∈ batches -> a ∈ b -> (atom1 < a < NUM_ATOMS)%Z) ->
  p ∈ neighborPairs (storeBatches atom1 st batches) ->
  p ∈ neighborPairs st \/ pairInRange atom1 p.
Proof.
  induction batches as [|b bs IH]; intros st p Hr Hin; [by left|].
  cbn [storeBatches foldl] in Hin. apply IH in Hin.
  - destruct Hin as [Hin|Hin]; [|by right].
    apply storeBatch_range in Hin; [exact Hin|]. intros a Ha. apply (Hr b); [by left|exact Ha].
  - intros b' a Hb' Ha. apply (Hr b'); [by right|exact Ha].
Qed.

Lemma findNeighborsAtom_range st atom1 p :
  p ∈ neighborPairs (findNeighborsAtom st atom1) ->
  p ∈ neighborPairs st \/ pairInRange atom1 p.
Proof.
  rewrite findNeighborsAtom_spec. cbn zeta. cbn [neighborPairs].
  apply storeBatches_range. intros b a Hb Ha.
  apply list_elem_of_fmap in Hb. destruct Hb as (blk & -> & _).
  by apply batchOfTile_range in Ha.
Qed.

(** C10. The inner loop of findNeighbors tests every one of the TILE_SIZE
    slots of a candidate tile, also those at or beyond NUM_ATOMS in a partial
    last tile, but a slot is accepted only with atom1 < atom2 < NUM_ATOMS: the
    count stored for an atom is the number of accepted slots, all inside the
    active range, and every pair the kernel writes has its second index inside
    the active range. *)
Theorem findNeighbors_ignores_padding schedule st :
  (forall a, a ∈ schedule -> (0 <= a)%Z) ->
  let st' := findNeighbors schedule st in
  (forall atom1 block2,
     includedInTile atom1 block2 =
     List.filter (includeAtom atom1) (seqZ (block2 * TILE_SIZE) TILE_SIZE)) /\
  (forall atom1 atom2, includeAtom atom1 atom2 = true -> (atom1 < atom2 < NUM_ATOMS)%Z) /\
  (forall atom1, atom1 ∈ schedule ->
     (Z.to_nat atom1 < length (numNeighborsForAtom st))%nat ->
     rd (numNeighborsForAtom st') atom1 = Z.of_nat (length (acceptedNeighbors atom1)) /\
     forall atom2, atom2 ∈ acceptedNeighbors atom1 -> (atom1 < atom2 < NUM_ATOMS)%Z) /\
  (forall p, p ∈ neighborPairs st' ->
     p ∈ neighborPairs st \/
     (fst p ∈ schedule /\ (fst p < snd p < NUM_ATOMS)%Z)).
Proof.
  intros Hpos. cbn zeta. split; [exact includedInTile_slots|].
  split; [exact includeAtom_range|]. split.
  - intros atom1 Hin Hlen. split; [|intros atom2; apply acceptedNeighbors_range].
    unfold findNeighbors.
    apply (foldl_establish
             (fun s => length (numNeighborsForAtom s) = length (numNeighborsForAtom st))
             (fun s => rd (numNeighborsForAtom s) atom1 =
                       Z.of_nat (length (acceptedNeighbors atom1))) _ _ atom1).
    + exact Hin.
    + intros s a Ha Hs. rewrite findNeighborsAtom_spec. cbn zeta.
      cbn [numNeighborsForAtom]. rewrite length_wr.
      by rewrite (proj1 (storeBatches_frame a _ s)).
    + intros s Hs. rewrite findNeighborsAtom_spec. cbn zeta.
      cbn [numNeighborsForAtom]. pose proof (Hpos atom1 Hin).
      rewrite rd_wr_eq; [reflexivity|lia|].
      rewrite (proj1 (storeBatches_frame atom1 _ s)). lia.
    + intros s a Ha Hs Hq. rewrite findNeighborsAtom_spec. cbn zeta.
      cbn [numNeighborsForAtom]. pose proof (Hpos atom1 Hin). pose proof (Hpos a Ha).
      destruct (Z.eq_dec a atom1) as [->|Hne].
      * rewrite rd_wr_eq; [reflexivity|lia|].
        rewrite (proj1 (storeBatches_frame atom1 _ s)). lia.
      * rewrite rd_wr_ne by lia. by rewrite (proj1 (storeBatches_frame a _ s)).
    + reflexivity.
  - unfold findNeighbors. clear Hpos. revert st.
    induction schedule as [|a rest IH]; intros st p Hin; [by left|].
    cbn [foldl] in Hin. apply IH in Hin. destruct Hin as [Hin|[H1 H2]].
    + apply findNeighborsAtom_range in Hin. destruct Hin as [Hin|[H1 H2]]; [by left|].
      right. rewrite H1. split; [by left|lia].
    + right. split; [by right|exact H2].
Qed.


(** *** Where findNeighbors writes *)

Lemma storePairs_outside atom1 included : forall i pairs j,
  (0 <= i)%Z -> (0 <= j)%Z -> (j < i \/ i + Z.of_nat (length included) <= j)%Z ->
  rd (storePairs atom1 included i pairs) j = rd pairs j.
Proof.
  induction included as [|a rest IH]; intros i pairs j Hi Hj Hout; [reflexivity|].
  cbn [storePairs length] in *. rewrite IH by lia. apply rd_wr_ne; lia.
Qed.

Lemma storeBatch_outside atom1 included st n0 j :
  (0 <= n0 <= numNeighborPairs st)%Z -> (0 <= j)%Z -> (j < n0 \/ maxNeighborPairs <= j)%Z ->
  rd (neighborPairs (storeBatch atom1 included st)) j = rd (neighborPairs st) j.
Proof.
  intros Hn0 Hj Hout. unfold storeBatch.
  destruct (Z.ltb_spec 0 (Z.of_nat (length included))) as [Hpos|Hz]; [|reflexivity].
  cbn [numNeighborPairs neighborPairs numNeighborsForAtom].
  destruct (Z.leb_spec (numNeighborPairs st + Z.of_nat (length included)) maxNeighborPairs)
    as [Hfit|Hover]; cbn [neighborPairs]; [|reflexivity].
  apply storePairs_outside; lia.
Qed.

Lemma storeBatches_outside atom1 batches : forall st n0 j,
  (0 <= n0 <= numNeighborPairs st)%Z ->
  (numNeighborPairs st + Z.of_nat (length (concat batches)) <= INT_MAX)%Z ->
  (0 <= j)%Z -> (j < n0 \/ maxNeighborPairs <= j)%Z ->
  rd (neighborPairs (storeBatches atom1 st batches)) j = rd (neighborPairs st) j.
Proof.
  induction batches as [|b bs IH]; intros st n0 j Hn0 Hmax Hj Hout; [reflexivity|].
  cbn [storeBatches foldl concat] in *. rewrite length_app, Nat2Z.inj_add in Hmax.
  pose proof (storeBatch_count atom1 b st ltac:(lia) ltac:(lia)) as Hb.
  unfold storeBatches in IH. rewrite (IH _ n0) by (rewrite ?Hb; lia).
  apply (storeBatch_outside atom1 b st n0); lia.
Qed.

Record writesBounded (st0 st : NeighborState) : Prop := {
  wb_pairs_length : length (neighborPairs st) = length (neighborPairs st0);
  wb_counts_length : length (numNeighborsForAtom st) = length (numNeighborsForAtom st0);
  wb_pairs : forall j, (0 <= j)%Z -> (j < numNeighborPairs st0 \/ maxNeighborPairs <= j)%Z ->
               rd (neighborPairs st) j = rd (neighborPairs st0) j
}.

Lemma findNeighborsAtom_bounded st0 st atom1 :
  (0 <= numNeighborPairs st0 <= numNeighborPairs st)%Z ->
  (numNeighborPairs st + Z.of_nat (length (acceptedNeighbors atom1)) <= INT_MAX)%Z ->
  writesBounded st0 st -> writesBounded st0 (findNeighborsAtom st atom1).
Proof.
  intros Hn0 Hmax [Hl1 Hl2 Hw]. rewrite findNeighborsAtom_spec. cbn zeta.
  unfold acceptedNeighbors in Hmax. cbn zeta in Hmax. rewrite <- concat_fmap_bind in Hmax.
  set (batches := batchOfTile atom1 <$> _) in *.
  destruct (storeBatches_frame atom1 batches st) as [Hc Hl].
  constructor; cbn [neighborPairs numNeighborsForAtom].
  - congruence.
  - rewrite length_wr. congruence.
  - intros j Hj Hout. rewrite <- (Hw j Hj Hout).
    apply (storeBatches_outside atom1 batches st (numNeighborPairs st0)); lia.
Qed.

Lemma findNeighbors_bounded st0 schedule : forall st,
  (0 <= numNeighborPairs st0 <= numNeighborPairs st)%Z ->
  (numNeighborPairs st + Z.of_nat (length (acceptedPairs schedule)) <= INT_MAX)%Z ->
  writesBounded st0 st -> writesBounded st0 (findNeighbors schedule st).
Proof.
  induction schedule as [|a schedule IH]; intros st Hn0 Hmax Hwb; [exact Hwb|].
  change (acceptedPairs (a :: schedule))
    with ((pair a <$> acceptedNeighbors a) ++ acceptedPairs schedule) in Hmax.
  rewrite length_app, length_fmap, Nat2Z.inj_add in Hmax.
  unfold findNeighbors in *. cbn [foldl].
  pose proof (findNeighbors_total_accepted [a] st ltac:(lia)) as Hstep.
  unfold findNeighbors, acceptedPairs in Hstep. cbn [foldl] in Hstep.
  change ([a] ≫= (fun atom1 => pair atom1 <$> acceptedNeighbors atom1))
    with ((pair a <$> acceptedNeighbors a) ++ []) in Hstep.
  rewrite app_nil_r, length_fmap in Hstep. specialize (Hstep ltac:(lia)).
  apply IH; [lia|lia|].
  apply findNeighborsAtom_bounded; [lia|lia|exact Hwb].
Qed.

Lemma findNeighbors_counts_frame schedule : forall st atom,
  (forall a, a ∈ schedule -> (0 <= a)%Z) -> (0 <= atom)%Z -> atom ∉ schedule ->
  rd (numNeighborsForAtom (findNeighbors schedule st)) atom = rd (numNeighborsForAtom st) atom.
Proof.
  induction schedule as [|a schedule IH]; intros st atom Hpos Hatom Hnot; [reflexivity|].
  unfold findNeighbors in *. cbn [foldl]. rewrite IH.
  - rewrite findNeighborsAtom_spec. cbn zeta. cbn [numNeighborsForAtom].
    rewrite (proj1 (storeBatches_frame _ _ _)).
    apply rd_wr_ne; [apply Hpos; by left|exact Hatom|].
    intros ->. apply Hnot. by left.
  - intros b Hb. apply Hpos. by right.
  - exact Hatom.
  - intros Hin. apply Hnot. by right.
Qed.

(** X6.  findNeighbors writes pairs only at indices from the value
    numNeighborPairs had at entry up to, but not including,
    maxNeighborPairs: every other entry of neighborPairs keeps its value,
    whatever the length of the buffer, so earlier results are not overwritten
    and nothing is written past the capacity.  Both arrays keep their
    lengths, numNeighborPairs does not decrease, and the counts of atoms that
    were not processed are untouched.  (The pair count is assumed to fit an
    int.) *)
Theorem findNeighbors_writes_in_bounds schedule st :
  (0 <= numNeighborPairs st)%Z ->
  (numNeighborPairs st + Z.of_nat (length (acceptedPairs schedule)) <= INT_MAX)%Z ->
  (forall a, a ∈ schedule -> (0 <= a)%Z) ->
  let st' := findNeighbors schedule st in
  length (neighborPairs st') = length (neighborPairs st) /\
  length (numNeighborsForAtom st') = length (numNeighborsForAtom st) /\
  (forall j, (0 <= j)%Z -> (j < numNeighborPairs st \/ maxNeighborPairs <= j)%Z ->
     rd (neighborPairs st') j = rd (neighborPairs st) j) /\
  (numNeighborPairs st <= numNeighborPairs st')%Z /\
  (forall atom, (0 <= atom)%Z -> atom ∉ schedule ->
     rd (numNeighborsForAtom st') atom = rd (numNeighborsForAtom st) atom).
Proof.
  intros H0 Hmax Hpos. cbn zeta.
  assert (writesBounded st st) as Hinit by (constructor; reflexivity).
  destruct (findNeighbors_bounded st schedule st ltac:(lia) Hmax Hinit) as [Hl1 Hl2 Hw].
  split; [exact Hl1|]. split; [exact Hl2|]. split; [exact Hw|]. split.
  - rewrite findNeighbors_total_accepted by assumption. lia.
  - intros atom Hatom Hnot. by apply findNeighbors_counts_frame.
Qed.

Lemma findNeighbors_lengths schedule st :
  length (neighborPairs (findNeighbors schedule st)) = length (neighborPairs st) /\
  length (numNeighborsForAtom (findNeighbors schedule st)) = length (numNeighborsForAtom st).
Proof.
  unfold findNeighbors.
  apply (foldl_invariant
           (fun s => length (neighborPairs s) = length (neighborPairs st) /\
                     length (numNeighborsForAtom s) = length (numNeighborsForAtom st))).
  - intros s a _ [H1 H2]. rewrite findNeighborsAtom_spec. cbn zeta.
    cbn [neighborPairs numNeighborsForAtom]. rewrite length_wr.
    destruct (storeBatches_frame a
                (batchOfTile a <$> seqZ (Z.quot a TILE_SIZE) (NUM_BLOCKS - Z.quot a TILE_SIZE)) s)
      as [Hc Hl].
    rewrite Hc, Hl. auto.
  - auto.
Qed.
(** *** Discovery finds exactly the brute-force pairs *)

Hypothesis HT : (0 < TILE_SIZE)%Z.
Hypothesis HNB : (NUM_ATOMS <= NUM_BLOCKS * TILE_SIZE)%Z.
Hypothesis Hbox : USE_PERIODIC = true ->
  forall a, 0 < proj a periodicBoxSize /\
            proj a invPeriodicBoxSize * proj a periodicBoxSize == 1.
Hypothesis Hbounds : forall b, (0 <= b)%Z -> (b * TILE_SIZE < NUM_ATOMS)%Z ->
  rd blockCenterIn b = snd (blockBounds b) /\
  rd blockBoundingBoxIn b = fst (blockBounds b).
Hypothesis Hsorted : USE_EXCLUSIONS = true ->
  forall atom1, (0 <= atom1 < NUM_ATOMS)%Z ->
                segmentSorted atom1 exclusions exclusionStartIndex.

Lemma tile_of_atom atom : (0 <= atom)%Z ->
  (0 <= atom / TILE_SIZE)%Z /\ (atom / TILE_SIZE * TILE_SIZE <= atom)%Z /\
  (atom < atom / TILE_SIZE * TILE_SIZE + TILE_SIZE)%Z.
Proof.
  intros Ha. pose proof (Z.div_mod atom TILE_SIZE ltac:(lia)).
  pose proof (Z.mod_pos_bound atom TILE_SIZE HT).
  split; [apply Z.div_pos; lia|]. lia.
Qed.

(** The bounding-box test never rejects the tile of a pair within the cutoff. *)
Lemma tile_not_pruned atom1 atom2 :
  (0 <= atom1 < NUM_ATOMS)%Z -> (0 <= atom2 < NUM_ATOMS)%Z ->
  w (delta (rd posq atom1) (rd posq atom2)) < CUTOFF_SQUARED ->
  tileInRange atom1 (atom2 / TILE_SIZE) = true.
Proof.
  intros H1 H2 Hw. unfold tileInRange.
  rewrite Z.quot_div_nonneg by lia.
  destruct (tile_of_atom atom1 ltac:(lia)) as (Hb1 & Hlo1 & Hhi1).
  destruct (tile_of_atom atom2 ltac:(lia)) as (Hb2 & Hlo2 & Hhi2).
  set (b1 := (atom1 / TILE_SIZE)%Z) in *. set (b2 := (atom2 / TILE_SIZE)%Z) in *.
  destruct (Hbounds b1 Hb1 ltac:(lia)) as [-> ->].
  destruct (Hbounds b2 Hb2 ltac:(lia)) as [-> ->].
  pose proof (fun a => blockBounds_covers b1 atom1 a Hlo1 Hhi1 ltac:(lia)) as C1.
  pose proof (fun a => blockBounds_covers b2 atom2 a Hlo2 Hhi2 ltac:(lia)) as C2.
  destruct (blockBounds b1) as [s1 c1]. destruct (blockBounds b2) as [s2 c2].
  cbn [fst snd] in *.
  apply ltb_iff. revert Hw. unfold delta.
  destruct USE_PERIODIC eqn:Hper.
  - specialize (Hbox eq_refl).
    destruct (C1 AxisX) as (kx1 & _ & ? & ?). destruct (C2 AxisX) as (kx2 & _ & ? & ?).
    destruct (C1 AxisY) as (ky1 & _ & ? & ?). destruct (C2 AxisY) as (ky2 & _ & ? & ?).
    destruct (C1 AxisZ) as (kz1 & _ & ? & ?). destruct (C2 AxisZ) as (kz2 & _ & ? & ?).
    destruct (Hbox AxisX) as [? ?]. destruct (Hbox AxisY) as [? ?].
    destruct (Hbox AxisZ) as [? ?].
    cbn [proj x y z w sub4] in *. intros Hw.
    pose proof (gap_axis_periodic (x periodicBoxSize) (x invPeriodicBoxSize)
                  (x (rd posq atom1)) (x (rd posq atom2)) (x c1) (x s1) (x c2) (x s2) kx1 kx2).
    pose proof (gap_axis_periodic (y periodicBoxSize) (y invPeriodicBoxSize)
                  (y (rd posq atom1)) (y (rd posq atom2)) (y c1) (y s1) (y c2) (y s2) ky1 ky2).
    pose proof (gap_axis_periodic (z periodicBoxSize) (z invPeriodicBoxSize)
                  (z (rd posq atom1)) (z (rd posq atom2)) (z c1) (z s1) (z c2) (z s2) kz1 kz2).
    lra.
  - destruct (C1 AxisX) as (kx1 & HkX1 & ? & ?); rewrite (HkX1 eq_refl) in *.
    destruct (C2 AxisX) as (kx2 & HkX2 & ? & ?); rewrite (HkX2 eq_refl) in *.
    destruct (C1 AxisY) as (ky1 & HkY1 & ? & ?); rewrite (HkY1 eq_refl) in *.
    destruct (C2 AxisY) as (ky2 & HkY2 & ? & ?); rewrite (HkY2 eq_refl) in *.
    destruct (C1 AxisZ) as (kz1 & HkZ1 & ? & ?); rewrite (HkZ1 eq_refl) in *.
    destruct (C2 AxisZ) as (kz2 & HkZ2 & ? & ?); rewrite (HkZ2 eq_refl) in *.
    cbn [proj x y z w sub4] in *. unfold inject_Z in *. intros Hw.
    pose proof (gap_axis_plain (x (rd posq atom1)) (x (rd posq atom2)) (x c1) (x s1) (x c2) (x s2)).
    pose proof (gap_axis_plain (y (rd posq atom1)) (y (rd posq atom2)) (y c1) (y s1) (y c2) (y s2)).
    pose proof (gap_axis_plain (z (rd posq atom1)) (z (rd posq atom2)) (z c1) (z s1) (z c2) (z s2)).
    lra.
Qed.

Lemma includeAtom_qualifies atom1 atom2 :
  (0 <= atom1 < NUM_ATOMS)%Z -> includeAtom atom1 atom2 = qualifies atom1 atom2.
Proof.
  intros H1. unfold includeAtom, qualifies, inExclusionSet, exclusionSegment.
  destruct USE_EXCLUSIONS eqn:Hex; simpl.
  - destruct (Z.ltb_spec atom1 atom2) as [Hlt|Hge]; simpl; [|reflexivity].
    rewrite (isInteractionExcluded_existsb atom1 atom2) by auto.
    destruct (_ && _)%bool; reflexivity.
  - rewrite Bool.andb_true_r. reflexivity.
Qed.

Lemma batchOfTile_qualifies atom1 block2 :
  (0 <= atom1 < NUM_ATOMS)%Z -> (0 <= block2)%Z ->
  batchOfTile atom1 block2 = List.filter (qualifies atom1) (seqZ (block2 * TILE_SIZE) TILE_SIZE).
Proof.
  intros H1 Hb. unfold batchOfTile.
  destruct (tileInRange atom1 block2) eqn:Htile.
  - rewrite includedInTile_slots. apply filter_ext. intros a.
    by apply includeAtom_qualifies.
  - symmetry. apply filter_none. intros a Ha.
    apply list_elem_of_In, elem_of_seqZ in Ha.
    destruct (qualifies atom1 a) eqn:Hq; [|reflexivity]. exfalso.
    unfold qualifies in Hq. rewrite !Bool.andb_true_iff in Hq.
    destruct Hq as [[[Hlt HN] Hw] _].
    apply Z.ltb_lt in Hlt, HN. apply ltb_iff in Hw.
    assert (a / TILE_SIZE = block2)%Z as Hdiv.
    { symmetry. apply (Z.div_unique a TILE_SIZE block2 (a - block2 * TILE_SIZE)); lia. }
    pose proof (tile_not_pruned atom1 a H1 ltac:(lia) Hw) as Hin.
    rewrite Hdiv in Hin. congruence.
Qed.

Lemma bind_tiles_filter (f : Z -> bool) (n : nat) : forall b0,
  (b ← seqZ b0 (Z.of_nat n); List.filter f (seqZ (b * TILE_SIZE) TILE_SIZE)) =
  List.filter f (seqZ (b0 * TILE_SIZE) (Z.of_nat n * TILE_SIZE)).
Proof.
  induction n as [|n IH]; intros b0.
  - reflexivity.
  - rewrite (seqZ_cons b0) by lia.
    replace (Z.pred (Z.of_nat (S n))) with (Z.of_nat n) by lia.
    change ((?a :: ?l) ≫= ?g) with (g a ++ (l ≫= g)).
    rewrite IH.
    replace (Z.of_nat (S n) * TILE_SIZE)%Z with (TILE_SIZE + Z.of_nat n * TILE_SIZE)%Z by lia.
    rewrite (seqZ_app (b0 * TILE_SIZE)) by nia.
    rewrite List.filter_app.
    replace (Z.succ b0 * TILE_SIZE)%Z with (b0 * TILE_SIZE + TILE_SIZE)%Z by lia.
    reflexivity.
Qed.

(** The accepted atoms are the brute-force neighbours, in ascending order. *)
Lemma acceptedNeighbors_bruteForce atom1 :
  (0 <= atom1 < NUM_ATOMS)%Z -> acceptedNeighbors atom1 = bruteForceNeighbors atom1.
Proof.
  intros H1. unfold acceptedNeighbors, bruteForceNeighbors.
  rewrite Z.quot_div_nonneg by lia.
  destruct (tile_of_atom atom1 ltac:(lia)) as (Hb1 & Hlo1 & Hhi1).
  set (b1 := (atom1 / TILE_SIZE)%Z) in *.
  assert (b1 < NUM_BLOCKS)%Z as Hb1N by nia.
  transitivity (b ← seqZ b1 (NUM_BLOCKS - b1);
                List.filter (qualifies atom1) (seqZ (b * TILE_SIZE) TILE_SIZE)).
  { apply Forall_bind_ext, Forall_seqZ. intros b Hb.
    apply batchOfTile_qualifies; [exact H1|lia]. }
  rewrite <- (Z2Nat.id (NUM_BLOCKS - b1)) by lia.
  rewrite bind_tiles_filter. rewrite Z2Nat.id by lia.
  assert (forall l, (forall a, In a l -> (a <= atom1 \/ NUM_ATOMS <= a)%Z) ->
                    List.filter (qualifies atom1) l = []) as Hnone.
  { intros l Hl. apply filter_none. intros a Ha. unfold qualifies.
    destruct (Hl a Ha) as [Hle|Hge].
    - destruct (Z.ltb_spec atom1 a); [lia|reflexivity].
    - destruct (Z.ltb_spec a NUM_ATOMS); [lia|]. by rewrite Bool.andb_false_r. }
  transitivity (List.filter (qualifies atom1) (seqZ 0 (NUM_BLOCKS * TILE_SIZE))).
  - replace (NUM_BLOCKS * TILE_SIZE)%Z
      with (b1 * TILE_SIZE + (NUM_BLOCKS - b1) * TILE_SIZE)%Z by lia.
    rewrite (seqZ_app 0) by nia. rewrite List.filter_app.
    rewrite (Hnone (seqZ 0 (b1 * TILE_SIZE))); [reflexivity|].
    intros a Ha. apply list_elem_of_In, elem_of_seqZ in Ha. lia.
  - replace (NUM_BLOCKS * TILE_SIZE)%Z
      with (NUM_ATOMS + (NUM_BLOCKS * TILE_SIZE - NUM_ATOMS))%Z by lia.
    rewrite (seqZ_app 0) by lia. rewrite List.filter_app.
    rewrite (Hnone (seqZ (0 + NUM_ATOMS) _)); [by rewrite app_nil_r|].
    intros a Ha. apply list_elem_of_In, elem_of_seqZ in Ha. lia.
Qed.

(** *** Effect of the kernel on the pair buffer and the counters *)

Definition scheduleInRange (schedule : list Z) : Prop :=
  forall a, a ∈ schedule -> (0 <= a < NUM_ATOMS)%Z.

(** Every atom of the schedule gets the number of its brute-force neighbours. *)
Lemma findNeighbors_counts schedule st atom1 :
  scheduleInRange schedule -> atom1 ∈ schedule ->
  (Z.to_nat NUM_ATOMS <= length (numNeighborsForAtom st))%nat ->
  rd (numNeighborsForAtom (findNeighbors schedule st)) atom1 =
  Z.of_nat (length (bruteForceNeighbors atom1)).
Proof.
  intros Hrange Hin Hlen. unfold findNeighbors.
  apply (foldl_establish
           (fun s => (Z.to_nat NUM_ATOMS <= length (numNeighborsForAtom s))%nat)
           (fun s => rd (numNeighborsForAtom s) atom1 =
                     Z.of_nat (length (bruteForceNeighbors atom1))) _ _ atom1).
  - exact Hin.
  - intros s a Ha Hs. rewrite findNeighborsAtom_spec. cbn zeta.
    cbn [numNeighborsForAtom]. rewrite length_wr.
    by rewrite (proj1 (storeBatches_frame a _ s)).
  - intros s Hs. rewrite findNeighborsAtom_spec. cbn zeta.
    cbn [numNeighborsForAtom]. pose proof (Hrange atom1 Hin).
    rewrite rd_wr_eq; [|lia|rewrite (proj1 (storeBatches_frame atom1 _ s)); lia].
    by rewrite acceptedNeighbors_bruteForce.
  - intros s a Ha Hs Hq. rewrite findNeighborsAtom_spec. cbn zeta.
    cbn [numNeighborsForAtom]. pose proof (Hrange atom1 Hin). pose proof (Hrange a Ha).
    destruct (Z.eq_dec a atom1) as [->|Hne].
    + rewrite rd_wr_eq; [|lia|rewrite (proj1 (storeBatches_frame atom1 _ s)); lia].
      by rewrite acceptedNeighbors_bruteForce.
    + rewrite rd_wr_ne by lia. by rewrite (proj1 (storeBatches_frame a _ s)).
  - exact Hlen.
Qed.

Lemma batches_concat atom1 :
  (0 <= atom1 < NUM_ATOMS)%Z ->
  concat (batchOfTile atom1 <$> seqZ (Z.quot atom1 TILE_SIZE) (NUM_BLOCKS - Z.quot atom1 TILE_SIZE))
  = bruteForceNeighbors atom1.
Proof.
  intros H1. rewrite concat_fmap_bind. by apply acceptedNeighbors_bruteForce.
Qed.

Lemma bruteForcePairs_cons a schedule :
  bruteForcePairs (a :: schedule) =
  (pair a <$> bruteForceNeighbors a) ++ bruteForcePairs schedule.
Proof. reflexivity. Qed.

(** numNeighborPairs ends at the number of accepted pairs, whatever the
    capacity of the buffer. *)
Lemma findNeighbors_total schedule : forall st,
  scheduleInRange schedule ->
  (0 <= numNeighborPairs st)%Z ->
  (numNeighborPairs st + Z.of_nat (length (bruteForcePairs schedule)) <= INT_MAX)%Z ->
  numNeighborPairs (findNeighbors schedule st) =
  (numNeighborPairs st + Z.of_nat (length (bruteForcePairs schedule)))%Z.
Proof.
  induction schedule as [|a schedule IH]; intros st Hrange H0 Hmax.
  - simpl. lia.
  - rewrite bruteForcePairs_cons, length_app, length_fmap, Nat2Z.inj_add in *.
    assert (0 <= a < NUM_ATOMS)%Z as Ha by (apply Hrange; by left).
    assert (scheduleInRange schedule) as Hrange' by (intros b Hb; apply Hrange; by right).
    unfold findNeighbors in *. cbn [foldl].
    assert (numNeighborPairs (findNeighborsAtom st a) =
            (numNeighborPairs st + Z.of_nat (length (bruteForceNeighbors a)))%Z) as Hstep.
    { rewrite findNeighborsAtom_spec. cbn zeta. cbn [numNeighborPairs].
      rewrite storeBatches_count; rewrite ?batches_concat by exact Ha; lia. }
    rewrite IH; rewrite ?Hstep; auto; lia.
Qed.

(** With enough capacity the buffer holds the brute-force pairs, in the order
    of the schedule. *)
Lemma findNeighbors_pairs schedule : forall st,
  scheduleInRange schedule ->
  (0 <= numNeighborPairs st)%Z ->
  (numNeighborPairs st + Z.of_nat (length (bruteForcePairs schedule)) <= maxNeighborPairs)%Z ->
  (maxNeighborPairs <= INT_MAX)%Z ->
  (maxNeighborPairs <= Z.of_nat (length (neighborPairs st)))%Z ->
  take (Z.to_nat (numNeighborPairs st + Z.of_nat (length (bruteForcePairs schedule))))
       (neighborPairs (findNeighbors schedule st)) =
  take (Z.to_nat (numNeighborPairs st)) (neighborPairs st) ++ bruteForcePairs schedule.
Proof.
  induction schedule as [|a schedule IH]; intros st Hrange H0 Hfit Hint Hcap.
  - simpl. rewrite Z.add_0_r. by rewrite app_nil_r.
  - rewrite bruteForcePairs_cons, length_app, length_fmap, Nat2Z.inj_add in *.
    assert (0 <= a < NUM_ATOMS)%Z as Ha by (apply Hrange; by left).
    assert (scheduleInRange schedule) as Hrange' by (intros b Hb; apply Hrange; by right).
    unfold findNeighbors in *. cbn [foldl].
    pose proof (findNeighborsAtom_spec st a) as Hspec. cbn zeta in Hspec.
    set (batches := batchOfTile a <$> _) in Hspec.
    assert (concat batches = bruteForceNeighbors a) as Hcat by (by apply batches_concat).
    assert (numNeighborPairs (findNeighborsAtom st a) =
            (numNeighborPairs st + Z.of_nat (length (bruteForceNeighbors a)))%Z) as Hstep.
    { rewrite Hspec. cbn [numNeighborPairs].
      rewrite storeBatches_count; rewrite ?Hcat; lia. }
    assert (length (neighborPairs (findNeighborsAtom st a)) = length (neighborPairs st)) as Hlen.
    { rewrite Hspec. cbn [neighborPairs]. apply storeBatches_frame. }
    assert (take (Z.to_nat (numNeighborPairs (findNeighborsAtom st a)))
                 (neighborPairs (findNeighborsAtom st a)) =
            take (Z.to_nat (numNeighborPairs st)) (neighborPairs st)
              ++ (pair a <$> bruteForceNeighbors a)) as Hw.
    { rewrite Hstep. rewrite Hspec. cbn [neighborPairs]. rewrite <- Hcat.
      apply storeBatches_fits; rewrite ?Hcat; lia. }
    specialize (IH (findNeighborsAtom st a) Hrange').
    rewrite Hstep, Hlen in IH. rewrite Z.add_assoc. rewrite IH by lia.
    rewrite <- Hstep, Hw. by rewrite app_assoc.
Qed.

End Neighbors.

(** *** Discovery against the brute-force reference *)

Definition boxWellFormed : Prop :=
  USE_PERIODIC = true ->
  forall a, 0 < proj a periodicBoxSize /\
            proj a invPeriodicBoxSize * proj a periodicBoxSize == 1.

Definition exclusionsSorted (exclusions exclusionStartIndex : list Z) : Prop :=
  USE_EXCLUSIONS = true ->
  forall atom1, (0 <= atom1 < NUM_ATOMS)%Z ->
                segmentSorted atom1 exclusions exclusionStartIndex.



(** *** delta as a minimum-image difference *)

Lemma Qfloor_unique (q : Q) (m : Z) :
  inject_Z m <= q -> q < inject_Z (m + 1) -> Qfloor q = m.
Proof.
  intros Hlo Hhi.
  pose proof (Qfloor_resp_le _ _ Hlo) as H1. rewrite Qfloor_Z in H1.
  pose proof (Qfloor_le q) as H2.
  assert (inject_Z (Qfloor q) < inject_Z (m + 1)) as H3 by lra.
  rewrite <- Zlt_Qlt in H3. lia.
Qed.

Lemma Qfloor_shift (q : Q) (k : Z) : Qfloor (q + inject_Z k) = (Qfloor q + k)%Z.
Proof.
  apply Qfloor_unique.
  - rewrite inject_Z_plus. pose proof (Qfloor_le q). lra.
  - pose proof (Qlt_floor q) as H. rewrite !inject_Z_plus in *. lra.
Qed.

(** One axis of the periodic branch of delta. *)
Definition foldAxis (L inv v : Q) : Q := v - floor (v * inv + half) * L.

Lemma foldAxis_range (L inv v : Q) :
  0 < L -> inv * L == 1 ->
  - (L * half) <= foldAxis L inv v /\ foldAxis L inv v < L * half.
Proof.
  intros HL Hinv. unfold foldAxis, floor, half.
  pose proof (Qfloor_le (v * inv + (1 # 2))) as Hlo.
  pose proof (Qlt_floor (v * inv + (1 # 2))) as Hhi.
  rewrite inject_Z_plus in Hhi. change (inject_Z 1) with 1 in Hhi.
  set (m := inject_Z (Qfloor (v * inv + (1 # 2)))) in *.
  assert (v * inv * L == v) as Hv by (rewrite <- Qmult_assoc, Hinv; ring).
  split; nra.
Qed.

Lemma foldAxis_minimal (L inv v : Q) (k : Z) :
  0 < L -> inv * L == 1 ->
  foldAxis L inv v * foldAxis L inv v <= (v - inject_Z k * L) * (v - inject_Z k * L).
Proof.
  intros HL Hinv. destruct (foldAxis_range L inv v HL Hinv) as [Hlo Hhi].
  unfold foldAxis, floor, half in *.
  set (m := Qfloor (v * inv + (1 # 2))) in *.
  set (r := v - inject_Z m * L) in *.
  assert (v - inject_Z k * L == r + inject_Z (m - k)%Z * L) as ->.
  { unfold r, Z.sub. rewrite inject_Z_plus, inject_Z_opp. ring. }
  destruct (Z.eq_dec (m - k)%Z 0%Z) as [->|Hne].
  - unfold inject_Z. nra.
  - assert (m - k <= -1 \/ 1 <= m - k)%Z as [Hn|Hp] by lia.
    + rewrite Zle_Qle in Hn. change (inject_Z (-1)) with (-1) in Hn.
      set (t := inject_Z (m - k)) in *.
      assert (t * L <= - L) as Ht by nra.
      assert (0 <= (- (t * L)) * (- (2 * r + t * L))) as Hprod
        by (apply Qmult_le_0_compat; lra).
      nra.
    + rewrite Zle_Qle in Hp. change (inject_Z 1) with 1 in Hp.
      set (t := inject_Z (m - k)) in *.
      assert (L <= t * L) as Ht by nra.
      assert (0 <= (t * L) * (2 * r + t * L)) as Hprod
        by (apply Qmult_le_0_compat; lra).
      nra.
Qed.

Lemma foldAxis_shift (L inv v v' : Q) (k : Z) :
  inv * L == 1 -> v' == v + inject_Z k * L -> foldAxis L inv v' == foldAxis L inv v.
Proof.
  intros Hinv Hv. unfold foldAxis, floor.
  assert (Qfloor (v' * inv + half) = (Qfloor (v * inv + half) + k)%Z) as ->.
  { rewrite <- Qfloor_shift. apply Qfloor_comp. rewrite Hv.
    assert (inject_Z k * L * inv == inject_Z k) as H by (rewrite <- Qmult_assoc, (Qmult_comm L), Hinv; ring).
    lra. }
  rewrite inject_Z_plus, Hv. ring.
Qed.

Lemma foldAxis_square_opp (L inv v : Q) :
  inv * L == 1 ->
  foldAxis L inv (- v) * foldAxis L inv (- v) == foldAxis L inv v * foldAxis L inv v.
Proof.
  intros Hinv. unfold foldAxis, floor, half.
  pose proof (Qfloor_le (v * inv + (1 # 2))) as Hlo.
  pose proof (Qlt_floor (v * inv + (1 # 2))) as Hhi.
  set (m := Qfloor (v * inv + (1 # 2))) in *.
  assert (v * inv * L == v) as Hv by (rewrite <- Qmult_assoc, Hinv; ring).
  destruct (Qeq_dec (inject_Z m) (v * inv + (1 # 2))) as [Heq|Hne].
  - assert (Qfloor (- v * inv + (1 # 2)) = (1 - m)%Z) as ->.
    { apply Qfloor_unique; unfold Z.sub; rewrite ?inject_Z_plus, ?inject_Z_opp;
        change (inject_Z 1) with 1; lra. }
    unfold Z.sub. rewrite inject_Z_plus, inject_Z_opp. change (inject_Z 1) with 1.
    assert (v == (inject_Z m - (1 # 2)) * L) as Hvm by nra.
    rewrite Hvm. ring.
  - assert (Qfloor (- v * inv + (1 # 2)) = (- m)%Z) as ->.
    { rewrite inject_Z_plus in Hhi. change (inject_Z 1) with 1 in Hhi.
      apply Qfloor_unique; rewrite ?inject_Z_plus, ?inject_Z_opp;
        change (inject_Z 1) with 1; [|lra].
      assert (inject_Z m < v * inv + (1 # 2)) by (apply Qle_lteq in Hlo; tauto). lra. }
    rewrite inject_Z_opp. ring.
Qed.

Lemma delta_periodic_axes (vec1 vec2 : real4) :
  USE_PERIODIC = true ->
  forall a, proj a (delta vec1 vec2) =
            foldAxis (proj a periodicBoxSize) (proj a invPeriodicBoxSize)
                     (proj a vec1 - proj a vec2).
Proof. intros Hp a. unfold delta. rewrite Hp. destruct a; reflexivity. Qed.

Lemma delta_norm (vec1 vec2 : real4) :
  w (delta vec1 vec2) =
  x (delta vec1 vec2) * x (delta vec1 vec2) + y (delta vec1 vec2) * y (delta vec1 vec2)
  + z (delta vec1 vec2) * z (delta vec1 vec2).
Proof. unfold delta. destruct USE_PERIODIC; reflexivity. Qed.

(** X2.  In exact arithmetic ([real] the rationals, no operation rounds),
    with periodic boundaries, a box with positive sides and
    invPeriodicBoxSize exactly its reciprocal: every component of
    delta(vec1, vec2) is the plain difference moved by a whole number of box
    lengths into [-L/2, L/2), and w, the squared length of the result, is the
    smallest squared distance between vec1 and any periodic image of vec2. *)
Theorem delta_minimum_image (vec1 vec2 : real4) :
  USE_PERIODIC = true -> boxWellFormed ->
  let d := delta vec1 vec2 in
  (forall a, exists k : Z,
     proj a d == proj a vec1 - proj a vec2 - inject_Z k * proj a periodicBoxSize) /\
  (forall a, - (proj a periodicBoxSize * half) <= proj a d /\
             proj a d < proj a periodicBoxSize * half) /\
  w d == x d * x d + y d * y d + z d * z d /\
  (forall kx ky kz : Z,
     w d <=
     (x vec1 - x vec2 - inject_Z kx * x periodicBoxSize)
       * (x vec1 - x vec2 - inject_Z kx * x periodicBoxSize)
     + (y vec1 - y vec2 - inject_Z ky * y periodicBoxSize)
       * (y vec1 - y vec2 - inject_Z ky * y periodicBoxSize)
     + (z vec1 - z vec2 - inject_Z kz * z periodicBoxSize)
       * (z vec1 - z vec2 - inject_Z kz * z periodicBoxSize)).
Proof.
  intros Hp Hbox. cbn zeta. specialize (Hbox Hp).
  pose proof (delta_periodic_axes vec1 vec2 Hp) as Hax.
  split; [|split; [|split]].
  - intros a. rewrite Hax. unfold foldAxis, floor.
    exists (Qfloor ((proj a vec1 - proj a vec2) * proj a invPeriodicBoxSize + half)). reflexivity.
  - intros a. rewrite Hax. destruct (Hbox a) as [HL Hinv]. by apply foldAxis_range.
  - rewrite delta_norm. reflexivity.
  - intros kx ky kz. rewrite delta_norm.
    pose proof (Hax AxisX) as Hx. pose proof (Hax AxisY) as Hy. pose proof (Hax AxisZ) as Hz.
    cbn [proj] in Hx, Hy, Hz. rewrite Hx, Hy, Hz.
    destruct (Hbox AxisX) as [HLx Hix]. destruct (Hbox AxisY) as [HLy Hiy].
    destruct (Hbox AxisZ) as [HLz Hiz]. cbn [proj] in *.
    pose proof (foldAxis_minimal _ _ (x vec1 - x vec2) kx HLx Hix).
    pose proof (foldAxis_minimal _ _ (y vec1 - y vec2) ky HLy Hiy).
    pose proof (foldAxis_minimal _ _ (z vec1 - z vec2) kz HLz Hiz).
    lra.
Qed.

(** X3.  In exact arithmetic ([real] the rationals), with periodic
    boundaries, a box with positive sides and invPeriodicBoxSize exactly its
    reciprocal: moving either position by whole box lengths along any axes
    does not change delta, each component and the squared distance keep
    their value. *)
Theorem delta_periodic_shift (vec1 vec2 vec1' vec2' : real4) (k1 k2 : axis -> Z) :
  USE_PERIODIC = true -> boxWellFormed ->
  (forall a, proj a vec1' == proj a vec1 + inject_Z (k1 a) * proj a periodicBoxSize) ->
  (forall a, proj a vec2' == proj a vec2 + inject_Z (k2 a) * proj a periodicBoxSize) ->
  (forall a, proj a (delta vec1' vec2') == proj a (delta vec1 vec2)) /\
  w (delta vec1' vec2') == w (delta vec1 vec2).
Proof.
  intros Hp Hbox H1 H2. specialize (Hbox Hp).
  assert (forall a, proj a (delta vec1' vec2') == proj a (delta vec1 vec2)) as Hax.
  { intros a. rewrite !delta_periodic_axes by exact Hp. destruct (Hbox a) as [_ Hinv].
    apply (foldAxis_shift _ _ _ _ (k1 a - k2 a)%Z Hinv).
    rewrite H1, H2. unfold Z.sub. rewrite inject_Z_plus, inject_Z_opp. ring. }
  split; [exact Hax|]. rewrite !delta_norm.
  pose proof (Hax AxisX) as Hx. pose proof (Hax AxisY) as Hy. pose proof (Hax AxisZ) as Hz.
  cbn [proj] in Hx, Hy, Hz. rewrite Hx, Hy, Hz. reflexivity.
Qed.

(** X4.  In exact arithmetic ([real] the rationals): the squared distance
    computed by delta does not depend on the order of the two positions,
    with or without periodic boundaries (in the periodic case the box has
    positive sides and invPeriodicBoxSize is exactly its reciprocal). *)
Theorem delta_distance_symmetric (vec1 vec2 : real4) :
  boxWellFormed -> w (delta vec1 vec2) == w (delta vec2 vec1).
Proof.
  intros Hbox. rewrite !delta_norm. destruct USE_PERIODIC eqn:Hp.
  - specialize (Hbox Hp).
    assert (forall a, proj a (delta vec1 vec2) * proj a (delta vec1 vec2) ==
                      proj a (delta vec2 vec1) * proj a (delta vec2 vec1)) as Hax.
    { intros a. rewrite !delta_periodic_axes by exact Hp. destruct (Hbox a) as [_ Hinv].
      rewrite <- (foldAxis_square_opp _ _ (proj a vec1 - proj a vec2) Hinv).
      assert (foldAxis (proj a periodicBoxSize) (proj a invPeriodicBoxSize)
                (- (proj a vec1 - proj a vec2)) ==
              foldAxis (proj a periodicBoxSize) (proj a invPeriodicBoxSize)
                (proj a vec2 - proj a vec1)) as ->.
      { apply (foldAxis_shift _ _ _ _ 0%Z Hinv). unfold inject_Z. ring. }
      reflexivity. }
    pose proof (Hax AxisX) as Hx. pose proof (Hax AxisY) as Hy. pose proof (Hax AxisZ) as Hz.
    cbn [proj] in Hx, Hy, Hz. lra.
  - unfold delta. rewrite Hp. cbn [x y z w]. ring.
Qed.

(** *** The tables findBlockBounds leaves behind *)

Lemma blockBounds_nonneg index a : 0 <= proj a (fst (blockBounds index)).
Proof.
  unfold blockBounds.
  set (base := (index * TILE_SIZE)%Z).
  set (pos := wrapFirst (rd posq base)).
  destruct (boundsLoop _ _ pos pos) as [mn mx] eqn:Hloop.
  apply boundsLoop_inv in Hloop. destruct Hloop as [Hmono _].
  destruct (Hmono a) as [H1 H2]. unfold half. destruct a; simpl in *; lra.
Qed.

Definition boundsUntouched (st st' : BoundsState) (index : Z) : Prop :=
  rd (blockCenter st') index = rd (blockCenter st) index /\
  rd (blockBoundingBox st') index = rd (blockBoundingBox st) index.

Lemma boundsWorker_frame (stride : Z) (Hstride : (0 < stride)%Z) (HT : (0 < TILE_SIZE)%Z) :
  forall fuel index st, (0 <= index)%Z ->
    let st' := boundsWorker fuel index stride st in
    length (blockCenter st') = length (blockCenter st) /\
    length (blockBoundingBox st') = length (blockBoundingBox st) /\
    forall b, (0 <= b)%Z -> (NUM_ATOMS <= b * TILE_SIZE)%Z -> boundsUntouched st st' b.
Proof.
  induction fuel as [|fuel IH]; intros index st Hidx; cbn zeta.
  - simpl. split; [reflexivity|]. split; [reflexivity|]. intros b _ _. split; reflexivity.
  - cbn [boundsWorker].
    destruct (Z.ltb_spec (index * TILE_SIZE) NUM_ATOMS) as [Hlt|Hge].
    + destruct (blockBounds index) as [blockSize center].
      set (st1 := mkBoundsState _ _ _).
      destruct (IH (index + stride)%Z st1 ltac:(lia)) as (H1 & H2 & H3).
      split; [rewrite H1; simpl; apply length_wr|].
      split; [rewrite H2; simpl; apply length_wr|].
      intros b Hb Hout. destruct (H3 b Hb Hout) as [Hc Hs]. unfold boundsUntouched.
      rewrite Hc, Hs. simpl. assert (index <> b) by nia.
      rewrite !rd_wr_ne by lia. split; reflexivity.
    + split; [reflexivity|]. split; [reflexivity|]. intros b _ _. split; reflexivity.
Qed.

Lemma findBlockBounds_frame gridDim blockDim st :
  (0 < gridDim)%Z -> (0 < blockDim)%Z -> (0 < TILE_SIZE)%Z ->
  let st' := findBlockBounds gridDim blockDim st in
  length (blockCenter st') = length (blockCenter st) /\
  length (blockBoundingBox st') = length (blockBoundingBox st) /\
  forall b, (0 <= b)%Z -> (NUM_ATOMS <= b * TILE_SIZE)%Z -> boundsUntouched st st' b.
Proof.
  intros HG HB HT. cbn zeta. unfold findBlockBounds.
  apply (foldl_invariant
           (fun s => length (blockCenter s) = length (blockCenter st) /\
                     length (blockBoundingBox s) = length (blockBoundingBox st) /\
                     forall b, (0 <= b)%Z -> (NUM_ATOMS <= b * TILE_SIZE)%Z ->
                               boundsUntouched st s b)).
  - intros s [b t] Hbt (H1 & H2 & H3). apply elem_of_threads in Hbt.
    unfold findBlockBoundsThread.
    destruct (boundsWorker_frame (blockDim * gridDim) ltac:(nia) HT (Z.to_nat NUM_ATOMS)
                (b * blockDim + t)%Z s ltac:(nia)) as (W1 & W2 & W3).
    assert (forall s', blockCenter (if ((b =? 0)%Z && (t =? 0)%Z)%bool
                          then mkBoundsState (blockCenter s') (blockBoundingBox s') 0%Z
                          else s') = blockCenter s' /\
                       blockBoundingBox (if ((b =? 0)%Z && (t =? 0)%Z)%bool
                          then mkBoundsState (blockCenter s') (blockBoundingBox s') 0%Z
                          else s') = blockBoundingBox s') as Hsame.
    { intros s'. destruct ((b =? 0)%Z && (t =? 0)%Z)%bool; split; reflexivity. }
    unfold boundsUntouched in *.
    destruct (Hsame (boundsWorker (Z.to_nat NUM_ATOMS) (b * blockDim + t) (blockDim * gridDim) s))
      as [-> ->].
    split; [congruence|]. split; [congruence|].
    intros b' Hb' Hout. destruct (W3 b' Hb' Hout) as [-> ->]. by apply H3.
  - split; [reflexivity|]. split; [reflexivity|]. intros b _ _. split; reflexivity.
Qed.


(** *** Running discovery again after the buffer was too small *)

End Kernels.

(** *** A concrete run: four atoms in a periodic box of side 10, tiles of
    two atoms, squared cutoff 4, pairs (0,1) and (2,3) excluded *)

Module Demo.

Local Open Scope Q_scope.

Definition atomAt (a b c : Q) : real4 := make_real4 a b c 0.
Definition posq : list real4 :=
  [atomAt 0 0 0; atomAt 1 0 0; atomAt (1#2) (7#8) 0; atomAt (1#2) (1#4) (3#4);
   atomAt 0 0 0; atomAt 0 0 0].
Definition periodicBoxSize : real4 := atomAt 10 10 10.
Definition invPeriodicBoxSize : real4 := atomAt (1#10) (1#10) (1#10).
Definition exclusions : list Z := [1; 0; 3; 2]%Z.
Definition exclusionStartIndex : list Z := [0; 1; 2; 3; 4]%Z.
Definition bounds0 : BoundsState :=
  mkBoundsState (replicate 2 (atomAt 0 0 0)) (replicate 2 (atomAt 0 0 0)) 7%Z.
Definition pairs0 : list (Z * Z) := replicate 8 (0, 0)%Z.
Definition counts0 : list Z := replicate 4 9%Z.
Definition schedule : list Z := [3; 0; 2; 1]%Z.

Lemma box_ok : boxWellFormed true periodicBoxSize invPeriodicBoxSize.
Proof. intros _ a. destruct a; split; reflexivity. Qed.

Lemma exclusions_ok : exclusionsSorted true 4 exclusions exclusionStartIndex.
Proof.
  intros _ atom1 H. apply segmentSortedb_sound.
  assert (atom1 = 0 \/ atom1 = 1 \/ atom1 = 2 \/ atom1 = 3)%Z as Hc by lia.
  destruct Hc as [->|[->|[->| ->]]]; reflexivity.
Qed.

Lemma schedule_ok :
  schedule ≡ₚ (threads 2 1 ≫= workerAtoms 4 2 1).
Proof. apply (bool_decide_unpack _). by vm_compute. Qed.

End Demo.


Lemma findNeighbors_ignores_padding_witness :
  rd (numNeighborsForAtom
        (findNeighbors true true 3 2 2 (4#1) Demo.periodicBoxSize Demo.invPeriodicBoxSize
           Demo.posq [] [] 8 Demo.exclusions Demo.exclusionStartIndex [0; 1; 2]%Z
           (mkNeighborState [] 0 [0; 0; 0]%Z))) 0 =
  Z.of_nat (length (acceptedNeighbors true true 3 2 2 (4#1) Demo.periodicBoxSize
                      Demo.invPeriodicBoxSize Demo.posq [] [] Demo.exclusions
                      Demo.exclusionStartIndex 0)).
Proof.
  refine (proj1 (proj1 (proj2 (proj2 (findNeighbors_ignores_padding true true 3 2 2 (4#1)
            Demo.periodicBoxSize Demo.invPeriodicBoxSize Demo.posq [] [] 8
            Demo.exclusions Demo.exclusionStartIndex [0; 1; 2]%Z
            (mkNeighborState [] 0 [0; 0; 0]%Z) _))) 0%Z _ _)).
  - intros a Ha. rewrite !elem_of_cons, elem_of_nil in Ha. lia.
  - by left.
  - simpl. lia.
Defined.

(** *** delta on concrete positions in the box of side 10 *)

Lemma delta_minimum_image_witness :
  (- (proj AxisX Demo.periodicBoxSize * half) <=
   proj AxisX (delta true Demo.periodicBoxSize Demo.invPeriodicBoxSize
                 (Demo.atomAt 9 0 0) (Demo.atomAt 0 0 0)))%Q.
Proof.
  refine (proj1 (proj1 (proj2 (delta_minimum_image true Demo.periodicBoxSize
            Demo.invPeriodicBoxSize (Demo.atomAt 9 0 0) (Demo.atomAt 0 0 0)
            eq_refl Demo.box_ok)) AxisX)).
Defined.

Definition alongX (k : Z) (a : axis) : Z :=
  match a with AxisX => k | _ => 0%Z end.

Lemma delta_periodic_shift_witness :
  (w (delta true Demo.periodicBoxSize Demo.invPeriodicBoxSize
        (Demo.atomAt 11 0 0) (Demo.atomAt (-17) 1 0)) ==
   w (delta true Demo.periodicBoxSize Demo.invPeriodicBoxSize
        (Demo.atomAt 1 0 0) (Demo.atomAt 3 1 0)))%Q.
Proof.
  refine (proj2 (delta_periodic_shift true Demo.periodicBoxSize Demo.invPeriodicBoxSize
            (Demo.atomAt 1 0 0) (Demo.atomAt 3 1 0) (Demo.atomAt 11 0 0) (Demo.atomAt (-17) 1 0)
            (alongX 1) (alongX (-2)) eq_refl Demo.box_ok _ _));
    intros a; destruct a; by vm_compute.
Defined.

Lemma delta_distance_symmetric_witness :
  (w (delta true Demo.periodicBoxSize Demo.invPeriodicBoxSize
        (Demo.atomAt 5 0 0) (Demo.atomAt 0 0 0)) ==
   w (delta true Demo.periodicBoxSize Demo.invPeriodicBoxSize
        (Demo.atomAt 0 0 0) (Demo.atomAt 5 0 0)))%Q.
Proof.
  exact (delta_distance_symmetric true Demo.periodicBoxSize Demo.invPeriodicBoxSize
           (Demo.atomAt 5 0 0) (Demo.atomAt 0 0 0) Demo.box_ok).
Defined.


Lemma findNeighbors_writes_in_bounds_witness :
  length (neighborPairs
            (findNeighbors true true 3 2 2 (4#1) Demo.periodicBoxSize Demo.invPeriodicBoxSize
               Demo.posq [] [] 8 Demo.exclusions Demo.exclusionStartIndex [0; 1; 2]%Z
               (mkNeighborState Demo.pairs0 0 [0; 0; 0]%Z)))
  = length Demo.pairs0.
Proof.
  refine (proj1 (findNeighbors_writes_in_bounds true true 3 2 2 (4#1)
            Demo.periodicBoxSize Demo.invPeriodicBoxSize Demo.posq [] [] 8
            Demo.exclusions Demo.exclusionStartIndex [0; 1; 2]%Z
            (mkNeighborState Demo.pairs0 0 [0; 0; 0]%Z) _ _ _)).
  - simpl. lia.
  - vm_compute. congruence.
  - intros a Ha. rewrite !elem_of_cons, elem_of_nil in Ha. lia.
Defined.


End Discovery.

(** ** delta, findBlockBounds and findNeighbors in binary64

    The same three functions with [real] the double of a double-precision
    build: every operation rounds as the device's does.  The integer parts of
    findNeighbors ([storeBatch] and the state) are those of [Discovery]. *)

Module Binary64.

Import Stdlib.Floats.Floats.
Import Exclusions.
Import Discovery.

Local Open Scope float_scope.

Definition real : Type := float.

Record real4 : Type := make_real4 { x : real; y : real; z : real; w : real }.

#[global] Instance real4_inhabited : Inhabited real4 := populate (make_real4 0 0 0 0).

Definition add4 (a b : real4) : real4 :=
  make_real4 (x a + x b) (y a + y b) (z a + z b) (w a + w b).
Definition sub4 (a b : real4) : real4 :=
  make_real4 (x a - x b) (y a - y b) (z a - z b) (w a - w b).
Definition scale4 (s : real) (a : real4) : real4 :=
  make_real4 (s * x a) (s * y a) (s * z a) (s * w a).

(** [floor]: the largest integer not above the argument; values from 2^52 on,
    zeros, infinities and NaN are returned as they are. *)
Definition floor (q : real) : real :=
  match Prim2SF q with
  | S754_finite negative m e =>
      if (0 <=? e)%Z then q
      else
        let whole := Z.shiftr (Z.pos m) (- e) in
        let magnitude :=
          if negative
          then (if (Z.shiftl whole (- e) =? Z.pos m)%Z then whole else whole + 1)%Z
          else whole in
        let r := match magnitude with
                 | Z.pos p => SF2Prim (S754_finite false p 0)
                 | _ => 0
                 end in
        if negative then - r else r
  | _ => q
  end.

Definition fabs (q : real) : real := abs q.
(** [min] and [max] of two reals: a NaN operand yields the other one. *)
Definition fmin (a b : real) : real :=
  if is_nan a then b else if is_nan b then a else if b <? a then b else a.
Definition fmax (a b : real) : real :=
  if is_nan a then b else if is_nan b then a else if a <? b then b else a.
Definition ltb (a b : real) : bool := a <? b.

Definition half : real := 0.5.

Record BoundsState : Type := mkBoundsState {
  blockCenter : list real4;
  blockBoundingBox : list real4;
  boundsNumNeighborPairs : Z
}.

Section Kernels.

Variables (USE_PERIODIC USE_EXCLUSIONS : bool).
Variables (NUM_ATOMS TILE_SIZE NUM_BLOCKS : Z).
Variable CUTOFF_SQUARED : real.

Variables (periodicBoxSize invPeriodicBoxSize : real4).
Variable posq : list real4.

(** [delta] (lines 21-30). *)
Definition delta (vec1 vec2 : real4) : real4 :=
  let result := make_real4 (x vec1 - x vec2) (y vec1 - y vec2) (z vec1 - z vec2) 0 in
  let result :=
    if USE_PERIODIC then
      make_real4
        (x result - floor (x result * x invPeriodicBoxSize + half) * x periodicBoxSize)
        (y result - floor (y result * y invPeriodicBoxSize + half) * y periodicBoxSize)
        (z result - floor (z result * z invPeriodicBoxSize + half) * z periodicBoxSize)
        (w result)
    else result in
  make_real4 (x result) (y result) (z result)
             (x result * x result + y result * y result + z result * z result).

(** findBlockBounds, lines 176-181. *)
Definition wrapFirst (pos : real4) : real4 :=
  if USE_PERIODIC then
    make_real4
      (x pos - floor (x pos * x invPeriodicBoxSize) * x periodicBoxSize)
      (y pos - floor (y pos * y invPeriodicBoxSize) * y periodicBoxSize)
      (z pos - floor (z pos * z invPeriodicBoxSize) * z periodicBoxSize)
      (w pos)
  else pos.

(** findBlockBounds, lines 186-192. *)
Definition wrapToCenter (minPos maxPos pos : real4) : real4 :=
  if USE_PERIODIC then
    let center := scale4 half (add4 maxPos minPos) in
    make_real4
      (x pos - floor ((x pos - x center) * x invPeriodicBoxSize + half) * x periodicBoxSize)
      (y pos - floor ((y pos - y center) * y invPeriodicBoxSize + half) * y periodicBoxSize)
      (z pos - floor ((z pos - z center) * z invPeriodicBoxSize + half) * z periodicBoxSize)
      (w pos)
  else pos.

Fixpoint boundsLoop (n : nat) (i : Z) (minPos maxPos : real4) : real4 * real4 :=
  match n with
  | O => (minPos, maxPos)
  | S n' =>
      let pos := wrapToCenter minPos maxPos (rd posq i) in
      let minPos' := make_real4 (fmin (x minPos) (x pos)) (fmin (y minPos) (y pos))
                                (fmin (z minPos) (z pos)) 0 in
      let maxPos' := make_real4 (fmax (x maxPos) (x pos)) (fmax (y maxPos) (y pos))
                                (fmax (z maxPos) (z pos)) 0 in
      boundsLoop n' (i + 1)%Z minPos' maxPos'
  end.

Definition blockBounds (index : Z) : real4 * real4 :=
  let base := (index * TILE_SIZE)%Z in
  let pos := wrapFirst (rd posq base) in
  let last := Z.min (base + TILE_SIZE) NUM_ATOMS in
  let '(minPos, maxPos) := boundsLoop (Z.to_nat (last - (base + 1))) (base + 1)%Z pos pos in
  (scale4 half (sub4 maxPos minPos), scale4 half (add4 maxPos minPos)).

Fixpoint boundsWorker (fuel : nat) (index stride : Z) (st : BoundsState) : BoundsState :=
  match fuel with
  | O => st
  | S fuel' =>
      if (index * TILE_SIZE <? NUM_ATOMS)%Z then
        let '(blockSize, center) := blockBounds index in
        boundsWorker fuel' (index + stride)%Z stride
          (mkBoundsState (wr (blockCenter st) index center)
                         (wr (blockBoundingBox st) index blockSize)
                         (boundsNumNeighborPairs st))
      else st
  end.

Definition findBlockBoundsThread (gridDim blockDim : Z) (st : BoundsState) (bt : Z * Z) : BoundsState :=
  let '(blockIdx, threadIdx) := bt in
  let index := (blockIdx * blockDim + threadIdx)%Z in
  let st := boundsWorker (Z.to_nat NUM_ATOMS) index (blockDim * gridDim)%Z st in
  if ((blockIdx =? 0) && (threadIdx =? 0))%Z
  then mkBoundsState (blockCenter st) (blockBoundingBox st) 0%Z
  else st.

Definition findBlockBounds (gridDim blockDim : Z) (st : BoundsState) : BoundsState :=
  foldl (findBlockBoundsThread gridDim blockDim) st (threads gridDim blockDim).

Section Neighbors.

Variables (blockCenterIn blockBoundingBoxIn : list real4).
Variable maxNeighborPairs : Z.
Variables (exclusions exclusionStartIndex : list Z).

(** Lines 228-239. *)
Definition tileInRange (atom1 block2 : Z) : bool :=
  let block1 := Z.quot atom1 TILE_SIZE in
  let blockCenter1 := rd blockCenterIn block1 in
  let blockSize1 := rd blockBoundingBoxIn block1 in
  let blockCenter2 := rd blockCenterIn block2 in
  let blockSize2 := rd blockBoundingBoxIn block2 in
  let blockDelta := sub4 blockCenter1 blockCenter2 in
  let blockDelta :=
    if USE_PERIODIC then
      make_real4
        (x blockDelta - floor (x blockDelta * x invPeriodicBoxSize + half) * x periodicBoxSize)
        (y blockDelta - floor (y blockDelta * y invPeriodicBoxSize + half) * y periodicBoxSize)
        (z blockDelta - floor (z blockDelta * z invPeriodicBoxSize + half) * z periodicBoxSize)
        (w blockDelta)
    else blockDelta in
  let dx := fmax 0 (fabs (x blockDelta) - x blockSize1 - x blockSize2) in
  let dy := fmax 0 (fabs (y blockDelta) - y blockSize1 - y blockSize2) in
  let dz := fmax 0 (fabs (z blockDelta) - z blockSize1 - z blockSize2) in
  ltb (dx * dx + dy * dy + dz * dz) CUTOFF_SQUARED.

(** Lines 247-256. *)
Definition includeAtom (atom1 atom2 : Z) : bool :=
  let pos1 := rd posq atom1 in
  let pos2 := rd posq atom2 in
  let atomDelta := delta pos1 pos2 in
  let includeAtom := ((atom1 <? atom2)%Z && (atom2 <? NUM_ATOMS)%Z
                      && ltb (w atomDelta) CUTOFF_SQUARED)%bool in
  if USE_EXCLUSIONS then
    if includeAtom
    then (includeAtom && negb (isInteractionExcluded atom1 atom2 exclusions exclusionStartIndex))%bool
    else includeAtom
  else includeAtom.

Fixpoint tileLoop (n : nat) (atom1 atom2 : Z) (included : list Z) : list Z :=
  match n with
  | O => included
  | S n' =>
      tileLoop n' atom1 (atom2 + 1)%Z
        (if includeAtom atom1 atom2 then included ++ [atom2] else included)
  end.

Definition includedInTile (atom1 block2 : Z) : list Z :=
  let start := (block2 * TILE_SIZE)%Z in
  let end_ := ((block2 + 1) * TILE_SIZE)%Z in
  tileLoop (Z.to_nat (end_ - start)) atom1 start [].

Fixpoint blockLoop (n : nat) (atom1 block2 : Z) (totalNeighborsForAtom1 : Z)
    (st : NeighborState) : Z * NeighborState :=
  match n with
  | O => (totalNeighborsForAtom1, st)
  | S n' =>
      if tileInRange atom1 block2 then
        let included := includedInTile atom1 block2 in
        blockLoop n' atom1 (block2 + 1)%Z
          (if (0 <? Z.of_nat (length included))%Z
           then totalNeighborsForAtom1 + Z.of_nat (length included)
           else totalNeighborsForAtom1)%Z
          (storeBatch maxNeighborPairs atom1 included st)
      else blockLoop n' atom1 (block2 + 1)%Z totalNeighborsForAtom1 st
  end.

Definition findNeighborsAtom (st : NeighborState) (atom1 : Z) : NeighborState :=
  let block1 := Z.quot atom1 TILE_SIZE in
  let '(total, st) := blockLoop (Z.to_nat (NUM_BLOCKS - block1)) atom1 block1 0%Z st in
  mkNeighborState (neighborPairs st) (numNeighborPairs st)
                  (wr (numNeighborsForAtom st) atom1 total).

Definition findNeighbors (schedule : list Z) (st : NeighborState) : NeighborState :=
  foldl findNeighborsAtom st schedule.

(** The brute-force reference, with the kernel's own distance test. *)
Definition exclusionSegment (atom1 : Z) : list Z :=
  let first := rd exclusionStartIndex atom1 in
  let last := rd exclusionStartIndex (atom1 + 1) in
  rd exclusions <$> seqZ first (last - first).

Definition inExclusionSet (atom1 atom2 : Z) : bool :=
  (USE_EXCLUSIONS && existsb (Z.eqb atom2) (exclusionSegment atom1))%bool.

Definition qualifies (atom1 atom2 : Z) : bool :=
  ((atom1 <? atom2)%Z && (atom2 <? NUM_ATOMS)%Z
   && ltb (w (delta (rd posq atom1) (rd posq atom2))) CUTOFF_SQUARED
   && negb (inExclusionSet atom1 atom2))%bool.

Definition bruteForceNeighbors (atom1 : Z) : list Z :=
  List.filter (qualifies atom1) (seqZ 0 NUM_ATOMS).

Definition bruteForcePairs (atoms : list Z) : list (Z * Z) :=
  atom1 ← atoms; (fun atom2 => (atom1, atom2)) <$> bruteForceNeighbors atom1.

End Neighbors.

End Kernels.

(** *** Four atoms on a line, tiles of two, squared cutoff 9, no periodic box

    Atoms 0 and 1 (x = 5 and 7) form tile 0, atoms 2 and 3 (x = 0 and
    2+2^-51) tile 1.  The distance of atoms 0 and 3 is 3-2^-51, and its
    square rounds to a value below 9; the gap between the two bounding boxes,
    6-(1+2^-52)-1-(1+2^-52), rounds to 3, whose square is not below 9. *)
Module Demo.

Definition atomAt (a : real) : real4 := make_real4 a 0 0 0.
Definition posq : list real4 := [atomAt 5; atomAt 7; atomAt 0; atomAt (2 + 0x1p-51)].
Definition noBox : real4 := make_real4 0 0 0 0.
Definition bounds : BoundsState :=
  findBlockBounds false 4 2 noBox noBox posq 1 2
                  (mkBoundsState (replicate 2 noBox) (replicate 2 noBox) 7).
Definition found : NeighborState :=
  findNeighbors false false 4 2 2 9 noBox noBox posq
                (blockCenter bounds) (blockBoundingBox bounds) 8 [] [] [0; 1; 2; 3]%Z
                (mkNeighborState (replicate 8 (0, 0)%Z) (boundsNumNeighborPairs bounds)
                                 (replicate 4 0%Z)).
Definition expected : list (Z * Z) :=
  bruteForcePairs false false 4 9 noBox noBox posq [] [] [0; 1; 2; 3]%Z.

End Demo.

End Binary64.

(** *** A periodic box of side 10 with the rounded reciprocal

    The exact kernels of [Discovery] with invPeriodicBoxSize the double
    nearest to 0.1, which lies above 1/10: atom 0 at x = 5 and atom 1 at
    x = -2^-60, tiles of one atom, squared cutoff 25.  delta folds the
    difference 5+2^-60 to -5+2^-60, inside the cutoff; the box test folds the
    difference of the wrapped centres, -5+2^-60, to 5+2^-60, outside it. *)
Module RoundedReciprocal.

Import Discovery.

Local Open Scope Q_scope.

Definition periodicBoxSize : Real.real4 := Real.make_real4 10 10 10 0.
Definition tenth : Q := 3602879701896397 # 36028797018963968.
Definition invPeriodicBoxSize : Real.real4 := Real.make_real4 tenth tenth tenth 0.
Definition posq : list Real.real4 :=
  [Real.make_real4 5 0 0 0; Real.make_real4 (- (1 # 1152921504606846976)) 0 0 0].
Definition bounds : BoundsState :=
  findBlockBounds true 2 1 periodicBoxSize invPeriodicBoxSize posq 1 1
                  (mkBoundsState (replicate 2 periodicBoxSize) (replicate 2 periodicBoxSize) 7).
Definition found : NeighborState :=
  findNeighbors true false 2 1 2 25 periodicBoxSize invPeriodicBoxSize posq
                (blockCenter bounds) (blockBoundingBox bounds) 4 [] [] [0; 1]%Z
                (mkNeighborState (replicate 4 (0, 0)%Z) (boundsNumNeighborPairs bounds)
                                 (replicate 2 0%Z)).
Definition expected : list (Z * Z) :=
  bruteForcePairs true false 2 25 periodicBoxSize invPeriodicBoxSize posq [] [] [0; 1]%Z.

End RoundedReciprocal.


(** ** copyPairsToNeighborList (customManyParticle.cu, lines 313-324) *)

Module Assembly.

Record ListState : Type := mkListState {
  neighbors : list Z;
  numNeighborsForAtom : list Z
}.

Section Kernel.

Variable neighborPairs : list (Z * Z).
Variable neighborStartIndex : list Z.

(** Lines 319-322, one iteration of the loop: [atomicAdd] returns the old
    value of the cursor and leaves it incremented. *)
Definition copyPair (st : ListState) (index : Z) : ListState :=
  let pair := rd neighborPairs index in
  let startIndex := rd neighborStartIndex (fst pair) in
  let offset := rd (numNeighborsForAtom st) (fst pair) in
  mkListState (wr (neighbors st) (startIndex + offset) (snd pair))
              (wr (numNeighborsForAtom st) (fst pair) (int_wrap (offset + 1))).

(** The indices served by worker (blockIdx, threadIdx). *)
Definition workerPairs (gridDim blockDim actualPairs : Z) (bt : Z * Z) : list Z :=
  gridStride (blockDim * fst bt + snd bt) (blockDim * gridDim) actualPairs.

(** The kernel under a schedule, the order in which the iterations take
    effect: the increment of a cursor is atomic and the store that follows goes
    to the slot the increment handed out. *)
Definition copyPairsToNeighborList (numNeighborPairs maxNeighborPairs : Z)
    (schedule : list Z) (st : ListState) : ListState :=
  let actualPairs := numNeighborPairs in
  if maxNeighborPairs <? actualPairs then st
  else foldl copyPair st schedule.

(** *** The scatter fills each atom's range with its neighbours *)

Definition pairsOf (indices : list Z) : list (Z * Z) := rd neighborPairs <$> indices.

Definition forAtom (atom : Z) (pairs : list (Z * Z)) : list Z :=
  snd <$> filter (fun p => fst p = atom) pairs.

Lemma forAtom_app atom l1 l2 : forAtom atom (l1 ++ l2) = forAtom atom l1 ++ forAtom atom l2.
Proof. unfold forAtom. by rewrite filter_app, fmap_app. Qed.

Lemma forAtom_Permutation atom l1 l2 : l1 ≡ₚ l2 -> forAtom atom l1 ≡ₚ forAtom atom l2.
Proof. intros H. unfold forAtom. by rewrite H. Qed.

Lemma forAtom_single atom p :
  forAtom atom [p] = if decide (fst p = atom) then [snd p] else [].
Proof.
  unfold forAtom. rewrite filter_cons, filter_nil. by destruct (decide (fst p = atom)).
Qed.

Section Scatter.

Variables (NUM_ATOMS actualPairs : Z).

Definition candidates : list (Z * Z) := pairsOf (seqZ 0 actualPairs).

Definition countFor (atom : Z) : Z := Z.of_nat (length (forAtom atom candidates)).

(** neighborStartIndex is the exclusive prefix sum of the pair counts, every
    candidate pair has its first atom in range, and the table fits an int. *)
Hypothesis Hstart0 : rd neighborStartIndex 0 = 0.
Hypothesis Hstart : forall atom, 0 <= atom < NUM_ATOMS ->
  rd neighborStartIndex (atom + 1) = rd neighborStartIndex atom + countFor atom.
Hypothesis Hfirst : forall p, p ∈ candidates -> 0 <= fst p < NUM_ATOMS.
Hypothesis Hint : rd neighborStartIndex NUM_ATOMS <= INT_MAX.

Lemma countFor_nonneg atom : 0 <= countFor atom.
Proof. unfold countFor. lia. Qed.

Lemma start_mono (n : nat) : forall atom,
  0 <= atom -> atom + Z.of_nat n <= NUM_ATOMS ->
  rd neighborStartIndex atom <= rd neighborStartIndex (atom + Z.of_nat n).
Proof.
  induction n as [|n IH]; intros atom H0 Hn.
  - rewrite Z.add_0_r. lia.
  - replace (atom + Z.of_nat (S n)) with (atom + Z.of_nat n + 1) by lia.
    rewrite Hstart by lia. pose proof (countFor_nonneg (atom + Z.of_nat n)).
    specialize (IH atom H0 ltac:(lia)). lia.
Qed.

Lemma start_le a b : 0 <= a -> a <= b -> b <= NUM_ATOMS ->
  rd neighborStartIndex a <= rd neighborStartIndex b.
Proof.
  intros Ha Hab Hb. replace b with (a + Z.of_nat (Z.to_nat (b - a))) by lia.
  apply start_mono; lia.
Qed.

Lemma start_nonneg a : 0 <= a <= NUM_ATOMS -> 0 <= rd neighborStartIndex a.
Proof. intros Ha. rewrite <- Hstart0. apply start_le; lia. Qed.

(** What holds once the iterations [done] have taken effect. *)
Record scattered (lenN lenC : nat) (done : list Z) (st : ListState) : Prop := {
  sc_lenN : length (neighbors st) = lenN;
  sc_lenC : length (numNeighborsForAtom st) = lenC;
  sc_cursor : forall atom, 0 <= atom < NUM_ATOMS ->
    rd (numNeighborsForAtom st) atom = Z.of_nat (length (forAtom atom (pairsOf done)));
  sc_slot : forall atom (k : nat), 0 <= atom < NUM_ATOMS ->
    (k < length (forAtom atom (pairsOf done)))%nat ->
    rd (neighbors st) (rd neighborStartIndex atom + Z.of_nat k) =
    forAtom atom (pairsOf done) !!! k
}.

Lemma pairsOf_app l1 l2 : pairsOf (l1 ++ l2) = pairsOf l1 ++ pairsOf l2.
Proof. unfold pairsOf. apply fmap_app. Qed.

Lemma count_prefix atom done rest :
  done ++ rest ≡ₚ seqZ 0 actualPairs ->
  Z.of_nat (length (forAtom atom (pairsOf done))) + Z.of_nat (length (forAtom atom (pairsOf rest)))
  = countFor atom.
Proof.
  intros Hperm. unfold countFor, candidates.
  assert (forAtom atom (pairsOf (seqZ 0 actualPairs)) ≡ₚ forAtom atom (pairsOf (done ++ rest))) as H.
  { apply forAtom_Permutation. unfold pairsOf. by rewrite Hperm. }
  rewrite (Permutation_length H), pairsOf_app, forAtom_app, length_app. lia.
Qed.

Lemma copyPair_scattered lenN lenC done index rest st :
  done ++ index :: rest ≡ₚ seqZ 0 actualPairs ->
  (Z.to_nat NUM_ATOMS <= lenC)%nat ->
  (rd neighborStartIndex NUM_ATOMS <= Z.of_nat lenN) ->
  scattered lenN lenC done st ->
  scattered lenN lenC (done ++ [index]) (copyPair st index).
Proof.
  intros Hperm HlenC HlenN [HN HC Hcur Hslot].
  set (pair := rd neighborPairs index).
  assert (pair ∈ candidates) as Hcand.
  { unfold candidates, pairsOf. apply list_elem_of_fmap. exists index. split; [reflexivity|].
    rewrite <- Hperm. apply elem_of_app. right. by left. }
  pose proof (Hfirst pair Hcand) as Hatom.
  pose proof (count_prefix (fst pair) done (index :: rest) Hperm) as Hcount.
  change (index :: rest) with ([index] ++ rest) in Hcount.
  rewrite pairsOf_app, forAtom_app, length_app in Hcount.
  change (pairsOf [index]) with [pair] in Hcount. rewrite forAtom_single in Hcount.
  destruct (decide (fst pair = fst pair)) as [_|Hne]; [|congruence]. simpl in Hcount.
  set (c := length (forAtom (fst pair) (pairsOf done))) in *.
  pose proof (Hstart (fst pair) Hatom) as Hnext.
  pose proof (start_nonneg (fst pair) ltac:(lia)) as Hs0.
  pose proof (start_le (fst pair + 1) NUM_ATOMS ltac:(lia) ltac:(lia) ltac:(lia)) as Hend.
  assert (Hnew : forall atom, forAtom atom (pairsOf (done ++ [index])) =
                   forAtom atom (pairsOf done) ++
                   (if decide (fst pair = atom) then [snd pair] else [])).
  { intros atom. rewrite pairsOf_app, forAtom_app. f_equal. apply forAtom_single. }
  unfold copyPair. fold pair. rewrite (Hcur (fst pair) Hatom). fold c.
  split; cbn [neighbors numNeighborsForAtom].
  - by rewrite length_wr.
  - by rewrite length_wr.
  - intros atom Ha. rewrite Hnew, length_app.
    destruct (decide (fst pair = atom)) as [<-|Hne].
    + rewrite rd_wr_eq by lia. fold c. simpl.
      rewrite int_wrap_small; [lia|]. unfold INT_MAX in *. lia.
    + rewrite rd_wr_ne by lia. rewrite Hcur by lia. simpl. lia.
  - intros atom k Ha Hk. rewrite Hnew in *. rewrite length_app in Hk.
    destruct (decide (fst pair = atom)) as [<-|Hne].
    + fold c in Hk. simpl in Hk. destruct (decide (k = c)) as [->|Hkc].
      * rewrite rd_wr_eq by lia. fold c.
        by rewrite list_lookup_total_middle.
      * rewrite rd_wr_ne by lia. rewrite lookup_total_app_l by (fold c; lia).
        apply Hslot; [lia|fold c; lia].
    + simpl in Hk. rewrite Nat.add_0_r in Hk. rewrite app_nil_r.
      pose proof (count_prefix atom done (index :: rest) Hperm) as Hcount'.
      pose proof (Hstart atom Ha) as Hnext'.
      assert (rd neighborStartIndex atom + Z.of_nat k <> rd neighborStartIndex (fst pair) + Z.of_nat c).
      { destruct (Z.lt_total atom (fst pair)) as [Hlt|[Heq|Hgt]]; [|congruence|].
        - pose proof (start_le (atom + 1) (fst pair) ltac:(lia) ltac:(lia) ltac:(lia)). lia.
        - pose proof (start_le (fst pair + 1) atom ltac:(lia) ltac:(lia) ltac:(lia)). lia. }
      pose proof (start_nonneg atom ltac:(lia)).
      rewrite rd_wr_ne by lia. by apply Hslot.
Qed.

Lemma foldl_copyPair_scattered lenN lenC rest : forall done st,
  done ++ rest ≡ₚ seqZ 0 actualPairs ->
  (Z.to_nat NUM_ATOMS <= lenC)%nat ->
  (rd neighborStartIndex NUM_ATOMS <= Z.of_nat lenN) ->
  scattered lenN lenC done st ->
  scattered lenN lenC (done ++ rest) (foldl copyPair st rest).
Proof.
  induction rest as [|index rest IH]; intros done st Hperm HC HN Hsc.
  - simpl. by rewrite app_nil_r.
  - cbn [foldl]. replace (done ++ index :: rest) with ((done ++ [index]) ++ rest)
      by (by rewrite <- app_assoc).
    apply IH; auto.
    + by rewrite <- app_assoc.
    + by apply (copyPair_scattered lenN lenC done index rest).
Qed.

Lemma scattered_segment lenN lenC schedule st atom :
  schedule ≡ₚ seqZ 0 actualPairs ->
  rd neighborStartIndex NUM_ATOMS <= Z.of_nat lenN ->
  scattered lenN lenC schedule st ->
  0 <= atom < NUM_ATOMS ->
  take (Z.to_nat (countFor atom)) (drop (Z.to_nat (rd neighborStartIndex atom)) (neighbors st))
  = forAtom atom (pairsOf schedule).
Proof.
  intros Hperm HlenN [HN HC Hcur Hslot] Ha.
  pose proof (count_prefix atom schedule [] ltac:(by rewrite app_nil_r)) as Hcount.
  simpl in Hcount. rewrite Z.add_0_r in Hcount. rewrite <- Hcount, Nat2Z.id.
  pose proof (start_nonneg atom ltac:(lia)) as Hs0.
  pose proof (Hstart atom Ha) as Hnext.
  pose proof (start_le (atom + 1) NUM_ATOMS ltac:(lia) ltac:(lia) ltac:(lia)) as Hend.
  apply list_eq. intros k.
  destruct (decide (k < length (forAtom atom (pairsOf schedule)))%nat) as [Hk|Hk].
  - rewrite lookup_take_lt by exact Hk. rewrite lookup_drop.
    rewrite (list_lookup_lookup_total_lt (forAtom _ _)) by exact Hk.
    rewrite (list_lookup_lookup_total_lt (neighbors st))
      by (clear Hslot Hcur Hstart Hfirst; lia).
    f_equal.
    rewrite <- (Hslot atom k Ha Hk). clear Hslot Hcur Hstart Hfirst.
    unfold rd in *. f_equal. lia.
  - rewrite lookup_take_ge by lia. symmetry. apply lookup_ge_None.
    clear Hslot Hcur Hstart Hfirst. lia.
Qed.

End Scatter.


End Kernel.


End Assembly.

(** *** A concrete run of the assembly *)

Module AssemblyDemo.

Import Assembly.

Definition neighborPairs : list (Z * Z) := [(0, 2); (1, 3); (0, 3); (1, 2); (0, 0); (0, 0)].
Definition neighborStartIndex : list Z := [0; 2; 4; 4; 4].
Definition st0 : ListState := mkListState [7; 7; 7; 7; 7] [0; 0; 0; 0].
Definition schedule : list Z := [2; 1; 0; 3].

Lemma atoms_cases (atom : Z) : 0 <= atom < 4 -> atom = 0 \/ atom = 1 \/ atom = 2 \/ atom = 3.
Proof. lia. Qed.

Lemma start_ok atom : 0 <= atom < 4 ->
  rd neighborStartIndex (atom + 1) =
  rd neighborStartIndex atom + countFor neighborPairs 4 atom.
Proof.
  intros H. destruct (atoms_cases atom H) as [->|[->|[->| ->]]]; reflexivity.
Qed.

Lemma first_ok p : p ∈ candidates neighborPairs 4 -> 0 <= fst p < 4.
Proof.
  intros H.
  assert (candidates neighborPairs 4 = [(0, 2); (1, 3); (0, 3); (1, 2)]) as Hc by reflexivity.
  rewrite Hc in H. rewrite !elem_of_cons, elem_of_nil in H.
  destruct H as [->|[->|[->|[->|[]]]]]; simpl; lia.
Qed.

Lemma zero_ok atom : 0 <= atom < 4 -> rd (numNeighborsForAtom st0) atom = 0.
Proof.
  intros H. destruct (atoms_cases atom H) as [->|[->|[->| ->]]]; reflexivity.
Qed.

Lemma copy_schedule_ok : schedule ≡ₚ (threads 2 2 ≫= workerPairs 2 2 4).
Proof. apply (bool_decide_unpack _). by vm_compute. Qed.

End AssemblyDemo.



(** ** computeNeighborStartIndices (customManyParticle.cu, lines 280-308) *)

Module PrefixSum.

Record ScanState : Type := mkScanState {
  numNeighborsForAtom : list Z;
  neighborStartIndex : list Z;
  globalOffset : Z
}.

Section Kernel.

Variable NUM_ATOMS : Z.
(** The kernel runs as one work group of [blockDim] threads. *)
Variable blockDim : Z.

(** Line 287: every thread loads one count into shared memory. *)
Definition loadCounts (startAtom : Z) (counts : list Z) : list Z :=
  (fun threadIdx =>
     let globalIndex := startAtom + threadIdx in
     if globalIndex <? NUM_ATOMS then uint_wrap (rd counts globalIndex) else 0)
  <$> seqZ 0 blockDim.

(** Lines 293-296, one pass of the inner loop: every thread reads [add], the
    barrier, every thread adds it to its own slot, the barrier. *)
Definition scanStep (step : Z) (posBuffer : list Z) : list Z :=
  let add := (fun threadIdx =>
                if step <=? threadIdx then rd posBuffer (threadIdx - step) else 0)
             <$> seqZ 0 blockDim in
  (fun threadIdx => uint_wrap (rd posBuffer threadIdx + rd add threadIdx))
  <$> seqZ 0 blockDim.

(** Line 292: [for (step = 1; step < blockDim.x; step *= 2)]. *)
Fixpoint scanLoop (fuel : nat) (step : Z) (posBuffer : list Z) : list Z :=
  match fuel with
  | O => posBuffer
  | S fuel' =>
      if step <? blockDim then scanLoop fuel' (step * 2) (scanStep step posBuffer)
      else posBuffer
  end.

(** Lines 301-302 for one thread. *)
Definition storeOffset (startAtom globalOffset : Z) (posBuffer : list Z)
    (table : list Z) (threadIdx : Z) : list Z :=
  let globalIndex := startAtom + threadIdx in
  if globalIndex <? NUM_ATOMS
  then wr table (globalIndex + 1) (int_wrap (uint_wrap (rd posBuffer threadIdx + globalOffset)))
  else table.

(** Line 303 for one thread, as far as the index lies inside the array; the
    store has no bounds test, see [intervalThread]. *)
Definition clearCount (startAtom : Z) (counts : list Z) (threadIdx : Z) : list Z :=
  wr counts (startAtom + threadIdx) 0.

(** Lines 284-304: one pass of the outer loop when the threads move in
    lockstep. *)
Definition scanWindow (st : ScanState) (startAtom : Z) : ScanState :=
  let posBuffer := loadCounts startAtom (numNeighborsForAtom st) in
  let posBuffer := scanLoop (Z.to_nat blockDim) 1 posBuffer in
  mkScanState
    (foldl (clearCount startAtom) (numNeighborsForAtom st) (seqZ 0 blockDim))
    (foldl (storeOffset startAtom (globalOffset st) posBuffer) (neighborStartIndex st)
           (seqZ 0 blockDim))
    (uint_wrap (globalOffset st + rd posBuffer (blockDim - 1))).

(** The reference run: the threads in lockstep from barrier to barrier and
    every store inside its array.  The kernel itself, with the threads taken
    one by one between barriers, is [computeNeighborStartIndices] below. *)
Definition lockstep (numNeighborsForAtom neighborStartIndex : list Z)
    : ScanState :=
  let st := foldl scanWindow (mkScanState numNeighborsForAtom neighborStartIndex 0)
                  (gridStride 0 blockDim NUM_ATOMS) in
  mkScanState (PrefixSum.numNeighborsForAtom st) (wr (PrefixSum.neighborStartIndex st) 0 0)
              (globalOffset st).

(** *** The scan computes prefix sums modulo 2^32 *)

(** counts[lo] + ... + counts[lo+n-1]. *)
Definition sumCounts (counts : list Z) (lo n : Z) : Z :=
  foldr Z.add 0 (rd counts <$> seqZ lo n).

Lemma sumCounts_zero counts lo n : n <= 0 -> sumCounts counts lo n = 0.
Proof. intros Hn. unfold sumCounts. by rewrite seqZ_nil. Qed.

Lemma sumCounts_app counts lo n1 n2 :
  0 <= n1 -> 0 <= n2 ->
  sumCounts counts lo (n1 + n2) = sumCounts counts lo n1 + sumCounts counts (lo + n1) n2.
Proof.
  intros H1 H2. unfold sumCounts. rewrite seqZ_app, fmap_app, foldr_app by lia.
  generalize (foldr Z.add 0 (rd counts <$> seqZ (lo + n1) n2)) as acc.
  induction (rd counts <$> seqZ lo n1) as [|a l IH]; intros acc; simpl; [lia|].
  rewrite IH. lia.
Qed.

Lemma sumCounts_one counts lo : sumCounts counts lo 1 = rd counts lo.
Proof.
  unfold sumCounts. rewrite seqZ_cons by lia. rewrite seqZ_nil by lia. simpl. lia.
Qed.

Lemma sumCounts_succ counts lo n :
  0 <= n -> sumCounts counts lo (n + 1) = sumCounts counts lo n + rd counts (lo + n).
Proof. intros Hn. rewrite sumCounts_app by lia. by rewrite sumCounts_one. Qed.

Lemma sumCounts_nonneg counts lo (n : nat) :
  (forall j, lo <= j < lo + Z.of_nat n -> 0 <= rd counts j) ->
  0 <= sumCounts counts lo (Z.of_nat n).
Proof.
  induction n as [|n IH]; intros Hc; [by rewrite sumCounts_zero|].
  replace (Z.of_nat (S n)) with (Z.of_nat n + 1) by lia.
  rewrite sumCounts_succ by lia.
  specialize (IH ltac:(intros; apply Hc; lia)). specialize (Hc (lo + Z.of_nat n)). lia.
Qed.

Lemma uint_wrap_add a b : uint_wrap (uint_wrap a + uint_wrap b) = uint_wrap (a + b).
Proof. unfold uint_wrap. by rewrite <- Zplus_mod. Qed.

Lemma uint_wrap_add_r a b : uint_wrap (a + uint_wrap b) = uint_wrap (a + b).
Proof. unfold uint_wrap. by rewrite Zplus_mod_idemp_r. Qed.

Lemma uint_wrap_idem a : uint_wrap (uint_wrap a) = uint_wrap a.
Proof. unfold uint_wrap. by rewrite Zmod_mod. Qed.

Lemma rd_tabulate {A} `{Inhabited A} (f : Z -> A) n t :
  0 <= t < n -> rd (f <$> seqZ 0 n) t = f t.
Proof.
  intros Ht. unfold rd.
  rewrite (list_lookup_total_fmap f (seqZ 0 n)) by (rewrite length_seqZ; lia).
  rewrite lookup_total_seqZ_lt by lia. f_equal. lia.
Qed.

Lemma length_tabulate {A} (f : Z -> A) n : length (f <$> seqZ 0 n) = Z.to_nat n.
Proof. by rewrite length_fmap, length_seqZ. Qed.

(** After the passes with steps below [step], slot t holds the sum of the
    loaded values over the last [step] slots up to t. *)
Definition scanned (loaded : list Z) (step : Z) (posBuffer : list Z) : Prop :=
  forall t, 0 <= t < blockDim ->
    rd posBuffer t =
    uint_wrap (sumCounts loaded (Z.max 0 (t - step + 1)) (t + 1 - Z.max 0 (t - step + 1))).

Lemma scanStep_scanned loaded step posBuffer :
  1 <= step -> scanned loaded step posBuffer ->
  scanned loaded (step * 2) (scanStep step posBuffer).
Proof.
  intros Hs Hinv t Ht. unfold scanStep. rewrite !rd_tabulate by lia.
  rewrite (Hinv t Ht). destruct (Z.leb_spec step t) as [Hge|Hlt].
  - rewrite (Hinv (t - step)) by lia. rewrite uint_wrap_add.
    f_equal.
    replace (t + 1 - Z.max 0 (t - step * 2 + 1))
      with ((t - step + 1 - Z.max 0 (t - step - step + 1)) + (t + 1 - Z.max 0 (t - step + 1)))
      by lia.
    rewrite sumCounts_app by lia.
    replace (Z.max 0 (t - step * 2 + 1)) with (Z.max 0 (t - step - step + 1)) by lia.
    replace (Z.max 0 (t - step - step + 1) + (t - step + 1 - Z.max 0 (t - step - step + 1)))
      with (Z.max 0 (t - step + 1)) by lia.
    lia.
  - rewrite Z.add_0_r, uint_wrap_idem.
    replace (Z.max 0 (t - step * 2 + 1)) with 0 by lia.
    replace (Z.max 0 (t - step + 1)) with 0 by lia. reflexivity.
Qed.

Lemma scanLoop_scanned loaded fuel : forall step posBuffer,
  1 <= step -> blockDim <= step + Z.of_nat fuel ->
  scanned loaded step posBuffer ->
  forall t, 0 <= t < blockDim ->
    rd (scanLoop fuel step posBuffer) t = uint_wrap (sumCounts loaded 0 (t + 1)).
Proof.
  induction fuel as [|fuel IH]; intros step posBuffer Hs Hfuel Hinv t Ht.
  - simpl. rewrite (Hinv t Ht). replace (Z.max 0 (t - step + 1)) with 0 by lia.
    by rewrite Z.sub_0_r.
  - cbn [scanLoop]. destruct (Z.ltb_spec step blockDim) as [Hlt|Hge].
    + apply IH; [lia|lia| |exact Ht]. by apply scanStep_scanned.
    + rewrite (Hinv t Ht). replace (Z.max 0 (t - step + 1)) with 0 by lia.
      by rewrite Z.sub_0_r.
Qed.

Lemma loadCounts_scanned startAtom counts :
  scanned (loadCounts startAtom counts) 1 (loadCounts startAtom counts).
Proof.
  intros t Ht. replace (Z.max 0 (t - 1 + 1)) with t by lia.
  replace (t + 1 - t) with 1 by lia. rewrite sumCounts_one.
  unfold loadCounts. rewrite rd_tabulate by lia.
  destruct (_ <? _); [by rewrite uint_wrap_idem|reflexivity].
Qed.

(** The sum of the loaded window is the sum of the counts it covers. *)
Lemma sumCounts_loaded startAtom counts (n : nat) :
  Z.of_nat n <= blockDim ->
  uint_wrap (sumCounts (loadCounts startAtom counts) 0 (Z.of_nat n)) =
  uint_wrap (sumCounts counts startAtom (Z.max 0 (Z.min (Z.of_nat n) (NUM_ATOMS - startAtom)))).
Proof.
  induction n as [|n IH]; intros Hn.
  - rewrite !sumCounts_zero by lia. reflexivity.
  - replace (Z.of_nat (S n)) with (Z.of_nat n + 1) by lia.
    rewrite sumCounts_succ by lia. rewrite <- uint_wrap_add, IH by lia.
    rewrite uint_wrap_add. unfold loadCounts. rewrite rd_tabulate by lia.
    destruct (Z.ltb_spec (startAtom + (0 + Z.of_nat n)) NUM_ATOMS) as [Hlt|Hge].
    + replace (Z.max 0 (Z.min (Z.of_nat n + 1) (NUM_ATOMS - startAtom)))
        with (Z.max 0 (Z.min (Z.of_nat n) (NUM_ATOMS - startAtom)) + 1) by lia.
      rewrite sumCounts_succ by lia. rewrite uint_wrap_add_r. do 2 f_equal.
      f_equal. lia.
    + rewrite Z.add_0_r. do 2 f_equal. lia.
Qed.

Lemma sumCounts_ext counts counts' lo (n : nat) :
  (forall j, lo <= j < lo + Z.of_nat n -> rd counts j = rd counts' j) ->
  sumCounts counts lo (Z.of_nat n) = sumCounts counts' lo (Z.of_nat n).
Proof.
  induction n as [|n IH]; intros Hc; [by rewrite !sumCounts_zero|].
  replace (Z.of_nat (S n)) with (Z.of_nat n + 1) by lia.
  rewrite !sumCounts_succ by lia. rewrite IH by (intros; apply Hc; lia).
  rewrite (Hc (lo + Z.of_nat n)) by lia. reflexivity.
Qed.

Lemma foldl_storeOffset startAtom offset posBuffer (n : nat) : forall table j,
  0 <= startAtom -> 0 <= j -> (Z.to_nat NUM_ATOMS < length table)%nat ->
  let table' := foldl (storeOffset startAtom offset posBuffer) table (seqZ 0 (Z.of_nat n)) in
  length table' = length table /\
  rd table' j =
  if ((startAtom + 1 <=? j) && (j <? startAtom + 1 + Z.of_nat n) && (j - 1 <? NUM_ATOMS))%bool
  then int_wrap (uint_wrap (rd posBuffer (j - 1 - startAtom) + offset))
  else rd table j.
Proof.
  induction n as [|n IH]; intros table j Hs Hj Hlen; cbn zeta.
  - cbn [Z.of_nat seqZ foldl]. rewrite seqZ_nil by lia. cbn [foldl].
    split; [reflexivity|]. case_bounds.
  - rewrite seqZ_S, foldl_snoc. destruct (IH table j Hs Hj Hlen) as [IHlen IHrd].
    set (table1 := foldl _ table _) in *. unfold storeOffset.
    destruct (Z.ltb_spec (startAtom + (0 + Z.of_nat n)) NUM_ATOMS) as [Hlt|Hge].
    + rewrite length_wr. split; [exact IHlen|].
      destruct (Z.eq_dec j (startAtom + (0 + Z.of_nat n) + 1)) as [->|Hne].
      * rewrite rd_wr_eq by lia.
        replace (startAtom + (0 + Z.of_nat n) + 1 - 1 - startAtom) with (0 + Z.of_nat n) by lia.
        case_bounds.
      * rewrite rd_wr_ne by lia. rewrite IHrd. case_bounds.
    + split; [exact IHlen|]. rewrite IHrd. case_bounds.
Qed.

Lemma foldl_clearCount startAtom (n : nat) : forall counts j,
  0 <= startAtom -> 0 <= j -> (Z.to_nat j < length counts)%nat ->
  let counts' := foldl (clearCount startAtom) counts (seqZ 0 (Z.of_nat n)) in
  length counts' = length counts /\
  rd counts' j =
  if ((startAtom <=? j) && (j <? startAtom + Z.of_nat n))%bool then 0 else rd counts j.
Proof.
  induction n as [|n IH]; intros counts j Hs Hj Hlen; cbn zeta.
  - rewrite seqZ_nil by lia. cbn [foldl]. split; [reflexivity|]. case_bounds.
  - rewrite seqZ_S, foldl_snoc. destruct (IH counts j Hs Hj Hlen) as [IHlen IHrd].
    set (counts1 := foldl _ counts _) in *. unfold clearCount.
    rewrite length_wr. split; [exact IHlen|].
    destruct (Z.eq_dec j (startAtom + (0 + Z.of_nat n))) as [->|Hne].
    + rewrite rd_wr_eq by lia. case_bounds.
    + rewrite rd_wr_ne by lia. rewrite IHrd. case_bounds.
Qed.

(** What holds when the outer loop reaches [startAtom]. *)
Record windowsDone (counts0 : list Z) (lenC lenT : nat) (startAtom : Z) (st : ScanState)
    : Prop := {
  wd_lenC : length (numNeighborsForAtom st) = lenC;
  wd_lenT : length (neighborStartIndex st) = lenT;
  wd_offset : globalOffset st = uint_wrap (sumCounts counts0 0 (Z.min startAtom NUM_ATOMS));
  wd_rest : forall j, startAtom <= j < NUM_ATOMS -> rd (numNeighborsForAtom st) j = rd counts0 j;
  wd_cleared : forall j, 0 <= j < Z.min startAtom NUM_ATOMS -> rd (numNeighborsForAtom st) j = 0;
  wd_table : forall k, 0 <= k < Z.min startAtom NUM_ATOMS ->
    rd (neighborStartIndex st) (k + 1) = int_wrap (uint_wrap (sumCounts counts0 0 (k + 1)))
}.

Lemma length_foldl_storeOffset startAtom offset posBuffer threads : forall table,
  length (foldl (storeOffset startAtom offset posBuffer) table threads) = length table.
Proof.
  induction threads as [|t threads IH]; intros table; [reflexivity|].
  cbn [foldl]. rewrite IH. unfold storeOffset. destruct (_ <? _); [apply length_wr|reflexivity].
Qed.

Lemma length_foldl_clearCount startAtom threads : forall counts,
  length (foldl (clearCount startAtom) counts threads) = length counts.
Proof.
  induction threads as [|t threads IH]; intros counts; [reflexivity|].
  cbn [foldl]. rewrite IH. apply length_wr.
Qed.

Lemma uint_wrap_small v : 0 <= v < 2^32 -> uint_wrap v = v.
Proof. intros Hv. unfold uint_wrap. by apply Z.mod_small. Qed.

Section Windows.

Hypothesis HB : 0 < blockDim.

Lemma scanned_window startAtom counts counts0 t :
  0 <= startAtom ->
  (forall j, startAtom <= j < NUM_ATOMS -> rd counts j = rd counts0 j) ->
  0 <= t < blockDim ->
  rd (scanLoop (Z.to_nat blockDim) 1 (loadCounts startAtom counts)) t =
  uint_wrap (sumCounts counts0 startAtom (Z.max 0 (Z.min (t + 1) (NUM_ATOMS - startAtom)))).
Proof.
  intros Hs Hrest Ht.
  rewrite (scanLoop_scanned (loadCounts startAtom counts)); try lia;
    [|apply loadCounts_scanned].
  replace (t + 1) with (Z.of_nat (Z.to_nat (t + 1))) by lia.
  rewrite sumCounts_loaded by lia. f_equal.
  set (m := Z.max 0 _). replace m with (Z.of_nat (Z.to_nat m)) by lia.
  apply sumCounts_ext. intros j Hj. apply Hrest. lia.
Qed.

Lemma scanWindow_done counts0 lenC lenT startAtom st :
  0 <= startAtom < NUM_ATOMS ->
  (Z.to_nat NUM_ATOMS <= lenC)%nat -> (Z.to_nat NUM_ATOMS < lenT)%nat ->
  windowsDone counts0 lenC lenT startAtom st ->
  windowsDone counts0 lenC lenT (startAtom + blockDim) (scanWindow st startAtom).
Proof.
  intros Hs HlenC HlenT [HC HT Hoff Hrest Hclr Htab].
  pose proof (fun t => scanned_window startAtom (numNeighborsForAtom st) counts0 t
                         ltac:(lia) Hrest) as Hpb.
  unfold scanWindow. set (pb := scanLoop _ 1 _) in *.
  split; cbn [numNeighborsForAtom neighborStartIndex globalOffset].
  - by rewrite length_foldl_clearCount.
  - by rewrite length_foldl_storeOffset.
  - rewrite Hoff, (Hpb (blockDim - 1)) by lia. rewrite uint_wrap_add. f_equal.
    replace (Z.min startAtom NUM_ATOMS) with startAtom by lia.
    replace (Z.min (startAtom + blockDim) NUM_ATOMS)
      with (startAtom + Z.max 0 (Z.min (blockDim - 1 + 1) (NUM_ATOMS - startAtom))) by lia.
    rewrite sumCounts_app by lia. by rewrite Z.add_0_l.
  - intros j Hj.
    destruct (foldl_clearCount startAtom (Z.to_nat blockDim) (numNeighborsForAtom st) j)
      as [_ Hrd]; try lia.
    rewrite Z2Nat.id in Hrd by lia. rewrite Hrd.
    destruct (Z.leb_spec startAtom j), (Z.ltb_spec j (startAtom + blockDim));
      cbn [andb]; try lia; apply Hrest; lia.
  - intros j Hj.
    destruct (foldl_clearCount startAtom (Z.to_nat blockDim) (numNeighborsForAtom st) j)
      as [_ Hrd]; try lia.
    rewrite Z2Nat.id in Hrd by lia. rewrite Hrd.
    destruct (Z.leb_spec startAtom j), (Z.ltb_spec j (startAtom + blockDim));
      cbn [andb]; try lia; try reflexivity; apply Hclr; lia.
  - intros k Hk.
    destruct (foldl_storeOffset startAtom (globalOffset st) pb (Z.to_nat blockDim)
                (neighborStartIndex st) (k + 1)) as [_ Hrd]; try lia.
    rewrite Z2Nat.id in Hrd by lia. rewrite Hrd.
    replace (k + 1 - 1) with k by lia.
    destruct (Z.leb_spec (startAtom + 1) (k + 1)), (Z.ltb_spec (k + 1) (startAtom + 1 + blockDim)),
             (Z.ltb_spec k NUM_ATOMS); cbn [andb]; try lia; try (apply Htab; lia).
    rewrite Hoff, (Hpb (k - startAtom)) by lia. rewrite uint_wrap_add. do 2 f_equal.
    replace (Z.min startAtom NUM_ATOMS) with startAtom by lia.
    replace (Z.max 0 (Z.min (k - startAtom + 1) (NUM_ATOMS - startAtom)))
      with (k + 1 - startAtom) by lia.
    replace (k + 1) with (startAtom + (k + 1 - startAtom)) at 2 by lia.
    rewrite (sumCounts_app counts0 0) by lia. rewrite Z.add_0_l. lia.
Qed.

(** The table the reference run leaves, for all inputs: entry k is the sum of
    the first k counts reduced to 32 bits and read as an int. *)
Lemma lockstep_wrapped counts table :
  0 <= NUM_ATOMS ->
  (Z.to_nat NUM_ATOMS <= length counts)%nat -> (Z.to_nat NUM_ATOMS < length table)%nat ->
  let st := lockstep counts table in
  rd (neighborStartIndex st) 0 = 0 /\
  (forall k, 0 <= k < NUM_ATOMS ->
     rd (neighborStartIndex st) (k + 1) = int_wrap (uint_wrap (sumCounts counts 0 (k + 1)))) /\
  (forall k, 0 <= k < NUM_ATOMS -> rd (numNeighborsForAtom st) k = 0).
Proof.
  intros HN HlenC HlenT. cbn zeta. unfold lockstep, gridStride.
  destruct (strideLoop_invariant
              (fun i st => 0 <= i /\ windowsDone counts (length counts) (length table) i st)
              scanWindow blockDim NUM_ATOMS (Z.to_nat (NUM_ATOMS - 0)) HB) with
    (i := 0) (a := mkScanState counts table 0) as (i' & Hi' & Hi0 & Hdone).
  - intros i a Hi [Hi0 Hd]. split; [lia|]. by apply scanWindow_done.
  - lia.
  - split; [lia|]. split; cbn [numNeighborsForAtom neighborStartIndex globalOffset];
      try reflexivity; try (intros; lia).
    replace (Z.min 0 NUM_ATOMS) with 0 by lia. by rewrite sumCounts_zero.
  - destruct Hdone as [HC HT Hoff Hrest Hclr Htab].
    cbn [numNeighborsForAtom neighborStartIndex globalOffset].
    split; [|split].
    + rewrite rd_wr_eq; [reflexivity|lia|]. rewrite HT. lia.
    + intros k Hk. rewrite rd_wr_ne by lia. apply Htab. lia.
    + intros k Hk. apply Hclr. lia.
Qed.

End Windows.

End Kernel.

(** The offset table as the specification describes it. *)
Definition offsetTableCorrect (NUM_ATOMS : Z) (counts table : list Z) : Prop :=
  rd table 0 = 0 /\
  (forall k, 0 <= k < NUM_ATOMS -> rd table (k + 1) - rd table k = rd counts k) /\
  (forall k, 0 <= k < NUM_ATOMS -> rd table k <= rd table (k + 1)) /\
  rd table NUM_ATOMS = sumCounts counts 0 NUM_ATOMS.

Lemma lockstep_exact NUM_ATOMS blockDim counts table :
  0 < blockDim -> 0 <= NUM_ATOMS ->
  (Z.to_nat NUM_ATOMS <= length counts)%nat -> (Z.to_nat NUM_ATOMS < length table)%nat ->
  (forall k, 0 <= k < NUM_ATOMS -> 0 <= rd counts k) ->
  sumCounts counts 0 NUM_ATOMS <= INT_MAX ->
  forall k, 0 <= k <= NUM_ATOMS ->
    rd (neighborStartIndex (lockstep NUM_ATOMS blockDim counts table)) k
    = sumCounts counts 0 k.
Proof.
  intros HB HN HlenC HlenT Hpos Hmax k Hk.
  destruct (lockstep_wrapped NUM_ATOMS blockDim HB counts table HN HlenC HlenT)
    as (H0 & Htab & _).
  destruct (Z.eq_dec k 0) as [->|Hk0]; [by rewrite sumCounts_zero|].
  replace k with (k - 1 + 1) by lia. rewrite Htab by lia.
  replace (k - 1 + 1) with k by lia.
  assert (0 <= sumCounts counts 0 k) as Hlo.
  { replace k with (Z.of_nat (Z.to_nat k)) by lia. apply sumCounts_nonneg.
    intros j Hj. apply Hpos. lia. }
  assert (sumCounts counts 0 k <= sumCounts counts 0 NUM_ATOMS) as Hhi.
  { assert (sumCounts counts 0 NUM_ATOMS =
            sumCounts counts 0 k + sumCounts counts (0 + k) (NUM_ATOMS - k)) as ->
      by (rewrite <- sumCounts_app by lia; f_equal; lia).
    assert (0 <= sumCounts counts (0 + k) (NUM_ATOMS - k)); [|lia].
    replace (NUM_ATOMS - k) with (Z.of_nat (Z.to_nat (NUM_ATOMS - k))) by lia.
    apply sumCounts_nonneg. intros j Hj. apply Hpos. lia. }
  unfold INT_MAX in Hmax.
  rewrite uint_wrap_small by lia. apply int_wrap_small. unfold INT_MAX. lia.
Qed.

(** For counts that are non-negative and whose total fits an int, the
    reference run leaves the offset table of the specification and clears the
    counts. *)
Lemma lockstep_offsets NUM_ATOMS blockDim counts table :
  0 < blockDim -> 0 <= NUM_ATOMS ->
  (Z.to_nat NUM_ATOMS <= length counts)%nat -> (Z.to_nat NUM_ATOMS < length table)%nat ->
  (forall k, 0 <= k < NUM_ATOMS -> 0 <= rd counts k) ->
  sumCounts counts 0 NUM_ATOMS <= INT_MAX ->
  let st := lockstep NUM_ATOMS blockDim counts table in
  offsetTableCorrect NUM_ATOMS counts (neighborStartIndex st) /\
  (forall k, 0 <= k < NUM_ATOMS -> rd (numNeighborsForAtom st) k = 0).
Proof.
  intros HB HN HlenC HlenT Hpos Hmax. cbn zeta.
  pose proof (lockstep_exact NUM_ATOMS blockDim counts table
                HB HN HlenC HlenT Hpos Hmax) as Hex.
  split; [|apply (lockstep_wrapped NUM_ATOMS blockDim HB counts table
                    HN HlenC HlenT)].
  unfold offsetTableCorrect. split; [|split; [|split]].
  - rewrite Hex by lia. by rewrite sumCounts_zero.
  - intros k Hk. rewrite !Hex by lia. rewrite sumCounts_succ by lia.
    rewrite Z.add_0_l. lia.
  - intros k Hk. rewrite !Hex by lia. rewrite sumCounts_succ by lia.
    rewrite Z.add_0_l. specialize (Hpos k Hk). lia.
  - apply Hex. lia.
Qed.
(** *** Everything the reference run changes *)

Definition framed (NUM_ATOMS : Z) (counts0 table0 : list Z) (i : Z) (st : ScanState) : Prop :=
  length (numNeighborsForAtom st) = length counts0 /\
  length (neighborStartIndex st) = length table0 /\
  (forall j, 0 <= j -> (Z.to_nat j < length counts0)%nat ->
     rd (numNeighborsForAtom st) j = if j <? i then 0 else rd counts0 j) /\
  (forall j, NUM_ATOMS < j -> rd (neighborStartIndex st) j = rd table0 j).

Lemma scanWindow_framed NUM_ATOMS blockDim counts0 table0 i st :
  0 < blockDim -> 0 <= i -> 0 <= NUM_ATOMS ->
  (Z.to_nat NUM_ATOMS < length table0)%nat ->
  framed NUM_ATOMS counts0 table0 i st ->
  framed NUM_ATOMS counts0 table0 (i + blockDim) (scanWindow NUM_ATOMS blockDim st i).
Proof.
  intros HB Hi HN HlenT (HC & HT & Hcnt & Htab). unfold scanWindow.
  set (pb := scanLoop _ _ 1 _).
  split; [|split; [|split]]; cbn [numNeighborsForAtom neighborStartIndex globalOffset].
  - by rewrite length_foldl_clearCount.
  - by rewrite length_foldl_storeOffset.
  - intros j Hj Hlen.
    destruct (foldl_clearCount i (Z.to_nat blockDim) (numNeighborsForAtom st) j)
      as [_ Hrd]; try lia.
    rewrite Z2Nat.id in Hrd by lia. rewrite Hrd, Hcnt by assumption.
    destruct (Z.leb_spec i j), (Z.ltb_spec j (i + blockDim)), (Z.ltb_spec j i);
      cbn [andb]; try lia; reflexivity.
  - intros j Hj.
    destruct (foldl_storeOffset NUM_ATOMS i (globalOffset st) pb (Z.to_nat blockDim)
                (neighborStartIndex st) j) as [_ Hrd]; try lia.
    rewrite Z2Nat.id in Hrd by lia. rewrite Hrd. destruct (Z.ltb_spec (j - 1) NUM_ATOMS); [lia|].
    rewrite Bool.andb_false_r. by apply Htab.
Qed.

Lemma rd_beyond {A} `{Inhabited A} (l : list A) j :
  (length l <= Z.to_nat j)%nat -> rd l j = inhabitant.
Proof.
  intros Hlen. unfold rd. rewrite list_lookup_total_alt.
  by rewrite lookup_ge_None_2.
Qed.

Lemma windows_end NUM_ATOMS blockDim i :
  0 < blockDim -> 0 <= NUM_ATOMS -> NUM_ATOMS <= i -> i < NUM_ATOMS + blockDim ->
  i mod blockDim = 0 ->
  i = (NUM_ATOMS + blockDim - 1) / blockDim * blockDim.
Proof.
  intros HB HN Hlo Hhi Hmod.
  assert (i = blockDim * (i / blockDim)) as Hi by (apply Z.div_exact; lia).
  set (q := i / blockDim) in *.
  assert ((NUM_ATOMS + blockDim - 1) / blockDim = q) as ->; [|lia].
  symmetry. apply (Z.div_unique _ _ q (NUM_ATOMS + blockDim - 1 - i)); lia.
Qed.

(** Everything the reference run changes, with no bound on the counts. *)
Lemma lockstep_effect NUM_ATOMS blockDim counts table :
  0 < blockDim -> 0 <= NUM_ATOMS ->
  (Z.to_nat NUM_ATOMS <= length counts)%nat -> (Z.to_nat NUM_ATOMS < length table)%nat ->
  let st := lockstep NUM_ATOMS blockDim counts table in
  let padded := (NUM_ATOMS + blockDim - 1) / blockDim * blockDim in
  length (numNeighborsForAtom st) = length counts /\
  length (neighborStartIndex st) = length table /\
  rd (neighborStartIndex st) 0 = 0 /\
  (forall k, 0 <= k < NUM_ATOMS ->
     rd (neighborStartIndex st) (k + 1) = int_wrap (uint_wrap (sumCounts counts 0 (k + 1)))) /\
  (forall j, NUM_ATOMS < j -> rd (neighborStartIndex st) j = rd table j) /\
  (forall j, 0 <= j < padded -> (Z.to_nat j < length counts)%nat ->
     rd (numNeighborsForAtom st) j = 0) /\
  (forall j, padded <= j -> rd (numNeighborsForAtom st) j = rd counts j).
Proof.
  intros HB HN HlenC HlenT. cbn zeta.
  destruct (lockstep_wrapped NUM_ATOMS blockDim HB counts table HN HlenC HlenT)
    as (H0 & Hsum & _).
  unfold lockstep, gridStride in *.
  destruct (strideLoop_invariant
              (fun i st => 0 <= i /\ i mod blockDim = 0 /\ i < NUM_ATOMS + blockDim /\
                           framed NUM_ATOMS counts table i st)
              (scanWindow NUM_ATOMS blockDim) blockDim NUM_ATOMS (Z.to_nat (NUM_ATOMS - 0)) HB)
    with (i := 0) (a := mkScanState counts table 0) as (i' & Hi' & Hi0 & Hmod & Hlt & Hfr).
  - intros i a Hi (Hi0 & Hmod & _ & Hfr). split; [lia|]. split; [|split; [lia|]].
    + rewrite <- Zplus_mod_idemp_l, Hmod, Z.add_0_l. apply Z_mod_same_full.
    + by apply scanWindow_framed.
  - lia.
  - split; [lia|]. split; [reflexivity|]. split; [lia|].
    split; [reflexivity|]. split; [reflexivity|]. split; [|reflexivity].
    intros j Hj _. cbn [numNeighborsForAtom]. destruct (Z.ltb_spec j 0); [lia|reflexivity].
  - pose proof (windows_end NUM_ATOMS blockDim i' HB HN Hi' Hlt Hmod) as Hpad.
    rewrite <- Hpad. destruct Hfr as (HC & HT & Hcnt & Htab).
    cbn [numNeighborsForAtom neighborStartIndex globalOffset] in *.
    split; [exact HC|]. split; [rewrite length_wr; exact HT|]. split; [exact H0|].
    split; [exact Hsum|]. split; [|split].
    + intros j Hj. rewrite rd_wr_ne by lia. by apply Htab.
    + intros j Hj Hlen. rewrite Hcnt by lia. destruct (Z.ltb_spec j i'); [reflexivity|lia].
    + intros j Hj. destruct (decide (Z.to_nat j < length counts)%nat) as [Hin|Hout].
      * rewrite Hcnt by lia. destruct (Z.ltb_spec j i'); [lia|reflexivity].
      * rewrite !rd_beyond by lia. reflexivity.
Qed.

(** *** The kernel, thread by thread

    The barriers cut the run of a thread into intervals.  Inside the scan
    (lines 292-297) every interval only reads shared memory or only writes
    the thread's own slot, so taking the threads together there loses
    nothing.  From the last barrier of one pass of the outer loop to the
    first barrier of the next (lines 301-304, then 286-288) a thread stores
    its offset, clears its count, adds posBuffer[blockDim.x-1] to its
    globalOffset and loads its slot of posBuffer for the next window: the
    source has no barrier between that read of posBuffer[blockDim.x-1] and
    the load, which thread blockDim.x-1 does into the slot the others read.
    [order startAtom] is the order in which the threads pass the interval
    that follows the scan of the window at [startAtom]; the two accesses of
    one thread to posBuffer[blockDim.x-1] are the only ones that conflict,
    so these orders give every outcome an interleaving can have. *)
Record IntervalState : Type := mkIntervalState {
  iv_numNeighborsForAtom : list Z;
  iv_neighborStartIndex : list Z;
  iv_posBuffer : list Z;
  (** the local variable globalOffset of each thread *)
  iv_globalOffset : list Z;
  (** set once a store of line 303 has fallen outside numNeighborsForAtom;
      from then on the behaviour of the program is undefined *)
  iv_outOfBounds : bool
}.

Section Threads.

Variable NUM_ATOMS : Z.
Variable blockDim : Z.

Definition intervalThread (startAtom : Z) (st : IntervalState) (threadIdx : Z) : IntervalState :=
  let globalIndex := startAtom + threadIdx in
  let table :=
    storeOffset NUM_ATOMS startAtom (rd (iv_globalOffset st) threadIdx) (iv_posBuffer st)
                (iv_neighborStartIndex st) threadIdx in
  let outOfBounds :=
    (iv_outOfBounds st
     || (Z.of_nat (length (iv_numNeighborsForAtom st)) <=? globalIndex))%bool in
  let counts := clearCount startAtom (iv_numNeighborsForAtom st) threadIdx in
  let offsets := wr (iv_globalOffset st) threadIdx
                    (uint_wrap (rd (iv_globalOffset st) threadIdx
                                + rd (iv_posBuffer st) (blockDim - 1))) in
  let next := startAtom + blockDim in
  let posBuffer :=
    if next <? NUM_ATOMS
    then wr (iv_posBuffer st) threadIdx
            (if next + threadIdx <? NUM_ATOMS then uint_wrap (rd counts (next + threadIdx)) else 0)
    else iv_posBuffer st in
  mkIntervalState counts table posBuffer offsets outOfBounds.

Definition intervalWindow (order : Z -> list Z) (st : IntervalState) (startAtom : Z)
    : IntervalState :=
  let scanned := scanLoop blockDim (Z.to_nat blockDim) 1 (iv_posBuffer st) in
  foldl (intervalThread startAtom)
        (mkIntervalState (iv_numNeighborsForAtom st) (iv_neighborStartIndex st) scanned
                         (iv_globalOffset st) (iv_outOfBounds st))
        (order startAtom).

Definition computeNeighborStartIndices (order : Z -> list Z)
    (numNeighborsForAtom neighborStartIndex : list Z) : IntervalState :=
  let st := foldl (intervalWindow order)
                  (mkIntervalState numNeighborsForAtom neighborStartIndex
                     (loadCounts NUM_ATOMS blockDim 0 numNeighborsForAtom)
                     (replicate (Z.to_nat blockDim) 0) false)
                  (gridStride 0 blockDim NUM_ATOMS) in
  mkIntervalState (iv_numNeighborsForAtom st) (wr (iv_neighborStartIndex st) 0 0)
                  (iv_posBuffer st) (iv_globalOffset st) (iv_outOfBounds st).

(** Every thread passes every interval once. *)
Definition orderOk (order : Z -> list Z) : Prop :=
  forall startAtom, order startAtom ≡ₚ seqZ 0 blockDim.

(** No thread is overtaken between two windows: thread blockDim.x-1, whose
    load overwrites the slot the others read, passes last. *)
Definition raceFree (order : Z -> list Z) : Prop :=
  forall startAtom, 0 <= startAtom -> startAtom + blockDim < NUM_ATOMS ->
    exists front, order startAtom = front ++ [blockDim - 1].

(** NUM_ATOMS rounded up to a multiple of the block size: the end of the last
    window. *)
Definition paddedNumAtoms : Z := (NUM_ATOMS + blockDim - 1) / blockDim * blockDim.

End Threads.

(** *** The kernel and the reference run *)

Lemma foldl_comm_Permutation {A B} (f : A -> B -> A) (l1 l2 : list B) :
  (forall a x y, f (f a x) y = f (f a y) x) ->
  l1 ≡ₚ l2 -> forall a, foldl f a l1 = foldl f a l2.
Proof.
  intros Hcomm Hperm.
  induction Hperm as [|x l1 l2 _ IH|x y l|l1 l2 l3 _ IH1 _ IH2]; intros a.
  - reflexivity.
  - cbn [foldl]. apply IH.
  - cbn [foldl]. by rewrite Hcomm.
  - by rewrite IH1, IH2.
Qed.

Lemma wr_comm {A} (l : list A) i j v w :
  (Z.to_nat i = Z.to_nat j -> v = w) -> wr (wr l i v) j w = wr (wr l j w) i v.
Proof.
  intros Hsame. unfold wr. destruct (decide (Z.to_nat i = Z.to_nat j)) as [Heq|Hne].
  - rewrite (Hsame Heq), Heq. reflexivity.
  - by apply list_insert_insert_ne.
Qed.

Lemma clearCount_comm startAtom counts t1 t2 :
  clearCount startAtom (clearCount startAtom counts t1) t2
  = clearCount startAtom (clearCount startAtom counts t2) t1.
Proof. unfold clearCount. by apply wr_comm. Qed.

Lemma storeOffset_comm NUM_ATOMS startAtom offset posBuffer table t1 t2 :
  0 <= startAtom -> 0 <= t1 -> 0 <= t2 ->
  storeOffset NUM_ATOMS startAtom offset posBuffer
    (storeOffset NUM_ATOMS startAtom offset posBuffer table t1) t2
  = storeOffset NUM_ATOMS startAtom offset posBuffer
      (storeOffset NUM_ATOMS startAtom offset posBuffer table t2) t1.
Proof.
  intros Hs H1 H2. unfold storeOffset.
  destruct (startAtom + t1 <? NUM_ATOMS), (startAtom + t2 <? NUM_ATOMS); try reflexivity.
  apply wr_comm. intros Heq. assert (t1 = t2) as -> by lia. reflexivity.
Qed.

Lemma list_eq_rd {A} `{Inhabited A} (l1 l2 : list A) :
  length l1 = length l2 ->
  (forall t, 0 <= t < Z.of_nat (length l1) -> rd l1 t = rd l2 t) -> l1 = l2.
Proof.
  intros Hlen Hrd. apply (list_eq_same_length l1 l2 (length l1)); [by symmetry|reflexivity|].
  intros i x y Hi Hx Hy. specialize (Hrd (Z.of_nat i) ltac:(lia)).
  unfold rd in Hrd. rewrite Nat2Z.id in Hrd.
  rewrite (list_lookup_total_correct _ _ _ Hx), (list_lookup_total_correct _ _ _ Hy) in Hrd.
  exact Hrd.
Qed.

Lemma length_scanLoop blockDim fuel : forall step posBuffer,
  length posBuffer = Z.to_nat blockDim ->
  length (scanLoop blockDim fuel step posBuffer) = Z.to_nat blockDim.
Proof.
  induction fuel as [|fuel IH]; intros step posBuffer Hlen; cbn [scanLoop]; [exact Hlen|].
  destruct (step <? blockDim); [|exact Hlen].
  apply IH. unfold scanStep. by rewrite length_tabulate.
Qed.

Lemma rd_foldl_clearCount_beyond startAtom blockDim counts done j :
  0 <= startAtom -> (forall t, t ∈ done -> 0 <= t < blockDim) ->
  startAtom + blockDim <= j ->
  rd (foldl (clearCount startAtom) counts done) j = rd counts j.
Proof.
  intros Hs Hdone Hj.
  apply (foldl_invariant (fun c => rd c j = rd counts j)); [|reflexivity].
  intros c t Ht Hc. specialize (Hdone t Ht). unfold clearCount.
  rewrite rd_wr_ne by lia. exact Hc.
Qed.

Lemma foldl_comm_Permutation_in {A B} (P : B -> Prop) (f : A -> B -> A) (l1 l2 : list B) :
  (forall a x y, P x -> P y -> f (f a x) y = f (f a y) x) ->
  l1 ≡ₚ l2 -> Forall P l1 -> forall a, foldl f a l1 = foldl f a l2.
Proof.
  intros Hcomm Hperm.
  induction Hperm as [|x l1 l2 _ IH|x y l|l1 l2 l3 H12 IH1 _ IH2]; intros HP a.
  - reflexivity.
  - cbn [foldl]. apply IH. by apply Forall_cons in HP as [_ HP].
  - cbn [foldl]. apply Forall_cons in HP as [Hy HP]. apply Forall_cons in HP as [Hx _].
    by rewrite Hcomm.
  - rewrite IH1 by exact HP. apply IH2. by rewrite <- H12.
Qed.

Lemma strideLoop_simulation {A B} (R : Z -> A -> B -> Prop) (f : A -> Z -> A) (g : B -> Z -> B)
    stride bound fuel :
  (forall i a b, i < bound -> R i a b -> R (i + stride) (f a i) (g b i)) ->
  forall i a b, R i a b ->
    exists i', R i' (foldl f a (strideLoop fuel i stride bound))
                    (foldl g b (strideLoop fuel i stride bound)).
Proof.
  intros Hstep. induction fuel as [|fuel IH]; intros i a b HR.
  - exists i. exact HR.
  - cbn [strideLoop]. destruct (Z.ltb_spec i bound) as [Hlt|Hge].
    + cbn [foldl]. apply IH. by apply Hstep.
    + exists i. exact HR.
Qed.

Lemma rd_replicate {A} `{Inhabited A} (n : nat) (v : A) t :
  0 <= t < Z.of_nat n -> rd (replicate n v) t = v.
Proof. intros Ht. unfold rd. apply lookup_total_replicate_2. lia. Qed.

Section Bridge.

Variables NUM_ATOMS blockDim : Z.
Hypothesis HB : 0 < blockDim.

(** The state when the threads of [done] have passed the interval after the
    scan of the window at [startAtom]. *)
Record passed (startAtom off : Z) (counts table pb : list Z) (done : list Z)
    (s : IntervalState) : Prop := {
  ps_counts : iv_numNeighborsForAtom s = foldl (clearCount startAtom) counts done;
  ps_table : iv_neighborStartIndex s
             = foldl (storeOffset NUM_ATOMS startAtom off pb) table done;
  ps_bounds : iv_outOfBounds s = false;
  ps_lenP : length (iv_posBuffer s) = Z.to_nat blockDim;
  ps_lenO : length (iv_globalOffset s) = Z.to_nat blockDim;
  ps_todo : forall t, 0 <= t < blockDim -> t ∉ done ->
              rd (iv_posBuffer s) t = rd pb t /\ rd (iv_globalOffset s) t = off;
  ps_done : forall t, 0 <= t < blockDim -> t ∈ done ->
              rd (iv_globalOffset s) t = uint_wrap (off + rd pb (blockDim - 1)) /\
              (startAtom + blockDim < NUM_ATOMS ->
               rd (iv_posBuffer s) t =
               if startAtom + blockDim + t <? NUM_ATOMS
               then uint_wrap (rd counts (startAtom + blockDim + t)) else 0);
  ps_last : NUM_ATOMS <= startAtom + blockDim -> iv_posBuffer s = pb
}.

Lemma intervalThreads_passed startAtom off counts table pb : forall done,
  0 <= startAtom ->
  length pb = Z.to_nat blockDim ->
  startAtom + blockDim <= Z.of_nat (length counts) ->
  NoDup done -> (forall t, t ∈ done -> 0 <= t < blockDim) ->
  (startAtom + blockDim < NUM_ATOMS ->
   forall front t, done = front ++ [t] -> blockDim - 1 ∉ front) ->
  passed startAtom off counts table pb done
    (foldl (intervalThread NUM_ATOMS blockDim startAtom)
       (mkIntervalState counts table pb (replicate (Z.to_nat blockDim) off) false) done).
Proof.
  intros done Hs Hpb Hfit. induction done as [|t l IH] using rev_ind; intros Hnd Hin Hrace.
  - cbn [foldl]. constructor; cbn [iv_numNeighborsForAtom iv_neighborStartIndex iv_posBuffer
                                    iv_globalOffset iv_outOfBounds]; auto.
    + by rewrite length_replicate.
    + intros t Ht _. split; [reflexivity|]. apply rd_replicate. lia.
    + intros t _ Ht. by apply elem_of_nil in Ht.
  - apply NoDup_app in Hnd. destruct Hnd as (Hndl & Hdisj & _).
    assert (t ∉ l) as Htl by (intros Hc; apply (Hdisj t Hc); by left).
    assert (0 <= t < blockDim) as Ht by (apply Hin, elem_of_app; right; by left).
    assert (forall t', t' ∈ l -> 0 <= t' < blockDim) as Hinl
      by (intros t' Ht'; apply Hin, elem_of_app; by left).
    specialize (IH Hndl Hinl).
    destruct IH as [Hc Htab Hb HlP HlO Htodo Hdone Hlast].
    { intros Hnext front t' -> Hc. apply (Hrace Hnext (front ++ [t']) t eq_refl).
      apply elem_of_app. by left. }
    rewrite foldl_snoc. set (s := foldl _ _ l) in *.
    destruct (Htodo t Ht Htl) as [Hpt Hot].
    assert (rd (iv_posBuffer s) (blockDim - 1) = rd pb (blockDim - 1)) as Hread.
    { destruct (Z.lt_ge_cases (startAtom + blockDim) NUM_ATOMS) as [Hnext|Hnext].
      - apply Htodo; [lia|]. by apply (Hrace Hnext l t).
      - by rewrite Hlast. }
    assert (length (iv_numNeighborsForAtom s) = length counts) as HlenC
      by (rewrite Hc; apply length_foldl_clearCount).
    unfold intervalThread.
    constructor; cbn [iv_numNeighborsForAtom iv_neighborStartIndex iv_posBuffer
                      iv_globalOffset iv_outOfBounds].
    + by rewrite foldl_snoc, Hc.
    + rewrite foldl_snoc, Htab, Hot. unfold storeOffset. by rewrite Hpt.
    + rewrite Hb, HlenC. cbn [orb]. apply Z.leb_gt. lia.
    + destruct (_ <? _); [by rewrite length_wr|exact HlP].
    + by rewrite length_wr.
    + intros t' Ht' Hnot. rewrite elem_of_app, list_elem_of_singleton in Hnot.
      assert (t' <> t) as Hne by tauto. assert (t' ∉ l) as Hnl by tauto.
      destruct (Htodo t' Ht' Hnl) as [H1 H2].
      split; [|by rewrite rd_wr_ne by lia].
      destruct (_ <? _); [by rewrite rd_wr_ne by lia|exact H1].
    + intros t' Ht' Hmem. rewrite elem_of_app, list_elem_of_singleton in Hmem.
      destruct (Z.eq_dec t' t) as [->|Hne].
      * split.
        -- rewrite rd_wr_eq by lia. by rewrite Hot, Hread.
        -- intros Hnext. destruct (Z.ltb_spec (startAtom + blockDim) NUM_ATOMS); [|lia].
           rewrite rd_wr_eq by lia.
           destruct (startAtom + blockDim + t <? NUM_ATOMS); [|reflexivity].
           f_equal. unfold clearCount. rewrite rd_wr_ne by lia. rewrite Hc.
           apply (rd_foldl_clearCount_beyond startAtom blockDim); auto; lia.
      * destruct Hmem as [Hmem|Hmem]; [|contradiction].
        destruct (Hdone t' Ht' Hmem) as [H1 H2]. split.
        -- by rewrite rd_wr_ne by lia.
        -- intros Hnext. destruct (Z.ltb_spec (startAtom + blockDim) NUM_ATOMS); [|lia].
           rewrite rd_wr_ne by lia. by apply H2.
    + intros Hnext. destruct (Z.ltb_spec (startAtom + blockDim) NUM_ATOMS); [lia|].
      by apply Hlast.
Qed.

(** The kernel and the reference run between two windows. *)
Record agrees (lenC : nat) (i : Z) (st : ScanState) (iv : IntervalState) : Prop := {
  ag_counts : iv_numNeighborsForAtom iv = numNeighborsForAtom st;
  ag_table : iv_neighborStartIndex iv = neighborStartIndex st;
  ag_bounds : iv_outOfBounds iv = false;
  ag_offsets : iv_globalOffset iv = replicate (Z.to_nat blockDim) (globalOffset st);
  ag_loaded : i < NUM_ATOMS ->
              iv_posBuffer iv = loadCounts NUM_ATOMS blockDim i (numNeighborsForAtom st);
  ag_len : length (numNeighborsForAtom st) = lenC;
  ag_start : 0 <= i /\ i mod blockDim = 0
}.

Lemma window_fits i :
  0 <= i -> i mod blockDim = 0 -> i < NUM_ATOMS ->
  i + blockDim <= paddedNumAtoms NUM_ATOMS blockDim.
Proof.
  intros Hi Hmod Hlt. unfold paddedNumAtoms.
  assert (i = blockDim * (i / blockDim)) as Hq by (apply Z.div_exact; lia).
  set (q := i / blockDim) in *.
  assert (q + 1 <= (NUM_ATOMS + blockDim - 1) / blockDim) as Hle
    by (apply Z.div_le_lower_bound; lia).
  nia.
Qed.

Lemma intervalWindow_agrees order lenC i st iv :
  orderOk blockDim order -> raceFree NUM_ATOMS blockDim order ->
  paddedNumAtoms NUM_ATOMS blockDim <= Z.of_nat lenC ->
  i < NUM_ATOMS -> agrees lenC i st iv ->
  agrees lenC (i + blockDim) (scanWindow NUM_ATOMS blockDim st i)
         (intervalWindow NUM_ATOMS blockDim order iv i).
Proof.
  intros Hok Hrace Hpad Hlt [Hc Htab Hb Hoff Hload Hlen [Hi Hmod]].
  pose proof (window_fits i Hi Hmod Hlt) as Hfit.
  specialize (Hload Hlt).
  unfold intervalWindow. rewrite Hc, Htab, Hb, Hoff, Hload.
  set (counts := numNeighborsForAtom st) in *. set (table := neighborStartIndex st).
  set (off := globalOffset st).
  set (pb := scanLoop blockDim (Z.to_nat blockDim) 1 (loadCounts NUM_ATOMS blockDim i counts)).
  assert (length pb = Z.to_nat blockDim) as Hpb.
  { apply length_scanLoop. unfold loadCounts. apply length_tabulate. }
  assert (forall t, t ∈ order i <-> 0 <= t < blockDim) as Hmem.
  { intros t. rewrite (Hok i), elem_of_seqZ. lia. }
  destruct (intervalThreads_passed i off counts table pb (order i)) as
    [Pc Pt Pb PlP PlO _ Pdone Plast]; auto.
  { lia. }
  { rewrite (Hok i). apply NoDup_seqZ. }
  { intros t Ht. by apply Hmem. }
  { intros Hnext front t Heq Hin. destruct (Hrace i Hi Hnext) as (front' & Hfront).
    rewrite Hfront in Heq. apply app_inj_tail in Heq. destruct Heq as [-> _].
    pose proof (NoDup_seqZ 0 blockDim) as Hnd. rewrite <- (Hok i), Hfront in Hnd.
    apply NoDup_app in Hnd. destruct Hnd as (_ & Hdisj & _).
    apply (Hdisj _ Hin). by left. }
  set (s := foldl _ _ (order i)) in *.
  unfold scanWindow. fold counts table off pb.
  constructor; cbn [numNeighborsForAtom neighborStartIndex globalOffset].
  - rewrite Pc. apply foldl_comm_Permutation; [|apply Hok].
    intros a x y. apply clearCount_comm.
  - rewrite Pt. apply (foldl_comm_Permutation_in (fun t => 0 <= t)); [| apply Hok|].
    + intros a x y Hx Hy. by apply storeOffset_comm.
    + apply Forall_forall. intros t Ht. apply Hmem in Ht. lia.
  - exact Pb.
  - apply list_eq_rd; [by rewrite PlO, length_replicate|].
    intros t Ht. rewrite PlO in Ht. rewrite rd_replicate by lia.
    apply Pdone; [lia|]. apply Hmem. lia.
  - intros Hnext. apply list_eq_rd.
    + rewrite PlP. unfold loadCounts. by rewrite length_tabulate.
    + intros t Ht. rewrite PlP in Ht.
      destruct (Pdone t ltac:(lia) ltac:(apply Hmem; lia)) as [_ Hp].
      rewrite (Hp Hnext). unfold loadCounts. rewrite rd_tabulate by lia.
      destruct (i + blockDim + t <? NUM_ATOMS); [|reflexivity]. f_equal. symmetry.
      apply (rd_foldl_clearCount_beyond i blockDim); [lia| |lia].
      intros t' Ht'. apply elem_of_seqZ in Ht'. lia.
  - by rewrite length_foldl_clearCount.
  - split; [lia|]. rewrite <- Zplus_mod_idemp_l, Hmod, Z.add_0_l. apply Z_mod_same_full.
Qed.

(** When no thread is overtaken between windows and the counts array
    reaches the end of the last window, the kernel leaves what the reference
    run leaves, and no store falls outside the arrays. *)
Lemma computeNeighborStartIndices_lockstep order counts table :
  orderOk blockDim order -> raceFree NUM_ATOMS blockDim order ->
  paddedNumAtoms NUM_ATOMS blockDim <= Z.of_nat (length counts) ->
  let st := computeNeighborStartIndices NUM_ATOMS blockDim order counts table in
  iv_numNeighborsForAtom st = numNeighborsForAtom (lockstep NUM_ATOMS blockDim counts table) /\
  iv_neighborStartIndex st = neighborStartIndex (lockstep NUM_ATOMS blockDim counts table) /\
  iv_outOfBounds st = false.
Proof.
  intros Hok Hrace Hpad. cbn zeta. unfold computeNeighborStartIndices, lockstep, gridStride.
  destruct (strideLoop_simulation (fun i st iv => agrees (length counts) i st iv)
              (scanWindow NUM_ATOMS blockDim) (intervalWindow NUM_ATOMS blockDim order)
              blockDim NUM_ATOMS (Z.to_nat (NUM_ATOMS - 0))) with
    (i := 0) (a := mkScanState counts table 0)
    (b := mkIntervalState counts table (loadCounts NUM_ATOMS blockDim 0 counts)
            (replicate (Z.to_nat blockDim) 0) false) as (i' & Hag).
  - intros i st iv Hlt Hag. by apply intervalWindow_agrees.
  - constructor; cbn [numNeighborsForAtom neighborStartIndex globalOffset
                      iv_numNeighborsForAtom iv_neighborStartIndex iv_posBuffer
                      iv_globalOffset iv_outOfBounds]; auto.
    split; [lia|]. apply Z.mod_0_l. lia.
  - destruct Hag as [Hc Htab Hb _ _ _ _].
    cbn [numNeighborsForAtom neighborStartIndex globalOffset
         iv_numNeighborsForAtom iv_neighborStartIndex iv_outOfBounds].
    by rewrite Hc, Htab, Hb.
Qed.

End Bridge.

(** *** What the kernel guarantees, and where it fails *)

(** X9.  computeNeighborStartIndices for any work-group size and any order in
    which the threads pass from barrier to barrier, provided that between two
    windows thread blockDim.x-1 passes last (nothing is asked when there is a
    single window, NUM_ATOMS <= blockDim.x) and that numNeighborsForAtom
    reaches the end of the last window (NUM_ATOMS rounded up to a multiple of
    the block size): no store falls outside the arrays; entry 0 of the table
    is 0 and entry k+1 is the sum of the counts of atoms 0 to k taken modulo
    2^32 and read as a signed int, which is the table of the specification
    when the counts are non-negative and their total fits an int; table
    entries beyond NUM_ATOMS are untouched; the counts are cleared in whole
    windows, the padding included, and untouched from there on; both arrays
    keep their lengths. *)
Theorem computeNeighborStartIndices_effect NUM_ATOMS blockDim order counts table :
  0 < blockDim -> 0 <= NUM_ATOMS ->
  orderOk blockDim order -> raceFree NUM_ATOMS blockDim order ->
  paddedNumAtoms NUM_ATOMS blockDim <= Z.of_nat (length counts) ->
  (Z.to_nat NUM_ATOMS < length table)%nat ->
  let st := computeNeighborStartIndices NUM_ATOMS blockDim order counts table in
  let padded := paddedNumAtoms NUM_ATOMS blockDim in
  iv_outOfBounds st = false /\
  length (iv_numNeighborsForAtom st) = length counts /\
  length (iv_neighborStartIndex st) = length table /\
  rd (iv_neighborStartIndex st) 0 = 0 /\
  (forall k, 0 <= k < NUM_ATOMS ->
     rd (iv_neighborStartIndex st) (k + 1) = int_wrap (uint_wrap (sumCounts counts 0 (k + 1)))) /\
  ((forall k, 0 <= k < NUM_ATOMS -> 0 <= rd counts k) ->
   sumCounts counts 0 NUM_ATOMS <= INT_MAX ->
   offsetTableCorrect NUM_ATOMS counts (iv_neighborStartIndex st)) /\
  (forall j, NUM_ATOMS < j -> rd (iv_neighborStartIndex st) j = rd table j) /\
  (forall j, 0 <= j < padded -> rd (iv_numNeighborsForAtom st) j = 0) /\
  (forall j, padded <= j -> rd (iv_numNeighborsForAtom st) j = rd counts j).
Proof.
  intros HB HN Hok Hrace Hpad HlenT. cbn zeta.
  destruct (computeNeighborStartIndices_lockstep NUM_ATOMS blockDim HB order counts table
              Hok Hrace Hpad) as (-> & -> & ->).
  assert (NUM_ATOMS <= paddedNumAtoms NUM_ATOMS blockDim) as Hle.
  { unfold paddedNumAtoms.
    pose proof (Z.mul_div_le (NUM_ATOMS + blockDim - 1) blockDim HB) as H1.
    pose proof (Z.mod_pos_bound (NUM_ATOMS + blockDim - 1) blockDim HB) as H2.
    pose proof (Z.div_mod (NUM_ATOMS + blockDim - 1) blockDim ltac:(lia)) as H3.
    rewrite Z.mul_comm. lia. }
  assert (Z.to_nat NUM_ATOMS <= length counts)%nat as HlenC by lia.
  destruct (lockstep_effect NUM_ATOMS blockDim counts table HB HN HlenC HlenT)
    as (H1 & H2 & H3 & H4 & H5 & H6 & H7).
  split; [reflexivity|]. split; [exact H1|]. split; [exact H2|]. split; [exact H3|].
  split; [exact H4|]. split; [|split; [exact H5|split; [|exact H7]]].
  - intros Hpos Hmax.
    apply (lockstep_offsets NUM_ATOMS blockDim counts table HB HN HlenC HlenT Hpos Hmax).
  - intros j Hj. apply H6; [exact Hj|]. unfold paddedNumAtoms in *. lia.
Qed.

(** Seven atoms scanned by three threads, thread 1 ahead of thread 0 in every
    interval; the counts array has the nine entries of three windows. *)
Lemma computeNeighborStartIndices_effect_witness :
  iv_outOfBounds
    (computeNeighborStartIndices 7 3 (fun _ => [1; 0; 2]) [3; 1; 4; 1; 5; 9; 2; 6; 5]
       (replicate 8 77)) = false.
Proof.
  refine (proj1 (computeNeighborStartIndices_effect 7 3 (fun _ => [1; 0; 2])
                   [3; 1; 4; 1; 5; 9; 2; 6; 5] (replicate 8 77) _ _ _ _ _ _));
    try lia.
  - intros startAtom. apply (bool_decide_unpack _). by vm_compute.
  - intros startAtom _ _. by exists [1; 0].
  - vm_compute. congruence.
  - simpl. lia.
Defined.

(** C3.  The kernel does not keep the claim: it has no barrier between the
    read of posBuffer[blockDim.x-1] at line 304 and the load of the next
    window into posBuffer at line 287.  Four atoms with one neighbour each
    and a work group of two threads: when, between the two windows, thread 1
    passes before thread 0, it has loaded the next count into posBuffer[1]
    before thread 0 adds posBuffer[1] to its globalOffset, and the table ends
    as 0, 1, 2, 2, 4: entries 2 and 3 do not differ by the count of atom 2.
    With thread 0 first the table is 0, 1, 2, 3, 4.  And with seven atoms,
    three threads and an array of seven counts, the store of line 303, which
    has no bounds test, falls outside the array (indices 7 and 8). *)
Lemma computeNeighborStartIndices_race :
  orderOk 2 (fun _ => [1; 0]) /\
  iv_neighborStartIndex
    (computeNeighborStartIndices 4 2 (fun _ => [1; 0]) [1; 1; 1; 1] (replicate 5 0))
  = [0; 1; 2; 2; 4] /\
  ~ offsetTableCorrect 4 [1; 1; 1; 1]
      (iv_neighborStartIndex
         (computeNeighborStartIndices 4 2 (fun _ => [1; 0]) [1; 1; 1; 1] (replicate 5 0))) /\
  iv_neighborStartIndex
    (computeNeighborStartIndices 4 2 (fun _ => [0; 1]) [1; 1; 1; 1] (replicate 5 0))
  = [0; 1; 2; 3; 4] /\
  iv_outOfBounds
    (computeNeighborStartIndices 7 3 (fun _ => [0; 1; 2]) [3; 1; 4; 1; 5; 9; 2]
       (replicate 8 77)) = true.
Proof.
  split; [intros startAtom; apply (bool_decide_unpack _); by vm_compute|].
  split; [reflexivity|]. split; [|split; reflexivity].
  intros (_ & Hdiff & _). specialize (Hdiff 2 ltac:(lia)). vm_compute in Hdiff. discriminate.
Qed.

(** The sums are formed in unsigned int and stored into int entries: two
    atoms with 2^31 - 1 and 1 neighbours give the table 0, 2^31 - 1, -2^31,
    whatever the order of the threads. *)
Lemma computeNeighborStartIndices_overflow :
  (forall k, 0 <= k < 2 -> 0 <= rd [2147483647; 1] k) /\
  ~ offsetTableCorrect 2 [2147483647; 1]
      (iv_neighborStartIndex
         (computeNeighborStartIndices 2 2 (fun _ => [1; 0]) [2147483647; 1] [0; 0; 0])).
Proof.
  split.
  - intros k Hk. assert (k = 0 \/ k = 1) as [->| ->] by lia; vm_compute; congruence.
  - intros (_ & _ & Hmono & _). specialize (Hmono 1 ltac:(lia)).
    vm_compute in Hmono. by apply Hmono.
Qed.

End PrefixSum.

(** ** The four kernels in sequence: positions to neighbor list *)

Module Pipeline.

Lemma pairsOf_take (pairs : list (Z * Z)) (n : Z) :
  n <= Z.of_nat (length pairs) ->
  Assembly.pairsOf pairs (seqZ 0 n) = take (Z.to_nat n) pairs.
Proof.
  intros Hn. unfold Assembly.pairsOf. apply list_eq. intros i.
  rewrite list_lookup_fmap. destruct (decide (i < Z.to_nat n)%nat) as [Hi|Hi].
  - rewrite lookup_take_lt by lia.
    rewrite (lookup_seqZ_lt 0 n i) by lia. simpl. unfold rd.
    rewrite Z.add_0_l, Nat2Z.id. symmetry. apply list_lookup_lookup_total_lt. lia.
  - rewrite lookup_take_ge by lia. rewrite (lookup_seqZ_ge 0 n i) by lia. reflexivity.
Qed.

Lemma lockstep_lengths NUM_ATOMS blockDim counts table :
  length (PrefixSum.numNeighborsForAtom
            (PrefixSum.lockstep NUM_ATOMS blockDim counts table))
    = length counts /\
  length (PrefixSum.neighborStartIndex
            (PrefixSum.lockstep NUM_ATOMS blockDim counts table))
    = length table.
Proof.
  unfold PrefixSum.lockstep. cbn [PrefixSum.numNeighborsForAtom
    PrefixSum.neighborStartIndex]. rewrite length_wr.
  apply (foldl_invariant
           (fun s => length (PrefixSum.numNeighborsForAtom s) = length counts /\
                     length (PrefixSum.neighborStartIndex s) = length table)).
  - intros s startAtom _ [H1 H2]. unfold PrefixSum.scanWindow.
    cbn [PrefixSum.numNeighborsForAtom PrefixSum.neighborStartIndex].
    rewrite PrefixSum.length_foldl_clearCount, PrefixSum.length_foldl_storeOffset. auto.
  - split; reflexivity.
Qed.

Section Kernels.

Variables (USE_PERIODIC USE_EXCLUSIONS : bool).
Variables (NUM_ATOMS TILE_SIZE NUM_BLOCKS : Z).
Variable CUTOFF_SQUARED : real.
Variables (periodicBoxSize invPeriodicBoxSize : real4).
Variable posq : list real4.
Variables (exclusions exclusionStartIndex : list Z).
Variable maxNeighborPairs : Z.

Definition bruteForceNeighbors : Z -> list Z :=
  Discovery.bruteForceNeighbors USE_PERIODIC USE_EXCLUSIONS NUM_ATOMS CUTOFF_SQUARED
    periodicBoxSize invPeriodicBoxSize posq exclusions exclusionStartIndex.

Definition bruteForcePairs : list Z -> list (Z * Z) :=
  Discovery.bruteForcePairs USE_PERIODIC USE_EXCLUSIONS NUM_ATOMS CUTOFF_SQUARED
    periodicBoxSize invPeriodicBoxSize posq exclusions exclusionStartIndex.

Lemma forAtom_bruteForcePairs atom schedule :
  NoDup schedule ->
  Assembly.forAtom atom (bruteForcePairs schedule) =
  if decide (atom ∈ schedule) then bruteForceNeighbors atom else [].
Proof.
  assert (forall b l, Assembly.forAtom atom (pair b <$> l) = if decide (b = atom) then l else [])
    as Hone.
  { intros b l. induction l as [|c l IH]; [by destruct (decide (b = atom))|].
    rewrite fmap_cons. change (Assembly.forAtom atom ((b, c) :: (pair b <$> l)))
      with (Assembly.forAtom atom ([(b, c)] ++ (pair b <$> l))).
    rewrite Assembly.forAtom_app, Assembly.forAtom_single, IH. simpl.
    by destruct (decide (b = atom)). }
  induction schedule as [|b schedule IH]; intros Hnd.
  - destruct (decide (atom ∈ [])) as [H|_]; [by apply elem_of_nil in H|reflexivity].
  - apply NoDup_cons in Hnd. destruct Hnd as [Hb Hnd].
    unfold bruteForcePairs. rewrite Discovery.bruteForcePairs_cons.
    rewrite Assembly.forAtom_app, Hone. fold (bruteForcePairs schedule). rewrite (IH Hnd).
    destruct (decide (b = atom)) as [->|Hne].
    + destruct (decide (atom ∈ schedule)) as [Hin|_]; [contradiction|].
      destruct (decide (atom ∈ atom :: schedule)) as [_|Hn]; [by rewrite app_nil_r|].
      exfalso. apply Hn. by left.
    + simpl. destruct (decide (atom ∈ schedule)) as [Hin|Hnin].
      * destruct (decide (atom ∈ b :: schedule)) as [_|Hn]; [reflexivity|].
        exfalso. apply Hn. by right.
      * destruct (decide (atom ∈ b :: schedule)) as [Hn|_]; [|reflexivity].
        apply elem_of_cons in Hn. destruct Hn as [->|Hn]; contradiction.
Qed.

Lemma sumCounts_bruteForce (counts : list Z) (k : nat) :
  (forall a, 0 <= a < Z.of_nat k -> rd counts a = Z.of_nat (length (bruteForceNeighbors a))) ->
  PrefixSum.sumCounts counts 0 (Z.of_nat k) =
  Z.of_nat (length (bruteForcePairs (seqZ 0 (Z.of_nat k)))).
Proof.
  induction k as [|k IH]; intros Hc; [reflexivity|].
  rewrite Nat2Z.inj_succ, <- Z.add_1_r.
  rewrite PrefixSum.sumCounts_succ by lia. rewrite IH by (intros a Ha; apply Hc; lia).
  rewrite Hc by lia. rewrite seqZ_app by lia.
  unfold bruteForcePairs, Discovery.bruteForcePairs. rewrite bind_app, length_app.
  rewrite Z.add_0_l. rewrite (seqZ_cons _ 1) by lia. rewrite (seqZ_nil _ (Z.pred 1)) by lia.
  change ([Z.of_nat k] ≫= ?g) with (g (Z.of_nat k) ++ []).
  rewrite app_nil_r, length_fmap. fold bruteForceNeighbors. lia.
Qed.

Section Run.

(** Launch sizes of the four kernels, the orders in which the iterations of
    findNeighbors and copyPairsToNeighborList take effect, the order in which
    the threads of computeNeighborStartIndices pass from barrier to barrier
    in each window, and the buffers as they are before the first kernel. *)
Variables (gridDimB blockDimB gridDimN blockDimN blockDimS gridDimC blockDimC : Z).
Variables (scheduleN scheduleC : list Z).
Variable orderS : Z -> list Z.
Variable bounds0 : Discovery.BoundsState.
Variable pairs0 : list (Z * Z).
Variables (counts0 table0 neighbors0 : list Z).

Definition bounds : Discovery.BoundsState :=
  Discovery.findBlockBounds USE_PERIODIC NUM_ATOMS TILE_SIZE periodicBoxSize
    invPeriodicBoxSize posq gridDimB blockDimB bounds0.

Definition discovered : Discovery.NeighborState :=
  Discovery.findNeighbors USE_PERIODIC USE_EXCLUSIONS NUM_ATOMS TILE_SIZE NUM_BLOCKS
    CUTOFF_SQUARED periodicBoxSize invPeriodicBoxSize posq
    (Discovery.blockCenter bounds) (Discovery.blockBoundingBox bounds)
    maxNeighborPairs exclusions exclusionStartIndex scheduleN
    (Discovery.mkNeighborState pairs0 (Discovery.boundsNumNeighborPairs bounds) counts0).

Definition offsets : PrefixSum.IntervalState :=
  PrefixSum.computeNeighborStartIndices NUM_ATOMS blockDimS orderS
    (Discovery.numNeighborsForAtom discovered) table0.

Definition assembled : Assembly.ListState :=
  Assembly.copyPairsToNeighborList (Discovery.neighborPairs discovered)
    (PrefixSum.iv_neighborStartIndex offsets) (Discovery.numNeighborPairs discovered)
    maxNeighborPairs scheduleC
    (Assembly.mkListState neighbors0 (PrefixSum.iv_numNeighborsForAtom offsets)).


End Run.

End Kernels.

End Pipeline.

(** The four atoms of [Discovery.Demo] through the four kernels. *)
Module PipelineDemo.

Definition table0 : list Z := replicate 5 0.
Definition neighbors0 : list Z := replicate 8 0.
Definition copySchedule : list Z := [3; 1; 0; 2].

(** Two threads scan the four counts in two windows: thread 0 passes first
    where a window follows, thread 1 passes first after the last one. *)
Definition scanOrder (startAtom : Z) : list Z :=
  if startAtom <? 2 then [0; 1] else [1; 0].

Lemma scanOrder_ok : PrefixSum.orderOk 2 scanOrder.
Proof.
  intros startAtom. unfold scanOrder. destruct (startAtom <? 2).
  - reflexivity.
  - apply (bool_decide_unpack _). by vm_compute.
Qed.

Lemma scanOrder_raceFree : PrefixSum.raceFree 4 2 scanOrder.
Proof.
  intros startAtom Hlo Hhi. exists [0]. unfold scanOrder.
  destruct (Z.ltb_spec startAtom 2) as [_|Hge]; [reflexivity|lia].
Qed.

Definition discovered : Discovery.NeighborState :=
  Pipeline.discovered true true 4 2 2 (4#1) Discovery.Demo.periodicBoxSize
    Discovery.Demo.invPeriodicBoxSize Discovery.Demo.posq Discovery.Demo.exclusions
    Discovery.Demo.exclusionStartIndex 8 2 2 Discovery.Demo.schedule Discovery.Demo.bounds0
    Discovery.Demo.pairs0 Discovery.Demo.counts0.

Lemma pipeline_copy_schedule_ok :
  copySchedule ≡ₚ (threads 2 2 ≫= Assembly.workerPairs 2 2
                     (Discovery.numNeighborPairs discovered)).
Proof. apply (bool_decide_unpack _). by vm_compute. Qed.

End PipelineDemo.


(** ** storeForce (customManyParticle.cu, lines 4-8) *)

Module Forces.

Local Open Scope Z_scope.

(** The integer part of a real, towards zero. *)
Definition truncate (q : real) : Z := Z.quot (Qnum q) (Z.pos (Qden q)).

Definition LLONG_MAX : Z := 2^63 - 1.
Definition LLONG_MIN : Z := - 2^63.

(** Conversion of a real to [long long]: the fraction is dropped, towards
    zero.  For a value outside the range of long long the C++ conversion has
    no defined result; the conversion instruction of the device saturates,
    and that is what is modelled. *)
Definition toLongLong (q : real) : Z := Z.max LLONG_MIN (Z.min LLONG_MAX (truncate q)).

(** [static_cast<unsigned long long>((long long) (component*0x100000000))]. *)
Definition toFixed (component : real) : Z :=
  u64_wrap (toLongLong (component * inject_Z 4294967296)%Q).

(** [atomicAdd(&forceBuffers[index], value)] on unsigned 64-bit entries, as one
    indivisible step; [op] is (index, value). *)
Definition atomicAdd (forceBuffers : list Z) (op : Z * Z) : list Z :=
  wr forceBuffers (fst op) (u64_wrap (rd forceBuffers (fst op) + snd op)).

(** The three atomic additions of one call of storeForce, in program order. *)
Definition storeForceOps (PADDED_NUM_ATOMS atom : Z) (force : real3) : list (Z * Z) :=
  [ (atom, toFixed (x3 force));
    (atom + PADDED_NUM_ATOMS, toFixed (y3 force));
    (atom + 2 * PADDED_NUM_ATOMS, toFixed (z3 force)) ].

Definition storeForce (PADDED_NUM_ATOMS atom : Z) (force : real3) (forceBuffers : list Z)
    : list Z :=
  foldl atomicAdd forceBuffers (storeForceOps PADDED_NUM_ATOMS atom force).

(** All atomic additions issued by a list of calls (atom, force). *)
Definition opsOfCalls (PADDED_NUM_ATOMS : Z) (calls : list (Z * real3)) : list (Z * Z) :=
  c ← calls; storeForceOps PADDED_NUM_ATOMS (fst c) (snd c).

Definition runCalls (PADDED_NUM_ATOMS : Z) (calls : list (Z * real3)) (forceBuffers : list Z)
    : list Z :=
  foldl (fun buffers c => storeForce PADDED_NUM_ATOMS (fst c) (snd c) buffers) forceBuffers calls.

Lemma u64_wrap_add_l a b : u64_wrap (u64_wrap a + b) = u64_wrap (a + b).
Proof. unfold u64_wrap. by rewrite Zplus_mod_idemp_l. Qed.

Lemma atomicAdd_comm forceBuffers op1 op2 :
  atomicAdd (atomicAdd forceBuffers op1) op2 = atomicAdd (atomicAdd forceBuffers op2) op1.
Proof.
  destruct op1 as [i v], op2 as [j w]. unfold atomicAdd, rd, wr. cbn [fst snd].
  destruct (decide (Z.to_nat i = Z.to_nat j)) as [Heq|Hne].
  - rewrite Heq. destruct (decide (Z.to_nat j < length forceBuffers)%nat) as [Hlt|Hge].
    + rewrite !list_lookup_total_insert_eq by exact Hlt.
      rewrite !list_insert_insert_eq, !u64_wrap_add_l.
      assert (forall a, a + v + w = a + w + v) as Hsw by (intros; lia).
      by rewrite Hsw.
    + rewrite !(list_insert_ge forceBuffers) by lia. reflexivity.
  - rewrite !list_lookup_total_insert_ne by congruence.
    by rewrite list_insert_insert_ne by congruence.
Qed.

(** The additions commute, so the buffer depends only on which additions were
    made, not on their order. *)
Lemma foldl_atomicAdd_Permutation ops1 ops2 :
  ops1 ≡ₚ ops2 ->
  forall forceBuffers, foldl atomicAdd forceBuffers ops1 = foldl atomicAdd forceBuffers ops2.
Proof.
  induction 1 as [|op l1 l2 _ IH|op1 op2 l|l1 l2 l3 _ IH1 _ IH2]; intros forceBuffers.
  - reflexivity.
  - cbn [foldl]. apply IH.
  - cbn [foldl]. by rewrite atomicAdd_comm.
  - by rewrite IH1, IH2.
Qed.

Lemma runCalls_ops PADDED_NUM_ATOMS calls : forall forceBuffers,
  runCalls PADDED_NUM_ATOMS calls forceBuffers =
  foldl atomicAdd forceBuffers (opsOfCalls PADDED_NUM_ATOMS calls).
Proof.
  induction calls as [|c calls IH]; intros forceBuffers; [reflexivity|].
  unfold runCalls, opsOfCalls in *. cbn [foldl].
  change ((c :: calls) ≫= ?g) with (g c ++ (calls ≫= g)).
  rewrite foldl_app. rewrite IH. reflexivity.
Qed.

Lemma truncate_towards_zero :
  truncate (-(7 # 2))%Q = -3 /\ truncate (7 # 2)%Q = 3 /\
  toFixed (1 # 2)%Q = 2147483648 /\
  toFixed (-(1 # 3))%Q = 18446744072277895851.
Proof. repeat split. Qed.

(** C7. A force component is stored as the integer part, towards zero, of
    component times 2^32, reduced modulo 2^64, and added to its buffer entry by
    an atomic addition modulo 2^64.  So whatever the order of the storeForce
    calls and however their atomic additions interleave, the force buffer ends
    with the same contents: two runs that make the same calls leave identical
    buffers. *)
Theorem storeForce_order_independent
    (PADDED_NUM_ATOMS : Z) (calls1 calls2 : list (Z * real3))
    (run1 run2 : list (Z * Z)) (forceBuffers : list Z) :
  calls1 ≡ₚ calls2 ->
  run1 ≡ₚ opsOfCalls PADDED_NUM_ATOMS calls1 ->
  run2 ≡ₚ opsOfCalls PADDED_NUM_ATOMS calls2 ->
  foldl atomicAdd forceBuffers run1 = foldl atomicAdd forceBuffers run2 /\
  foldl atomicAdd forceBuffers run1 = runCalls PADDED_NUM_ATOMS calls1 forceBuffers /\
  runCalls PADDED_NUM_ATOMS calls1 forceBuffers = runCalls PADDED_NUM_ATOMS calls2 forceBuffers.
Proof.
  intros Hcalls H1 H2.
  assert (opsOfCalls PADDED_NUM_ATOMS calls1 ≡ₚ opsOfCalls PADDED_NUM_ATOMS calls2) as Hops.
  { unfold opsOfCalls. by rewrite Hcalls. }
  rewrite !runCalls_ops.
  rewrite (foldl_atomicAdd_Permutation run1 _ H1).
  rewrite (foldl_atomicAdd_Permutation run2 _ H2).
  rewrite (foldl_atomicAdd_Permutation _ _ Hops). auto.
Qed.

(** Two calls on the same atom, and two interleavings of their six additions. *)
Definition demoCalls : list (Z * real3) :=
  [ (1, make_real3 (1 # 2)%Q (-(1 # 3))%Q 3%Q); (1, make_real3 (-(5 # 4))%Q (2 # 7)%Q (-3)%Q) ].

Lemma storeForce_order_independent_witness :
  foldl atomicAdd (replicate 12 0) (opsOfCalls 4 demoCalls) =
  foldl atomicAdd (replicate 12 0) (reverse (opsOfCalls 4 (reverse demoCalls))).
Proof.
  refine (proj1 (storeForce_order_independent 4 demoCalls (reverse demoCalls)
                   (opsOfCalls 4 demoCalls) (reverse (opsOfCalls 4 (reverse demoCalls)))
                   (replicate 12 0) _ _ _)).
  - by rewrite reverse_Permutation.
  - reflexivity.
  - by rewrite reverse_Permutation.
Defined.

(** *** What a slot holds after any number of additions *)

Definition sumZ (l : list Z) : Z := foldr Z.add 0 l.

Definition contribution (slot : Z) (ops : list (Z * Z)) : Z :=
  sumZ (snd <$> List.filter (fun op => fst op =? slot) ops).

Lemma sumZ_app l1 l2 : sumZ (l1 ++ l2) = sumZ l1 + sumZ l2.
Proof. induction l1 as [|a l1 IH]; simpl; [reflexivity|]. rewrite IH. lia. Qed.

Lemma contribution_cons slot op ops :
  contribution slot (op :: ops) = (if fst op =? slot then snd op else 0) + contribution slot ops.
Proof.
  unfold contribution. cbn [List.filter]. destruct (fst op =? slot); reflexivity.
Qed.

Lemma contribution_app slot ops1 ops2 :
  contribution slot (ops1 ++ ops2) = contribution slot ops1 + contribution slot ops2.
Proof.
  induction ops1 as [|op ops1 IH]; [reflexivity|].
  rewrite <- app_comm_cons, !contribution_cons, IH. lia.
Qed.

Lemma length_atomicAdd forceBuffers op : length (atomicAdd forceBuffers op) = length forceBuffers.
Proof. apply length_wr. Qed.

Lemma length_foldl_atomicAdd ops : forall forceBuffers,
  length (foldl atomicAdd forceBuffers ops) = length forceBuffers.
Proof.
  induction ops as [|op ops IH]; intros forceBuffers; [reflexivity|].
  cbn [foldl]. by rewrite IH, length_atomicAdd.
Qed.

Lemma u64_wrap_range v : 0 <= u64_wrap v < 2^64.
Proof. unfold u64_wrap. apply Z.mod_pos_bound. lia. Qed.

Lemma foldl_atomicAdd_slot ops : forall forceBuffers slot,
  (forall op, op ∈ ops -> 0 <= fst op) ->
  0 <= slot -> (Z.to_nat slot < length forceBuffers)%nat ->
  0 <= rd forceBuffers slot < 2^64 ->
  rd (foldl atomicAdd forceBuffers ops) slot
  = u64_wrap (rd forceBuffers slot + contribution slot ops).
Proof.
  induction ops as [|op ops IH]; intros forceBuffers slot Hpos Hslot Hlen Hrange.
  - simpl. unfold contribution. simpl. rewrite Z.add_0_r. unfold u64_wrap.
    symmetry. apply Z.mod_small. exact Hrange.
  - cbn [foldl]. rewrite contribution_cons.
    assert (0 <= fst op) as Hop by (apply Hpos; by left).
    assert (forall o, o ∈ ops -> 0 <= fst o) as Hpos' by (intros o Ho; apply Hpos; by right).
    destruct (Z.eqb_spec (fst op) slot) as [Heq|Hne].
    + rewrite IH; [|exact Hpos'|exact Hslot|by rewrite length_atomicAdd|].
      * unfold atomicAdd. rewrite Heq. rewrite rd_wr_eq by assumption.
        rewrite u64_wrap_add_l. f_equal. lia.
      * unfold atomicAdd. rewrite Heq. rewrite rd_wr_eq by assumption. apply u64_wrap_range.
    + rewrite IH; [|exact Hpos'|exact Hslot|by rewrite length_atomicAdd|].
      * unfold atomicAdd. rewrite rd_wr_ne by assumption. reflexivity.
      * unfold atomicAdd. rewrite rd_wr_ne by assumption. exact Hrange.
Qed.

(** The sum of the fixed-point values of one component over the calls that
    name [atom]. *)
Definition forceSum (component : real3 -> real) (atom : Z) (calls : list (Z * real3)) : Z :=
  sumZ ((fun c => toFixed (component (snd c))) <$> List.filter (fun c => fst c =? atom) calls).

Definition planeComponent (plane : Z) (force : real3) : real :=
  if plane =? 0 then x3 force else if plane =? 1 then y3 force else z3 force.

Lemma contribution_plane PADDED_NUM_ATOMS plane atom calls :
  0 <= plane < 3 -> 0 <= atom < PADDED_NUM_ATOMS ->
  (forall c, c ∈ calls -> 0 <= fst c < PADDED_NUM_ATOMS) ->
  contribution (atom + plane * PADDED_NUM_ATOMS) (opsOfCalls PADDED_NUM_ATOMS calls)
  = forceSum (planeComponent plane) atom calls.
Proof.
  intros Hplane Hatom. induction calls as [|c calls IH]; intros Hcalls; [reflexivity|].
  assert (0 <= fst c < PADDED_NUM_ATOMS) as Hc by (apply Hcalls; by left).
  change (opsOfCalls PADDED_NUM_ATOMS (c :: calls))
    with (storeForceOps PADDED_NUM_ATOMS (fst c) (snd c) ++ opsOfCalls PADDED_NUM_ATOMS calls).
  rewrite contribution_app, IH by (intros d Hd; apply Hcalls; by right).
  unfold forceSum at 2. cbn [List.filter].
  unfold storeForceOps. rewrite !contribution_cons. cbn [fst snd].
  unfold contribution at 1. cbn [List.filter fmap list_fmap sumZ foldr].
  set (F := forceSum (planeComponent plane) atom calls).
  assert (sumZ ((fun c0 : Z * real3 => toFixed (planeComponent plane (snd c0))) <$>
                (if fst c =? atom
                 then c :: List.filter (fun c0 : Z * real3 => fst c0 =? atom) calls
                 else List.filter (fun c0 : Z * real3 => fst c0 =? atom) calls))
          = (if fst c =? atom then toFixed (planeComponent plane (snd c)) else 0) + F) as ->.
  { destruct (fst c =? atom); reflexivity. }
  assert (plane = 0 \/ plane = 1 \/ plane = 2) as [->|[->| ->]] by lia.
  - change (planeComponent 0 (snd c)) with (x3 (snd c)).
    repeat match goal with
           | |- context [?a =? ?b] => destruct (Z.eqb_spec a b); try lia
           end.
  - change (planeComponent 1 (snd c)) with (y3 (snd c)).
    repeat match goal with
           | |- context [?a =? ?b] => destruct (Z.eqb_spec a b); try lia
           end.
  - change (planeComponent 2 (snd c)) with (z3 (snd c)).
    repeat match goal with
           | |- context [?a =? ?b] => destruct (Z.eqb_spec a b); try lia
           end.
Qed.

(** X10.  After any list of storeForce calls on atoms below
    PADDED_NUM_ATOMS: entry atom of the buffer holds its old value plus the
    fixed-point x components of the calls that name atom, modulo 2^64, and
    entries atom + PADDED_NUM_ATOMS and atom + 2*PADDED_NUM_ATOMS the same for
    y and z; entries from 3*PADDED_NUM_ATOMS on are untouched and the buffer
    keeps its length. *)
Theorem storeForce_accumulates PADDED_NUM_ATOMS (calls : list (Z * real3)) forceBuffers :
  0 <= PADDED_NUM_ATOMS ->
  (forall c, c ∈ calls -> 0 <= fst c < PADDED_NUM_ATOMS) ->
  3 * PADDED_NUM_ATOMS <= Z.of_nat (length forceBuffers) ->
  (forall slot, 0 <= rd forceBuffers slot < 2^64) ->
  let forceBuffers' := runCalls PADDED_NUM_ATOMS calls forceBuffers in
  length forceBuffers' = length forceBuffers /\
  (forall atom plane, 0 <= atom < PADDED_NUM_ATOMS -> 0 <= plane < 3 ->
     rd forceBuffers' (atom + plane * PADDED_NUM_ATOMS)
     = u64_wrap (rd forceBuffers (atom + plane * PADDED_NUM_ATOMS)
                 + forceSum (planeComponent plane) atom calls)) /\
  (forall slot, 3 * PADDED_NUM_ATOMS <= slot -> rd forceBuffers' slot = rd forceBuffers slot).
Proof.
  intros HP Hcalls Hlen Hrange. cbn zeta. rewrite runCalls_ops.
  assert (forall op, op ∈ opsOfCalls PADDED_NUM_ATOMS calls ->
                     0 <= fst op < 3 * PADDED_NUM_ATOMS) as Hops.
  { intros op Hop. unfold opsOfCalls in Hop. apply list_elem_of_bind in Hop.
    destruct Hop as (c & Hop & Hc). specialize (Hcalls c Hc). unfold storeForceOps in Hop.
    rewrite !elem_of_cons, elem_of_nil in Hop.
    destruct Hop as [->|[->|[->|[]]]]; cbn [fst]; lia. }
  split; [apply length_foldl_atomicAdd|]. split.
  - intros atom plane Hatom Hplane.
    rewrite foldl_atomicAdd_slot; [|intros op Hop; apply Hops in Hop; lia|nia|nia|apply Hrange].
    by rewrite contribution_plane.
  - intros slot Hslot.
    destruct (decide (Z.to_nat slot < length forceBuffers)%nat) as [Hin|Hout].
    + rewrite foldl_atomicAdd_slot; [|intros op Hop; apply Hops in Hop; lia|lia|lia|apply Hrange].
      assert (contribution slot (opsOfCalls PADDED_NUM_ATOMS calls) = 0) as ->.
      { unfold contribution. rewrite filter_none; [reflexivity|].
        intros op Hop. apply list_elem_of_In, Hops in Hop. apply Z.eqb_neq. lia. }
      rewrite Z.add_0_r. unfold u64_wrap. apply Z.mod_small. apply Hrange.
    + unfold rd. rewrite !list_lookup_total_alt.
      rewrite !lookup_ge_None_2; [reflexivity|lia|rewrite length_foldl_atomicAdd; lia].
Qed.

Lemma storeForce_accumulates_witness :
  rd (runCalls 4 demoCalls (replicate 12 0)) (1 + 0 * 4)
  = u64_wrap (rd (replicate 12 0) (1 + 0 * 4) + forceSum (planeComponent 0) 1 demoCalls).
Proof.
  refine (proj1 (proj2 (storeForce_accumulates 4 demoCalls (replicate 12 0) _ _ _ _)) 1 0 _ _);
    try lia.
  - intros c Hc. unfold demoCalls in Hc. rewrite !elem_of_cons, elem_of_nil in Hc.
    destruct Hc as [->|[->|[]]]; simpl; lia.
  - simpl. lia.
  - intros slot. unfold rd.
    destruct (decide (Z.to_nat slot < 12)%nat) as [Hin|Hout].
    + rewrite lookup_total_replicate_2 by exact Hin. lia.
    + rewrite list_lookup_total_alt, lookup_ge_None_2 by (rewrite length_replicate; lia).
      simpl. lia.
Defined.
(** *** The fixed-point conversion *)

Lemma truncate_opp (q : real) : truncate (- q)%Q = - truncate q.
Proof.
  unfold truncate. destruct q as [n d]. simpl. apply Z.quot_opp_l. lia.
Qed.

Lemma truncate_nonneg (q : real) :
  (0 <= q)%Q -> (inject_Z (truncate q) <= q)%Q /\ (q < inject_Z (truncate q + 1))%Q.
Proof.
  unfold truncate. destruct q as [n d]. unfold Qle, Qlt, inject_Z. simpl.
  intros Hq. rewrite Z.mul_1_r in Hq.
  pose proof (Z.quot_rem' n (Z.pos d)) as Heq.
  pose proof (Z.rem_bound_pos n (Z.pos d) Hq ltac:(lia)) as Hrem.
  rewrite !Z.mul_1_r. split; nia.
Qed.

Lemma truncate_sign (q : real) : (0 <= q)%Q -> 0 <= truncate q.
Proof.
  unfold truncate. destruct q as [n d]. unfold Qle. simpl. intros Hq.
  apply Z.quot_pos; lia.
Qed.

Lemma truncate_nonpos (q : real) :
  (q <= 0)%Q -> (q <= inject_Z (truncate q))%Q /\ (inject_Z (truncate q - 1) < q)%Q.
Proof.
  intros Hq.
  assert (0 <= - q)%Q as Hq' by lra.
  destruct (truncate_nonneg (- q)%Q Hq') as [H1 H2].
  rewrite truncate_opp in H1, H2.
  replace (- truncate q + 1) with (- (truncate q - 1)) in H2 by lia.
  rewrite inject_Z_opp in H1, H2. split; lra.
Qed.

Definition two32 : real := inject_Z 4294967296.

(** A component whose fixed-point value lies strictly inside the range of
    long long. *)
Definition representable (component : real) : Prop :=
  (- inject_Z (2^31) < component)%Q /\ (component < inject_Z (2^31))%Q.

Lemma representable_opp component : representable component -> representable (- component)%Q.
Proof. unfold representable. intros [Hlo Hhi]. split; lra. Qed.

Lemma truncate_inside (component : real) :
  representable component -> - 2^63 < truncate (component * two32)%Q < 2^63.
Proof.
  intros [Hlo Hhi]. set (t := truncate (component * two32)%Q).
  assert (0 < two32)%Q as H32 by reflexivity.
  assert (inject_Z (2^31) * two32 == inject_Z (2^63))%Q as H63 by reflexivity.
  assert (- inject_Z (2^63) < component * two32)%Q as Hqlo by nra.
  assert (component * two32 < inject_Z (2^63))%Q as Hqhi by nra.
  destruct (Qlt_le_dec (component * two32) 0) as [Hneg|Hpos].
  - destruct (truncate_nonpos (component * two32)%Q ltac:(lra)) as [H1 _]. fold t in H1.
    pose proof (truncate_sign (- (component * two32))%Q ltac:(lra)) as Hs.
    rewrite truncate_opp in Hs. fold t in Hs.
    assert (inject_Z (- 2^63) < inject_Z t)%Q as Hq by (rewrite inject_Z_opp; lra).
    rewrite <- Zlt_Qlt in Hq. lia.
  - destruct (truncate_nonneg (component * two32)%Q Hpos) as [H1 _]. fold t in H1.
    pose proof (truncate_sign (component * two32)%Q Hpos) as Hs. fold t in Hs.
    assert (inject_Z t < inject_Z (2^63))%Q as Hq by lra.
    rewrite <- Zlt_Qlt in Hq. lia.
Qed.

Lemma toFixed_inside (component : real) :
  representable component -> toFixed component = u64_wrap (truncate (component * two32)%Q).
Proof.
  intros Hc. pose proof (truncate_inside component Hc) as Ht.
  unfold toFixed, toLongLong, LLONG_MAX, LLONG_MIN. fold two32. f_equal. lia.
Qed.

Lemma toFixed_opp (component : real) :
  representable component ->
  toFixed (- component)%Q = u64_wrap (- truncate (component * two32)%Q).
Proof.
  intros Hc. rewrite toFixed_inside by (by apply representable_opp).
  f_equal. rewrite <- truncate_opp. unfold truncate, two32.
  destruct component as [n d]. simpl. f_equal. lia.
Qed.

Lemma toFixed_cancel (component : real) :
  representable component ->
  u64_wrap (toFixed component + toFixed (- component)%Q) = 0.
Proof.
  intros Hc. rewrite toFixed_opp, toFixed_inside by exact Hc.
  rewrite u64_wrap_add_l, Z.add_comm, u64_wrap_add_l.
  replace (- truncate (component * two32)%Q + truncate (component * two32)%Q) with 0 by lia.
  reflexivity.
Qed.

(** The 64-bit word read as a signed integer. *)
Definition asSigned (v : Z) : Z := if v <? 2^63 then v else v - 2^64.

(** X11.  The conversion in storeForce drops the fraction of component*2^32
    towards zero: the integer part differs from component*2^32 by less than 1
    and is never larger in magnitude.  For a component strictly between -2^31
    and 2^31 that integer fits a long long: it is what is added, the 64-bit
    word read as a signed integer gives it back, negating the component
    negates it, and the two fixed-point values cancel modulo 2^64.  From 2^31
    on the value added is 2^63-1 and from -2^31 down it is -2^63 (the
    conversion saturates), so there the two no longer cancel. *)
Theorem toFixed_truncation (component : real) :
  let t := truncate (component * two32)%Q in
  ((0 <= component)%Q ->
     (inject_Z t <= component * two32)%Q /\ (component * two32 < inject_Z (t + 1))%Q) /\
  ((component <= 0)%Q ->
     (component * two32 <= inject_Z t)%Q /\ (inject_Z (t - 1) < component * two32)%Q) /\
  (representable component ->
     - 2^63 < t < 2^63 /\
     toFixed component = u64_wrap t /\
     asSigned (toFixed component) = t /\
     toFixed (- component)%Q = u64_wrap (- t) /\
     u64_wrap (toFixed component + toFixed (- component)%Q) = 0) /\
  ((inject_Z (2^31) <= component)%Q -> toFixed component = 2^63 - 1) /\
  ((component <= - inject_Z (2^31))%Q -> toFixed component = 2^63).
Proof.
  cbn zeta. set (t := truncate (component * two32)%Q).
  assert (0 < two32)%Q as H32 by reflexivity.
  assert (inject_Z (2^31) * two32 == inject_Z (2^63))%Q as H63 by reflexivity.
  assert (0 < inject_Z (2^63))%Q as Hpos63 by reflexivity.
  split; [|split; [|split; [|split]]].
  - intros Hc. apply truncate_nonneg. nra.
  - intros Hc. apply truncate_nonpos. nra.
  - intros Hc. pose proof (truncate_inside component Hc) as Ht. fold t in Ht.
    split; [exact Ht|]. split; [by apply toFixed_inside|].
    split; [|split; [by apply toFixed_opp|by apply toFixed_cancel]].
    rewrite toFixed_inside by exact Hc. fold t. unfold asSigned, u64_wrap.
    destruct (Z_lt_le_dec t 0) as [Hneg|Hpos].
    + assert (t mod 2^64 = t + 2^64) as ->.
      { symmetry. apply (Z.mod_unique _ _ (-1)); lia. }
      destruct (Z.ltb_spec (t + 2^64) (2^63)); lia.
    + rewrite Z.mod_small by lia. destruct (Z.ltb_spec t (2^63)); lia.
  - intros Hc.
    assert (inject_Z (2^63) <= component * two32)%Q as Hq by nra.
    destruct (truncate_nonneg (component * two32)%Q ltac:(lra)) as [_ H2]. fold t in H2.
    assert (inject_Z (2^63) < inject_Z (t + 1))%Q as Hlt by lra.
    rewrite <- Zlt_Qlt in Hlt.
    unfold toFixed, toLongLong, LLONG_MAX, LLONG_MIN. fold two32. fold t.
    replace (Z.max (- 2^63) (Z.min (2^63 - 1) t)) with (2^63 - 1) by lia. reflexivity.
  - intros Hc.
    assert (component * two32 <= - inject_Z (2^63))%Q as Hq by nra.
    destruct (truncate_nonpos (component * two32)%Q ltac:(lra)) as [_ H2]. fold t in H2.
    assert (inject_Z (t - 1) < inject_Z (- 2^63))%Q as Hlt by (rewrite inject_Z_opp; lra).
    rewrite <- Zlt_Qlt in Hlt.
    unfold toFixed, toLongLong, LLONG_MAX, LLONG_MIN. fold two32. fold t.
    replace (Z.max (- 2^63) (Z.min (2^63 - 1) t)) with (- 2^63) by lia. reflexivity.
Qed.

Lemma toFixed_truncation_witness :
  asSigned (toFixed (- (1 # 3))%Q) = truncate (- (1 # 3) * two32)%Q.
Proof.
  refine (proj1 (proj2 (proj2 (proj1 (proj2 (proj2 (toFixed_truncation (- (1 # 3))%Q))) _))));
    split; reflexivity.
Defined.
(** *** Equal and opposite forces *)

Definition planeTotal (PADDED_NUM_ATOMS plane : Z) (forceBuffers : list Z) : Z :=
  u64_wrap (sumZ (rd forceBuffers <$> seqZ (plane * PADDED_NUM_ATOMS) PADDED_NUM_ATOMS)).

Definition opposite (force : real3) : real3 :=
  make_real3 (- x3 force)%Q (- y3 force)%Q (- z3 force)%Q.

(** Each entry is (atom1, atom2, force): force is stored for atom1 and its
    opposite for atom2. *)
Definition actionReaction (pairs : list (Z * Z * real3)) : list (Z * real3) :=
  p ← pairs; [(fst (fst p), snd p); (snd (fst p), opposite (snd p))].

Lemma sumZ_slice_wr (forceBuffers : list Z) slot v lo (n : nat) :
  0 <= lo -> 0 <= slot -> (Z.to_nat slot < length forceBuffers)%nat ->
  sumZ (rd (wr forceBuffers slot v) <$> seqZ lo (Z.of_nat n))
  = sumZ (rd forceBuffers <$> seqZ lo (Z.of_nat n))
    + (if (lo <=? slot) && (slot <? lo + Z.of_nat n) then v - rd forceBuffers slot else 0).
Proof.
  intros Hlo Hslot Hlen. induction n as [|n IH].
  - change (Z.of_nat 0) with 0. rewrite !seqZ_nil by lia. cbn [fmap list_fmap sumZ foldr].
    destruct (Z.leb_spec lo slot), (Z.ltb_spec slot (lo + 0)); cbn [andb]; lia.
  - rewrite Nat2Z.inj_succ, <- Z.add_1_r. rewrite seqZ_app by lia.
    rewrite !fmap_app, !sumZ_app, IH.
    rewrite (seqZ_cons _ 1) by lia. rewrite (seqZ_nil _ (Z.pred 1)) by lia.
    cbn [fmap list_fmap sumZ foldr].
    destruct (Z.eq_dec slot (lo + Z.of_nat n)) as [->|Hne].
    + rewrite rd_wr_eq by lia.
      destruct (Z.leb_spec lo (lo + Z.of_nat n)), (Z.ltb_spec (lo + Z.of_nat n) (lo + Z.of_nat n)),
               (Z.ltb_spec (lo + Z.of_nat n) (lo + (Z.of_nat n + 1))); cbn [andb]; lia.
    + rewrite rd_wr_ne by lia.
      destruct (Z.leb_spec lo slot), (Z.ltb_spec slot (lo + Z.of_nat n)),
               (Z.ltb_spec slot (lo + (Z.of_nat n + 1))); cbn [andb]; lia.
Qed.

Lemma u64_wrap_idem v : u64_wrap (u64_wrap v) = u64_wrap v.
Proof. unfold u64_wrap. apply Zmod_mod. Qed.

Lemma planeTotal_atomicAdd PADDED_NUM_ATOMS plane forceBuffers op :
  0 <= PADDED_NUM_ATOMS -> 0 <= plane ->
  0 <= fst op -> (Z.to_nat (fst op) < length forceBuffers)%nat ->
  planeTotal PADDED_NUM_ATOMS plane (atomicAdd forceBuffers op)
  = u64_wrap (planeTotal PADDED_NUM_ATOMS plane forceBuffers
              + (if (plane * PADDED_NUM_ATOMS <=? fst op)
                    && (fst op <? plane * PADDED_NUM_ATOMS + PADDED_NUM_ATOMS)
                 then snd op else 0)).
Proof.
  intros HP Hplane Hop Hlen. unfold planeTotal, atomicAdd.
  rewrite <- (Z2Nat.id PADDED_NUM_ATOMS) at 2 4 by exact HP.
  rewrite sumZ_slice_wr by (try nia; assumption).
  rewrite Z2Nat.id by exact HP. rewrite u64_wrap_add_l.
  destruct ((plane * PADDED_NUM_ATOMS <=? fst op)
            && (fst op <? plane * PADDED_NUM_ATOMS + PADDED_NUM_ATOMS))%bool.
  - set (S := sumZ _). unfold u64_wrap.
    rewrite (Z.mod_eq (rd forceBuffers (fst op) + snd op) (2^64)) by lia.
    set (q := (rd forceBuffers (fst op) + snd op) / 2^64).
    replace (S + (rd forceBuffers (fst op) + snd op - 2^64 * q - rd forceBuffers (fst op)))
      with (S + snd op + (- q) * 2^64) by ring.
    apply Z_mod_plus_full.
  - reflexivity.
Qed.

Lemma planeTotal_storeForce PADDED_NUM_ATOMS plane atom force forceBuffers :
  0 <= plane < 3 -> 0 <= atom < PADDED_NUM_ATOMS ->
  3 * PADDED_NUM_ATOMS <= Z.of_nat (length forceBuffers) ->
  planeTotal PADDED_NUM_ATOMS plane (storeForce PADDED_NUM_ATOMS atom force forceBuffers)
  = u64_wrap (planeTotal PADDED_NUM_ATOMS plane forceBuffers
              + toFixed (planeComponent plane force)).
Proof.
  intros Hplane Hatom Hlen. unfold storeForce, storeForceOps. cbn [foldl].
  rewrite !planeTotal_atomicAdd; cbn [fst snd]; rewrite ?length_atomicAdd; try lia.
  assert (plane = 0 \/ plane = 1 \/ plane = 2) as [->|[->| ->]] by lia;
    [change (planeComponent 0 force) with (x3 force)
    |change (planeComponent 1 force) with (y3 force)
    |change (planeComponent 2 force) with (z3 force)];
    repeat match goal with
           | |- context [?a <=? ?b] => destruct (Z.leb_spec a b); try lia
           | |- context [?a <? ?b] => destruct (Z.ltb_spec a b); try lia
           end;
    cbn [andb];
    repeat first [rewrite Z.add_0_r | rewrite u64_wrap_add_l | rewrite u64_wrap_idem];
    reflexivity.
Qed.

Lemma runCalls_app PADDED_NUM_ATOMS calls1 calls2 forceBuffers :
  runCalls PADDED_NUM_ATOMS (calls1 ++ calls2) forceBuffers
  = runCalls PADDED_NUM_ATOMS calls2 (runCalls PADDED_NUM_ATOMS calls1 forceBuffers).
Proof. unfold runCalls. apply foldl_app. Qed.

(** X12.  When forces are stored in equal and opposite pairs (force for one
    atom, its negation for another) and every component lies strictly between
    -2^31 and 2^31, so that its fixed-point value fits a long long, the sum
    modulo 2^64 of the x entries of the buffer keeps its value, and so do the
    sums of the y and of the z entries: in fixed point the total force added
    by such pairs is exactly zero. *)
Theorem storeForce_conserves_total PADDED_NUM_ATOMS (pairs : list (Z * Z * real3))
    forceBuffers plane :
  0 <= plane < 3 ->
  (forall p, p ∈ pairs -> 0 <= fst (fst p) < PADDED_NUM_ATOMS /\
                          0 <= snd (fst p) < PADDED_NUM_ATOMS) ->
  (forall p, p ∈ pairs -> representable (planeComponent plane (snd p))) ->
  3 * PADDED_NUM_ATOMS <= Z.of_nat (length forceBuffers) ->
  planeTotal PADDED_NUM_ATOMS plane
    (runCalls PADDED_NUM_ATOMS (actionReaction pairs) forceBuffers)
  = planeTotal PADDED_NUM_ATOMS plane forceBuffers.
Proof.
  intros Hplane Hpairs Hfits Hlen. revert forceBuffers Hlen.
  induction pairs as [|[[a b] f] pairs IH]; intros forceBuffers Hlen; [reflexivity|].
  change (actionReaction ((a, b, f) :: pairs))
    with ([(a, f); (b, opposite f)] ++ actionReaction pairs).
  rewrite runCalls_app.
  destruct (Hpairs (a, b, f) ltac:(by left)) as [Ha Hb]. cbn [fst snd] in Ha, Hb.
  rewrite IH.
  - unfold runCalls. cbn [foldl fst snd].
    rewrite !planeTotal_storeForce; try assumption.
    + rewrite u64_wrap_add_l.
      assert (planeComponent plane (opposite f) = (- planeComponent plane f)%Q) as ->.
      { unfold planeComponent, opposite. cbn [x3 y3 z3].
        destruct (plane =? 0); [reflexivity|]. destruct (plane =? 1); reflexivity. }
      rewrite <- Z.add_assoc, Z.add_comm, <- u64_wrap_add_l, toFixed_cancel, Z.add_0_l
        by exact (Hfits (a, b, f) ltac:(by left)).
      unfold planeTotal. apply u64_wrap_idem.
    + unfold storeForce. by rewrite length_foldl_atomicAdd.
  - intros p Hp. apply Hpairs. by right.
  - intros p Hp. apply Hfits. by right.
  - unfold runCalls. cbn [foldl fst snd]. unfold storeForce.
    by rewrite !length_foldl_atomicAdd.
Qed.

Lemma storeForce_conserves_total_witness :
  planeTotal 4 0 (runCalls 4 (actionReaction [(0, 3, make_real3 (1 # 3)%Q (2 # 7)%Q (-5)%Q)])
                    (replicate 12 7))
  = planeTotal 4 0 (replicate 12 7).
Proof.
  refine (storeForce_conserves_total 4 [(0, 3, make_real3 (1 # 3)%Q (2 # 7)%Q (-5)%Q)]
            (replicate 12 7) 0 _ _ _ _); try lia.
  - intros p Hp. rewrite elem_of_cons, elem_of_nil in Hp. destruct Hp as [->|[]]. simpl. lia.
  - intros p Hp. rewrite elem_of_cons, elem_of_nil in Hp. destruct Hp as [->|[]].
    split; reflexivity.
  - simpl. lia.
Defined.

End Forces.

(** ** Decoding a combination index *)

Module Combinations.

Local Open Scope Z_scope.

(** The number of ways to choose [k] of [n]. *)
Fixpoint binom (n k : nat) : nat :=
  match n, k with
  | _, O => 1
  | O, S _ => 0
  | S n', S k' => (binom n' k' + binom n' (S k'))%nat
  end.

(** Modelled from the spec: FIND_ATOMS_FOR_COMBINATION_INDEX, the macro that
    decodes a combination index (its text is generated by the host and is not
    in the kernel file).  The spec describes it as the standard unranking over
    binomial coefficients: index [r] is mapped to the [r]-th ascending
    [k]-tuple, in lexicographic order, of the [n] values from [base] on. *)
Fixpoint unrank (n k : nat) (base : Z) (r : nat) : list Z :=
  match n, k with
  | _, O => []
  | O, S _ => []
  | S n', S k' =>
      if (r <? binom n' k')%nat
      then base :: unrank n' k' (base + 1) r
      else unrank n' (S k') (base + 1) (r - binom n' k')
  end.

(** Strictly ascending lists. *)
Definition ascending (l : list Z) : Prop := StronglySorted Z.lt l.

Lemma unrank_length n : forall k base r,
  (r < binom n k)%nat -> length (unrank n k base r) = k.
Proof.
  induction n as [|n IH]; intros [|k] base r Hr; simpl in *; try reflexivity; try lia.
  destruct (Nat.ltb_spec r (binom n k)) as [Hlt|Hge]; simpl.
  - by rewrite IH.
  - apply IH. lia.
Qed.

Lemma unrank_range n : forall k base r a,
  a ∈ unrank n k base r -> base <= a < base + Z.of_nat n.
Proof.
  induction n as [|n IH]; intros [|k] base r a Ha; simpl in Ha;
    try (by apply elem_of_nil in Ha).
  destruct (r <? binom n k)%nat.
  - apply elem_of_cons in Ha. destruct Ha as [->|Ha]; [lia|]. apply IH in Ha. lia.
  - apply IH in Ha. lia.
Qed.

Lemma unrank_ascending n : forall k base r, ascending (unrank n k base r).
Proof.
  induction n as [|n IH]; intros [|k] base r; simpl; try constructor.
  destruct (r <? binom n k)%nat; [|apply IH].
  constructor; [apply IH|]. apply Forall_forall. intros a Ha.
  apply unrank_range in Ha. lia.
Qed.

Lemma unrank_inj n : forall k base r1 r2,
  (r1 < binom n k)%nat -> (r2 < binom n k)%nat ->
  unrank n k base r1 = unrank n k base r2 -> r1 = r2.
Proof.
  induction n as [|n IH]; intros [|k] base r1 r2 H1 H2 Heq; simpl in *; try lia.
  destruct (Nat.ltb_spec r1 (binom n k)) as [Hlt1|Hge1],
           (Nat.ltb_spec r2 (binom n k)) as [Hlt2|Hge2].
  - injection Heq as Heq. by apply (IH k (base + 1)).
  - exfalso. pose proof (unrank_length n (S k) (base + 1) (r2 - binom n k) ltac:(lia)) as Hl.
    rewrite <- Heq in Hl. simpl in Hl.
    assert (base ∈ unrank n (S k) (base + 1) (r2 - binom n k)) as Hin
      by (rewrite <- Heq; by left).
    apply unrank_range in Hin. lia.
  - exfalso.
    assert (base ∈ unrank n (S k) (base + 1) (r1 - binom n k)) as Hin
      by (rewrite Heq; by left).
    apply unrank_range in Hin. lia.
  - assert (r1 - binom n k = r2 - binom n k)%nat; [|lia].
    apply (IH (S k) (base + 1)); [lia|lia|exact Heq].
Qed.

Lemma unrank_complete n : forall k base l,
  ascending l -> length l = k ->
  (forall a, a ∈ l -> base <= a < base + Z.of_nat n) ->
  exists r, (r < binom n k)%nat /\ unrank n k base r = l.
Proof.
  induction n as [|n IH]; intros k base l Hasc Hlen Hrange.
  - destruct l as [|a l].
    + subst k. exists 0%nat. split; [simpl; lia|reflexivity].
    + specialize (Hrange a ltac:(by left)). lia.
  - destruct l as [|a l].
    + subst k. exists 0%nat. split; [simpl; lia|reflexivity].
    + destruct k as [|k]; [discriminate|]. injection Hlen as Hlen.
      apply StronglySorted_inv in Hasc. destruct Hasc as [Hasc Hhd].
      rewrite Forall_forall in Hhd.
      pose proof (Hrange a ltac:(by left)) as Ha.
      destruct (Z.eq_dec a base) as [->|Hne].
      * destruct (IH k (base + 1) l Hasc Hlen) as (r & Hr & Hu).
        { intros b Hb. specialize (Hhd b Hb). specialize (Hrange b ltac:(by right)). lia. }
        exists r. split; [simpl; lia|]. simpl.
        destruct (Nat.ltb_spec r (binom n k)); [by rewrite Hu|lia].
      * destruct (IH (S k) (base + 1) (a :: l)) as (r & Hr & Hu).
        { constructor; [exact Hasc|]. by apply Forall_forall. }
        { simpl. by rewrite Hlen. }
        { intros b Hb. apply elem_of_cons in Hb. destruct Hb as [->|Hb]; [lia|].
          specialize (Hhd b Hb). specialize (Hrange b ltac:(by right)). lia. }
        exists (binom n k + r)%nat. split; [simpl; lia|]. simpl.
        destruct (Nat.ltb_spec (binom n k + r) (binom n k)); [lia|].
        replace (binom n k + r - binom n k)%nat with r by lia. exact Hu.
Qed.

(** Two ascending lists with the same elements are the same list. *)
Lemma ascending_Permutation_eq l1 : forall l2,
  ascending l1 -> ascending l2 -> l1 ≡ₚ l2 -> l1 = l2.
Proof.
  induction l1 as [|a l1 IH]; intros l2 H1 H2 Hp.
  - by apply Permutation_nil_l in Hp.
  - destruct l2 as [|b l2]; [by apply Permutation_nil_r in Hp|].
    apply StronglySorted_inv in H1, H2. destruct H1 as [H1 Ha], H2 as [H2 Hb].
    rewrite Forall_forall in Ha, Hb.
    assert (a = b) as ->.
    { assert (a ∈ b :: l2) as Hin1 by (rewrite <- Hp; by left).
      assert (b ∈ a :: l1) as Hin2 by (rewrite Hp; by left).
      apply elem_of_cons in Hin1, Hin2.
      destruct Hin1 as [->|Hin1]; [reflexivity|]. destruct Hin2 as [->|Hin2]; [reflexivity|].
      specialize (Ha b Hin2). specialize (Hb a Hin1). lia. }
    f_equal. apply IH; auto. by apply Permutation_cons_inv in Hp.
Qed.

Lemma ascending_NoDup l : ascending l -> NoDup l.
Proof.
  induction 1 as [|a l _ IH Hhd]; constructor; [|exact IH].
  rewrite Forall_forall in Hhd. intros Hin. specialize (Hhd a Hin). lia.
Qed.

End Combinations.

(** ** prefixSum (customManyParticle.cu, lines 82-118), the branch compiled
    for devices below compute capability 3.0 *)

Module BooleanScan.

Local Open Scope Z_scope.

Definition u16_wrap (z : Z) : Z := z mod 2^16.
Definition s16_wrap (z : Z) : Z := (z + 2^15) mod 2^16 - 2^15.

Record ushort2 : Type := make_ushort2 { ux : Z; uy : Z }.

#[global] Instance ushort2_inhabited : Inhabited ushort2 := populate (make_ushort2 0 0).

Section Device.

Variable blockDim : Z.
(** The argument [value] of each thread of the block. *)
Variable values : list bool.

(** [temp[threadIdx.x].x = value]. *)
Definition storeValue (temp : list ushort2) (threadIdx : Z) : list ushort2 :=
  wr temp threadIdx (make_ushort2 (Z.b2z (rd values threadIdx)) (uy (rd temp threadIdx))).

(** One thread's pass through the body of the loop. *)
Definition scanThread (whichBuffer offset : Z) (temp : list ushort2) (threadIdx : Z)
    : list ushort2 :=
  let own := rd temp threadIdx in
  if whichBuffer =? 0 then
    wr temp threadIdx
       (make_ushort2 (ux own)
          (u16_wrap (if threadIdx <? offset then ux own
                     else ux own + ux (rd temp (threadIdx - offset)))))
  else
    wr temp threadIdx
       (make_ushort2
          (u16_wrap (if threadIdx <? offset then uy own
                     else uy own + uy (rd temp (threadIdx - offset))))
          (uy own)).

(** The loop over [offset]; between two barriers the threads run one after
    another in the order [order offset]. *)
Fixpoint scanLoop (fuel : nat) (order : Z -> list Z) (whichBuffer offset : Z)
    (temp : list ushort2) : Z * list ushort2 :=
  match fuel with
  | O => (whichBuffer, temp)
  | S fuel' =>
      if offset <? blockDim
      then scanLoop fuel' order (1 - whichBuffer) (offset * 2)
             (foldl (scanThread whichBuffer offset) temp (order offset))
      else (whichBuffer, temp)
  end.

Definition storeSum (whichBuffer : Z) (temp : list ushort2) (sum : list Z) (threadIdx : Z)
    : list Z :=
  wr sum threadIdx
     (s16_wrap (if whichBuffer =? 0 then ux (rd temp threadIdx) else uy (rd temp threadIdx))).

(** The whole function for one block: [order 0] is the order of the threads
    before the first barrier, [order offset] in the pass for [offset], and
    [order (-1)] in the final store. *)
Definition prefixSum (order : Z -> list Z) (sum : list Z) (temp : list ushort2)
    : list Z * list ushort2 :=
  let temp := foldl storeValue temp (order 0) in
  let '(whichBuffer, temp) := scanLoop (Z.to_nat blockDim) order 0 1 temp in
  (foldl (storeSum whichBuffer temp) sum (order (-1)), temp).

(** *** The scan, one barrier interval at a time *)

Definition active (whichBuffer : Z) (c : ushort2) : Z :=
  if whichBuffer =? 0 then ux c else uy c.

Definition countTrue (lo n : Z) : Z := PrefixSum.sumCounts (Z.b2z <$> values) lo n.

Definition scanned (whichBuffer step : Z) (temp : list ushort2) : Prop :=
  forall t, 0 <= t < blockDim ->
    active whichBuffer (rd temp t)
    = u16_wrap (countTrue (Z.max 0 (t - step + 1)) (t + 1 - Z.max 0 (t - step + 1))).

Definition orderOk (order : list Z) : Prop := order ≡ₚ seqZ 0 blockDim.

Lemma u16_wrap_add a b : u16_wrap (u16_wrap a + u16_wrap b) = u16_wrap (a + b).
Proof. unfold u16_wrap. by rewrite <- Zplus_mod. Qed.

Lemma u16_wrap_idem a : u16_wrap (u16_wrap a) = u16_wrap a.
Proof. unfold u16_wrap. by rewrite Zmod_mod. Qed.

(** A pass leaves the component it reads alone and gives every thread of
    [order] its new value, computed from the values at the last barrier. *)
Lemma interval_spec whichBuffer offset (temp0 : list ushort2) order : forall temp,
  whichBuffer = 0 \/ whichBuffer = 1 ->
  (forall a, a ∈ order -> 0 <= a /\ (Z.to_nat a < length temp)%nat) ->
  (forall t, 0 <= t -> active whichBuffer (rd temp t) = active whichBuffer (rd temp0 t)) ->
  let temp' := foldl (scanThread whichBuffer offset) temp order in
  length temp' = length temp /\
  (forall t, 0 <= t -> active whichBuffer (rd temp' t) = active whichBuffer (rd temp0 t)) /\
  (forall t, t ∈ order ->
     active (1 - whichBuffer) (rd temp' t)
     = u16_wrap (if t <? offset then active whichBuffer (rd temp0 t)
                 else active whichBuffer (rd temp0 t)
                      + active whichBuffer (rd temp0 (t - offset)))).
Proof.
  induction order as [|a order IH]; intros temp Hwhich Hin Hact; cbn zeta.
  - split; [reflexivity|]. split; [exact Hact|]. intros t Ht. by apply elem_of_nil in Ht.
  - cbn [foldl]. destruct (Hin a ltac:(by left)) as [Ha Hlen].
    set (temp1 := scanThread whichBuffer offset temp a).
    assert (length temp1 = length temp) as Hlen1.
    { unfold temp1, scanThread. destruct (whichBuffer =? 0); apply length_wr. }
    assert (forall t, 0 <= t ->
              active whichBuffer (rd temp1 t) = active whichBuffer (rd temp0 t)) as Hact1.
    { intros t Ht. rewrite <- Hact by exact Ht. unfold temp1, scanThread, active.
      destruct (Z.eqb_spec whichBuffer 0) as [Hw|Hw];
        (destruct (Z.eq_dec a t) as [->|Hne];
         [rewrite rd_wr_eq by assumption; reflexivity|rewrite rd_wr_ne by lia; reflexivity]). }
    assert (active (1 - whichBuffer) (rd temp1 a)
            = u16_wrap (if a <? offset then active whichBuffer (rd temp0 a)
                        else active whichBuffer (rd temp0 a)
                             + active whichBuffer (rd temp0 (a - offset)))) as Hnew.
    { destruct (Z.ltb_spec a offset) as [Hlt|Hge].
      - rewrite <- (Hact a Ha). unfold temp1, scanThread, active.
        destruct (Z.ltb_spec a offset); [|lia].
        destruct Hwhich as [-> | ->]; cbn [Z.eqb Z.sub Z.add Z.opp Z.pos_sub];
          rewrite rd_wr_eq by assumption; reflexivity.
      - rewrite <- (Hact a Ha), <- (Hact (a - offset)) by lia. unfold temp1, scanThread, active.
        destruct (Z.ltb_spec a offset); [lia|].
        destruct Hwhich as [-> | ->]; cbn [Z.eqb Z.sub Z.add Z.opp Z.pos_sub];
          rewrite rd_wr_eq by assumption; reflexivity. }
    destruct (IH temp1) as (Hl & Hkeep & Hset).
    { exact Hwhich. }
    { intros b Hb. rewrite Hlen1. apply Hin. by right. }
    { exact Hact1. }
    split; [by rewrite Hl|]. split; [exact Hkeep|].
    intros t Ht. apply elem_of_cons in Ht.
    destruct (decide (t ∈ order)) as [Hlater|Hnot]; [by apply Hset|].
    destruct Ht as [->|Ht]; [|contradiction].
    rewrite <- Hnew. clear Hset Hkeep Hl IH Hnew.
    revert Hlen1 Hnot. generalize temp1. clear temp1 Hact1.
    induction order as [|b order IHo]; intros temp1 Hlen1 Hnot; [reflexivity|].
    cbn [foldl]. rewrite IHo.
    + assert (b <> a) as Hne by (intros ->; apply Hnot; by left).
      destruct (Hin b ltac:(right; by left)) as [Hb _].
      unfold scanThread. destruct (whichBuffer =? 0); rewrite rd_wr_ne by lia; reflexivity.
    + intros c Hc. apply Hin. apply elem_of_cons in Hc.
      destruct Hc as [->|Hc]; [by left|]. right. by right.
    + unfold scanThread. destruct (whichBuffer =? 0); rewrite length_wr; exact Hlen1.
    + intros Hc. apply Hnot. by right.
Qed.


(** A pass in which every thread stores to its own slot only. *)
Lemma foldl_wr_each {A} `{Inhabited A} (g : list A -> Z -> A) (Q : Z -> A -> Prop) order :
  forall l,
  (forall a, a ∈ order -> 0 <= a /\ (Z.to_nat a < length l)%nat) ->
  (forall l' a, Q a (g l' a)) ->
  let r := foldl (fun l a => wr l a (g l a)) l order in
  length r = length l /\
  (forall t, t ∈ order -> Q t (rd r t)) /\
  (forall t, 0 <= t -> t ∉ order -> rd r t = rd l t).
Proof.
  induction order as [|a order IH]; intros l Hin HQ; cbn zeta.
  - split; [reflexivity|]. split; [|reflexivity]. intros t Ht. by apply elem_of_nil in Ht.
  - cbn [foldl]. destruct (Hin a ltac:(by left)) as [Ha Hlen].
    destruct (IH (wr l a (g l a))) as (Hl & Hset & Hkeep).
    { intros b Hb. rewrite length_wr. apply Hin. by right. }
    { exact HQ. }
    rewrite length_wr in Hl. split; [exact Hl|]. split.
    + intros t Ht. destruct (decide (t ∈ order)) as [Hlater|Hnot]; [by apply Hset|].
      apply elem_of_cons in Ht. destruct Ht as [->|Ht]; [|contradiction].
      rewrite Hkeep by assumption. rewrite rd_wr_eq by assumption. apply HQ.
    + intros t Ht Hnot. rewrite Hkeep; [|exact Ht|intros Hc; apply Hnot; by right].
      apply rd_wr_ne; [exact Ha|exact Ht|]. intros ->. apply Hnot. by left.
Qed.

Hypothesis HB : 0 < blockDim.
Hypothesis Hvalues : blockDim <= Z.of_nat (length values).

Lemma countTrue_one t : 0 <= t < blockDim -> countTrue t 1 = Z.b2z (rd values t).
Proof.
  intros Ht. unfold countTrue. rewrite PrefixSum.sumCounts_one. unfold rd.
  apply list_lookup_total_fmap. lia.
Qed.

Lemma orderOk_range order (temp : list ushort2) :
  orderOk order -> blockDim <= Z.of_nat (length temp) ->
  forall a, a ∈ order -> 0 <= a /\ (Z.to_nat a < length temp)%nat.
Proof.
  intros Hp Hlen a Ha. unfold orderOk in Hp. rewrite Hp in Ha. apply elem_of_seqZ in Ha. lia.
Qed.

Lemma orderOk_all order t : orderOk order -> 0 <= t < blockDim -> t ∈ order.
Proof. intros Hp Ht. unfold orderOk in Hp. rewrite Hp. apply elem_of_seqZ. lia. Qed.

Lemma storeValue_scanned order temp :
  orderOk order -> blockDim <= Z.of_nat (length temp) ->
  length (foldl storeValue temp order) = length temp /\
  scanned 0 1 (foldl storeValue temp order).
Proof.
  intros Hp Hlen.
  destruct (foldl_wr_each
              (fun temp a => make_ushort2 (Z.b2z (rd values a)) (uy (rd temp a)))
              (fun t c => ux c = Z.b2z (rd values t)) order temp
              (orderOk_range order temp Hp Hlen) ltac:(reflexivity)) as (Hl & Hset & _).
  split; [exact Hl|]. intros t Ht. unfold active. cbn [Z.eqb].
  change (foldl storeValue temp order)
    with (foldl (fun temp a => wr temp a (make_ushort2 (Z.b2z (rd values a)) (uy (rd temp a))))
                temp order).
  rewrite (Hset t (orderOk_all order t Hp Ht)).
  replace (Z.max 0 (t - 1 + 1)) with t by lia. replace (t + 1 - t) with 1 by lia.
  rewrite countTrue_one by exact Ht. unfold u16_wrap.
  symmetry. apply Z.mod_small. destruct (rd values t); simpl; lia.
Qed.

Lemma scanThread_scanned whichBuffer step order temp :
  whichBuffer = 0 \/ whichBuffer = 1 -> 1 <= step ->
  orderOk order -> blockDim <= Z.of_nat (length temp) ->
  scanned whichBuffer step temp ->
  length (foldl (scanThread whichBuffer step) temp order) = length temp /\
  scanned (1 - whichBuffer) (step * 2) (foldl (scanThread whichBuffer step) temp order).
Proof.
  intros Hw Hs Hp Hlen Hinv.
  destruct (interval_spec whichBuffer step temp order temp Hw
              (orderOk_range order temp Hp Hlen) ltac:(reflexivity)) as (Hl & _ & Hset).
  split; [exact Hl|]. intros t Ht.
  rewrite (Hset t (orderOk_all order t Hp Ht)).
  rewrite (Hinv t Ht). destruct (Z.ltb_spec t step) as [Hlt|Hge].
  - rewrite u16_wrap_idem.
    replace (Z.max 0 (t - step * 2 + 1)) with 0 by lia.
    replace (Z.max 0 (t - step + 1)) with 0 by lia. reflexivity.
  - rewrite (Hinv (t - step)) by lia. rewrite u16_wrap_add. f_equal. unfold countTrue.
    replace (t + 1 - Z.max 0 (t - step * 2 + 1))
      with ((t - step + 1 - Z.max 0 (t - step - step + 1)) + (t + 1 - Z.max 0 (t - step + 1)))
      by lia.
    rewrite PrefixSum.sumCounts_app by lia.
    replace (Z.max 0 (t - step * 2 + 1)) with (Z.max 0 (t - step - step + 1)) by lia.
    replace (Z.max 0 (t - step - step + 1) + (t - step + 1 - Z.max 0 (t - step - step + 1)))
      with (Z.max 0 (t - step + 1)) by lia.
    lia.
Qed.

Lemma scanLoop_counts_prefix (order : Z -> list Z) fuel : forall whichBuffer step temp,
  (forall i, orderOk (order i)) ->
  whichBuffer = 0 \/ whichBuffer = 1 -> 1 <= step -> blockDim <= step + Z.of_nat fuel ->
  blockDim <= Z.of_nat (length temp) ->
  scanned whichBuffer step temp ->
  let r := scanLoop fuel order whichBuffer step temp in
  (fst r = 0 \/ fst r = 1) /\ length (snd r) = length temp /\
  forall t, 0 <= t < blockDim ->
    active (fst r) (rd (snd r) t) = u16_wrap (countTrue 0 (t + 1)).
Proof.
  induction fuel as [|fuel IH]; intros whichBuffer step temp Hp Hw Hs Hfuel Hlen Hinv; cbn zeta.
  - simpl. split; [exact Hw|]. split; [reflexivity|]. intros t Ht. rewrite (Hinv t Ht).
    replace (Z.max 0 (t - step + 1)) with 0 by lia. by rewrite Z.sub_0_r.
  - cbn [scanLoop]. destruct (Z.ltb_spec step blockDim) as [Hlt|Hge].
    + destruct (scanThread_scanned whichBuffer step (order step) temp Hw Hs (Hp step) Hlen Hinv)
        as [Hl Hnext].
      destruct (IH (1 - whichBuffer) (step * 2) _ Hp ltac:(lia) ltac:(lia) ltac:(lia)
                  ltac:(rewrite Hl; exact Hlen) Hnext) as (H1 & H2 & H3).
      split; [exact H1|]. split; [by rewrite H2|]. exact H3.
    + simpl. split; [exact Hw|]. split; [reflexivity|]. intros t Ht. rewrite (Hinv t Ht).
      replace (Z.max 0 (t - step + 1)) with 0 by lia. by rewrite Z.sub_0_r.
Qed.

Lemma countTrue_filter (n : nat) :
  (n <= length values)%nat ->
  countTrue 0 (Z.of_nat n) = Z.of_nat (length (List.filter (fun b : bool => b) (take n values))).
Proof.
  clear HB Hvalues. induction n as [|n IH]; intros Hn; [reflexivity|].
  rewrite Nat2Z.inj_succ, <- Z.add_1_r. unfold countTrue in *.
  rewrite PrefixSum.sumCounts_succ by lia. rewrite IH by lia.
  destruct (lookup_lt_is_Some_2 values n ltac:(lia)) as [b Hb].
  rewrite (take_S_r _ _ b Hb). rewrite List.filter_app, length_app, Nat2Z.inj_add.
  f_equal. unfold rd. rewrite Z.add_0_l, Nat2Z.id.
  rewrite (list_lookup_total_fmap Z.b2z values n) by lia.
  rewrite (list_lookup_total_correct _ _ _ Hb). by destruct b.
Qed.

(** X13.  prefixSum for a block of any size, with the threads of the block
    passing each barrier interval in any order: sum[t] receives the number
    of threads 0..t whose value is true, as a 16-bit quantity (exactly that
    number when the block has at most 32767 threads); entries of sum beyond
    the block are untouched and both arrays keep their lengths. *)
Theorem prefixSum_counts (order : Z -> list Z) (sum : list Z) (temp : list ushort2) :
  (forall i, order i ≡ₚ seqZ 0 blockDim) ->
  blockDim <= Z.of_nat (length temp) -> blockDim <= Z.of_nat (length sum) ->
  let sum' := fst (prefixSum order sum temp) in
  let upTo t := Z.of_nat (length (List.filter (fun b : bool => b)
                                    (take (Z.to_nat (t + 1)) values))) in
  length sum' = length sum /\
  length (snd (prefixSum order sum temp)) = length temp /\
  (forall t, 0 <= t < blockDim -> rd sum' t = s16_wrap (u16_wrap (upTo t))) /\
  (blockDim <= 32767 -> forall t, 0 <= t < blockDim -> rd sum' t = upTo t) /\
  (forall t, blockDim <= t -> rd sum' t = rd sum t).
Proof.
  intros Hp HlenT HlenS. cbn zeta. unfold prefixSum.
  destruct (storeValue_scanned (order 0) temp (Hp 0) HlenT) as [Hl0 Hinv0].
  set (temp1 := foldl storeValue temp (order 0)) in *.
  pose proof (scanLoop_counts_prefix order (Z.to_nat blockDim) 0 1 temp1 Hp ltac:(by left)
                ltac:(lia) ltac:(lia) ltac:(rewrite Hl0; exact HlenT) Hinv0) as Hloop.
  cbn zeta in Hloop.
  destruct (scanLoop (Z.to_nat blockDim) order 0 1 temp1) as [whichBuffer temp2].
  cbn [fst snd] in *. destruct Hloop as (Hw & Hl2 & Hsum).
  destruct (foldl_wr_each
              (fun (sum : list Z) a =>
                 s16_wrap (if whichBuffer =? 0 then ux (rd temp2 a) else uy (rd temp2 a)))
              (fun t v => v = s16_wrap (active whichBuffer (rd temp2 t))) (order (-1)) sum)
    as (Hl & Hset & Hkeep).
  { intros a Ha. rewrite (Hp (-1)) in Ha. apply elem_of_seqZ in Ha. lia. }
  { reflexivity. }
  change (foldl (storeSum whichBuffer temp2) sum (order (-1)))
    with (foldl (fun (sum : list Z) a =>
                   wr sum a (s16_wrap (if whichBuffer =? 0 then ux (rd temp2 a)
                                       else uy (rd temp2 a)))) sum (order (-1))).
  assert (forall t, 0 <= t < blockDim ->
            countTrue 0 (t + 1)
            = Z.of_nat (length (List.filter (fun b : bool => b)
                                  (take (Z.to_nat (t + 1)) values)))) as Hcount.
  { intros t Ht. rewrite <- countTrue_filter by lia. f_equal. lia. }
  split; [exact Hl|]. split; [congruence|]. split; [|split].
  - intros t Ht. rewrite (Hset t) by (rewrite (Hp (-1)); apply elem_of_seqZ; lia).
    rewrite Hsum by exact Ht. by rewrite Hcount.
  - intros Hsmall t Ht. rewrite (Hset t) by (rewrite (Hp (-1)); apply elem_of_seqZ; lia).
    rewrite Hsum by exact Ht. rewrite Hcount by exact Ht.
    set (n := Z.of_nat (length _)).
    assert (0 <= n <= t + 1) as Hn.
    { unfold n. split; [lia|].
      pose proof (List.filter_length_le (fun b : bool => b) (take (Z.to_nat (t + 1)) values)).
      rewrite length_take in *. lia. }
    unfold s16_wrap, u16_wrap. rewrite (Z.mod_small n) by lia.
    rewrite Z.mod_small by lia. lia.
  - intros t Ht. apply Hkeep; [lia|]. rewrite (Hp (-1)). intros Hin.
    apply elem_of_seqZ in Hin. lia.
Qed.

End Device.

(** Five threads, in ascending order in some intervals and descending in
    others. *)
Definition demoValues : list bool := [true; false; true; true; false].

Definition demoOrder (i : Z) : list Z :=
  if Z.even i then seqZ 0 5 else reverse (seqZ 0 5).

Lemma prefixSum_counts_witness :
  rd (fst (prefixSum 5 demoValues demoOrder (replicate 5 0)
             (replicate 5 (make_ushort2 9 9)))) 3 =
  s16_wrap (u16_wrap (Z.of_nat (length (List.filter (fun b : bool => b)
                                          (take (Z.to_nat (3 + 1)) demoValues))))).
Proof.
  refine (proj1 (proj2 (proj2 (prefixSum_counts 5 demoValues _ _ demoOrder (replicate 5 0)
                                 (replicate 5 (make_ushort2 9 9)) _ _ _))) 3 _);
    try lia; try (simpl; lia).
  intros i. unfold demoOrder. destruct (Z.even i); [reflexivity|].
  apply reverse_Permutation.
Defined.

End BooleanScan.

(** ** computeInteraction (customManyParticle.cu, lines 123-166) *)

Module Interaction.

Section Kernel.

Local Open Scope Z_scope.

Variable NUM_ATOMS : Z.

(** The macros the host defines before compiling the kernel; their text is not
    part of this file, so the kernel is modelled for arbitrary ones.
    - NUM_CANDIDATE_COMBINATIONS, an expression in numNeighbors, whose value
      is assigned to [int numCombinations];
    - FIND_ATOMS_FOR_COMBINATION_INDEX, which sets the atoms of the candidate
      from p1, numNeighbors and index;
    - IS_VALID_COMBINATION, VERIFY_CUTOFF, the type filter and
      VERIFY_EXCLUSIONS, which together decide includeInteraction;
    - PERMUTE_ATOMS, LOAD_PARTICLE_DATA and COMPUTE_INTERACTION, which add the
      energy of the group to [energy] and store its forces. *)
Variable NUM_CANDIDATE_COMBINATIONS : Z -> Z.
Variable FIND_ATOMS_FOR_COMBINATION_INDEX : Z -> Z -> Z -> list Z.
Variable includeInteraction : list Z -> bool.
Variable COMPUTE_INTERACTION : list Z -> real * list (Z * real3).

(** Lines 137-164: the groups worker (blockIdx, threadIdx) evaluates, in its
    program order. *)
Definition workerGroups (gridDim blockDim : Z) (bt : Z * Z) : list (list Z) :=
  p1 ← gridStride (fst bt) gridDim NUM_ATOMS;
  let numNeighbors := NUM_ATOMS - p1 - 1 in
  let numCombinations := int_wrap (NUM_CANDIDATE_COMBINATIONS numNeighbors) in
  index ← gridStride (snd bt) blockDim numCombinations;
  let atoms := FIND_ATOMS_FOR_COMBINATION_INDEX p1 numNeighbors index in
  if includeInteraction atoms then [atoms] else [].

(** Lines 133 and 158-162: the worker's [energy], started at 0. *)
Definition workerEnergy (gridDim blockDim : Z) (bt : Z * Z) : real :=
  foldl (fun energy atoms => (energy + fst (COMPUTE_INTERACTION atoms))%Q) 0%Q
        (workerGroups gridDim blockDim bt).

(** Line 165: [energyBuffer[blockIdx.x*blockDim.x+threadIdx.x] += energy]. *)
Definition addEnergy (gridDim blockDim : Z) (energyBuffer : list real) (bt : Z * Z) : list real :=
  let slot := fst bt * blockDim + snd bt in
  wr energyBuffer slot (rd energyBuffer slot + workerEnergy gridDim blockDim bt)%Q.

(** The effect of the kernel on energyBuffer: every worker touches its own
    slot only, so the workers are run one after another. *)
Definition computeInteractionEnergy (gridDim blockDim : Z) (energyBuffer : list real) : list real :=
  foldl (addEnergy gridDim blockDim) energyBuffer (threads gridDim blockDim).

(** All groups evaluated by a launch. *)
Definition evaluatedGroups (gridDim blockDim : Z) : list (list Z) :=
  threads gridDim blockDim ≫= workerGroups gridDim blockDim.

(** The storeForce calls of a launch, worker by worker. *)
Definition forceCalls (gridDim blockDim : Z) : list (Z * real3) :=
  atoms ← evaluatedGroups gridDim blockDim; snd (COMPUTE_INTERACTION atoms).

Lemma elem_of_workerGroups gridDim blockDim b t atoms :
  atoms ∈ workerGroups gridDim blockDim (b, t) <->
  exists p1 index,
    p1 ∈ gridStride b gridDim NUM_ATOMS /\
    index ∈ gridStride t blockDim (int_wrap (NUM_CANDIDATE_COMBINATIONS (NUM_ATOMS - p1 - 1))) /\
    atoms = FIND_ATOMS_FOR_COMBINATION_INDEX p1 (NUM_ATOMS - p1 - 1) index /\
    includeInteraction atoms = true.
Proof.
  unfold workerGroups. cbn [fst snd]. rewrite list_elem_of_bind. split.
  - intros (p1 & Hin & Hp1). cbn zeta in Hin. rewrite list_elem_of_bind in Hin.
    destruct Hin as (index & Hin & Hidx).
    destruct (includeInteraction _) eqn:Hinc; [|by apply elem_of_nil in Hin].
    apply list_elem_of_singleton in Hin. subst atoms. exists p1, index. auto.
  - intros (p1 & index & Hp1 & Hidx & -> & Hinc). exists p1. split; [|exact Hp1].
    cbn zeta. rewrite list_elem_of_bind. exists index. split; [|exact Hidx].
    rewrite Hinc. by left.
Qed.

(** *** The energy buffer: one addition per worker, nothing else *)

Lemma length_addEnergy gridDim blockDim energyBuffer bt :
  length (addEnergy gridDim blockDim energyBuffer bt) = length energyBuffer.
Proof. apply length_wr. Qed.

Lemma slot_injective gridDim blockDim b t b' t' :
  (b, t) ∈ threads gridDim blockDim -> (b', t') ∈ threads gridDim blockDim ->
  b * blockDim + t = b' * blockDim + t' -> (b, t) = (b', t').
Proof.
  intros H1 H2 Heq. apply elem_of_threads in H1, H2.
  assert (b = b') by nia. subst b'. f_equal. lia.
Qed.

(** C9. computeInteraction never clears energyBuffer: worker
    (blockIdx, threadIdx) adds its energy once to slot
    blockIdx*blockDim+threadIdx, on top of what the slot held, and no other
    slot changes.  A slot that held zero before the launch ends at the
    worker's energy; any other slot ends at its old value plus that energy. *)
Theorem computeInteraction_accumulates_energy gridDim blockDim (energyBuffer : list real) :
  0 < gridDim -> 0 < blockDim ->
  gridDim * blockDim <= Z.of_nat (length energyBuffer) ->
  let energyBuffer' := computeInteractionEnergy gridDim blockDim energyBuffer in
  length energyBuffer' = length energyBuffer /\
  (forall b t, 0 <= b < gridDim -> 0 <= t < blockDim ->
     rd energyBuffer' (b * blockDim + t) =
     (rd energyBuffer (b * blockDim + t) + workerEnergy gridDim blockDim (b, t))%Q) /\
  (forall slot, gridDim * blockDim <= slot -> rd energyBuffer' slot = rd energyBuffer slot) /\
  (forall b t, 0 <= b < gridDim -> 0 <= t < blockDim ->
     (rd energyBuffer (b * blockDim + t) == 0)%Q ->
     (rd energyBuffer' (b * blockDim + t) == workerEnergy gridDim blockDim (b, t))%Q).
Proof.
  intros HG HB Hlen. cbn zeta. unfold computeInteractionEnergy.
  assert (Hkeep : forall a bt, bt ∈ threads gridDim blockDim ->
            length a = length energyBuffer ->
            length (addEnergy gridDim blockDim a bt) = length energyBuffer).
  { intros a bt _ Ha. by rewrite length_addEnergy. }
  assert (Howned : forall b t, 0 <= b < gridDim -> 0 <= t < blockDim ->
            rd (foldl (addEnergy gridDim blockDim) energyBuffer (threads gridDim blockDim))
               (b * blockDim + t) =
            (rd energyBuffer (b * blockDim + t) + workerEnergy gridDim blockDim (b, t))%Q).
  { intros b t Hb Ht.
    assert ((b, t) ∈ threads gridDim blockDim) as Hin by (apply elem_of_threads; lia).
    apply (foldl_establish_once
             (fun a => length a = length energyBuffer)
             (fun a => rd a (b * blockDim + t) = rd energyBuffer (b * blockDim + t))
             (fun a => rd a (b * blockDim + t) =
                       (rd energyBuffer (b * blockDim + t)
                        + workerEnergy gridDim blockDim (b, t))%Q)
             _ _ (b, t)); auto using NoDup_threads.
    - intros a [b' t'] Hin' Hne Ha HR. unfold addEnergy. cbn [fst snd].
      pose proof Hin' as Hr'. apply elem_of_threads in Hr'.
      rewrite rd_wr_ne; [exact HR|nia|nia|].
      intros Heq. apply Hne. symmetry. by apply (slot_injective gridDim blockDim).
    - intros a Ha HR. unfold addEnergy. cbn [fst snd].
      rewrite rd_wr_eq; [by rewrite HR|nia|rewrite Ha; nia].
    - intros a [b' t'] Hin' Hne Ha HQ. unfold addEnergy. cbn [fst snd].
      pose proof Hin' as Hr'. apply elem_of_threads in Hr'.
      rewrite rd_wr_ne; [exact HQ|nia|nia|].
      intros Heq. apply Hne. symmetry. by apply (slot_injective gridDim blockDim). }
  split; [|split; [|split]].
  - by apply (foldl_invariant (fun a => length a = length energyBuffer)).
  - exact Howned.
  - intros slot Hslot.
    apply (foldl_invariant (fun a => rd a slot = rd energyBuffer slot)); [|reflexivity].
    intros a [b t] Hin Ha. apply elem_of_threads in Hin. unfold addEnergy. cbn [fst snd].
    rewrite rd_wr_ne; [exact Ha|nia|nia|nia].
  - intros b t Hb Ht Hzero. rewrite (Howned b t Hb Ht), Hzero. lra.
Qed.

(** *** The work of the kernel does not depend on the launch sizes *)

(** The groups in the order a single thread would visit them. *)
Definition sequentialGroups : list (list Z) :=
  p1 ← seqZ 0 NUM_ATOMS;
  let numNeighbors := NUM_ATOMS - p1 - 1 in
  index ← seqZ 0 (int_wrap (NUM_CANDIDATE_COMBINATIONS numNeighbors));
  let atoms := FIND_ATOMS_FOR_COMBINATION_INDEX p1 numNeighbors index in
  if includeInteraction atoms then [atoms] else [].

Definition groupEnergy (atoms : list Z) : real := fst (COMPUTE_INTERACTION atoms).

Definition sumQ (l : list real) : real := foldr Qplus 0%Q l.

Lemma stride_partition stride bound :
  0 < stride -> (seqZ 0 stride ≫= fun start => gridStride start stride bound) ≡ₚ seqZ 0 bound.
Proof.
  intros Hs. rewrite <- (launch_partition 1 stride bound ltac:(lia) Hs).
  unfold threads. rewrite (seqZ_cons 0 1) by lia. rewrite (seqZ_nil _ (Z.pred 1)) by lia.
  change ([0] ≫= ?g) with (g 0 ++ []). rewrite app_nil_r.
  rewrite list_fmap_bind.
  assert (forall t, ((fun bt : Z * Z => gridStride (fst bt * stride + snd bt) (stride * 1) bound)
                     ∘ (fun t => (0, t))) t = gridStride t stride bound) as Heq.
  { intros t. simpl. by rewrite Z.mul_1_r. }
  by rewrite (list_bind_ext _ _ _ _ Heq eq_refl).
Qed.

Lemma bind_perm_ext {A B} (f g : A -> list B) (l : list A) :
  (forall a, f a ≡ₚ g a) -> l ≫= f ≡ₚ l ≫= g.
Proof.
  intros Hfg. induction l as [|a l IH]; [reflexivity|].
  rewrite !bind_cons. by rewrite IH, Hfg.
Qed.

Lemma bind_swap {A B C} (l1 : list A) (l2 : list B) (f : A -> B -> list C) :
  (a ← l1; b ← l2; f a b) ≡ₚ (b ← l2; a ← l1; f a b).
Proof.
  induction l1 as [|a l1 IH].
  - simpl. induction l2 as [|b l2 IH2]; [reflexivity|].
    rewrite bind_cons. by rewrite <- IH2.
  - rewrite bind_cons, IH. clear IH.
    induction l2 as [|b l2 IH2]; [reflexivity|].
    rewrite !bind_cons. rewrite <- IH2. rewrite <- !app_assoc. f_equiv.
    rewrite !app_assoc. f_equiv. apply Permutation_app_comm.
Qed.

Lemma bind_assoc_list {A B C} (l : list A) (f : A -> list B) (g : B -> list C) :
  (l ≫= f) ≫= g = l ≫= (fun a => f a ≫= g).
Proof.
  induction l as [|a l IH]; [reflexivity|].
  rewrite !bind_cons, bind_app. by rewrite IH.
Qed.

Lemma evaluatedGroups_sequential gridDim blockDim :
  0 < gridDim -> 0 < blockDim -> evaluatedGroups gridDim blockDim ≡ₚ sequentialGroups.
Proof.
  intros HG HB. unfold evaluatedGroups, threads, sequentialGroups, workerGroups.
  rewrite bind_assoc_list.
  rewrite <- (stride_partition gridDim NUM_ATOMS HG).
  rewrite bind_assoc_list. apply bind_perm_ext. intros b.
  rewrite list_fmap_bind. unfold compose. cbn [fst snd].
  rewrite bind_swap. apply bind_perm_ext. intros p1.
  rewrite <- (stride_partition blockDim (int_wrap (NUM_CANDIDATE_COMBINATIONS (NUM_ATOMS - p1 - 1))) HB).
  by rewrite bind_assoc_list.
Qed.

Lemma sumQ_cons a l : sumQ (a :: l) = (a + sumQ l)%Q.
Proof. reflexivity. Qed.

Lemma sumQ_app l1 l2 : (sumQ (l1 ++ l2) == sumQ l1 + sumQ l2)%Q.
Proof.
  induction l1 as [|a l1 IH]; [change (sumQ []) with 0%Q; simpl; lra|].
  rewrite <- app_comm_cons, !sumQ_cons, IH. lra.
Qed.

Lemma sumQ_Permutation l1 l2 : l1 ≡ₚ l2 -> (sumQ l1 == sumQ l2)%Q.
Proof.
  induction 1 as [|a l1 l2 _ IH|a b l|l1 l2 l3 _ IH1 _ IH2].
  - reflexivity.
  - rewrite !sumQ_cons. by rewrite IH.
  - rewrite !sumQ_cons. lra.
  - by rewrite IH1.
Qed.

Lemma sumQ_bind {A} (h : list Z -> real) (f : A -> list (list Z)) (l : list A) :
  (sumQ (h <$> (l ≫= f)) == sumQ ((fun a => sumQ (h <$> f a)) <$> l))%Q.
Proof.
  induction l as [|a l IH]; [reflexivity|].
  rewrite bind_cons, fmap_app, sumQ_app, IH. reflexivity.
Qed.

Lemma sumQ_fmap_plus {A} (f g : A -> real) (l : list A) :
  (sumQ ((fun a => f a + g a) <$> l) == sumQ (f <$> l) + sumQ (g <$> l))%Q.
Proof.
  induction l as [|a l IH]; [change (sumQ []) with 0%Q; simpl; lra|].
  rewrite !fmap_cons, !sumQ_cons, IH. lra.
Qed.

Lemma sumQ_fmap_ext {A} (f g : A -> real) (l : list A) :
  (forall a, a ∈ l -> (f a == g a)%Q) -> (sumQ (f <$> l) == sumQ (g <$> l))%Q.
Proof.
  induction l as [|a l IH]; intros Hfg; [reflexivity|].
  rewrite !fmap_cons, !sumQ_cons. rewrite (Hfg a) by (by left). rewrite IH; [reflexivity|].
  intros b Hb. apply Hfg. by right.
Qed.

Lemma workerEnergy_sum gridDim blockDim bt :
  (workerEnergy gridDim blockDim bt
   == sumQ (groupEnergy <$> workerGroups gridDim blockDim bt))%Q.
Proof.
  unfold workerEnergy.
  assert (forall l e,
            (foldl (fun energy atoms => (energy + fst (COMPUTE_INTERACTION atoms))%Q) e l
             == e + sumQ (groupEnergy <$> l))%Q) as Hfold.
  { induction l as [|a l IH]; intros e; [change (sumQ _) with 0%Q; simpl; lra|].
    cbn [foldl]. rewrite fmap_cons, sumQ_cons, IH. unfold groupEnergy. lra. }
  rewrite Hfold. lra.
Qed.

Lemma slots_of_threads (gridDim : nat) blockDim :
  0 <= blockDim ->
  (fun bt : Z * Z => fst bt * blockDim + snd bt) <$> threads (Z.of_nat gridDim) blockDim
  = seqZ 0 (Z.of_nat gridDim * blockDim).
Proof.
  intros HB. unfold threads. induction gridDim as [|g IH]; [reflexivity|].
  rewrite Nat2Z.inj_succ, <- Z.add_1_r. rewrite seqZ_app by lia.
  rewrite bind_app, fmap_app, IH.
  rewrite Z.mul_add_distr_r, Z.mul_1_l. rewrite (seqZ_app _ (Z.of_nat g * blockDim)) by nia.
  f_equal. rewrite (seqZ_cons _ 1) by lia. rewrite (seqZ_nil _ (Z.pred 1)) by lia.
  rewrite bind_cons, app_nil_r. rewrite <- list_fmap_compose. rewrite !Z.add_0_l.
  transitivity (Z.add (Z.of_nat g * blockDim) <$> seqZ 0 blockDim).
  - apply list_fmap_ext. intros i t _. reflexivity.
  - rewrite fmap_add_seqZ. f_equal. lia.
Qed.

Lemma computeInteractionEnergy_slot gridDim blockDim (energyBuffer : list real) b t :
  0 < gridDim -> 0 < blockDim ->
  gridDim * blockDim <= Z.of_nat (length energyBuffer) ->
  0 <= b < gridDim -> 0 <= t < blockDim ->
  rd (computeInteractionEnergy gridDim blockDim energyBuffer) (b * blockDim + t)
  = (rd energyBuffer (b * blockDim + t) + workerEnergy gridDim blockDim (b, t))%Q.
Proof.
  intros HG HB Hlen Hb Ht. unfold computeInteractionEnergy.
  assert ((b, t) ∈ threads gridDim blockDim) as Hin by (apply elem_of_threads; lia).
  apply (foldl_establish_once
           (fun a => length a = length energyBuffer)
           (fun a => rd a (b * blockDim + t) = rd energyBuffer (b * blockDim + t))
           (fun a => rd a (b * blockDim + t) =
                     (rd energyBuffer (b * blockDim + t)
                      + workerEnergy gridDim blockDim (b, t))%Q)
           _ _ (b, t)); auto using NoDup_threads.
  - intros a bt _ Ha. by rewrite length_addEnergy.
  - intros a [b' t'] Hin' Hne Ha HR. unfold addEnergy. cbn [fst snd].
    pose proof Hin' as Hr'. apply elem_of_threads in Hr'.
    rewrite rd_wr_ne; [exact HR|nia|nia|].
    intros Heq. apply Hne. symmetry. by apply (slot_injective gridDim blockDim).
  - intros a Ha HR. unfold addEnergy. cbn [fst snd].
    rewrite rd_wr_eq; [by rewrite HR|nia|rewrite Ha; nia].
  - intros a [b' t'] Hin' Hne Ha HQ. unfold addEnergy. cbn [fst snd].
    pose proof Hin' as Hr'. apply elem_of_threads in Hr'.
    rewrite rd_wr_ne; [exact HQ|nia|nia|].
    intros Heq. apply Hne. symmetry. by apply (slot_injective gridDim blockDim).
Qed.

End Kernel.

(** *** The groups of a launch *)

Section Groups.

Local Open Scope Z_scope.

Import Combinations.

Variable NUM_ATOMS : Z.
(** The number of atoms drawn from the pool of p1: the group size minus one. *)
Variable drawn : nat.
Variable includeInteraction : list Z -> bool.

(** Modelled from the spec: NUM_CANDIDATE_COMBINATIONS, a macro the host
    defines (absent from the kernel file), as the number of combinations of
    size G-1 of the pool of numNeighbors atoms. *)
Definition NUM_CANDIDATE_COMBINATIONS (numNeighbors : Z) : Z :=
  Z.of_nat (binom (Z.to_nat numNeighbors) drawn).

(** Modelled from the spec: FIND_ATOMS_FOR_COMBINATION_INDEX, a macro the host
    defines (absent from the kernel file): the anchor p1 followed by the
    combination of pool atoms that [index] unranks to; the pool of p1 is
    p1+1, ..., p1+numNeighbors. *)
Definition FIND_ATOMS_FOR_COMBINATION_INDEX (p1 numNeighbors index : Z) : list Z :=
  p1 :: unrank (Z.to_nat numNeighbors) drawn (p1 + 1) (Z.to_nat index).

Definition groupsOfLaunch (gridDim blockDim : Z) : list (list Z) :=
  evaluatedGroups NUM_ATOMS NUM_CANDIDATE_COMBINATIONS FIND_ATOMS_FOR_COMBINATION_INDEX
                  includeInteraction gridDim blockDim.

Lemma FIND_ATOMS_inj p1 index p1' index' :
  0 <= index < NUM_CANDIDATE_COMBINATIONS (NUM_ATOMS - p1 - 1) ->
  0 <= index' < NUM_CANDIDATE_COMBINATIONS (NUM_ATOMS - p1' - 1) ->
  FIND_ATOMS_FOR_COMBINATION_INDEX p1 (NUM_ATOMS - p1 - 1) index =
  FIND_ATOMS_FOR_COMBINATION_INDEX p1' (NUM_ATOMS - p1' - 1) index' ->
  p1 = p1' /\ index = index'.
Proof.
  unfold FIND_ATOMS_FOR_COMBINATION_INDEX, NUM_CANDIDATE_COMBINATIONS.
  intros H1 H2 Heq. injection Heq as -> Heq. split; [reflexivity|].
  apply unrank_inj in Heq; lia.
Qed.

Lemma stride_owner start start' stride bound i :
  0 < stride -> 0 <= start < stride -> 0 <= start' < stride ->
  i ∈ gridStride start stride bound -> i ∈ gridStride start' stride bound -> start = start'.
Proof.
  intros Hs H1 H2 Hi Hi'. apply elem_of_gridStride in Hi, Hi'; try exact Hs.
  destruct Hi as (q & Hq & -> & _). destruct Hi' as (q' & Hq' & Heq & _).
  assert (q = q') by nia. subst q'. lia.
Qed.

Lemma gridStride_nonneg start stride bound i :
  0 < stride -> 0 <= start -> i ∈ gridStride start stride bound -> 0 <= i < bound.
Proof.
  intros Hs H0 Hi. apply elem_of_gridStride in Hi; [|exact Hs].
  destruct Hi as (q & Hq & -> & Hb). nia.
Qed.

(** C2. Provided the loop variables fit an int (p1 stays below 2^31 up to its
    last increment, and so does index: the number of combinations plus the
    block size is at most 2^31), every group computeInteraction evaluates is
    the anchor p1 followed by atoms of its forward pool: a strictly ascending
    tuple of G distinct atom indices below NUM_ATOMS with p1 the lowest.  No
    group is evaluated twice, two evaluated groups with the same members are
    the same evaluation, and every ascending G-tuple that passes the checks
    is evaluated. *)
Theorem computeInteraction_groups_once gridDim blockDim :
  0 < gridDim -> 0 < blockDim ->
  NUM_ATOMS + gridDim <= INT_MAX + 1 ->
  (forall p1, 0 <= p1 < NUM_ATOMS ->
     NUM_CANDIDATE_COMBINATIONS (NUM_ATOMS - p1 - 1) + blockDim <= INT_MAX + 1) ->
  let evaluated := groupsOfLaunch gridDim blockDim in
  (forall atoms, atoms ∈ evaluated ->
     length atoms = S drawn /\ ascending atoms /\ NoDup atoms /\
     exists p1 others, atoms = p1 :: others /\ 0 <= p1 /\
                       forall a, a ∈ others -> p1 < a < NUM_ATOMS) /\
  NoDup evaluated /\
  (forall i j atoms1 atoms2,
     evaluated !! i = Some atoms1 -> evaluated !! j = Some atoms2 ->
     atoms1 ≡ₚ atoms2 -> i = j) /\
  (forall atoms,
     ascending atoms -> length atoms = S drawn ->
     (forall a, a ∈ atoms -> 0 <= a < NUM_ATOMS) ->
     includeInteraction atoms = true -> atoms ∈ evaluated).
Proof.
  intros HG HB _ Hfits. cbn zeta. unfold groupsOfLaunch, evaluatedGroups.
  assert (Hcount : forall p1, 0 <= p1 < NUM_ATOMS ->
            int_wrap (NUM_CANDIDATE_COMBINATIONS (NUM_ATOMS - p1 - 1))
            = NUM_CANDIDATE_COMBINATIONS (NUM_ATOMS - p1 - 1)).
  { intros p1 Hp1. specialize (Hfits p1 Hp1). apply int_wrap_small.
    unfold NUM_CANDIDATE_COMBINATIONS, INT_MAX in *. lia. }
  assert (Hshape : forall b t atoms, (b, t) ∈ threads gridDim blockDim ->
            atoms ∈ workerGroups NUM_ATOMS NUM_CANDIDATE_COMBINATIONS
                      FIND_ATOMS_FOR_COMBINATION_INDEX includeInteraction gridDim blockDim (b, t) ->
            exists p1 index,
              p1 ∈ gridStride b gridDim NUM_ATOMS /\
              index ∈ gridStride t blockDim (NUM_CANDIDATE_COMBINATIONS (NUM_ATOMS - p1 - 1)) /\
              0 <= p1 < NUM_ATOMS /\
              0 <= index < NUM_CANDIDATE_COMBINATIONS (NUM_ATOMS - p1 - 1) /\
              atoms = FIND_ATOMS_FOR_COMBINATION_INDEX p1 (NUM_ATOMS - p1 - 1) index).
  { intros b t atoms Hbt Hin. apply elem_of_threads in Hbt.
    apply elem_of_workerGroups in Hin. destruct Hin as (p1 & index & Hp1 & Hidx & -> & _).
    assert (0 <= p1 < NUM_ATOMS) as Hr by (eapply gridStride_nonneg; [| |exact Hp1]; lia).
    rewrite (Hcount p1 Hr) in Hidx.
    exists p1, index. repeat split; auto;
      try (eapply gridStride_nonneg; [| |exact Hp1]; lia);
      try (eapply gridStride_nonneg; [| |exact Hidx]; lia). }
  assert (Hasc : forall p1 index, 0 <= p1 < NUM_ATOMS ->
            ascending (FIND_ATOMS_FOR_COMBINATION_INDEX p1 (NUM_ATOMS - p1 - 1) index)).
  { intros p1 index Hp1. unfold FIND_ATOMS_FOR_COMBINATION_INDEX.
    constructor; [apply unrank_ascending|]. apply Forall_forall. intros a Ha.
    apply unrank_range in Ha. lia. }
  assert (Hnd : NoDup (threads gridDim blockDim ≫=
                  workerGroups NUM_ATOMS NUM_CANDIDATE_COMBINATIONS
                    FIND_ATOMS_FOR_COMBINATION_INDEX includeInteraction gridDim blockDim)).
  { apply NoDup_bind; [| |apply NoDup_threads].
    - intros [b1 t1] [b2 t2] atoms Hbt1 Hbt2 H1 H2.
      destruct (Hshape b1 t1 atoms Hbt1 H1) as (p1 & i1 & Hp1 & Hi1 & Hr1 & Hb1 & Heq1).
      destruct (Hshape b2 t2 atoms Hbt2 H2) as (p2 & i2 & Hp2 & Hi2 & Hr2 & Hb2 & Heq2).
      rewrite Heq1 in Heq2. apply FIND_ATOMS_inj in Heq2; [|lia|lia].
      destruct Heq2 as [<- <-]. apply elem_of_threads in Hbt1, Hbt2.
      f_equal.
      + eapply (stride_owner b1 b2 gridDim); eauto; lia.
      + eapply (stride_owner t1 t2 blockDim); eauto; lia.
    - intros [b t] Hbt. apply elem_of_threads in Hbt. unfold workerGroups. cbn [fst snd].
      apply NoDup_bind; [| |apply NoDup_strideLoop; lia].
      + intros p1 p2 atoms Hp1 Hp2 H1 H2. cbn zeta in H1, H2.
        rewrite list_elem_of_bind in H1, H2.
        destruct H1 as (i1 & H1 & Hi1). destruct H2 as (i2 & H2 & Hi2).
        rewrite Hcount in Hi1 by (eapply gridStride_nonneg; [| |exact Hp1]; lia).
        rewrite Hcount in Hi2 by (eapply gridStride_nonneg; [| |exact Hp2]; lia).
        destruct (includeInteraction _); [|by apply elem_of_nil in H1].
        destruct (includeInteraction _); [|by apply elem_of_nil in H2].
        apply list_elem_of_singleton in H1, H2. rewrite H1 in H2.
        apply FIND_ATOMS_inj in H2; [tauto| |];
          (eapply gridStride_nonneg; [| |eassumption]; lia).
      + intros p1 Hp1. cbn zeta.
        rewrite Hcount by (eapply gridStride_nonneg; [| |exact Hp1]; lia).
        apply NoDup_bind; [| |apply NoDup_strideLoop; lia].
        * intros i1 i2 atoms Hi1 Hi2 H1 H2.
          destruct (includeInteraction _); [|by apply elem_of_nil in H1].
          destruct (includeInteraction _); [|by apply elem_of_nil in H2].
          apply list_elem_of_singleton in H1, H2. rewrite H1 in H2.
          apply FIND_ATOMS_inj in H2; [tauto| |];
            (eapply gridStride_nonneg; [| |eassumption]; lia).
        * intros index _. destruct (includeInteraction _); [apply NoDup_singleton|constructor]. }
  assert (Hmem : forall atoms,
            atoms ∈ threads gridDim blockDim ≫=
                    workerGroups NUM_ATOMS NUM_CANDIDATE_COMBINATIONS
                      FIND_ATOMS_FOR_COMBINATION_INDEX includeInteraction gridDim blockDim ->
            exists p1 index, 0 <= p1 < NUM_ATOMS /\
              atoms = FIND_ATOMS_FOR_COMBINATION_INDEX p1 (NUM_ATOMS - p1 - 1) index /\
              0 <= index < NUM_CANDIDATE_COMBINATIONS (NUM_ATOMS - p1 - 1)).
  { intros atoms Hin. rewrite list_elem_of_bind in Hin. destruct Hin as ([b t] & Hin & Hbt).
    destruct (Hshape b t atoms Hbt Hin) as (p1 & index & _ & _ & Hr & Hi & Heq).
    exists p1, index. auto. }
  split; [|split; [exact Hnd|split]].
  - intros atoms Hin. destruct (Hmem atoms Hin) as (p1 & index & Hp1 & -> & Hidx).
    pose proof (Hasc p1 index Hp1) as Ha. split; [|split; [exact Ha|split]].
    + unfold FIND_ATOMS_FOR_COMBINATION_INDEX, NUM_CANDIDATE_COMBINATIONS in *. simpl.
      rewrite unrank_length; [reflexivity|lia].
    + by apply ascending_NoDup.
    + exists p1, (unrank (Z.to_nat (NUM_ATOMS - p1 - 1)) drawn (p1 + 1) (Z.to_nat index)).
      split; [reflexivity|]. split; [lia|]. intros a Ha'. apply unrank_range in Ha'. lia.
  - intros i j atoms1 atoms2 Hi Hj Hperm.
    assert (atoms1 = atoms2) as Heq.
    { destruct (Hmem atoms1) as (p1 & i1 & Hp1 & -> & _); [by eapply list_elem_of_lookup_2|].
      destruct (Hmem atoms2) as (p2 & i2 & Hp2 & -> & _); [by eapply list_elem_of_lookup_2|].
      apply ascending_Permutation_eq; auto. }
    subst atoms2. by eapply NoDup_lookup.
  - intros atoms Hasc' Hlen Hrange Hinc.
    destruct atoms as [|p1 others]; [discriminate|]. injection Hlen as Hlen.
    apply StronglySorted_inv in Hasc'. destruct Hasc' as [Hothers Hhd].
    rewrite Forall_forall in Hhd.
    pose proof (Hrange p1 ltac:(by left)) as Hp1.
    destruct (unrank_complete (Z.to_nat (NUM_ATOMS - p1 - 1)) drawn (p1 + 1) others Hothers Hlen)
      as (r & Hr & Hu).
    { intros a Ha. specialize (Hhd a Ha). specialize (Hrange a ltac:(by right)). lia. }
    destruct (owner_exists gridDim 1 p1 HG ltac:(lia) ltac:(lia)) as (b & z & q & Hbz & Hq & Hpq).
    destruct (owner_exists 1 blockDim (Z.of_nat r) ltac:(lia) HB ltac:(lia))
      as (z' & t & q' & Hzt & Hq' & Hrq).
    apply elem_of_threads in Hbz, Hzt.
    rewrite list_elem_of_bind. exists (b, t). split; [|apply elem_of_threads; lia].
    apply elem_of_workerGroups. exists p1, (Z.of_nat r). split; [|split; [|split]].
    + apply elem_of_gridStride; [lia|]. exists q. split; [lia|]. split; [nia|lia].
    + rewrite Hcount by lia.
      apply elem_of_gridStride; [lia|]. exists q'. split; [lia|]. split; [nia|].
      unfold NUM_CANDIDATE_COMBINATIONS. lia.
    + unfold FIND_ATOMS_FOR_COMBINATION_INDEX. rewrite Nat2Z.id, Hu. reflexivity.
    + exact Hinc.
Qed.

End Groups.

End Interaction.

(** *** A concrete launch: four atoms, groups of three, two work groups of two
    threads, every group worth 1/2 *)

Module InteractionDemo.

Definition allGroups (atoms : list Z) : bool := true.
Definition halfEach (atoms : list Z) : real * list (Z * real3) := ((1 # 2)%Q, []).
Definition energyBuffer : list real := [1; 0; 3; 0; 5]%Q.

End InteractionDemo.

Lemma computeInteraction_accumulates_energy_witness :
  rd (Interaction.computeInteractionEnergy 4 (Interaction.NUM_CANDIDATE_COMBINATIONS 2)
        (Interaction.FIND_ATOMS_FOR_COMBINATION_INDEX 2) InteractionDemo.allGroups
        InteractionDemo.halfEach 2 2 InteractionDemo.energyBuffer) (0 * 2 + 0) =
  (rd InteractionDemo.energyBuffer (0 * 2 + 0) +
   Interaction.workerEnergy 4 (Interaction.NUM_CANDIDATE_COMBINATIONS 2)
     (Interaction.FIND_ATOMS_FOR_COMBINATION_INDEX 2) InteractionDemo.allGroups
     InteractionDemo.halfEach 2 2 (0, 0)%Z)%Q.
Proof.
  refine (proj1 (proj2 (Interaction.computeInteraction_accumulates_energy 4
            (Interaction.NUM_CANDIDATE_COMBINATIONS 2)
            (Interaction.FIND_ATOMS_FOR_COMBINATION_INDEX 2) InteractionDemo.allGroups
            InteractionDemo.halfEach 2 2 InteractionDemo.energyBuffer _ _ _)) 0 0 _ _);
    try lia. simpl. lia.
Defined.

Lemma computeInteraction_groups_once_witness :
  NoDup (Interaction.groupsOfLaunch 4 2 InteractionDemo.allGroups 2 2).
Proof.
  refine (proj1 (proj2 (Interaction.computeInteraction_groups_once 4 2
                          InteractionDemo.allGroups 2 2 _ _ _ _))); try lia.
  - vm_compute. congruence.
  - intros p1 Hp1.
    assert (p1 = 0 \/ p1 = 1 \/ p1 = 2 \/ p1 = 3) as [->|[->|[->| ->]]] by lia;
      vm_compute; congruence.
Defined.

(** ** ReferenceGayBerneForce::calculateForce
       (ReferenceGayBerneForce.cpp, lines 78-110): the guard, in binary64 *)

Module GayBerne.

Import Stdlib.Floats.Floats.

Local Open Scope float_scope.

Inductive NonbondedMethod : Type := NoCutoff | CutoffNonPeriodic | CutoffPeriodic.

Definition NonbondedMethod_eqb (a b : NonbondedMethod) : bool :=
  match a, b with
  | NoCutoff, NoCutoff | CutoffNonPeriodic, CutoffNonPeriodic
  | CutoffPeriodic, CutoffPeriodic => true
  | _, _ => false
  end.

(** RealOpenMM is [double]; the guard computes in double ([double
    minAllowedSize]).  Doubles are the kernel's binary64 floats, so the
    product and the comparisons below round as the program's do. *)
Definition RealOpenMM : Type := float.
Definition RealVec : Type := (RealOpenMM * RealOpenMM * RealOpenMM)%type.

(** [v[i]] for i = 0, 1, 2. *)
Definition component (v : RealVec) (i : nat) : RealOpenMM :=
  match v, i with
  | (a, _, _), O => a
  | (_, b, _), S O => b
  | (_, _, c), _ => c
  end.

#[global] Instance RealVec_inhabited : Inhabited RealVec := populate (0, 0, 0).

(** The outcome of a call: the exception thrown or the value returned. *)
Inductive Outcome (A : Type) : Type :=
| Throws (message : string)
| Returns (value : A).
Arguments Throws {A} message.
Arguments Returns {A} value.

Definition boxTooSmallMessage : string :=
  "The periodic box size has decreased to less than twice the nonbonded cutoff."%string.

(** The double nearest to the literal 1.999999. *)
Definition toleranceFactor : RealOpenMM := 0x1.ffffef39085f5p+0.

Section Force.

Variable nonbondedMethod : NonbondedMethod.
Variable cutoffDistance : RealOpenMM.

(** Lines 85-109, the evaluation proper (ellipsoid frames, pair interactions,
    exceptions): from the positions, the forces so far and the box to the
    energy and the updated forces.  It is left abstract here; only the guard
    in front of it is modelled. *)
Variable evaluate : list RealVec -> list RealVec -> list RealVec -> RealOpenMM * list RealVec.

(** Lines 79-83: the test of the guard. *)
Definition boxTooSmall (boxVectors : list RealVec) : bool :=
  let minAllowedSize := toleranceFactor * cutoffDistance in
  ((component (boxVectors !!! 0%nat) 0 <? minAllowedSize)
   || (component (boxVectors !!! 1%nat) 1 <? minAllowedSize)
   || (component (boxVectors !!! 2%nat) 2 <? minAllowedSize))%bool.

(** calculateForce: the outcome and the contents of [forces] afterwards. *)
Definition calculateForce (positions forces boxVectors : list RealVec)
    : Outcome RealOpenMM * list RealVec :=
  if (NonbondedMethod_eqb nonbondedMethod CutoffPeriodic && boxTooSmall boxVectors)%bool
  then (Throws boxTooSmallMessage, forces)
  else let '(energy, forces') := evaluate positions forces boxVectors in
       (Returns energy, forces').

(** The condition of the specification: some box dimension below twice the
    cutoff (doubling is exact in binary64). *)
Definition belowTwiceCutoff (boxVectors : list RealVec) : Prop :=
  (component (boxVectors !!! 0%nat) 0 <? 2 * cutoffDistance) = true \/
  (component (boxVectors !!! 1%nat) 1 <? 2 * cutoffDistance) = true \/
  (component (boxVectors !!! 2%nat) 2 <? 2 * cutoffDistance) = true.

(** The condition the code tests: some box dimension below the double product
    1.999999*cutoffDistance. *)
Definition belowAllowedSize (boxVectors : list RealVec) : Prop :=
  (component (boxVectors !!! 0%nat) 0 <? toleranceFactor * cutoffDistance) = true \/
  (component (boxVectors !!! 1%nat) 1 <? toleranceFactor * cutoffDistance) = true \/
  (component (boxVectors !!! 2%nat) 2 <? toleranceFactor * cutoffDistance) = true.

Lemma boxTooSmall_iff boxVectors :
  boxTooSmall boxVectors = true <-> belowAllowedSize boxVectors.
Proof.
  clear evaluate nonbondedMethod. unfold boxTooSmall, belowAllowedSize. cbn zeta.
  rewrite !Bool.orb_true_iff. tauto.
Qed.

End Force.

(** C8, as amended.  With the cutoff-periodic method, when one of the three
    diagonal entries of the box is below minAllowedSize, the double product
    1.999999*cutoffDistance, calculateForce throws before anything is
    evaluated: the outcome is the exception whatever the evaluation would do,
    and [forces] is left as it was.  In every other case the guard lets the
    evaluation run. *)
Theorem calculateForce_box_guard
    (nonbondedMethod : NonbondedMethod) (cutoffDistance : RealOpenMM)
    (evaluate : list RealVec -> list RealVec -> list RealVec -> RealOpenMM * list RealVec)
    (positions forces boxVectors : list RealVec) :
  (nonbondedMethod = CutoffPeriodic -> belowAllowedSize cutoffDistance boxVectors ->
   forall evaluate',
     calculateForce nonbondedMethod cutoffDistance evaluate' positions forces boxVectors
     = (Throws boxTooSmallMessage, forces)) /\
  (~ (nonbondedMethod = CutoffPeriodic /\ belowAllowedSize cutoffDistance boxVectors) ->
   calculateForce nonbondedMethod cutoffDistance evaluate positions forces boxVectors
   = (Returns (fst (evaluate positions forces boxVectors)),
      snd (evaluate positions forces boxVectors))).
Proof.
  unfold calculateForce. split.
  - intros -> Hsmall evaluate'. apply boxTooSmall_iff in Hsmall. by rewrite Hsmall.
  - intros Hnot.
    destruct (NonbondedMethod_eqb nonbondedMethod CutoffPeriodic) eqn:Hm;
      [destruct (boxTooSmall cutoffDistance boxVectors) eqn:Hb|]; cbn [andb].
    + exfalso. apply Hnot. split; [by destruct nonbondedMethod|by apply boxTooSmall_iff].
    + by destruct (evaluate positions forces boxVectors).
    + by destruct (evaluate positions forces boxVectors).
Qed.

(** A box of side 1.5 with cutoff 1, one of side 1.9999995 (the nearest
    double), and one whose side, with cutoff 7, equals the double product
    1.999999*7 although it lies below the exact product 13.999993. *)
Definition smallBox : list RealVec := [(1.5, 0, 0); (0, 10, 0); (0, 0, 10)].
Definition nearlyTwiceBox : list RealVec :=
  [(0x1.fffff79c842fap+0, 0, 0); (0, 10, 0); (0, 0, 10)].
Definition roundedBox : list RealVec :=
  [(0x1.bffff151e7536p+3, 0, 0); (0, 20, 0); (0, 0, 20)].
Definition noEvaluation (positions forces boxVectors : list RealVec)
    : RealOpenMM * list RealVec := (0, forces).

Lemma calculateForce_box_guard_witness :
  calculateForce CutoffPeriodic 1 noEvaluation [] [(1, 2, 3)] smallBox
  = (Throws boxTooSmallMessage, [(1, 2, 3)]).
Proof.
  refine (proj1 (calculateForce_box_guard CutoffPeriodic 1 noEvaluation [] [(1, 2, 3)] smallBox)
            eq_refl _ noEvaluation).
  left. reflexivity.
Defined.

(** C8 as stated fails: a box dimension of 1.9999995 is below twice the cutoff
    1, and calculateForce returns normally; so it does for the side
    0x1.bffff151e7536p+3 with cutoff 7. *)
Lemma calculateForce_accepts_nearly_twice :
  belowTwiceCutoff 1 nearlyTwiceBox /\
  calculateForce CutoffPeriodic 1 noEvaluation [] [] nearlyTwiceBox = (Returns 0, []) /\
  belowTwiceCutoff 7 roundedBox /\
  calculateForce CutoffPeriodic 7 noEvaluation [] [] roundedBox = (Returns 0, []).
Proof.
  split; [left; reflexivity|]. split; [reflexivity|]. split; [left; reflexivity|reflexivity].
Qed.

End GayBerne.

(** ** ReferenceGayBerneForce.cpp: constructor, calculateForce,
    computeEllipsoidFrames and computeOneInteraction, over the real numbers *)

Module GayBerneReference.

Import Stdlib.Reals.Reals Stdlib.micromega.Lra stdpp.gmap.

Local Open Scope R_scope.

Definition RealOpenMM : Type := R.

(** RealVec with the operators the file uses. *)
Definition RealVec : Type := (R * R * R)%type.

Definition idx (v : RealVec) (i : Z) : R :=
  match v with (a, b, c) => if (i =? 0)%Z then a else if (i =? 1)%Z then b else c end.

Definition vsub (u v : RealVec) : RealVec :=
  (idx u 0 - idx v 0, idx u 1 - idx v 1, idx u 2 - idx v 2).
Definition vscale (u : RealVec) (k : R) : RealVec := (idx u 0 * k, idx u 1 * k, idx u 2 * k).
Definition vdiv (u : RealVec) (k : R) : RealVec := (idx u 0 / k, idx u 1 / k, idx u 2 / k).
Definition dot (u v : RealVec) : R := idx u 0 * idx v 0 + idx u 1 * idx v 1 + idx u 2 * idx v 2.
Definition cross (u v : RealVec) : RealVec :=
  (idx u 1 * idx v 2 - idx u 2 * idx v 1,
   idx u 2 * idx v 0 - idx u 0 * idx v 2,
   idx u 0 * idx v 1 - idx u 1 * idx v 0).

#[global] Instance R_inhabited : Inhabited R := populate 0.
#[global] Instance RealVec_inhabited : Inhabited RealVec := populate (0, 0, 0).

(** [Matrix]: the member [v[3][3]], by rows. *)
Definition Matrix : Type := (RealVec * RealVec * RealVec)%type.

Definition row (m : Matrix) (i : Z) : RealVec :=
  match m with (r0, r1, r2) => if (i =? 0)%Z then r0 else if (i =? 1)%Z then r1 else r2 end.

Definition entry (m : Matrix) (i j : Z) : R := idx (row m i) j.

Definition zeroMatrix : Matrix := ((0, 0, 0), (0, 0, 0), (0, 0, 0)).

#[global] Instance Matrix_inhabited : Inhabited Matrix := populate zeroMatrix.

Definition Reqb (a b : R) : bool := if Req_dec_T a b then true else false.
Definition Rltb (a b : R) : bool := if Rlt_dec a b then true else false.
Definition Rgeb (a b : R) : bool := if Rge_dec a b then true else false.

Inductive NonbondedMethod : Type := NoCutoff | CutoffNonPeriodic | CutoffPeriodic.

Definition isMethod (a b : NonbondedMethod) : bool :=
  match a, b with
  | NoCutoff, NoCutoff | CutoffNonPeriodic, CutoffNonPeriodic
  | CutoffPeriodic, CutoffPeriodic => true
  | _, _ => false
  end.

(** What [getParticleParameters] and [getExceptionParameters] hand to the
    constructor. *)
Record ParticleParameters : Type := mkParticleParameters {
  p_sigma : R; p_epsilon : R; p_xparticle : Z; p_yparticle : Z;
  p_rx : R; p_ry : R; p_rz : R; p_ex : R; p_ey : R; p_ez : R
}.

Record ExceptionInfo : Type := mkExceptionInfo {
  particle1 : Z; particle2 : Z; e_sigma : R; e_epsilon : R
}.

Record GayBerneForce : Type := mkGayBerneForce {
  forceParticles : list ParticleParameters;
  forceExceptions : list ExceptionInfo;
  forceNonbondedMethod : NonbondedMethod;
  forceCutoffDistance : R;
  forceSwitchingDistance : R;
  forceUseSwitchingFunction : bool
}.

Record ParticleInfo : Type := mkParticleInfo {
  sigma : R; epsilon : R; xparticle : Z; yparticle : Z;
  rx : R; ry : R; rz : R; ex : R; ey : R; ez : R;
  radiiAreZero : bool; scalesAreZero : bool
}.

#[global] Instance ParticleInfo_inhabited : Inhabited ParticleInfo :=
  populate (mkParticleInfo 0 0 0 0 0 0 0 0 0 0 false false).

Record ReferenceGayBerneForce : Type := mkReferenceGayBerneForce {
  particles : list ParticleInfo;
  exceptions : list ExceptionInfo;
  exclusions : gset (Z * Z);
  nonbondedMethod : NonbondedMethod;
  cutoffDistance : R;
  switchingDistance : R;
  useSwitchingFunction : bool;
  s : list R;
  A : list Matrix;
  B : list Matrix;
  G : list Matrix
}.

(** The constructor (lines 40-76). *)
Definition recordParticle (q : ParticleParameters) : ParticleInfo :=
  mkParticleInfo (p_sigma q) (p_epsilon q) (p_xparticle q) (p_yparticle q)
    (p_rx q) (p_ry q) (p_rz q) (p_ex q) (p_ey q) (p_ez q)
    (Reqb (p_rx q) 0 && Reqb (p_ry q) 0 && Reqb (p_rz q) 0)
    (Reqb (p_ex q) 0 && Reqb (p_ey q) 0 && Reqb (p_ez q) 0).

Definition recordExclusion (found : gset (Z * Z)) (e : ExceptionInfo) : gset (Z * Z) :=
  {[ (Z.min (particle1 e) (particle2 e), Z.max (particle1 e) (particle2 e)) ]} ∪ found.

Definition shapeFactor (p : ParticleInfo) : R :=
  (rx p * ry p + rz p * rz p) * sqrt (rx p * ry p).

Definition construct (force : GayBerneForce) : ReferenceGayBerneForce :=
  let particles := recordParticle <$> forceParticles force in
  let numParticles := length particles in
  mkReferenceGayBerneForce
    particles
    (forceExceptions force)
    (foldl recordExclusion ∅ (forceExceptions force))
    (forceNonbondedMethod force)
    (forceCutoffDistance force)
    (forceSwitchingDistance force)
    (forceUseSwitchingFunction force)
    (shapeFactor <$> particles)
    (replicate numParticles zeroMatrix)
    (replicate numParticles zeroMatrix)
    (replicate numParticles zeroMatrix).

(** computeEllipsoidFrames (lines 112-164): the axes of one particle. *)
Definition ellipsoidAxes (positions : list RealVec) (particle : Z) (p : ParticleInfo)
    : RealVec * RealVec * RealVec :=
  let '(xdir, ydir) :=
    if (xparticle p =? -1)%Z then ((1, 0, 0), (0, 1, 0))
    else
      let xdir := vsub (rd positions particle) (rd positions (xparticle p)) in
      let xdir := vdiv xdir (sqrt (dot xdir xdir)) in
      let ydir :=
        if (yparticle p =? -1)%Z then
          if (Rltb (- (1 / 2)) (idx xdir 1) && Rltb (idx xdir 1) (1 / 2))%bool
          then (0, 1, 0) else (1, 0, 0)
        else vsub (rd positions particle) (rd positions (yparticle p)) in
      let ydir := vsub ydir (vscale xdir (dot xdir ydir)) in
      let ydir := vdiv ydir (sqrt (dot ydir ydir)) in
      (xdir, ydir) in
  (xdir, ydir, cross xdir ydir).

(** The sum over k of a[k][i]*w[k]*a[k][j], accumulated from 0 as the inner
    loop does. *)
Definition weighted (a : Matrix) (w : RealVec) (i j : Z) : R :=
  0 + entry a 0 i * idx w 0 * entry a 0 j
    + entry a 1 i * idx w 1 * entry a 1 j
    + entry a 2 i * idx w 2 * entry a 2 j.

Definition tabulate3 (f : Z -> Z -> R) : Matrix :=
  ((f 0 0, f 0 1, f 0 2), (f 1 0, f 1 1, f 1 2), (f 2 0, f 2 1, f 2 2))%Z.

Definition frameStep (positions : list RealVec) (this : ReferenceGayBerneForce) (particle : Z)
    : ReferenceGayBerneForce :=
  let p := rd (particles this) particle in
  let a : Matrix := ellipsoidAxes positions particle p in
  let r2 : RealVec := (rx p * rx p, ry p * ry p, rz p * rz p) in
  let e2 : RealVec := (ex p * ex p, ey p * ey p, ez p * ez p) in
  mkReferenceGayBerneForce (particles this) (exceptions this) (exclusions this)
    (nonbondedMethod this) (cutoffDistance this) (switchingDistance this)
    (useSwitchingFunction this) (s this)
    (wr (A this) particle a)
    (wr (B this) particle (tabulate3 (weighted a e2)))
    (wr (G this) particle (tabulate3 (weighted a r2))).

Definition computeEllipsoidFrames (this : ReferenceGayBerneForce) (positions : list RealVec)
    : ReferenceGayBerneForce :=
  foldl (frameStep positions) this (seqZ 0 (Z.of_nat (length (particles this)))).

(** What [ReferenceForce::getDeltaR] and [getDeltaRPeriodic] return. *)
Record DeltaR : Type := mkDeltaR { XIndex : R; YIndex : R; ZIndex : R; RIndex : R }.

Inductive Outcome (A : Type) : Type :=
| Throws (message : string)
| Returns (value : A).
Arguments Throws {A} message.
Arguments Returns {A} value.

Section Force.

(** Helpers declared in ReferenceForce.h and ReferenceGayBerneForce.h. *)
Variable getDeltaR : RealVec -> RealVec -> DeltaR.
Variable getDeltaRPeriodic : RealVec -> RealVec -> list RealVec -> DeltaR.
Variable matrixAdd : Matrix -> Matrix -> Matrix.
Variable matrixTimes : Matrix -> RealVec -> RealVec.
Variable inverse : Matrix -> Matrix.
Variable determinant : Matrix -> R.

(** The displacement and distance computeOneInteraction starts from. *)
Definition displacement (this : ReferenceGayBerneForce) (particle1 particle2 : Z)
    (positions boxVectors : list RealVec) : DeltaR :=
  if isMethod (nonbondedMethod this) CutoffPeriodic
  then getDeltaRPeriodic (rd positions particle2) (rd positions particle1) boxVectors
  else getDeltaR (rd positions particle2) (rd positions particle1).

(** computeOneInteraction (lines 168-210); [forces] is a reference the body
    never assigns to. *)
Definition computeOneInteraction (this : ReferenceGayBerneForce) (particle1 particle2 : Z)
    (sigma epsilon : RealOpenMM) (positions forces boxVectors : list RealVec) : RealOpenMM :=
  let deltaR := displacement this particle1 particle2 positions boxVectors in
  let dist := RIndex deltaR in
  if (negb (isMethod (nonbondedMethod this) NoCutoff) && Rgeb dist (cutoffDistance this))%bool
  then 0
  else
    let dr : RealVec := (XIndex deltaR, YIndex deltaR, ZIndex deltaR) in
    let drUnit := vdiv dr dist in
    let B12 := matrixAdd (rd (B this) particle1) (rd (B this) particle2) in
    let G12 := matrixAdd (rd (G this) particle1) (rd (G this) particle2) in
    let B12inv := inverse B12 in
    let G12inv := inverse G12 in
    let p1 := rd (particles this) particle1 in
    let p2 := rd (particles this) particle2 in
    let h12 := dist in
    let h12 :=
      if (negb (radiiAreZero p1) || negb (radiiAreZero p2))%bool
      then h12 - 1 / sqrt ((1 / 2) * dot drUnit (matrixTimes G12inv drUnit))
      else h12 in
    let rho := sigma / (h12 + sigma) in
    let rho2 := rho * rho in
    let rho6 := rho2 * rho2 * rho2 in
    let u := 4 * epsilon * (rho6 * rho6 - rho6) in
    let eta := sqrt (2 * rd (s this) particle1 * rd (s this) particle2 / determinant G12) in
    let chi := 2 * dot drUnit (matrixTimes B12inv drUnit) in
    let chi := chi * chi in
    u * eta * chi.

Definition boxTooSmallMessage : string :=
  "The periodic box size has decreased to less than twice the nonbonded cutoff."%string.

Definition boxTooSmall (this : ReferenceGayBerneForce) (boxVectors : list RealVec) : bool :=
  let minAllowedSize := (1999999 / 1000000) * cutoffDistance this in
  (Rltb (idx (rd boxVectors 0) 0) minAllowedSize
   || Rltb (idx (rd boxVectors 1) 1) minAllowedSize
   || Rltb (idx (rd boxVectors 2) 2) minAllowedSize)%bool.

(** The two loops of calculateForce (lines 91-107). *)
Definition standardLoop (this : ReferenceGayBerneForce) (positions forces boxVectors : list RealVec)
    (energy : RealOpenMM) : RealOpenMM :=
  let numParticles := Z.of_nat (length (particles this)) in
  foldl (fun energy i =>
    foldl (fun energy j =>
      if decide ((j, i) ∈ exclusions this) then energy
      else
        let sigma := (1 / 2) * (sigma (rd (particles this) i) + sigma (rd (particles this) j)) in
        let epsilon := sqrt (epsilon (rd (particles this) i) * epsilon (rd (particles this) j)) in
        energy + computeOneInteraction this i j sigma epsilon positions forces boxVectors)
      energy (seqZ 0 i))
    energy (seqZ 1 (numParticles - 1)).

Definition exceptionLoop (this : ReferenceGayBerneForce) (positions forces boxVectors : list RealVec)
    (energy : RealOpenMM) : RealOpenMM :=
  foldl (fun energy e =>
           energy + computeOneInteraction this (particle1 e) (particle2 e) (e_sigma e)
                      (e_epsilon e) positions forces boxVectors)
        energy (exceptions this).

(** calculateForce: the outcome, the object with its frames recomputed, and
    the forces. *)
Definition calculateForce (this : ReferenceGayBerneForce) (positions forces boxVectors : list RealVec)
    : Outcome RealOpenMM * ReferenceGayBerneForce * list RealVec :=
  if (isMethod (nonbondedMethod this) CutoffPeriodic && boxTooSmall this boxVectors)%bool
  then (Throws boxTooSmallMessage, this, forces)
  else
    let this := computeEllipsoidFrames this positions in
    let energy := standardLoop this positions forces boxVectors 0 in
    let energy := exceptionLoop this positions forces boxVectors energy in
    (Returns energy, this, forces).

(** *** Which pairs calculateForce evaluates *)

Definition Interaction : Type := (Z * Z * R * R)%type.

Definition mixed (this : ReferenceGayBerneForce) (pair : Z * Z) : Interaction :=
  let '(i, j) := pair in
  (i, j,
   (1 / 2) * (sigma (rd (particles this) i) + sigma (rd (particles this) j)),
   sqrt (epsilon (rd (particles this) i) * epsilon (rd (particles this) j))).

Definition standardPairs (this : ReferenceGayBerneForce) : list (Z * Z) :=
  i ← seqZ 1 (Z.of_nat (length (particles this)) - 1);
  j ← seqZ 0 i;
  if decide ((j, i) ∈ exclusions this) then [] else [(i, j)].

Definition exceptionInteractions (this : ReferenceGayBerneForce) : list Interaction :=
  (fun e => (particle1 e, particle2 e, e_sigma e, e_epsilon e)) <$> exceptions this.

Definition interactionEnergy (this : ReferenceGayBerneForce)
    (positions forces boxVectors : list RealVec) (c : Interaction) : RealOpenMM :=
  let '(p1, p2, sigma, epsilon) := c in
  computeOneInteraction this p1 p2 sigma epsilon positions forces boxVectors.

(** An exception names the pair {i, j}, in either order. *)
Definition excepted (force : GayBerneForce) (i j : Z) : Prop :=
  exists e, e ∈ forceExceptions force /\
            ((particle1 e = i /\ particle2 e = j) \/ (particle1 e = j /\ particle2 e = i)).

Lemma foldl_recordExclusion l : forall found a b,
  (a, b) ∈ foldl recordExclusion found l <->
  (a, b) ∈ found \/
  exists e, e ∈ l /\ a = Z.min (particle1 e) (particle2 e)
                  /\ b = Z.max (particle1 e) (particle2 e).
Proof.
  induction l as [|e l IH]; intros found a b; cbn [foldl].
  - split; [by left|]. intros [H|(e & He & _)]; [exact H|]. by apply elem_of_nil in He.
  - rewrite IH. unfold recordExclusion. rewrite elem_of_union, elem_of_singleton. split.
    + intros [[Heq|Hin]|(e' & He' & Hab)].
      * right. exists e. injection Heq as -> ->. split; [by left|]. split; reflexivity.
      * by left.
      * right. exists e'. split; [by right|exact Hab].
    + intros [Hin|(e' & He' & -> & ->)].
      * left. by right.
      * apply elem_of_cons in He'. destruct He' as [->|He'].
        -- left. by left.
        -- right. exists e'. split; [exact He'|]. split; reflexivity.
Qed.

Lemma construct_exclusions force i j :
  (j < i)%Z -> ((j, i) ∈ exclusions (construct force) <-> excepted force i j).
Proof.
  intros Hlt. unfold construct. cbn [exclusions]. rewrite foldl_recordExclusion.
  unfold excepted. split.
  - intros [Hin|(e & He & Hj & Hi)]; [by apply not_elem_of_empty in Hin|].
    exists e. split; [exact He|]. lia.
  - intros (e & He & Hcases). right. exists e. split; [exact He|]. lia.
Qed.

Lemma foldl_bind {X Y Acc} (f : Acc -> Y -> Acc) (g : X -> list Y) (l : list X) : forall a,
  foldl f a (l ≫= g) = foldl (fun a x => foldl f a (g x)) a l.
Proof.
  induction l as [|x l IH]; intros a; [reflexivity|].
  rewrite bind_cons, foldl_app. apply IH.
Qed.

Lemma foldl_ext_in {X Acc} (f g : Acc -> X -> Acc) (l : list X) :
  (forall a x, x ∈ l -> f a x = g a x) -> forall a, foldl f a l = foldl g a l.
Proof.
  induction l as [|x l IH]; intros Hfg a; [reflexivity|].
  cbn [foldl]. rewrite Hfg by (by left). apply IH. intros b y Hy. apply Hfg. by right.
Qed.

Lemma fmap_bind_inner {X Y W} (f : Y -> W) (g : X -> list Y) (l : list X) :
  f <$> (l ≫= g) = l ≫= (fun x => f <$> g x).
Proof.
  induction l as [|x l IH]; [reflexivity|]. rewrite !bind_cons, fmap_app. by rewrite IH.
Qed.

Lemma standardLoop_interactions this positions forces boxVectors energy :
  standardLoop this positions forces boxVectors energy =
  foldl (fun energy c => energy + interactionEnergy this positions forces boxVectors c)
        energy (mixed this <$> standardPairs this).
Proof.
  unfold standardLoop, standardPairs.
  rewrite fmap_bind_inner. rewrite foldl_bind.
  apply foldl_ext_in. intros a i _.
  rewrite fmap_bind_inner. rewrite foldl_bind.
  apply foldl_ext_in. intros a' j _.
  destruct (decide ((j, i) ∈ exclusions this)); reflexivity.
Qed.

Lemma exceptionLoop_interactions this positions forces boxVectors energy :
  exceptionLoop this positions forces boxVectors energy =
  foldl (fun energy c => energy + interactionEnergy this positions forces boxVectors c)
        energy (exceptionInteractions this).
Proof.
  unfold exceptionLoop, exceptionInteractions. generalize energy.
  induction (exceptions this) as [|e l IH]; intros a; [reflexivity|].
  cbn [foldl fmap list_fmap]. apply IH.
Qed.

Record sameParameters (this this' : ReferenceGayBerneForce) : Prop := {
  sp_particles : particles this' = particles this;
  sp_exceptions : exceptions this' = exceptions this;
  sp_exclusions : exclusions this' = exclusions this;
  sp_method : nonbondedMethod this' = nonbondedMethod this;
  sp_cutoff : cutoffDistance this' = cutoffDistance this;
  sp_s : s this' = s this
}.

Lemma computeEllipsoidFrames_parameters this positions :
  sameParameters this (computeEllipsoidFrames this positions).
Proof.
  unfold computeEllipsoidFrames.
  generalize (seqZ 0 (Z.of_nat (length (particles this)))). intros l.
  apply (foldl_invariant (sameParameters this)).
  - intros a particle _ [H1 H2 H3 H4 H5 H6]. constructor; assumption.
  - constructor; reflexivity.
Qed.

Lemma elem_of_standardPairs this i j :
  (i, j) ∈ standardPairs this <->
  (0 <= j < i)%Z /\ (i < Z.of_nat (length (particles this)))%Z /\ (j, i) ∉ exclusions this.
Proof.
  unfold standardPairs. rewrite list_elem_of_bind. split.
  - intros (i' & Hin & Hi'). apply elem_of_seqZ in Hi'.
    apply list_elem_of_bind in Hin. destruct Hin as (j' & Hin & Hj'). apply elem_of_seqZ in Hj'.
    destruct (decide ((j', i') ∈ exclusions this)) as [Hex|Hex]; [by apply elem_of_nil in Hin|].
    apply list_elem_of_singleton in Hin. injection Hin as -> ->.
    split; [lia|]. split; [lia|exact Hex].
  - intros (Hj & Hi & Hex). exists i. split; [|apply elem_of_seqZ; lia].
    apply list_elem_of_bind. exists j. split; [|apply elem_of_seqZ; lia].
    destruct (decide ((j, i) ∈ exclusions this)); [contradiction|]. by left.
Qed.

Lemma NoDup_standardPairs this : NoDup (standardPairs this).
Proof.
  unfold standardPairs. apply NoDup_bind; [| |apply NoDup_seqZ].
  - intros i1 i2 [a b] _ _ H1 H2.
    apply list_elem_of_bind in H1, H2.
    destruct H1 as (j1 & H1 & _). destruct H2 as (j2 & H2 & _).
    destruct (decide ((j1, i1) ∈ exclusions this)); [by apply elem_of_nil in H1|].
    destruct (decide ((j2, i2) ∈ exclusions this)); [by apply elem_of_nil in H2|].
    apply list_elem_of_singleton in H1, H2. congruence.
  - intros i _. apply NoDup_bind; [| |apply NoDup_seqZ].
    + intros j1 j2 [a b] _ _ H1 H2.
      destruct (decide ((j1, i) ∈ exclusions this)); [by apply elem_of_nil in H1|].
      destruct (decide ((j2, i) ∈ exclusions this)); [by apply elem_of_nil in H2|].
      apply list_elem_of_singleton in H1, H2. congruence.
    + intros j _. destruct (decide ((j, i) ∈ exclusions this)); [apply NoDup_nil_2|].
      apply NoDup_singleton.
Qed.

(** X16.  calculateForce, when the box guard does not throw, returns the
    sum, in program order, of computeOneInteraction over the standard pairs
    followed by the exceptions, and the forces as it received them.  The
    standard pairs are exactly the pairs (i, j) with j < i below the number
    of particles that no exception names, each once; an exception excludes
    its pair whichever way round its two particles were given. *)
Theorem calculateForce_interactions (force : GayBerneForce)
    (positions forces boxVectors : list RealVec) :
  let this := construct force in
  let this' := computeEllipsoidFrames this positions in
  (isMethod (nonbondedMethod this) CutoffPeriodic && boxTooSmall this boxVectors)%bool = false ->
  calculateForce this positions forces boxVectors
  = (Returns (foldl (fun energy c =>
                       energy + interactionEnergy this' positions forces boxVectors c)
                    0 ((mixed this <$> standardPairs this) ++ exceptionInteractions this)),
     this', forces) /\
  NoDup (standardPairs this) /\
  (forall i j, (i, j) ∈ standardPairs this <->
               (0 <= j < i)%Z /\ (i < Z.of_nat (length (forceParticles force)))%Z /\
               ~ excepted force i j) /\
  exceptionInteractions this
  = (fun e => (particle1 e, particle2 e, e_sigma e, e_epsilon e)) <$> forceExceptions force.
Proof.
  cbn zeta. intros Hguard.
  destruct (computeEllipsoidFrames_parameters (construct force) positions)
    as [Hp He Hx Hm Hc Hs].
  split; [|split; [|split]].
  - unfold calculateForce. rewrite Hguard.
    rewrite exceptionLoop_interactions, standardLoop_interactions, foldl_app.
    assert (standardPairs (computeEllipsoidFrames (construct force) positions)
            = standardPairs (construct force)) as -> by (unfold standardPairs; by rewrite Hp, Hx).
    assert (exceptionInteractions (computeEllipsoidFrames (construct force) positions)
            = exceptionInteractions (construct force)) as ->
      by (unfold exceptionInteractions; by rewrite He).
    assert (mixed (computeEllipsoidFrames (construct force) positions) <$>
              standardPairs (construct force)
            = mixed (construct force) <$> standardPairs (construct force)) as ->.
    { apply list_fmap_ext. intros k [i j] _. unfold mixed. by rewrite Hp. }
    reflexivity.
  - apply NoDup_standardPairs.
  - intros i j. rewrite elem_of_standardPairs.
    assert (length (particles (construct force)) = length (forceParticles force)) as ->
      by (unfold construct; cbn [particles]; apply length_fmap).
    split.
    + intros (Hj & Hi & Hex). split; [exact Hj|]. split; [exact Hi|].
      intros Hexc. apply Hex. apply construct_exclusions; [lia|exact Hexc].
    + intros (Hj & Hi & Hexc). split; [exact Hj|]. split; [exact Hi|].
      intros Hex. apply Hexc. apply construct_exclusions in Hex; [exact Hex|lia].
  - reflexivity.
Qed.

(** X17.  With a cutoff method, a pair whose distance is at least the cutoff
    contributes exactly 0, whatever the matrix helpers compute for it; so
    when every pair that calculateForce evaluates (the standard pairs and
    the exceptions) is that far apart, and the box guard does not throw,
    calculateForce returns energy 0 and the forces as it received them. *)
Theorem calculateForce_beyond_cutoff (this : ReferenceGayBerneForce)
    (positions forces boxVectors : list RealVec) :
  nonbondedMethod this <> NoCutoff ->
  (isMethod (nonbondedMethod this) CutoffPeriodic && boxTooSmall this boxVectors)%bool = false ->
  (forall i j, (i, j) ∈ standardPairs this ->
     RIndex (displacement this i j positions boxVectors) >= cutoffDistance this) ->
  (forall e, e ∈ exceptions this ->
     RIndex (displacement this (particle1 e) (particle2 e) positions boxVectors)
     >= cutoffDistance this) ->
  (forall this' particle1 particle2 sigma epsilon,
     sameParameters this this' ->
     RIndex (displacement this particle1 particle2 positions boxVectors)
     >= cutoffDistance this ->
     computeOneInteraction this' particle1 particle2 sigma epsilon positions forces boxVectors
     = 0) /\
  calculateForce this positions forces boxVectors
  = (Returns 0, computeEllipsoidFrames this positions, forces).
Proof.
  intros Hmethod Hguard Hstandard Hexceptions.
  assert (forall this' particle1 particle2 sigma epsilon,
            sameParameters this this' ->
            RIndex (displacement this particle1 particle2 positions boxVectors)
            >= cutoffDistance this ->
            computeOneInteraction this' particle1 particle2 sigma epsilon positions forces
              boxVectors = 0) as Hzero.
  { intros this' p1 p2 sg ep [Hp He Hx Hm Hc Hs] Hfar. unfold computeOneInteraction.
    assert (displacement this' p1 p2 positions boxVectors
            = displacement this p1 p2 positions boxVectors) as ->
      by (unfold displacement; by rewrite Hm).
    rewrite Hm, Hc.
    assert (isMethod (nonbondedMethod this) NoCutoff = false) as ->
      by (destruct (nonbondedMethod this); [contradiction|reflexivity|reflexivity]).
    unfold Rgeb. destruct (Rge_dec _ _) as [_|Hn]; [reflexivity|].
    exfalso. apply Hn. exact Hfar. }
  split; [exact Hzero|].
  unfold calculateForce. rewrite Hguard.
  pose proof (computeEllipsoidFrames_parameters this positions) as Hsame.
  set (this' := computeEllipsoidFrames this positions) in *.
  rewrite exceptionLoop_interactions, standardLoop_interactions, <- foldl_app.
  assert (forall l,
            (forall c, c ∈ l -> interactionEnergy this' positions forces boxVectors c = 0) ->
            foldl (fun energy c =>
                     energy + interactionEnergy this' positions forces boxVectors c)
                  0 l = 0) as Hall.
  { induction l as [|c l IH]; intros Hl; [reflexivity|].
    cbn [foldl]. rewrite (Hl c) by (by left).
    rewrite Rplus_0_r. apply IH. intros c' Hc'. apply Hl. by right. }
  rewrite Hall; [reflexivity|].
  destruct Hsame as [Hp He Hx Hm Hc Hs].
  assert (sameParameters this this') as Hsame by (constructor; assumption).
  intros c Hin. apply elem_of_app in Hin. destruct Hin as [Hin|Hin].
  - apply list_elem_of_fmap in Hin. destruct Hin as ([i j] & -> & Hij).
    unfold mixed, interactionEnergy. apply (Hzero this' i j _ _ Hsame).
    apply Hstandard. unfold standardPairs in *. by rewrite Hp, Hx in Hij.
  - unfold exceptionInteractions in Hin. apply list_elem_of_fmap in Hin.
    destruct Hin as (e & -> & Hexc). unfold interactionEnergy.
    apply (Hzero this' _ _ _ _ Hsame). apply Hexceptions. by rewrite He in Hexc.
Qed.
(** *** The frames computeEllipsoidFrames stores *)

Ltac vec_unfold :=
  unfold dot, cross, vsub, vscale, vdiv, idx in *; cbn [Z.eqb Pos.eqb] in *.

Definition orthonormal (a : Matrix) : Prop :=
  dot (row a 0) (row a 0) = 1 /\ dot (row a 1) (row a 1) = 1 /\ dot (row a 2) (row a 2) = 1 /\
  dot (row a 0) (row a 1) = 0 /\ dot (row a 0) (row a 2) = 0 /\ dot (row a 1) (row a 2) = 0.

Lemma dot_nonneg u : 0 <= dot u u.
Proof. destruct u as [[a b] c]. vec_unfold. nra. Qed.

Lemma normalize_unit u :
  0 < dot u u -> dot (vdiv u (sqrt (dot u u))) (vdiv u (sqrt (dot u u))) = 1.
Proof.
  intros Hpos. pose proof (sqrt_sqrt (dot u u) ltac:(lra)) as Hsq.
  pose proof (sqrt_lt_R0 (dot u u) Hpos) as Hs.
  set (k := sqrt (dot u u)) in *. destruct u as [[a b] c]. vec_unfold.
  assert ((a * a + b * b + c * c) / (k * k) = 1) as H1 by (rewrite Hsq; field; lra).
  rewrite <- H1. field. lra.
Qed.

Lemma dot_vdiv_l u v k : k <> 0 -> dot (vdiv u k) v = dot u v / k.
Proof. intros Hk. destruct u as [[a b] c], v as [[d e] f]. vec_unfold. field. exact Hk. Qed.

Lemma dot_sym u v : dot u v = dot v u.
Proof. destruct u as [[a b] c], v as [[d e] f]. vec_unfold. ring. Qed.

Lemma gram_schmidt_orthogonal x y :
  dot x x = 1 -> dot x (vsub y (vscale x (dot x y))) = 0.
Proof.
  intros Hx. destruct x as [[a b] c], y as [[d e] f]. vec_unfold.
  replace (a * (d - a * (a * d + b * e + c * f)) + b * (e - b * (a * d + b * e + c * f))
           + c * (f - c * (a * d + b * e + c * f)))
    with ((a * d + b * e + c * f) * (1 - (a * a + b * b + c * c))) by ring.
  rewrite Hx. ring.
Qed.

Lemma gram_schmidt_norm x y :
  dot x x = 1 ->
  dot (vsub y (vscale x (dot x y))) (vsub y (vscale x (dot x y))) = dot y y - dot x y * dot x y.
Proof.
  intros Hx. destruct x as [[a b] c], y as [[d e] f]. vec_unfold.
  replace ((d - a * (a * d + b * e + c * f)) * (d - a * (a * d + b * e + c * f))
           + (e - b * (a * d + b * e + c * f)) * (e - b * (a * d + b * e + c * f))
           + (f - c * (a * d + b * e + c * f)) * (f - c * (a * d + b * e + c * f)))
    with (d * d + e * e + f * f - (a * d + b * e + c * f) * (a * d + b * e + c * f)
          - (a * d + b * e + c * f) * (a * d + b * e + c * f) * (1 - (a * a + b * b + c * c)))
    by ring.
  rewrite Hx. ring.
Qed.

Lemma cross_orthonormal x y :
  dot x x = 1 -> dot y y = 1 -> dot x y = 0 ->
  dot (cross x y) (cross x y) = 1 /\ dot x (cross x y) = 0 /\ dot y (cross x y) = 0.
Proof.
  intros Hx Hy Hxy. destruct x as [[a b] c], y as [[d e] f]. vec_unfold.
  split; [|split; ring].
  replace ((b * f - c * e) * (b * f - c * e) + (c * d - a * f) * (c * d - a * f)
           + (a * e - b * d) * (a * e - b * d))
    with ((a * a + b * b + c * c) * (d * d + e * e + f * f)
          - (a * d + b * e + c * f) * (a * d + b * e + c * f)) by ring.
  rewrite Hx, Hy, Hxy. ring.
Qed.

(** The axes are orthonormal as soon as the two normalisations divide by a
    non-zero length. *)
Lemma axes_orthonormal x0 y0 :
  0 < dot x0 x0 ->
  let x := vdiv x0 (sqrt (dot x0 x0)) in
  let y1 := vsub y0 (vscale x (dot x y0)) in
  0 < dot y1 y1 ->
  let y := vdiv y1 (sqrt (dot y1 y1)) in
  orthonormal (x, y, cross x y).
Proof.
  intros Hx0. cbn zeta. intros Hy1.
  set (x := vdiv x0 (sqrt (dot x0 x0))) in *.
  set (y1 := vsub y0 (vscale x (dot x y0))) in *.
  set (y := vdiv y1 (sqrt (dot y1 y1))).
  assert (dot x x = 1) as Hx by (apply normalize_unit; exact Hx0).
  assert (dot y y = 1) as Hy by (apply normalize_unit; exact Hy1).
  assert (dot x y = 0) as Hxy.
  { pose proof (sqrt_lt_R0 _ Hy1) as Hs.
    unfold y. rewrite dot_sym, dot_vdiv_l by lra.
    rewrite dot_sym. unfold y1 at 1. rewrite gram_schmidt_orthogonal by exact Hx.
    field. lra. }
  destruct (cross_orthonormal x y Hx Hy Hxy) as (Hz & Hxz & Hyz).
  unfold orthonormal, row. cbn [Z.eqb Pos.eqb]. auto 10.
Qed.

(** The three matrices the loop body stores for one particle. *)
Definition radiiSquared (p : ParticleInfo) : RealVec := (rx p * rx p, ry p * ry p, rz p * rz p).
Definition scalesSquared (p : ParticleInfo) : RealVec := (ex p * ex p, ey p * ey p, ez p * ez p).

Record sized (n : nat) (this : ReferenceGayBerneForce) : Prop := {
  sized_A : length (A this) = n;
  sized_B : length (B this) = n;
  sized_G : length (G this) = n
}.

Record stored (positions : list RealVec) (p : ParticleInfo) (particle : Z)
    (this : ReferenceGayBerneForce) : Prop := {
  stored_A : rd (A this) particle = ellipsoidAxes positions particle p;
  stored_B : rd (B this) particle
             = tabulate3 (weighted (ellipsoidAxes positions particle p) (scalesSquared p));
  stored_G : rd (G this) particle
             = tabulate3 (weighted (ellipsoidAxes positions particle p) (radiiSquared p))
}.

Lemma construct_sized force : sized (length (forceParticles force)) (construct force).
Proof.
  constructor; unfold construct; cbn [A B G]; rewrite length_replicate; apply length_fmap.
Qed.

Lemma construct_particles force : length (particles (construct force)) = length (forceParticles force).
Proof. unfold construct. cbn [particles]. apply length_fmap. Qed.

Lemma computeEllipsoidFrames_stored this positions particle :
  (0 <= particle < Z.of_nat (length (particles this)))%Z ->
  sized (length (particles this)) this ->
  stored positions (rd (particles this) particle) particle (computeEllipsoidFrames this positions).
Proof.
  intros Hrange Hsized. unfold computeEllipsoidFrames.
  set (n := length (particles this)) in *.
  apply (foldl_establish_once
           (fun st => particles st = particles this /\ sized n st)
           (fun _ => True)
           (stored positions (rd (particles this) particle) particle)
           (frameStep positions) (seqZ 0 (Z.of_nat n)) particle).
  - apply NoDup_seqZ.
  - apply elem_of_seqZ. lia.
  - intros st b _ [Hp [HA HB HG]]. split; [exact Hp|].
    constructor; unfold frameStep; cbn [A B G]; by rewrite length_wr.
  - intros; exact I.
  - intros st [Hp [HA HB HG]] _. unfold frameStep. rewrite Hp.
    constructor; cbn [A B G]; apply rd_wr_eq; lia.
  - intros st b Hb Hne [Hp [HA HB HG]] [SA SB SG]. apply elem_of_seqZ in Hb.
    unfold frameStep.
    constructor; cbn [A B G]; rewrite rd_wr_ne by lia; assumption.
  - split; [reflexivity|exact Hsized].
  - exact I.
Qed.

Lemma lagrange_identity u v :
  dot (cross u v) (cross u v) = dot u u * dot v v - dot u v * dot u v.
Proof. destruct u as [[a b] c], v as [[d e] f]. vec_unfold. ring. Qed.

Lemma norm_positive u : u <> (0, 0, 0) -> 0 < dot u u.
Proof.
  intros Hne. destruct (Rle_lt_or_eq_dec _ _ (dot_nonneg u)) as [Hlt|Heq]; [exact Hlt|].
  exfalso. apply Hne. destruct u as [[a b] c]. vec_unfold.
  assert (a = 0) as -> by nra. assert (b = 0) as -> by nra. assert (c = 0) as -> by nra.
  reflexivity.
Qed.

Lemma vsub_positive u v : u <> v -> 0 < dot (vsub u v) (vsub u v).
Proof.
  intros Hne. apply norm_positive. intros Heq. apply Hne.
  destruct u as [[a b] c], v as [[d e] f]. vec_unfold.
  injection Heq as H1 H2 H3. f_equal; [f_equal|]; lra.
Qed.

(** The component of [y0] orthogonal to the normalised [x0] is non-zero when
    the two are not parallel. *)
Lemma rejection_positive x0 y0 :
  0 < dot x0 x0 -> cross x0 y0 <> (0, 0, 0) ->
  let x := vdiv x0 (sqrt (dot x0 x0)) in
  0 < dot (vsub y0 (vscale x (dot x y0))) (vsub y0 (vscale x (dot x y0))).
Proof.
  intros Hx0 Hcross x.
  assert (dot x x = 1) as Hx by (apply normalize_unit; exact Hx0).
  rewrite gram_schmidt_norm by exact Hx.
  pose proof (sqrt_lt_R0 _ Hx0) as Hs. pose proof (sqrt_sqrt (dot x0 x0) ltac:(lra)) as Hsq.
  unfold x. rewrite dot_vdiv_l by lra.
  pose proof (norm_positive _ Hcross) as Hc. rewrite lagrange_identity in Hc.
  set (k := sqrt (dot x0 x0)) in *.
  assert (dot x0 y0 / k * (dot x0 y0 / k) = dot x0 y0 * dot x0 y0 / dot x0 x0) as ->.
  { rewrite <- Hsq. field. lra. }
  assert (dot y0 y0 - dot x0 y0 * dot x0 y0 / dot x0 x0
          = (dot x0 x0 * dot y0 y0 - dot x0 y0 * dot x0 y0) / dot x0 x0) as ->
    by (field; lra).
  apply Rdiv_lt_0_compat; lra.
Qed.

(** The axis chosen when no third particle is given is never parallel to
    [xdir]. *)
Lemma fallback_positive x :
  dot x x = 1 ->
  let y0 : RealVec :=
    if (Rltb (- (1 / 2)) (idx x 1) && Rltb (idx x 1) (1 / 2))%bool then (0, 1, 0) else (1, 0, 0) in
  0 < dot (vsub y0 (vscale x (dot x y0))) (vsub y0 (vscale x (dot x y0))).
Proof.
  intros Hx y0. rewrite gram_schmidt_norm by exact Hx. unfold y0, Rltb.
  destruct x as [[a b] c]. vec_unfold.
  destruct (Rlt_dec (- (1 / 2)) b) as [H1|H1]; cbn [andb];
    [destruct (Rlt_dec b (1 / 2)) as [H2|H2]|]; cbn [andb]; nra.
Qed.

Definition nondegenerate (positions : list RealVec) (particle : Z) (p : ParticleInfo) : Prop :=
  xparticle p = (-1)%Z \/
  (rd positions particle <> rd positions (xparticle p) /\
   (yparticle p = (-1)%Z \/
    cross (vsub (rd positions particle) (rd positions (xparticle p)))
          (vsub (rd positions particle) (rd positions (yparticle p))) <> (0, 0, 0))).

Lemma ellipsoidAxes_orthonormal positions particle p :
  nondegenerate positions particle p -> orthonormal (ellipsoidAxes positions particle p).
Proof.
  intros Hnd. unfold ellipsoidAxes.
  destruct (xparticle p =? -1)%Z eqn:Hxp.
  - unfold orthonormal, row. cbn [Z.eqb Pos.eqb]. vec_unfold. repeat split; ring.
  - apply Z.eqb_neq in Hxp. destruct Hnd as [Hx|[Hsep Hy]]; [contradiction|].
    pose proof (vsub_positive _ _ Hsep) as Hx0.
    apply axes_orthonormal; [exact Hx0|].
    destruct (yparticle p =? -1)%Z eqn:Hyp.
    + apply fallback_positive. apply normalize_unit. exact Hx0.
    + apply Z.eqb_neq in Hyp. destruct Hy as [Hy|Hy]; [contradiction|].
      apply rejection_positive; assumption.
Qed.

Lemma weighted_row a w i v :
  dot (row (tabulate3 (weighted a w)) i) v
  = entry a 0 i * idx w 0 * dot (row a 0) v
    + entry a 1 i * idx w 1 * dot (row a 1) v
    + entry a 2 i * idx w 2 * dot (row a 2) v.
Proof.
  destruct a as [[[[a00 a01] a02] [[a10 a11] a12]] [[a20 a21] a22]].
  destruct w as [[w0 w1] w2], v as [[v0 v1] v2].
  unfold tabulate3, weighted, entry, row, dot, idx. cbn [Z.eqb Pos.eqb].
  destruct (i =? 0)%Z; [|destruct (i =? 1)%Z]; ring.
Qed.

Lemma weighted_symmetric a w i j :
  entry (tabulate3 (weighted a w)) i j = entry (tabulate3 (weighted a w)) j i.
Proof.
  destruct a as [[[[a00 a01] a02] [[a10 a11] a12]] [[a20 a21] a22]].
  destruct w as [[w0 w1] w2].
  unfold tabulate3, weighted, entry, row, idx. cbn [Z.eqb Pos.eqb].
  destruct (i =? 0)%Z; [|destruct (i =? 1)%Z];
    (destruct (j =? 0)%Z; [|destruct (j =? 1)%Z]); ring.
Qed.

Lemma weighted_eigen a w i k :
  orthonormal a -> (0 <= k < 3)%Z ->
  dot (row (tabulate3 (weighted a w)) i) (row a k) = idx w k * entry a k i.
Proof.
  intros (H00 & H11 & H22 & H01 & H02 & H12) Hk. rewrite weighted_row.
  assert (k = 0 \/ k = 1 \/ k = 2)%Z as [->|[->| ->]] by lia.
  - rewrite H00, (dot_sym (row a 1)), H01, (dot_sym (row a 2)), H02. ring.
  - rewrite H01, H11, (dot_sym (row a 2)), H12. ring.
  - rewrite H02, H12, H22. ring.
Qed.

(** X18 (computeEllipsoidFrames, lines 112-164): for every particle whose
    orientation is defined - it names no x particle, or its x particle sits
    elsewhere and either it names no y particle or the three positions are not
    on one line - the rows xdir, ydir, zdir stored in A are unit vectors,
    pairwise orthogonal, and zdir is xdir cross ydir; the workspace keeps one
    matrix per particle. *)
Theorem computeEllipsoidFrames_orthonormal (this : ReferenceGayBerneForce)
    (positions : list RealVec) (particle : Z) :
  let this' := computeEllipsoidFrames this positions in
  sized (length (particles this)) this ->
  (0 <= particle < Z.of_nat (length (particles this)))%Z ->
  nondegenerate positions particle (rd (particles this) particle) ->
  orthonormal (rd (A this') particle) /\
  row (rd (A this') particle) 2
  = cross (row (rd (A this') particle) 0) (row (rd (A this') particle) 1) /\
  sized (length (particles this')) this'.
Proof.
  intros this' Hsized Hrange Hnd.
  destruct (computeEllipsoidFrames_stored this positions particle Hrange Hsized) as [HA _ _].
  fold this' in HA. rewrite HA. split; [by apply ellipsoidAxes_orthonormal|]. split.
  - unfold ellipsoidAxes.
    destruct (if (xparticle (rd (particles this) particle) =? -1)%Z then _ else _) as [xdir ydir].
    reflexivity.
  - unfold this', computeEllipsoidFrames.
    apply (foldl_invariant
             (fun st => sized (length (particles st)) st /\ particles st = particles this)).
    + intros st b _ [[SA SB SG] Hp]. split; [|exact Hp].
      constructor; unfold frameStep; cbn [A B G particles]; rewrite length_wr; assumption.
    + split; [exact Hsized|reflexivity].
Qed.

(** X19 (computeEllipsoidFrames, lines 154-164): for a particle whose
    orientation is defined, the stored matrices B and G are symmetric and have
    the three ellipsoid axes (the rows of A) as eigenvectors, with the squared
    scales ex^2, ey^2, ez^2 (for B) and the squared radii rx^2, ry^2, rz^2
    (for G) as eigenvalues. *)
Theorem computeEllipsoidFrames_principal_axes (this : ReferenceGayBerneForce)
    (positions : list RealVec) (particle i k : Z) :
  let this' := computeEllipsoidFrames this positions in
  let p := rd (particles this) particle in
  let a := rd (A this') particle in
  sized (length (particles this)) this ->
  (0 <= particle < Z.of_nat (length (particles this)))%Z ->
  nondegenerate positions particle p ->
  (0 <= i < 3)%Z -> (0 <= k < 3)%Z ->
  dot (row (rd (B this') particle) i) (row a k) = (idx (scalesSquared p) k) * entry a k i /\
  dot (row (rd (G this') particle) i) (row a k) = (idx (radiiSquared p) k) * entry a k i /\
  entry (rd (B this') particle) i k = entry (rd (B this') particle) k i /\
  entry (rd (G this') particle) i k = entry (rd (G this') particle) k i.
Proof.
  intros this' p a Hsized Hrange Hnd Hi Hk.
  destruct (computeEllipsoidFrames_stored this positions particle Hrange Hsized) as [HA HB HG].
  fold this' p in HA, HB, HG. unfold a. rewrite HA, HB, HG.
  pose proof (ellipsoidAxes_orthonormal positions particle p Hnd) as Horth.
  split; [by apply weighted_eigen|]. split; [by apply weighted_eigen|].
  split; apply weighted_symmetric.
Qed.

(** X20 (computeEllipsoidFrames, lines 120-123 and 138-164): a particle that
    names no x particle gets the coordinate axes as its frame whatever the
    positions and its y particle are: A is the identity, B the diagonal matrix
    of the squared scales and G the diagonal matrix of the squared radii. *)
Theorem computeEllipsoidFrames_default_axes (this : ReferenceGayBerneForce)
    (positions : list RealVec) (particle : Z) :
  let this' := computeEllipsoidFrames this positions in
  let p := rd (particles this) particle in
  sized (length (particles this)) this ->
  (0 <= particle < Z.of_nat (length (particles this)))%Z ->
  xparticle p = (-1)%Z ->
  rd (A this') particle = ((1, 0, 0), (0, 1, 0), (0, 0, 1)) /\
  rd (B this') particle = ((ex p * ex p, 0, 0), (0, ey p * ey p, 0), (0, 0, ez p * ez p)) /\
  rd (G this') particle = ((rx p * rx p, 0, 0), (0, ry p * ry p, 0), (0, 0, rz p * rz p)).
Proof.
  intros this' p Hsized Hrange Hxp.
  destruct (computeEllipsoidFrames_stored this positions particle Hrange Hsized) as [HA HB HG].
  fold this' p in HA, HB, HG.
  assert (ellipsoidAxes positions particle p = ((1, 0, 0), (0, 1, 0), (0, 0, 1))) as Haxes.
  { unfold ellipsoidAxes. rewrite Hxp. cbn [Z.eqb Pos.eqb]. vec_unfold.
    repeat f_equal; ring. }
  rewrite HA, HB, HG, Haxes. split; [reflexivity|].
  unfold tabulate3, weighted, entry, row, scalesSquared, radiiSquared, idx. cbn [Z.eqb Pos.eqb].
  split; repeat f_equal; ring.
Qed.

(** *** Particles without extent *)

Lemma Reqb_refl a : Reqb a a = true.
Proof. unfold Reqb. destruct (Req_dec_T a a) as [_|Hne]; [reflexivity|]. by destruct Hne. Qed.

Lemma shapeFactor_zero_radii q :
  radiiAreZero (recordParticle q) = true -> shapeFactor (recordParticle q) = 0.
Proof.
  unfold recordParticle, shapeFactor, Reqb. cbn [radiiAreZero rx ry rz].
  destruct (Req_dec_T (p_rx q) 0) as [Hx|]; [|discriminate].
  destruct (Req_dec_T (p_ry q) 0) as [Hy|]; [|discriminate].
  destruct (Req_dec_T (p_rz q) 0) as [Hz|]; [|discriminate].
  intros _. rewrite Hx, Hy, Hz. ring.
Qed.

Lemma construct_s force particle :
  (0 <= particle < Z.of_nat (length (forceParticles force)))%Z ->
  rd (s (construct force)) particle = shapeFactor (rd (particles (construct force)) particle) /\
  exists q, rd (particles (construct force)) particle = recordParticle q.
Proof.
  intros Hrange. unfold construct. cbn [s particles]. unfold rd.
  assert (Z.to_nat particle < length (forceParticles force))%nat as Hlt by lia.
  destruct (lookup_lt_is_Some_2 _ _ Hlt) as [q Hq].
  assert ((recordParticle <$> forceParticles force) !! Z.to_nat particle = Some (recordParticle q))
    as Hp by (by rewrite list_lookup_fmap, Hq).
  rewrite (list_lookup_total_correct _ _ _ Hp).
  split; [|by exists q].
  apply list_lookup_total_correct. by rewrite list_lookup_fmap, Hp.
Qed.

(** The quantities computeOneInteraction divides by and takes roots of. *)
Definition unitDisplacement (this : ReferenceGayBerneForce) (particle1 particle2 : Z)
    (positions boxVectors : list RealVec) : RealVec :=
  let deltaR := displacement this particle1 particle2 positions boxVectors in
  vdiv (XIndex deltaR, YIndex deltaR, ZIndex deltaR) (RIndex deltaR).

Definition overlap (this : ReferenceGayBerneForce) (particle1 particle2 : Z)
    (positions boxVectors : list RealVec) : R :=
  let drUnit := unitDisplacement this particle1 particle2 positions boxVectors in
  let G12 := matrixAdd (rd (G this) particle1) (rd (G this) particle2) in
  (1 / 2) * dot drUnit (matrixTimes (inverse G12) drUnit).

Definition contactDistance (this : ReferenceGayBerneForce) (particle1 particle2 : Z)
    (positions boxVectors : list RealVec) : R :=
  let dist := RIndex (displacement this particle1 particle2 positions boxVectors) in
  if (negb (radiiAreZero (rd (particles this) particle1))
      || negb (radiiAreZero (rd (particles this) particle2)))%bool
  then dist - 1 / sqrt (overlap this particle1 particle2 positions boxVectors)
  else dist.

Definition eta (this : ReferenceGayBerneForce) (particle1 particle2 : Z) : R :=
  sqrt (2 * rd (s this) particle1 * rd (s this) particle2
        / determinant (matrixAdd (rd (G this) particle1) (rd (G this) particle2))).

Lemma computeOneInteraction_terms this particle1 particle2 sigma epsilon positions forces
    boxVectors :
  computeOneInteraction this particle1 particle2 sigma epsilon positions forces boxVectors =
  if (negb (isMethod (nonbondedMethod this) NoCutoff)
      && Rgeb (RIndex (displacement this particle1 particle2 positions boxVectors))
           (cutoffDistance this))%bool
  then 0
  else
    let drUnit := unitDisplacement this particle1 particle2 positions boxVectors in
    let rho := sigma / (contactDistance this particle1 particle2 positions boxVectors + sigma) in
    let rho6 := rho * rho * (rho * rho) * (rho * rho) in
    let chi :=
      2 * dot drUnit
            (matrixTimes (inverse (matrixAdd (rd (B this) particle1) (rd (B this) particle2)))
               drUnit) in
    4 * epsilon * (rho6 * rho6 - rho6) * eta this particle1 particle2 * (chi * chi).
Proof. reflexivity. Qed.


End Force.

(** *** Concrete instances: three particles, one exception *)

Module Demo.

(** Stand-ins for the helpers of ReferenceForce.h and Matrix. *)
Definition deltaR (atomI atomJ : RealVec) : DeltaR :=
  let d := vsub atomJ atomI in mkDeltaR (idx d 0) (idx d 1) (idx d 2) (sqrt (dot d d)).
Definition deltaRPeriodic (atomI atomJ : RealVec) (boxVectors : list RealVec) : DeltaR :=
  deltaR atomI atomJ.
Definition add (m n : Matrix) : Matrix := tabulate3 (fun i j => entry m i j + entry n i j).
Definition times (m : Matrix) (v : RealVec) : RealVec :=
  (dot (row m 0) v, dot (row m 1) v, dot (row m 2) v).
Definition transposed (m : Matrix) : Matrix := tabulate3 (fun i j => entry m j i).
Definition unit (m : Matrix) : R := 1.
Definition determinant (m : Matrix) : R :=
  entry m 0 0 * (entry m 1 1 * entry m 2 2 - entry m 1 2 * entry m 2 1)
  - entry m 0 1 * (entry m 1 0 * entry m 2 2 - entry m 1 2 * entry m 2 0)
  + entry m 0 2 * (entry m 1 0 * entry m 2 1 - entry m 1 1 * entry m 2 0).
Definition inverse (m : Matrix) : Matrix :=
  let d := determinant m in
  (((entry m 1 1 * entry m 2 2 - entry m 1 2 * entry m 2 1) / d,
    (entry m 0 2 * entry m 2 1 - entry m 0 1 * entry m 2 2) / d,
    (entry m 0 1 * entry m 1 2 - entry m 0 2 * entry m 1 1) / d),
   ((entry m 1 2 * entry m 2 0 - entry m 1 0 * entry m 2 2) / d,
    (entry m 0 0 * entry m 2 2 - entry m 0 2 * entry m 2 0) / d,
    (entry m 0 2 * entry m 1 0 - entry m 0 0 * entry m 1 2) / d),
   ((entry m 1 0 * entry m 2 1 - entry m 1 1 * entry m 2 0) / d,
    (entry m 0 1 * entry m 2 0 - entry m 0 0 * entry m 2 1) / d,
    (entry m 0 0 * entry m 1 1 - entry m 0 1 * entry m 1 0) / d)).

Definition positions : list RealVec := [(0, 0, 0); (1, 0, 0); (0, 2, 0)].

(** Particle 0 points at particle 1, particle 1 has no orientation, particle 2
    points at particle 0 with particle 1 fixing the plane. *)
Definition parameters : list ParticleParameters :=
  [ mkParticleParameters 1 1 1 (-1) 1 2 3 1 1 2;
    mkParticleParameters 1 1 (-1) (-1) 1 1 1 1 1 1;
    mkParticleParameters 1 1 0 1 0 0 0 1 2 3 ].

Definition force : GayBerneForce :=
  mkGayBerneForce parameters [mkExceptionInfo 2 0 1 (1 / 2)] NoCutoff 1 (9 / 10) false.

Definition cutForce : GayBerneForce :=
  mkGayBerneForce parameters [mkExceptionInfo 2 0 1 (1 / 2)] CutoffNonPeriodic 1 (9 / 10) false.

(** A sphere of radius 1 at the origin and a point particle three units
    away along x, both with the coordinate axes as their frame. *)
Definition pointPositions : list RealVec := [(0, 0, 0); (3, 0, 0)].

Definition pointForce : GayBerneForce :=
  mkGayBerneForce [ mkParticleParameters 1 1 (-1) (-1) 1 1 1 1 1 1;
                    mkParticleParameters 1 1 (-1) (-1) 0 0 0 1 1 1 ]
                  [] NoCutoff 1 (9 / 10) false.

End Demo.

Ltac demo_positions :=
  change (rd Demo.positions 0) with ((0, 0, 0) : RealVec);
  change (rd Demo.positions 1) with ((1, 0, 0) : RealVec);
  change (rd Demo.positions 2) with ((0, 2, 0) : RealVec);
  unfold dot, cross, vsub, vscale, vdiv, idx in *; cbn [Z.eqb Pos.eqb] in *.

Lemma calculateForce_interactions_witness :
  NoDup (standardPairs (construct Demo.force)).
Proof.
  refine (proj1 (proj2 (calculateForce_interactions Demo.deltaR Demo.deltaRPeriodic Demo.add
                          Demo.times Demo.transposed Demo.unit Demo.force Demo.positions
                          [] [] _))).
  reflexivity.
Defined.

Lemma calculateForce_beyond_cutoff_witness :
  calculateForce Demo.deltaR Demo.deltaRPeriodic Demo.add Demo.times Demo.inverse
    Demo.determinant (construct Demo.cutForce) Demo.positions [] []
  = (Returns 0, computeEllipsoidFrames (construct Demo.cutForce) Demo.positions, []).
Proof.
  assert (forall x, 1 <= x -> sqrt x >= 1) as Hroot.
  { intros x Hx. apply Rle_ge. apply (Rle_trans _ (sqrt 1)); [rewrite sqrt_1; lra|].
    apply sqrt_le_1_alt. exact Hx. }
  refine (proj2 (calculateForce_beyond_cutoff Demo.deltaR Demo.deltaRPeriodic Demo.add
                   Demo.times Demo.inverse Demo.determinant (construct Demo.cutForce)
                   Demo.positions [] [] _ _ _ _)).
  - discriminate.
  - reflexivity.
  - intros i j Hij. apply elem_of_standardPairs in Hij. destruct Hij as (Hj & Hi & _).
    rewrite construct_particles in Hi. cbn in Hi.
    assert ((i = 1 /\ j = 0) \/ (i = 2 /\ j = 0) \/ (i = 2 /\ j = 1))%Z
      as [[-> ->]|[[-> ->]|[-> ->]]] by lia;
      unfold displacement; cbn; apply Hroot; demo_positions; lra.
  - intros e He. cbn in He. apply list_elem_of_singleton in He. subst e.
    unfold displacement. cbn. apply Hroot. demo_positions. lra.
Defined.

Lemma computeEllipsoidFrames_orthonormal_witness :
  orthonormal (rd (A (computeEllipsoidFrames (construct Demo.force) Demo.positions)) 2).
Proof.
  refine (proj1 (computeEllipsoidFrames_orthonormal (construct Demo.force) Demo.positions 2
                   _ _ _)).
  - exact (construct_sized Demo.force).
  - cbn. lia.
  - right. cbn. split; [intros H; injection H; lra|].
    right. intros H. injection H. lra.
Defined.

Lemma computeEllipsoidFrames_principal_axes_witness :
  dot (row (rd (B (computeEllipsoidFrames (construct Demo.force) Demo.positions)) 0) 0)
      (row (rd (A (computeEllipsoidFrames (construct Demo.force) Demo.positions)) 0) 1)
  = idx (scalesSquared (rd (particles (construct Demo.force)) 0)) 1
    * entry (rd (A (computeEllipsoidFrames (construct Demo.force) Demo.positions)) 0) 1 0.
Proof.
  refine (proj1 (computeEllipsoidFrames_principal_axes (construct Demo.force) Demo.positions
                   0 0 1 _ _ _ _ _)).
  - exact (construct_sized Demo.force).
  - cbn. lia.
  - right. cbn. split; [intros H; injection H; lra|]. by left.
  - lia.
  - lia.
Defined.

Lemma computeEllipsoidFrames_default_axes_witness :
  rd (A (computeEllipsoidFrames (construct Demo.force) Demo.positions)) 1
  = ((1, 0, 0), (0, 1, 0), (0, 0, 1)).
Proof.
  refine (proj1 (computeEllipsoidFrames_default_axes (construct Demo.force) Demo.positions 1
                   _ _ _)).
  - exact (construct_sized Demo.force).
  - cbn. lia.
  - reflexivity.
Defined.

Lemma pointForce_matrices :
  let this := computeEllipsoidFrames (construct Demo.pointForce) Demo.pointPositions in
  Demo.add (rd (G this) 1) (rd (G this) 0) = ((1, 0, 0), (0, 1, 0), (0, 0, 1)) /\
  Demo.add (rd (B this) 1) (rd (B this) 0) = ((2, 0, 0), (0, 2, 0), (0, 0, 2)).
Proof.
  cbn zeta.
  assert (sized (length (particles (construct Demo.pointForce))) (construct Demo.pointForce))
    as Hsized by (rewrite construct_particles; apply construct_sized).
  destruct (computeEllipsoidFrames_stored (construct Demo.pointForce) Demo.pointPositions 0
              ltac:(cbn; lia) Hsized) as [_ HB0 HG0].
  destruct (computeEllipsoidFrames_stored (construct Demo.pointForce) Demo.pointPositions 1
              ltac:(cbn; lia) Hsized) as [_ HB1 HG1].
  rewrite HB0, HB1, HG0, HG1.
  change (rd (particles (construct Demo.pointForce)) 0)
    with (recordParticle (mkParticleParameters 1 1 (-1) (-1) 1 1 1 1 1 1)).
  change (rd (particles (construct Demo.pointForce)) 1)
    with (recordParticle (mkParticleParameters 1 1 (-1) (-1) 0 0 0 1 1 1)).
  unfold ellipsoidAxes, recordParticle, radiiSquared, scalesSquared.
  cbn [xparticle yparticle rx ry rz ex ey ez p_xparticle p_yparticle p_rx p_ry p_rz
       p_ex p_ey p_ez Z.eqb Pos.eqb].
  unfold Demo.add, tabulate3, weighted, entry, row, cross, idx. cbn [Z.eqb Pos.eqb].
  split; repeat f_equal; ring.
Qed.

Lemma pointForce_displacement :
  displacement Demo.deltaR Demo.deltaRPeriodic
    (computeEllipsoidFrames (construct Demo.pointForce) Demo.pointPositions) 1 0
    Demo.pointPositions []
  = mkDeltaR 3 0 0 3.
Proof.
  unfold displacement.
  rewrite (sp_method _ _ (computeEllipsoidFrames_parameters _ _)).
  cbn [construct nonbondedMethod Demo.pointForce forceNonbondedMethod isMethod].
  change (rd Demo.pointPositions 0) with ((0, 0, 0) : RealVec).
  change (rd Demo.pointPositions 1) with ((3, 0, 0) : RealVec).
  unfold Demo.deltaR, dot, vsub, idx. cbn [Z.eqb Pos.eqb].
  replace ((3 - 0) * (3 - 0) + (0 - 0) * (0 - 0) + (0 - 0) * (0 - 0)) with (3 * 3) by ring.
  rewrite sqrt_square by lra. f_equal; ring.
Qed.

Lemma pointForce_radii :
  radiiAreZero (rd (particles (computeEllipsoidFrames (construct Demo.pointForce)
                                 Demo.pointPositions)) 1) = true /\
  radiiAreZero (rd (particles (computeEllipsoidFrames (construct Demo.pointForce)
                                 Demo.pointPositions)) 0) = false.
Proof.
  rewrite (sp_particles _ _ (computeEllipsoidFrames_parameters _ _)).
  change (rd (particles (construct Demo.pointForce)) 0)
    with (recordParticle (mkParticleParameters 1 1 (-1) (-1) 1 1 1 1 1 1)).
  change (rd (particles (construct Demo.pointForce)) 1)
    with (recordParticle (mkParticleParameters 1 1 (-1) (-1) 0 0 0 1 1 1)).
  unfold recordParticle. cbn [radiiAreZero p_rx p_ry p_rz].
  rewrite Reqb_refl. split; [reflexivity|].
  unfold Reqb. destruct (Req_dec_T 1 0) as [Heq|_]; [lra|reflexivity].
Qed.

Lemma pointForce_overlap :
  overlap Demo.deltaR Demo.deltaRPeriodic Demo.add Demo.times Demo.inverse
    (computeEllipsoidFrames (construct Demo.pointForce) Demo.pointPositions) 1 0
    Demo.pointPositions [] = 1 / 2.
Proof.
  unfold overlap, unitDisplacement.
  rewrite pointForce_displacement, (proj1 pointForce_matrices).
  cbn [XIndex YIndex ZIndex RIndex].
  unfold Demo.inverse, Demo.determinant, Demo.times, dot, vdiv, entry, row, idx.
  cbn [Z.eqb Pos.eqb]. field.
Qed.


End GayBerneReference.

(** ** customManyParticle.cu: computeAngle, over the real numbers *)

Module Angle.

Import Stdlib.Reals.Reals Stdlib.micromega.Lra.

Local Open Scope R_scope.

Record real3 : Type := make_real3 { x3 : R; y3 : R; z3 : R }.
Record real4 : Type := make_real4 { x : R; y : R; z : R; w : R }.

(** The vector helpers of the CUDA utilities header and the macros of the
    kernel prelude. *)
Definition cross (a b : real4) : real3 :=
  make_real3 (y a * z b - z a * y b) (z a * x b - x a * z b) (x a * y b - y a * x b).
Definition dot (a b : real3) : R := x3 a * x3 b + y3 a * y3 b + z3 a * z3 b.
Definition RSQRT (v : R) : R := 1 / sqrt v.
Definition SQRT (v : R) : R := sqrt v.
Definition ASIN (v : R) : R := asin v.
Definition ACOS (v : R) : R := acos v.
Definition M_PI : R := PI.

Definition Rltb (a b : R) : bool := if Rlt_dec a b then true else false.

(** computeAngle (lines 35-51). *)
Definition computeAngle (vec1 vec2 : real4) : R :=
  let dotProduct := x vec1 * x vec2 + y vec1 * y vec2 + z vec1 * z vec2 in
  let cosine := dotProduct * RSQRT (w vec1 * w vec2) in
  if (Rltb (99 / 100) cosine || Rltb cosine (- (99 / 100)))%bool then
    let crossProduct := cross vec1 vec2 in
    let scale := w vec1 * w vec2 in
    let angle := ASIN (SQRT (dot crossProduct crossProduct / scale)) in
    if Rltb cosine 0 then M_PI - angle else angle
  else ACOS cosine.

(** The w component holds the squared magnitude. *)
Definition magnitudeStored (v : real4) : Prop := w v = x v * x v + y v * y v + z v * z v.

Lemma cross_lagrange a b :
  magnitudeStored a -> magnitudeStored b ->
  dot (cross a b) (cross a b)
  = w a * w b - (x a * x b + y a * y b + z a * z b) * (x a * x b + y a * y b + z a * z b).
Proof.
  unfold magnitudeStored. intros -> ->. unfold dot, cross. cbn [x3 y3 z3]. ring.
Qed.

Lemma dot_self_nonneg c : 0 <= dot c c.
Proof. unfold dot. nra. Qed.

Section Cosine.

Variables vec1 vec2 : real4.
Hypothesis Hw1 : magnitudeStored vec1.
Hypothesis Hw2 : magnitudeStored vec2.
Hypothesis Hpos1 : 0 < w vec1.
Hypothesis Hpos2 : 0 < w vec2.

Let dotProduct : R := x vec1 * x vec2 + y vec1 * y vec2 + z vec1 * z vec2.
Let cosine : R := dotProduct * RSQRT (w vec1 * w vec2).

Lemma cosine_square : cosine * cosine = dotProduct * dotProduct / (w vec1 * w vec2).
Proof.
  assert (0 < w vec1 * w vec2) as Hs by (apply Rmult_lt_0_compat; assumption).
  pose proof (sqrt_lt_R0 _ Hs) as Hk. pose proof (sqrt_sqrt (w vec1 * w vec2) ltac:(lra)) as Hsq.
  unfold cosine, RSQRT. set (k := sqrt (w vec1 * w vec2)) in *.
  rewrite <- Hsq. field. lra.
Qed.

Lemma sine_square :
  dot (cross vec1 vec2) (cross vec1 vec2) / (w vec1 * w vec2) = 1 - cosine * cosine.
Proof.
  assert (0 < w vec1 * w vec2) as Hs by (apply Rmult_lt_0_compat; assumption).
  rewrite cosine_square, (cross_lagrange _ _ Hw1 Hw2). fold dotProduct. field. lra.
Qed.

Lemma cosine_range : -1 <= cosine <= 1.
Proof.
  assert (0 < w vec1 * w vec2) as Hs by (apply Rmult_lt_0_compat; assumption).
  pose proof sine_square as Hsin.
  assert (0 <= dot (cross vec1 vec2) (cross vec1 vec2) / (w vec1 * w vec2)) as Hge.
  { apply Rmult_le_pos; [apply dot_self_nonneg|]. apply Rlt_le, Rinv_0_lt_compat, Hs. }
  rewrite Hsin in Hge. nra.
Qed.

Lemma asin_branch_positive :
  0 < cosine -> ASIN (SQRT (dot (cross vec1 vec2) (cross vec1 vec2) / (w vec1 * w vec2))) = acos cosine.
Proof.
  intros Hc. pose proof cosine_range as Hr. unfold ASIN, SQRT. rewrite sine_square.
  replace (1 - cosine * cosine) with (1 - Rsqr cosine) by (unfold Rsqr; ring).
  rewrite <- (sin_acos _ Hr). apply asin_sin.
  pose proof (acos_bound cosine) as [Hlo Hhi]. pose proof PI_RGT_0 as Hpi.
  split; [lra|].
  destruct (Rle_dec (acos cosine) (PI / 2)) as [Hle|Hgt]; [exact Hle|].
  exfalso. assert (cos (acos cosine) < 0) as Hneg by (apply cos_lt_0; lra).
  rewrite (cos_acos _ Hr) in Hneg. lra.
Qed.

Lemma asin_branch_negative :
  cosine < 0 ->
  M_PI - ASIN (SQRT (dot (cross vec1 vec2) (cross vec1 vec2) / (w vec1 * w vec2))) = acos cosine.
Proof.
  intros Hc. pose proof cosine_range as Hr. unfold ASIN, SQRT, M_PI. rewrite sine_square.
  replace (1 - cosine * cosine) with (1 - Rsqr cosine) by (unfold Rsqr; ring).
  rewrite <- (sin_acos _ Hr), <- sin_PI_x.
  pose proof (acos_bound cosine) as [Hlo Hhi]. pose proof PI_RGT_0 as Hpi.
  rewrite asin_sin; [ring|]. split; [lra|].
  destruct (Rle_dec (PI / 2) (acos cosine)) as [Hle|Hgt]; [lra|].
  exfalso. assert (0 < cos (acos cosine)) as Hp by (apply cos_gt_0; lra).
  rewrite (cos_acos _ Hr) in Hp. lra.
Qed.

Lemma computeAngle_acos : computeAngle vec1 vec2 = acos cosine.
Proof.
  unfold computeAngle. fold dotProduct. fold cosine. unfold Rltb.
  destruct (Rlt_dec (99 / 100) cosine) as [Hhi|Hhi]; cbn [orb].
  - destruct (Rlt_dec cosine 0) as [Hneg|Hneg]; [lra|].
    apply asin_branch_positive. lra.
  - destruct (Rlt_dec cosine (- (99 / 100))) as [Hlo|Hlo]; [|reflexivity].
    destruct (Rlt_dec cosine 0) as [Hneg|Hneg]; [|lra].
    apply asin_branch_negative. exact Hneg.
Qed.

End Cosine.

(** X22 (computeAngle, lines 35-51): for two non-zero vectors whose w holds
    the squared magnitude, the result lies between 0 and pi and its cosine is
    the dot product divided by the square root of w1*w2, on the acos branch
    and on the asin branch taken near the singularity alike: the function
    returns the angle between the vectors. *)
Theorem computeAngle_is_angle (vec1 vec2 : real4) :
  magnitudeStored vec1 -> magnitudeStored vec2 -> 0 < w vec1 -> 0 < w vec2 ->
  0 <= computeAngle vec1 vec2 <= PI /\
  cos (computeAngle vec1 vec2)
  = (x vec1 * x vec2 + y vec1 * y vec2 + z vec1 * z vec2) / sqrt (w vec1 * w vec2).
Proof.
  intros Hw1 Hw2 Hpos1 Hpos2.
  rewrite (computeAngle_acos vec1 vec2 Hw1 Hw2 Hpos1 Hpos2).
  split; [apply acos_bound|].
  rewrite cos_acos by (apply cosine_range; assumption).
  unfold RSQRT. field.
  apply Rgt_not_eq, sqrt_lt_R0, Rmult_lt_0_compat; assumption.
Qed.

Lemma computeAngle_is_angle_witness :
  0 <= computeAngle (make_real4 1 0 0 1) (make_real4 (-3) 4 0 25) <= PI.
Proof.
  refine (proj1 (computeAngle_is_angle (make_real4 1 0 0 1) (make_real4 (-3) 4 0 25) _ _ _ _)).
  - unfold magnitudeStored. cbn. lra.
  - unfold magnitudeStored. cbn. lra.
  - cbn. lra.
  - cbn. lra.
Defined.

End Angle.
